(** * Transfer plugin: dependency analysis, layout spacing, batching, progress
    and staging-page resolution, embedded from the TypeScript sources.

    Numbers of the source ([number]) are doubles.  Counters are whole
    numbers and modelled as [Z] or [nat]; up to [2^53] in size doubles hold
    and add them exactly.  The quotients and products that the progress
    code computes before [Math.round] are rounded to the nearest double
    ([double]).  The grid arithmetic of the layout is done on rationals [Q],
    which is what doubles give for whole spacings and sizes.  [Math.round]
    is the round-half-up function [fun x => floor (x + 1/2)]. *)

From Stdlib Require Import ZArith QArith Qround Qminmax Qpower Qabs Lia Lqa List Sorted
  Ascii String.
From Stdlib Require Import Floats Uint63.
From stdpp Require Import base list strings pretty gmap.

(** * Part I: definitions *)

(** ** JavaScript helpers *)

(** [Math.round(x)]: nearest integer, ties towards positive infinity. *)
Definition Math_round (x : Q) : Z := Qfloor (x + (1 # 2))%Q.

(** The whole number nearest to [x], the even one of the two on a tie. *)
Definition roundHalfEven (x : Q) : Z :=
  let n := Qfloor x in
  match (x - inject_Z n ?= 1 # 2)%Q with
  | Lt => n
  | Gt => (n + 1)%Z
  | Eq => if Z.even n then n else (n + 1)%Z
  end.

(** The exponent [e] that puts [x], other than 0, into the range of the
    significands of a double: [2^52 <= |x| / 2^e < 2^53]. *)
Definition binade (x : Q) : Z :=
  let e0 := (Z.log2 (Z.abs (Qnum x)) - Z.log2 (Zpos (Qden x)) - 52)%Z in
  if Qle_bool (2 ^ 52) (Qabs x / 2 ^ e0) then e0 else (e0 - 1)%Z.

(** The double nearest to [x]: 53 significant bits, ties to the even
    significand, which is how [/] and [*] round their exact result.  The
    range of the exponent is left open; the results computed from whole
    numbers up to [2^53] in size stay between [2^-53] and [2^107], far
    inside the range of the normal doubles. *)
Definition double (x : Q) : Q :=
  if Qeq_bool x 0 then 0%Q
  else (inject_Z (roundHalfEven (x / 2 ^ binade x)) * 2 ^ binade x)%Q.

(** The binary64 numbers of the kernel, to test [double] against: the value
    of a finite float and the float of a small whole number. *)
Definition valueOfFloat (f : float) : Q :=
  match Prim2SF f with
  | S754_finite s m e => ((if s then -1 else 1) * inject_Z (Zpos m) * 2 ^ e)%Q
  | _ => 0%Q
  end.

Definition floatOfZ (z : Z) : float := PrimFloat.of_uint63 (Uint63.of_Z z).

(** The double-quote character, used inside warning messages. *)
Definition dquote : string := String "034"%char EmptyString.

(** [s.includes(t)]: [t] occurs in [s] as a run of consecutive characters. *)
Fixpoint includes (s t : string) : bool :=
  String.prefix t s
  || match s with
     | EmptyString => false
     | String _ s' => includes s' t
     end.

(** Lower-casing of the letters A to Z, as [toLowerCase] does on text
    without other cased letters. *)
Definition asciiLower (c : ascii) : ascii :=
  let n := nat_of_ascii c in
  if (65 <=? n)%nat && (n <=? 90)%nat then ascii_of_nat (n + 32) else c.

Fixpoint toLowerCaseAscii (s : string) : string :=
  match s with
  | EmptyString => EmptyString
  | String c s' => String (asciiLower c) (toLowerCaseAscii s')
  end.

(** [n] copies of [s] in a row. *)
Fixpoint copies (n : nat) (s : string) : string :=
  match n with
  | O => EmptyString
  | S n' => s +:+ copies n' s
  end.

(** [s.repeat(count)] for a whole [count]: a negative count throws a
    RangeError, rendered as [None]. *)
Definition String_repeat (s : string) (count : Z) : option string :=
  if (count <? 0)%Z then None else Some (copies (Z.to_nat count) s).

(** A number that may be [-Infinity], which is what [Math.max] returns
    when it is given no argument. *)
Inductive Extent := MinusInfinity | Finite (q : Q).

(** [Math.max(...xs)]. *)
Definition Math_max (xs : list Q) : Extent :=
  fold_left
    (fun acc x =>
       match acc with
       | MinusInfinity => Finite x
       | Finite a => Finite (Qmax a x)
       end)
    xs MinusInfinity.

(** [xs.sort((a, b) => a - b)] on whole numbers that are not negative:
    ascending order.  The arrays sorted here hold no number twice, so the
    result does not depend on the sorting method. *)
Fixpoint insertSorted (x : nat) (sorted : list nat) : list nat :=
  match sorted with
  | [] => [x]
  | y :: rest => if (x <=? y)%nat then x :: y :: rest else y :: insertSorted x rest
  end.

Definition sortAscending (xs : list nat) : list nat :=
  fold_right insertSorted [] xs.

(** A JavaScript [Map<number, V>] with whole keys, insertion-ordered. *)
Section JsNumberMap.
Context {V : Type}.

Fixpoint nmap_get (k : nat) (m : list (nat * V)) : option V :=
  match m with
  | [] => None
  | (k', v) :: m' => if decide (k = k') then Some v else nmap_get k m'
  end.

Definition nmap_has (k : nat) (m : list (nat * V)) : bool :=
  match nmap_get k m with Some _ => true | None => false end.

Fixpoint nmap_set (k : nat) (v : V) (m : list (nat * V)) : list (nat * V) :=
  match m with
  | [] => [(k, v)]
  | (k', v') :: m' =>
      if decide (k = k') then (k, v) :: m' else (k', v') :: nmap_set k v m'
  end.

(** Mutation of the value stored under [k]. *)
Fixpoint nmap_update (k : nat) (f : V -> V) (m : list (nat * V)) : list (nat * V) :=
  match m with
  | [] => []
  | (k', v') :: m' =>
      if decide (k = k') then (k', f v') :: m' else (k', v') :: nmap_update k f m'
  end.
End JsNumberMap.

(** A JavaScript [Map<string, V>]: insertion-ordered, one entry per key. *)
Section JsMap.
Context {V : Type}.

Fixpoint map_get (k : string) (m : list (string * V)) : option V :=
  match m with
  | [] => None
  | (k', v) :: m' => if decide (k = k') then Some v else map_get k m'
  end.

Definition map_has (k : string) (m : list (string * V)) : bool :=
  match map_get k m with Some _ => true | None => false end.

(** [m.set(k, v)]: replaces the value of an existing key in place, and
    appends a new entry otherwise. *)
Fixpoint map_set (k : string) (v : V) (m : list (string * V)) : list (string * V) :=
  match m with
  | [] => [(k, v)]
  | (k', v') :: m' =>
      if decide (k = k') then (k, v) :: m' else (k', v') :: map_set k v m'
  end.

(** Mutation of the object stored under [k] (the map keeps a reference to
    it, so a later write through the reference is seen in the map). *)
Fixpoint map_update (k : string) (f : V -> V) (m : list (string * V)) : list (string * V) :=
  match m with
  | [] => []
  | (k', v') :: m' =>
      if decide (k = k') then (k', f v') :: m' else (k', v') :: map_update k f m'
  end.

Definition map_keys (m : list (string * V)) : list string := map fst m.
Definition map_values (m : list (string * V)) : list V := map snd m.
End JsMap.

(** A JavaScript [Set<string>]: insertion-ordered list without repetition. *)
Definition set_has (x : string) (s : list string) : bool := bool_decide (x ∈ s).
Definition set_add (x : string) (s : list string) : list string :=
  if set_has x s then s else s ++ [x].
Definition set_delete (x : string) (s : list string) : list string :=
  filter (fun y => y <> x) s.

(** A loop whose body can fail to return: the first failure stops it. *)
Fixpoint forEachM {A S : Type} (body : S -> A -> option S) (l : list A) (s : S) : option S :=
  match l with
  | [] => Some s
  | x :: l' => match body s x with
               | Some s' => forEachM body l' s'
               | None => None
               end
  end.

(** ** types/index.ts *)

Inductive ComponentType := CT_COMPONENT | CT_COMPONENT_SET | CT_INSTANCE.

Record ComponentInfo := mkComponentInfo {
  ci_id : string;
  ci_name : string;
  ci_description : string;
  ci_type : ComponentType;
  ci_isLocal : bool;
  ci_isHidden : bool;
  ci_isLocked : bool;
  ci_variantCount : option nat;
  ci_variantProperties : option (list (string * string));
  ci_children : list string;
  ci_level : nat
}.

#[local] Unset Elimination Schemes.
Inductive DependencyNode := mkDependencyNode {
  dep_component : ComponentInfo;
  dep_dependencies : list DependencyNode
}.
#[local] Set Elimination Schemes.

Inductive WarningType :=
  EXTERNAL_DEPENDENCY | LOCKED_COMPONENT | MISSING_DEFINITION | HIDDEN_COMPONENT.

Global Instance WarningType_eq_dec : EqDecision WarningType.
Proof. solve_decision. Defined.

Record Warning := mkWarning {
  w_type : WarningType;
  w_message : string;
  w_componentId : option string;
  w_componentName : option string
}.

Record AnalysisStats := mkAnalysisStats {
  totalComponents : nat;
  mainComponents : nat;
  childComponents : nat;
  variantSets : nat;
  externalComponents : nat;
  hiddenComponents : nat;
  lockedComponents : nat
}.

Record AnalysisResult := mkAnalysisResult {
  components : list (string * ComponentInfo);
  dependencyTree : list DependencyNode;
  warnings : list Warning;
  stats : AnalysisStats
}.

Record FilterOptions := mkFilterOptions {
  includeHidden : bool;
  includeExternal : bool
}.

Inductive TransferPageBehavior := ask | append | replace | timestamp.

Inductive Phase := analyzing | collecting | organizing | finalizing.

Record ProgressInfo := mkProgressInfo {
  pi_phase : Phase;
  pi_percentage : Z;
  pi_currentItem : string;
  pi_processed : Z;
  pi_total : Z;
  pi_estimatedTimeRemaining : Z
}.

Inductive GroupingMethod := GroupHierarchy | GroupSelection | GroupType | GroupFlat.

Inductive LayoutType := GridLayout | ListLayout.

Record KeyboardShortcuts := mkKeyboardShortcuts {
  ks_analyze : string;
  ks_execute : string;
  ks_goToTransferPage : string;
  ks_prepareForCopy : string;
  ks_cancel : string;
  ks_undo : string
}.

Record TransferSettings := mkTransferSettings {
  ts_spacing : Q;
  ts_groupingMethod : GroupingMethod;
  ts_layoutType : LayoutType;
  ts_gridColumns : Z;
  ts_autoNavigate : bool;
  ts_autoSelect : bool;
  ts_includeAnnotations : bool;
  ts_includeDescriptions : bool;
  ts_includeHidden : bool;
  ts_transferPageBehavior : TransferPageBehavior;
  ts_batchSize : nat;
  ts_enableCache : bool;
  ts_virtualScrollThreshold : Z;
  ts_shortcuts : KeyboardShortcuts
}.

Definition DEFAULT_SETTINGS : TransferSettings :=
  mkTransferSettings 200 GroupHierarchy GridLayout 4 true true true true false ask
    10 true 100
    (mkKeyboardShortcuts "Ctrl+T" "Ctrl+Enter" "Ctrl+G" "Ctrl+C" "Escape" "Ctrl+Z").

Record Position := mkPosition { pos_x : Q; pos_y : Q }.

Record LayoutGroup := mkLayoutGroup {
  lg_name : string;
  lg_componentIds : list string;
  lg_x : Q;
  lg_y : Q;
  lg_width : Q;
  lg_height : Q
}.

Record LayoutResult := mkLayoutResult {
  positions : list (string * Position);
  groups : list LayoutGroup;
  totalWidth : Extent;
  totalHeight : Q
}.

(** ** The host's scene graph *)

Inductive NodeType :=
  | DOCUMENT | PAGE | FRAME | GROUP | COMPONENT | COMPONENT_SET | INSTANCE
  | RECTANGLE | ELLIPSE | TEXT | OTHER_NODE.

Global Instance NodeType_eq_dec : EqDecision NodeType.
Proof. solve_decision. Defined.

Inductive PropertyType := VARIANT | BOOLEAN | TEXT_PROPERTY | INSTANCE_SWAP.

Record PropertyDefinition := mkPropertyDefinition {
  prop_type : PropertyType;
  prop_defaultValue : string
}.

(** One node of the scene graph with the properties the plugin reads.
    [node_children] is [None] when the node has no [children] property;
    [node_mainComponent] is the definition an instance resolves to (absent
    for a broken instance and for every other kind of node);
    [node_parents] lists the types of [node.parent], [node.parent.parent], ...
    up to the end of the parent chain.  A definition that several instances
    resolve to is written out at each of them; the plugin tells definitions
    apart by [node_id] only. *)
#[local] Unset Elimination Schemes.
Inductive SceneNode := mkSceneNode {
  node_id : string;
  node_name : string;
  node_type : NodeType;
  node_visible : bool;
  node_locked : bool;
  node_key : string;
  node_description : string;
  node_children : option (list SceneNode);
  node_mainComponent : option SceneNode;
  node_parents : list NodeType;
  node_componentPropertyDefinitions : option (list (string * PropertyDefinition))
}.
#[local] Set Elimination Schemes.

(** The [children] array of a node known to have one. *)
Definition children_of (node : SceneNode) : list SceneNode :=
  match node_children node with Some cs => cs | None => [] end.

(** Nesting height of a node: children and resolved definitions included. *)
Fixpoint node_height (node : SceneNode) : nat :=
  S (Nat.max
       (match node_children node with
        | Some cs => list_max (map node_height cs)
        | None => 0%nat
        end)
       (match node_mainComponent node with
        | Some m => node_height m
        | None => 0%nat
        end)).

(** Every node under a node: the node, its descendants, and the definitions
    its instances resolve to with everything under them. *)
Fixpoint nodes_of (node : SceneNode) : list SceneNode :=
  node ::
  (match node_children node with
   | Some cs => flat_map nodes_of cs
   | None => []
   end) ++
  (match node_mainComponent node with
   | Some m => nodes_of m
   | None => []
   end).

(** Ids identify nodes: two nodes under the selection that carry the same
    id are the same node. *)
Definition uniqueIds (selection : list SceneNode) : Prop :=
  forall n1 n2,
    n1 ∈ flat_map nodes_of selection -> n2 ∈ flat_map nodes_of selection ->
    node_id n1 = node_id n2 -> n1 = n2.

(** ** utils/traversal.ts *)
Module Traversal.

(** [traverseNode(node, callback)] calls [callback] on the node, then
    traverses each child in order.  The embedding returns the nodes in the
    order in which the callback receives them; running a callback is a fold
    over that list. *)
Fixpoint traverseNode (node : SceneNode) : list SceneNode :=
  node :: match node_children node with
          | Some cs => flat_map traverseNode cs
          | None => []
          end.

Definition findNodesByType (node : SceneNode) (nodeType : NodeType) : list SceneNode :=
  filter (fun n => node_type n = nodeType) (traverseNode node).

Definition findComponentInstances (node : SceneNode) : list SceneNode :=
  findNodesByType node INSTANCE.

Definition getMainComponent (instance : SceneNode) : option SceneNode :=
  node_mainComponent instance.

(** [getNodeDepth(node)]: steps along the parent chain until it ends or a
    DOCUMENT node is met. *)
Fixpoint chainDepth (chain : list NodeType) : nat :=
  match chain with
  | [] => 0
  | t :: rest => if decide (t = DOCUMENT) then 0 else S (chainDepth rest)
  end.

Definition getNodeDepth (node : SceneNode) : nat := chainDepth (node_parents node).

Definition findComponents (node : SceneNode) : list SceneNode :=
  findNodesByType node COMPONENT.

Definition findComponentSets (node : SceneNode) : list SceneNode :=
  findNodesByType node COMPONENT_SET.

(** The copy of [isLocalComponent] that traversal.ts keeps; [rootId] is
    [figma.root.id]. *)
Definition isLocalComponent (rootId : string) (node : SceneNode) : bool :=
  String.prefix rootId (node_key node).

(** The [while] loop of [traverseBreadthFirst]: the head of the queue is
    shifted out and visited, its children are pushed at the back.  [fuel]
    bounds the number of iterations; the result lists the nodes in the order
    in which the callback receives them. *)
Fixpoint breadthFirstLoop (fuel : nat) (queue : list SceneNode) : option (list SceneNode) :=
  match queue with
  | [] => Some []
  | current :: queue' =>
      match fuel with
      | O => None
      | S fuel' =>
          let queue'' :=
            match node_children current with
            | Some cs => queue' ++ cs
            | None => queue'
            end in
          match breadthFirstLoop fuel' queue'' with
          | Some visits => Some (current :: visits)
          | None => None
          end
      end
  end.

(** Number of nodes in the subtree of a node. *)
Fixpoint subtreeSize (node : SceneNode) : nat :=
  S (match node_children node with
     | Some cs => list_sum (map subtreeSize cs)
     | None => 0%nat
     end).

(** [traverseBreadthFirst(node, callback)]: every iteration visits one node
    of the subtree, so the size of the subtree bounds the loop. *)
Definition traverseBreadthFirst (node : SceneNode) : option (list SceneNode) :=
  breadthFirstLoop (subtreeSize node) [node].

(** The nodes at each depth below a list of nodes, nearest depth first;
    [height] bounds the number of levels. *)
Fixpoint levelsFrom (height : nat) (level : list SceneNode) : list (list SceneNode) :=
  match height with
  | O => []
  | S height' =>
      match level with
      | [] => []
      | _ => level :: levelsFrom height' (flat_map children_of level)
      end
  end.

(** [hasChildren(node)]. *)
Definition hasChildren (node : SceneNode) : bool :=
  match node_children node with
  | Some cs => negb (bool_decide (length cs = 0%nat))
  | None => false
  end.

(** The loop shared by [getNodeDepth] and [getParentChain], collecting the
    parents it passes.  A parent is represented by its type, the only
    property of it the loop reads. *)
Fixpoint parentChain (chain : list NodeType) : list NodeType :=
  match chain with
  | [] => []
  | t :: rest => if decide (t = DOCUMENT) then [] else t :: parentChain rest
  end.

Definition getParentChain (node : SceneNode) : list NodeType :=
  parentChain (node_parents node).

End Traversal.

(** ** utils/validator.ts *)
Module Validator.
Section WithRoot.
(** [figma.root.id], the current document's identifier. *)
Variable rootId : string.

Definition isLocalComponent (component : SceneNode) : bool :=
  String.prefix rootId (node_key component).

Definition isLocked (node : SceneNode) : bool := node_locked node.
Definition isVisible (node : SceneNode) : bool := node_visible node.

Definition validateSelection (selection : list SceneNode) : list Warning :=
  if decide (length selection = 0%nat) then
    [ mkWarning MISSING_DEFINITION
        "No nodes selected. Please select at least one frame, component, or instance."
        None None ]
  else [].

Definition validateComponent (component : SceneNode) : list Warning :=
  (if negb (isLocalComponent component) then
     [ mkWarning EXTERNAL_DEPENDENCY
         ("Component " +:+ dquote +:+ node_name component +:+ dquote +:+
          " is from an external library and cannot be transferred. Please include this library in the destination file.")
         (Some (node_id component)) (Some (node_name component)) ]
   else []) ++
  (if isLocked component then
     [ mkWarning LOCKED_COMPONENT
         ("Component " +:+ dquote +:+ node_name component +:+ dquote +:+
          " is locked and cannot be transferred.")
         (Some (node_id component)) (Some (node_name component)) ]
   else []) ++
  (if negb (isVisible component) then
     [ mkWarning HIDDEN_COMPONENT
         ("Component " +:+ dquote +:+ node_name component +:+ dquote +:+ " is hidden.")
         (Some (node_id component)) (Some (node_name component)) ]
   else []).

Definition validateMainComponent (instanceNode : SceneNode) : option Warning :=
  match node_mainComponent instanceNode with
  | None =>
      Some (mkWarning MISSING_DEFINITION
              ("Instance " +:+ dquote +:+ node_name instanceNode +:+ dquote +:+
               " has no main component definition. It may have been deleted or is from a detached library.")
              (Some (node_id instanceNode)) (Some (node_name instanceNode)))
  | Some _ => None
  end.

(** [hasCircularDependency(componentId, visited, path)]: the answer, then
    the sets [visited] and [path] as the call leaves them. *)
Definition hasCircularDependency (componentId : string) (visited path : list string)
    : bool * list string * list string :=
  if set_has componentId path then (true, visited, path)
  else if set_has componentId visited then (false, visited, path)
  else
    let visited := set_add componentId visited in
    let path := set_add componentId path in
    let path := set_delete componentId path in
    (false, visited, path).

(** [validateFilePermissions()]: the guarded block only returns. *)
Definition validateFilePermissions : option Warning := None.

(** [hasTransferableComponents(selection)]: the loop returns at the first
    node that qualifies. *)
Fixpoint hasTransferableComponents (selection : list SceneNode) : bool :=
  match selection with
  | [] => false
  | node :: rest =>
      match node_type node with
      | COMPONENT | COMPONENT_SET =>
          if isLocalComponent node then true else hasTransferableComponents rest
      | INSTANCE =>
          match node_mainComponent node with
          | Some mainComponent =>
              if isLocalComponent mainComponent then true
              else hasTransferableComponents rest
          | None => hasTransferableComponents rest
          end
      | _ => hasTransferableComponents rest
      end
  end.

Definition MAX_SAFE_NODES : Z := 10000.

(** [validateMemoryConstraints(estimatedNodeCount)] for a whole number of
    nodes. *)
Definition validateMemoryConstraints (estimatedNodeCount : Z) : option Warning :=
  if (MAX_SAFE_NODES <? estimatedNodeCount)%Z then
    Some (mkWarning MISSING_DEFINITION
            ("Large selection detected (" +:+ pretty estimatedNodeCount +:+
             " nodes). This operation may take a long time or fail due to memory constraints. Consider selecting fewer components.")
            None None)
  else None.
End WithRoot.
End Validator.

(** ** utils/analyzer.ts *)
Module Analyzer.
Import Traversal.

(** The three objects the analysis mutates: the component map, the set of
    instance ids already handled, and the warning list. *)
Record State := mkState {
  componentMap : list (string * ComponentInfo);
  processedInstances : list string;
  warningList : list Warning
}.

Definition push_warnings (ws : list Warning) (st : State) : State :=
  mkState (componentMap st) (processedInstances st) (warningList st ++ ws).

Definition set_component (k : string) (info : ComponentInfo) (st : State) : State :=
  mkState (map_set k info (componentMap st)) (processedInstances st) (warningList st).

Definition add_child (child : string) (info : ComponentInfo) : ComponentInfo :=
  mkComponentInfo (ci_id info) (ci_name info) (ci_description info) (ci_type info)
    (ci_isLocal info) (ci_isHidden info) (ci_isLocked info)
    (ci_variantCount info) (ci_variantProperties info)
    (ci_children info ++ [child]) (ci_level info).

(** [info.children.push(child)], where [info] is the object stored in the
    map under [owner]: entries are never replaced or deleted, so the write
    lands in the map entry. *)
Definition push_child (owner child : string) (st : State) : State :=
  mkState (map_update owner (add_child child) (componentMap st))
          (processedInstances st) (warningList st).

(** [info.children] read through the map entry of [owner]. *)
Definition children_in (owner : string) (st : State) : list string :=
  match map_get owner (componentMap st) with
  | Some info => ci_children info
  | None => []
  end.

Definition mark_instance (i : string) (st : State) : State :=
  mkState (componentMap st) (set_add i (processedInstances st)) (warningList st).

(** The variant axes of a component set: the VARIANT property definitions
    with their default values. *)
Definition variantPropertiesOf (defs : list (string * PropertyDefinition))
  : list (string * string) :=
  fold_left
    (fun acc kv =>
       match prop_type kv.2 with
       | VARIANT => map_set kv.1 (prop_defaultValue kv.2) acc
       | _ => acc
       end)
    defs [].

Section WithRoot.
Variable rootId : string.

(** [processComponent] and [processComponentSet].  They call each other
    through resolved definitions; [fuel] bounds the depth of that
    recursion and [None] means the bound was too small. *)
Fixpoint processComponent (fuel : nat) (component : SceneNode)
    (options : FilterOptions) (st : State) {struct fuel} : option State :=
  match fuel with
  | O => None
  | S fuel' =>
    if map_has (node_id component) (componentMap st) then Some st
    else
      let local := Validator.isLocalComponent rootId component in
      if negb local && negb (includeExternal options) then Some st
      else if negb (node_visible component) && negb (includeHidden options) then Some st
      else
        let st := push_warnings (Validator.validateComponent rootId component) st in
        let info :=
          mkComponentInfo (node_id component) (node_name component)
            (node_description component) CT_COMPONENT local
            (negb (node_visible component)) (node_locked component)
            None None [] (getNodeDepth component) in
        let st := set_component (node_id component) info st in
        let nestedInstances := findComponentInstances component in
        forEachM
          (fun st instance =>
             match getMainComponent instance with
             | Some mainComp =>
                 let st := push_child (node_id component) (node_id mainComp) st in
                 match node_type mainComp with
                 | COMPONENT => processComponent fuel' mainComp options st
                 | COMPONENT_SET => processComponentSet fuel' mainComp options st
                 | _ => Some st
                 end
             | None => Some st
             end)
          nestedInstances st
  end
with processComponentSet (fuel : nat) (componentSet : SceneNode)
    (options : FilterOptions) (st : State) {struct fuel} : option State :=
  match fuel with
  | O => None
  | S fuel' =>
    if map_has (node_id componentSet) (componentMap st) then Some st
    else
      let local := Validator.isLocalComponent rootId componentSet in
      if negb local && negb (includeExternal options) then Some st
      else if negb (node_visible componentSet) && negb (includeHidden options) then Some st
      else
        let st := push_warnings (Validator.validateComponent rootId componentSet) st in
        let variantProperties :=
          match node_componentPropertyDefinitions componentSet with
          | Some props => variantPropertiesOf props
          | None => []
          end in
        let info :=
          mkComponentInfo (node_id componentSet) (node_name componentSet)
            (node_description componentSet) CT_COMPONENT_SET local
            (negb (node_visible componentSet)) (node_locked componentSet)
            (Some (length (children_of componentSet))) (Some variantProperties)
            [] (getNodeDepth componentSet) in
        let st := set_component (node_id componentSet) info st in
        forEachM
          (fun st variant =>
             match node_type variant with
             | COMPONENT =>
                 forEachM
                   (fun st instance =>
                      match getMainComponent instance with
                      | Some mainComp =>
                          if bool_decide (node_id mainComp ∈ children_in (node_id componentSet) st)
                          then Some st
                          else
                            let st := push_child (node_id componentSet) (node_id mainComp) st in
                            match node_type mainComp with
                            | COMPONENT => processComponent fuel' mainComp options st
                            | COMPONENT_SET => processComponentSet fuel' mainComp options st
                            | _ => Some st
                            end
                      | None => Some st
                      end)
                   (findComponentInstances variant) st
             | _ => Some st
             end)
          (children_of componentSet) st
  end.

Definition processInstance (fuel : nat) (instance : SceneNode)
    (options : FilterOptions) (st : State) : option State :=
  if set_has (node_id instance) (processedInstances st) then Some st
  else
    let st := mark_instance (node_id instance) st in
    match Validator.validateMainComponent instance with
    | Some warning => Some (push_warnings [warning] st)
    | None =>
        match node_mainComponent instance with
        | Some mainComponent =>
            match node_type mainComponent with
            | COMPONENT => processComponent fuel mainComponent options st
            | COMPONENT_SET => processComponentSet fuel mainComponent options st
            | _ => Some st
            end
        | None => Some st
        end
    end.

Definition processNode (fuel : nat) (node : SceneNode)
    (options : FilterOptions) (st : State) : option State :=
  match node_type node with
  | COMPONENT => processComponent fuel node options st
  | COMPONENT_SET => processComponentSet fuel node options st
  | INSTANCE => processInstance fuel node options st
  | _ =>
      match node_children node with
      | Some _ =>
          forEachM
            (fun st child =>
               if bool_decide (node_type child = INSTANCE)
                  && negb (set_has (node_id child) (processedInstances st))
               then processInstance fuel child options st
               else Some st)
            (traverseNode node) st
      | None => Some st
      end
  end.
End WithRoot.

(** [buildDependencyNode]: the recursion follows child ids through the map;
    [fuel] bounds its depth.  The result pairs the node (absent when the id
    is not in the map) with the updated [processed] set. *)
Fixpoint buildDependencyNode (fuel : nat) (componentId : string)
    (componentMap : list (string * ComponentInfo)) (processed : list string)
    : option (option DependencyNode * list string) :=
  match fuel with
  | O => None
  | S fuel' =>
    match map_get componentId componentMap with
    | None => Some (None, processed)
    | Some component =>
        let processed := set_add componentId processed in
        match
          forEachM
            (fun (acc : list DependencyNode * list string) childId =>
               let '(dependencies, processed) := acc in
               if negb (set_has childId processed) then
                 match buildDependencyNode fuel' childId componentMap processed with
                 | Some (Some childNode, processed') =>
                     Some (dependencies ++ [childNode], processed')
                 | Some (None, processed') => Some (dependencies, processed')
                 | None => None
                 end
               else Some acc)
            (ci_children component) ([], processed)
        with
        | Some (dependencies, processed') =>
            Some (Some (mkDependencyNode component dependencies), processed')
        | None => None
        end
    end
  end.

(** The ids listed in some entry's [children]. *)
Definition allChildIds (componentMap : list (string * ComponentInfo)) : list string :=
  fold_left
    (fun acc comp => fold_left (fun acc childId => set_add childId acc) (ci_children comp) acc)
    (map_values componentMap) [].

Definition buildDependencyTreeFrom (fuel : nat)
    (componentMap : list (string * ComponentInfo))
    : option (list DependencyNode * list string) :=
  let childIds := allChildIds componentMap in
  forEachM
    (fun (acc : list DependencyNode * list string) comp =>
       let '(tree, processed) := acc in
       if negb (set_has (ci_id comp) childIds) && negb (set_has (ci_id comp) processed) then
         match buildDependencyNode fuel (ci_id comp) componentMap processed with
         | Some (Some node, processed') => Some (tree ++ [node], processed')
         | Some (None, processed') => Some (tree, processed')
         | None => None
         end
       else Some acc)
    (map_values componentMap) ([], []).

(** No chain of distinct ids is longer than the map, so the size of the
    map plus one bounds the recursion of [buildDependencyNode]. *)
Definition buildDependencyTree (componentMap : list (string * ComponentInfo))
    : option (list DependencyNode) :=
  match buildDependencyTreeFrom (S (length componentMap)) componentMap with
  | Some (tree, _) => Some tree
  | None => None
  end.

Definition count_if {A} (p : A -> bool) (l : list A) : nat := length (filter (fun x => p x = true) l).

Definition calculateStats (componentMap : list (string * ComponentInfo)) : AnalysisStats :=
  let comps := map_values componentMap in
  mkAnalysisStats
    (length componentMap)
    (count_if (fun c => negb (bool_decide (length (ci_children c) = 0%nat))) comps)
    (count_if (fun c => bool_decide (length (ci_children c) = 0%nat)) comps)
    (count_if (fun c => match ci_type c with CT_COMPONENT_SET => true | _ => false end) comps)
    (count_if (fun c => negb (ci_isLocal c)) comps)
    (count_if ci_isHidden comps)
    (count_if ci_isLocked comps).

Definition createEmptyResult (warnings : list Warning) : AnalysisResult :=
  mkAnalysisResult [] [] warnings (mkAnalysisStats 0 0 0 0 0 0 0).

(** The options [analyzeSelection] uses when the caller passes none. *)
Definition defaultOptions : FilterOptions := mkFilterOptions false false.

(** Height of the tallest selected node: one more than this bounds the
    recursion through resolved definitions. *)
Definition selection_height (selection : list SceneNode) : nat :=
  list_max (map node_height selection).

Definition analyzeSelectionFrom (fuel : nat) (rootId : string)
    (selection : list SceneNode) (options : FilterOptions) : option AnalysisResult :=
  let warnings := Validator.validateSelection selection in
  if decide (length selection = 0%nat) then Some (createEmptyResult warnings)
  else
    match forEachM (fun st node => processNode rootId fuel node options st)
                   selection (mkState [] [] warnings) with
    | Some st =>
        match buildDependencyTree (componentMap st) with
        | Some dependencyTree =>
            Some (mkAnalysisResult (componentMap st) dependencyTree (warningList st)
                    (calculateStats (componentMap st)))
        | None => None
        end
    | None => None
    end.

(** [analyzeSelection(selection, options)] under document [rootId]. *)
Definition analyzeSelection (rootId : string) (selection : list SceneNode)
    (options : FilterOptions) : option AnalysisResult :=
  analyzeSelectionFrom (S (selection_height selection)) rootId selection options.

(** [filterComponents(components, searchTerm)].  [toLowerCase] is the
    host's [String.prototype.toLowerCase]. *)
Section Filter.
Variable toLowerCase : string -> string.

(** The test a record has to pass for the lower-cased search term. *)
Definition matchesSearch (lowerSearch : string) (comp : ComponentInfo) : bool :=
  includes (toLowerCase (ci_name comp)) lowerSearch
  || includes (toLowerCase (ci_description comp)) lowerSearch.

Definition filterComponents (components : list (string * ComponentInfo))
    (searchTerm : string) : list (string * ComponentInfo) :=
  if bool_decide (searchTerm = "") then components
  else
    let lowerSearch := toLowerCase searchTerm in
    fold_left
      (fun filtered entry =>
         if matchesSearch lowerSearch entry.2
         then map_set entry.1 entry.2 filtered
         else filtered)
      components [].
End Filter.

(** *** Vocabulary for stating properties of a result *)

(** Keys are pairwise distinct and every record sits under its own id. *)
Definition wellKeyed (m : list (string * ComponentInfo)) : Prop :=
  NoDup (map_keys m) /\ Forall (fun kv => ci_id kv.2 = kv.1) m.

(** The warnings of one type, in the order in which they were pushed. *)
Definition warningsOfType (t : WarningType) (ws : list Warning) : list Warning :=
  filter (fun w => w_type w = t) ws.

(** The ids at the positions of a dependency node, the node first. *)
Fixpoint dep_ids (n : DependencyNode) : list string :=
  ci_id (dep_component n) :: flat_map dep_ids (dep_dependencies n).

(** The ids at all positions of a forest, roots and nested nodes alike. *)
Definition forest_ids (forest : list DependencyNode) : list string :=
  flat_map dep_ids forest.

(** The records at the positions of a dependency node. *)
Fixpoint dep_components (n : DependencyNode) : list ComponentInfo :=
  dep_component n :: flat_map dep_components (dep_dependencies n).

(** [c] is listed among the children of some record of the map. *)
Definition referenced (m : list (string * ComponentInfo)) (c : string) : Prop :=
  exists k info, (k, info) ∈ m /\ c ∈ ci_children info.

(** The references between records of the map contain no cycle: some
    ranking of the ids decreases along every reference to a record of the
    map. *)
Definition acyclic (m : list (string * ComponentInfo)) : Prop :=
  exists rank : string -> nat,
    forall k info c,
      (k, info) ∈ m -> c ∈ ci_children info -> map_has c m = true ->
      (rank c < rank k)%nat.

End Analyzer.

(** ** tests/mocks/figma-api.ts: the nodes the test suite builds *)
Module Mock.

(** [new MockNode(id, name, type)] with children appended. *)
Definition MockNode (id name : string) (type : NodeType) (children : list SceneNode)
    : SceneNode :=
  mkSceneNode id name type true false "" "" (Some children) None [] None.

(** [new MockComponentNode(id, name, key)] with children appended. *)
Definition MockComponentNode (id name key : string) (children : list SceneNode) : SceneNode :=
  mkSceneNode id name COMPONENT true false key "" (Some children) None [] None.

(** [new MockComponentSetNode(id, name, key)] with children appended. *)
Definition MockComponentSetNode (id name key : string) (children : list SceneNode)
    : SceneNode :=
  mkSceneNode id name COMPONENT_SET true false key "" (Some children) None [] None.

(** [new MockInstanceNode(id, name, mainComponent)]. *)
Definition MockInstanceNode (id name : string) (mainComponent : option SceneNode) : SceneNode :=
  mkSceneNode id name INSTANCE true false "" "" (Some []) mainComponent [] None.

End Mock.

(** ** utils/layout.ts *)
Module Layout.

(** [calculateOptimalSpacing(componentCount, defaultSpacing)], branch for
    branch as in the source: the [> 50] test comes first. *)
Definition calculateOptimalSpacing (componentCount : Z) (defaultSpacing : Q) : Q :=
  if (50 <? componentCount)%Z then (defaultSpacing * (3 # 2))%Q
  else if (100 <? componentCount)%Z then (defaultSpacing * 2)%Q
  else defaultSpacing.

(** The size the grid assumes for every component. *)
Definition defaultWidth : Q := 200.
Definition defaultHeight : Q := 200.

(** The variables of the loop of [layoutComponentsInGrid]. *)
Record GridCursor := mkGridCursor {
  gc_positions : list (string * Position);
  gc_x : Q;
  gc_y : Q;
  gc_maxHeightInRow : Q;
  gc_col : Z;
  gc_maxX : Q;
  gc_maxY : Q
}.

(** One round of that loop. *)
Definition placeComponent (startX spacing : Q) (columns : Z)
    (c : GridCursor) (comp : ComponentInfo) : GridCursor :=
  let positions := map_set (ci_id comp) (mkPosition (gc_x c) (gc_y c)) (gc_positions c) in
  let maxHeightInRow := Qmax (gc_maxHeightInRow c) defaultHeight in
  let maxX := Qmax (gc_maxX c) (gc_x c + defaultWidth)%Q in
  let maxY := Qmax (gc_maxY c) (gc_y c + defaultHeight)%Q in
  let col := (gc_col c + 1)%Z in
  if (columns <=? col)%Z then
    mkGridCursor positions startX (gc_y c + (maxHeightInRow + spacing))%Q 0 0 maxX maxY
  else
    mkGridCursor positions (gc_x c + (defaultWidth + spacing))%Q (gc_y c)
      maxHeightInRow col maxX maxY.

(** The number of columns the grid uses. *)
Definition columnsOf (settings : TransferSettings) : Z :=
  match ts_layoutType settings with
  | GridLayout => ts_gridColumns settings
  | ListLayout => 1%Z
  end.

(** [layoutComponentsInGrid(components, startX, startY, settings)]: the
    positions, the total width and the total height. *)
Definition layoutComponentsInGrid (components : list ComponentInfo) (startX startY : Q)
    (settings : TransferSettings) : list (string * Position) * Q * Q :=
  if bool_decide (length components = 0%nat) then ([], 0%Q, 0%Q)
  else
    let c :=
      fold_left (placeComponent startX (ts_spacing settings) (columnsOf settings))
        components (mkGridCursor [] startX startY 0 0 startX startY) in
    (gc_positions c, (gc_maxX c - startX)%Q, (gc_maxY c - startY)%Q).

(** The cell of the grid that the component at index [k] of the list is
    put in: a grid of less than one column is laid out as one column. *)
Definition cellColumn (columns : Z) (k : nat) : Z := (Z.of_nat k mod Z.max 1 columns)%Z.
Definition cellRow (columns : Z) (k : nat) : Z := (Z.of_nat k / Z.max 1 columns)%Z.

(** Groups laid out one below the other: each starts at the left edge where
    the one before ended, and is followed by twice the spacing; [y] is where
    the first starts and [yEnd] where the last gap ends. *)
Fixpoint stackedFrom (spacing y : Q) (groups : list LayoutGroup) (yEnd : Q) : Prop :=
  match groups with
  | [] => y = yEnd
  | g :: rest =>
      lg_x g = 0%Q /\ lg_y g = y /\
      stackedFrom spacing (y + (lg_height g + spacing * 2))%Q rest yEnd
  end.

(** [calculateFlatLayout(components, settings)]. *)
Definition calculateFlatLayout (components : list (string * ComponentInfo))
    (settings : TransferSettings) : LayoutResult :=
  let comps := map_values components in
  let '(positions, totalWidth, totalHeight) := layoutComponentsInGrid comps 0 0 settings in
  mkLayoutResult positions
    [mkLayoutGroup "All Components" (map ci_id comps) 0 0 totalWidth totalHeight]
    (Finite totalWidth) totalHeight.

(** [calculateSelectionBasedLayout(components, settings)]. *)
Definition calculateSelectionBasedLayout (components : list (string * ComponentInfo))
    (settings : TransferSettings) : LayoutResult :=
  calculateFlatLayout components settings.

(** The variables of the loops that lay out one group after the other. *)
Record Stacking := mkStacking {
  sk_positions : list (string * Position);
  sk_groups : list LayoutGroup;
  sk_currentY : Q
}.

(** One round of such a loop: the group is laid out below the groups
    before it. *)
Definition placeGroup (settings : TransferSettings) (s : Stacking)
    (groupName : string) (comps : list ComponentInfo) : Stacking :=
  let '(groupPositions, totalWidth, totalHeight) :=
    layoutComponentsInGrid comps 0 (sk_currentY s) settings in
  let positions :=
    fold_left (fun positions entry => map_set entry.1 entry.2 positions)
      groupPositions (sk_positions s) in
  let groups :=
    sk_groups s ++
    [mkLayoutGroup groupName (map ci_id comps) 0 (sk_currentY s) totalWidth totalHeight] in
  mkStacking positions groups (sk_currentY s + (totalHeight + ts_spacing settings * 2))%Q.

(** The grouping of [calculateHierarchicalLayout]: the components by
    [level], in the order in which the levels first occur. *)
Definition groupByLevel (comps : list ComponentInfo) : list (nat * list ComponentInfo) :=
  fold_left
    (fun levelGroups comp =>
       let level := ci_level comp in
       let levelGroups :=
         if negb (nmap_has level levelGroups) then nmap_set level [] levelGroups
         else levelGroups in
       nmap_update level (fun group => group ++ [comp]) levelGroups)
    comps [].

(** [calculateHierarchicalLayout(components, settings)]. *)
Definition calculateHierarchicalLayout (components : list (string * ComponentInfo))
    (settings : TransferSettings) : LayoutResult :=
  let levelGroups := groupByLevel (map_values components) in
  let sortedLevels := sortAscending (map fst levelGroups) in
  let s :=
    fold_left
      (fun s level =>
         match nmap_get level levelGroups with
         | Some comps => placeGroup settings s ("Level " +:+ pretty level) comps
         | None => s
         end)
      sortedLevels (mkStacking [] [] 0) in
  mkLayoutResult (sk_positions s) (sk_groups s)
    (Math_max (map lg_width (sk_groups s))) (sk_currentY s).

(** The groupings of [calculateTypeBasedLayout]: the variant sets and the
    other components. *)
Definition groupUnder (key : string) (comp : ComponentInfo)
    (m : list (string * list ComponentInfo)) : list (string * list ComponentInfo) :=
  let m := if negb (map_has key m) then map_set key [] m else m in
  map_update key (fun group => group ++ [comp]) m.

Definition groupByType (comps : list ComponentInfo)
    : list (string * list ComponentInfo) * list (string * list ComponentInfo) :=
  fold_left
    (fun '(componentGroups, componentSetGroups) comp =>
       match ci_type comp with
       | CT_COMPONENT_SET =>
           (componentGroups, groupUnder "Variant Sets" comp componentSetGroups)
       | _ => (groupUnder "Components" comp componentGroups, componentSetGroups)
       end)
    comps ([], []).

(** The test that sorts a component into the variant sets. *)
Definition isVariantSet (comp : ComponentInfo) : bool :=
  match ci_type comp with
  | CT_COMPONENT_SET => true
  | _ => false
  end.

(** [calculateTypeBasedLayout(components, settings)]. *)
Definition calculateTypeBasedLayout (components : list (string * ComponentInfo))
    (settings : TransferSettings) : LayoutResult :=
  let '(componentGroups, componentSetGroups) := groupByType (map_values components) in
  let s :=
    fold_left (fun s entry => placeGroup settings s entry.1 entry.2)
      componentSetGroups (mkStacking [] [] 0) in
  let s :=
    fold_left (fun s entry => placeGroup settings s entry.1 entry.2)
      componentGroups s in
  mkLayoutResult (sk_positions s) (sk_groups s)
    (Math_max (map lg_width (sk_groups s))) (sk_currentY s).

(** [calculateLayout(components, settings)]. *)
Definition calculateLayout (components : list (string * ComponentInfo))
    (settings : TransferSettings) : LayoutResult :=
  if bool_decide (length components = 0%nat) then mkLayoutResult [] [] (Finite 0) 0
  else
    match ts_groupingMethod settings with
    | GroupHierarchy => calculateHierarchicalLayout components settings
    | GroupType => calculateTypeBasedLayout components settings
    | GroupFlat => calculateFlatLayout components settings
    | GroupSelection => calculateSelectionBasedLayout components settings
    end.

End Layout.

(** ** utils/batcher.ts *)
Module Batcher.

(** How a call of an async function ends. *)
Inductive Outcome (R : Type) :=
  | Resolved (results : list R)
  | Rejected (message : string).
Arguments Resolved {R} results.
Arguments Rejected {R} message.

Definition cancelledMessage : string := "Operation cancelled".

(** [items.slice(start, end)] for indices within [0, items.length]. *)
Definition slice {T} (start stop : nat) (items : list T) : list T :=
  take (stop - start) (drop start items).

(** The items of a list paired with their indices, counted from [start]. *)
Fixpoint indexed {T} (start : nat) (items : list T) : list (T * nat) :=
  match items with
  | [] => []
  | item :: rest => (item, start) :: indexed (S start) rest
  end.

Section ProcessBatch.
(** [W] is the state of everything around the call that changes while it
    runs: the cancellation token's flag, whatever the processor and the
    progress callback write, and what other tasks do while the function
    is suspended at an [await]. *)
Context {T R W : Type}.

(** [processor(item, index)]: its effect on the world and either the
    message of the error it throws or the value it returns. *)
Variable processor : T -> nat -> W -> W * (string + R).
Variable onProgress : option (nat -> nat -> W -> W).
(** Reading [cancellationToken.isCancelled], when a token was passed. *)
Variable cancellationToken : option (W -> bool).
(** [await delay(0)]: what runs before the function resumes. *)
Variable yieldToUI : W -> W.

(** One processor call as recorded in the trace: the item, the index, and
    what the call produced. *)
#[local] Abbreviation Call := (T * nat * (string + R))%type.

Definition isCancelled (w : W) : bool :=
  match cancellationToken with
  | Some read => read w
  | None => false
  end.

Definition reportProgress (processed total : nat) (w : W) : W :=
  match onProgress with
  | Some cb => cb processed total w
  | None => w
  end.

(** The inner loop over one batch, from position [j] of the batch that
    starts at index [i]. *)
Fixpoint runBatch (batch : list T) (i j : nat)
    (results : list R) (calls : list Call) (w : W)
    : (string + list R) * list Call * W :=
  match batch with
  | [] => (inr results, calls, w)
  | item :: rest =>
      match processor item (i + j) w with
      | (w', inr result) =>
          runBatch rest i (S j) (results ++ [result])
            (calls ++ [(item, i + j, inr result)]) w'
      | (w', inl message) => (inl message, calls ++ [(item, i + j, inl message)], w')
      end
  end.

(** The body of the outer loop after the cancellation check. *)
Definition batchBody (items : list T) (batchSize i : nat)
    (results : list R) (calls : list Call) (w : W)
    : (string + list R) * list Call * W :=
  let total := length items in
  let batch := slice i (Nat.min (i + batchSize) total) items in
  match runBatch batch i 0 results calls w with
  | (inr results', calls', w') =>
      let w' := reportProgress (Nat.min (i + batchSize) total) total w' in
      let w' := if (i + batchSize <? total)%nat then yieldToUI w' else w' in
      (inr results', calls', w')
  | failed => failed
  end.

(** The outer loop from index [i].  [fuel] bounds the number of
    iterations; [None] means the loop is still running after that many. *)
Fixpoint batchLoop (fuel : nat) (items : list T) (batchSize i : nat)
    (results : list R) (calls : list Call) (w : W)
    : option (Outcome R * list Call * W) :=
  match fuel with
  | O => None
  | S fuel' =>
      if (i <? length items)%nat then
        if isCancelled w then Some (Rejected cancelledMessage, calls, w)
        else
          match batchBody items batchSize i results calls w with
          | (inr results', calls', w') =>
              batchLoop fuel' items batchSize (i + batchSize) results' calls' w'
          | (inl message, calls', w') => Some (Rejected message, calls', w')
          end
      else Some (Resolved results, calls, w)
  end.

(** [processBatch(items, batchSize, processor, onProgress, token)] started
    in world [w]: the outcome, the processor calls made, the final world. *)
Definition processBatch (fuel : nat) (items : list T) (batchSize : nat) (w : W)
    : option (Outcome R * list Call * W) :=
  batchLoop fuel items batchSize 0 [] [] w.

(** The processor returns a value on every call. *)
Definition neverThrows : Prop :=
  forall item index w, exists r, (processor item index w).2 = inr r.

(** The world in which batch number [n] would start, when no earlier
    batch was stopped. *)
Fixpoint worldBeforeBatch (items : list T) (batchSize n : nat) (w : W) : W :=
  match n with
  | O => w
  | S n' =>
      (batchBody items batchSize (n' * batchSize) [] []
         (worldBeforeBatch items batchSize n' w)).2
  end.
End ProcessBatch.

(** The pairs [(processed, total)] a run of [total] items in batches of
    [batchSize] reports when every batch goes through: one per batch, the
    number of items finished so far and the total. *)
Definition progressSteps (total batchSize : nat) : list (nat * nat) :=
  map (fun k => (Nat.min ((k + 1) * batchSize) total, total))
      (seq 0 ((total + batchSize - 1) / batchSize)).

(** A cancellation token: the flag [isCancelled] that [cancel()] sets. *)
Record CancellationToken := mkCancellationToken { tokenCancelled : bool }.

Definition createCancellationToken : CancellationToken := mkCancellationToken false.

Definition cancel (token : CancellationToken) : CancellationToken :=
  mkCancellationToken true.

Section ProcessInChunks.
Context {T R W : Type}.

(** [processor(chunk, startIndex)]. *)
Variable processor : list T -> nat -> W -> W * (string + R).
Variable onProgress : option (nat -> nat -> W -> W).
Variable cancellationToken : option (W -> bool).
Variable yieldToUI : W -> W.

(** One processor call as recorded in the trace: the chunk, its start
    index, and what the call produced. *)
#[local] Abbreviation ChunkCall := (list T * nat * (string + R))%type.

(** The body of the loop after the cancellation check. *)
Definition chunkBody (items : list T) (chunkSize i : nat)
    (results : list R) (calls : list ChunkCall) (w : W)
    : (string + list R) * list ChunkCall * W :=
  let total := length items in
  let chunk := slice i (Nat.min (i + chunkSize) total) items in
  match processor chunk i w with
  | (w', inr result) =>
      let w' := reportProgress onProgress (Nat.min (i + chunkSize) total) total w' in
      let w' := yieldToUI w' in
      (inr (results ++ [result]), calls ++ [(chunk, i, inr result)], w')
  | (w', inl message) => (inl message, calls ++ [(chunk, i, inl message)], w')
  end.

(** The loop from index [i]; [None] means it is still running when the
    fuel is used up. *)
Fixpoint chunkLoop (fuel : nat) (items : list T) (chunkSize i : nat)
    (results : list R) (calls : list ChunkCall) (w : W)
    : option (Outcome R * list ChunkCall * W) :=
  match fuel with
  | O => None
  | S fuel' =>
      if (i <? length items)%nat then
        if isCancelled cancellationToken w then Some (Rejected cancelledMessage, calls, w)
        else
          match chunkBody items chunkSize i results calls w with
          | (inr results', calls', w') =>
              chunkLoop fuel' items chunkSize (i + chunkSize) results' calls' w'
          | (inl message, calls', w') => Some (Rejected message, calls', w')
          end
      else Some (Resolved results, calls, w)
  end.

(** [processInChunks(items, chunkSize, processor, onProgress, token)]
    started in world [w]. *)
Definition processInChunks (fuel : nat) (items : list T) (chunkSize : nat) (w : W)
    : option (Outcome R * list ChunkCall * W) :=
  chunkLoop fuel items chunkSize 0 [] [] w.

(** The chunk processor returns a value on every call. *)
Definition chunksNeverThrow : Prop :=
  forall chunk index w, exists r, (processor chunk index w).2 = inr r.
End ProcessInChunks.

(** [estimateProcessingTime(itemCount, averageTimePerItem)]. *)
Definition estimateProcessingTime (itemCount averageTimePerItem : Q) : Q :=
  (itemCount * averageTimePerItem)%Q.

(** [estimateTimeRemaining(processed, total, startTime)]; [now] is the value
    [Date.now()] returns at the call.  The difference of two whole numbers
    is exact; the quotient and the product are rounded. *)
Definition estimateTimeRemaining (now : Z) (processed total startTime : Z) : Z :=
  if (processed =? 0)%Z then 0%Z
  else
    let elapsed := (now - startTime)%Z in
    let averageTimePerItem := double (inject_Z elapsed / inject_Z processed) in
    let remaining := (total - processed)%Z in
    Math_round (double (inject_Z remaining * averageTimePerItem)).

End Batcher.

(** ** utils/progress.ts *)
Module Progress.

(** The fields of a [ProgressTracker].  [hasCallback] tells whether a
    callback was given to the constructor and [reported] lists the values
    it has received so far, oldest first. *)
Record ProgressTracker := mkTracker {
  phase : Phase;
  processed : Z;
  total : Z;
  startTime : Z;
  currentItem : string;
  hasCallback : bool;
  reported : list ProgressInfo
}.

Definition newTracker (hasCallback : bool) : ProgressTracker :=
  mkTracker analyzing 0 0 0 "" hasCallback [].

(** In every method [now] is the value [Date.now()] returns when
    [getProgress] reads the clock. *)
(** The [percentage] local of [getProgress]:
    [Math.round((this.processed / this.total) * 100)], the quotient and the
    product each rounded to a double. *)
Definition percentageOf (processed total : Z) : Z :=
  if (0 <? total)%Z
  then Math_round (double (double (inject_Z processed / inject_Z total) * 100))
  else 0%Z.

Definition getProgress (now : Z) (t : ProgressTracker) : ProgressInfo :=
  let percentage := percentageOf (processed t) (total t) in
  let estimatedTimeRemaining :=
    Batcher.estimateTimeRemaining now (processed t) (total t) (startTime t) in
  mkProgressInfo (phase t) percentage (currentItem t) (processed t) (total t)
    estimatedTimeRemaining.

Definition update (now : Z) (t : ProgressTracker) : ProgressTracker :=
  if hasCallback t then
    mkTracker (phase t) (processed t) (total t) (startTime t) (currentItem t)
      (hasCallback t) (reported t ++ [getProgress now t])
  else t.

(** [start] reads the clock twice: [started] is stored as the start time. *)
Definition start (started now : Z) (total' : Z) (phase' : Phase) (t : ProgressTracker)
    : ProgressTracker :=
  update now (mkTracker phase' 0 total' started (currentItem t) (hasCallback t) (reported t)).

Definition setPhase (now : Z) (phase' : Phase) (t : ProgressTracker) : ProgressTracker :=
  update now (mkTracker phase' (processed t) (total t) (startTime t) (currentItem t)
                (hasCallback t) (reported t)).

Definition updateProgress (now : Z) (processed' : Z) (currentItem' : string)
    (t : ProgressTracker) : ProgressTracker :=
  update now (mkTracker (phase t) processed' (total t) (startTime t) currentItem'
                (hasCallback t) (reported t)).

Definition increment (now : Z) (currentItem' : string) (t : ProgressTracker) : ProgressTracker :=
  update now (mkTracker (phase t) (processed t + 1) (total t) (startTime t) currentItem'
                (hasCallback t) (reported t)).

Definition complete (now : Z) (t : ProgressTracker) : ProgressTracker :=
  update now (mkTracker (phase t) (total t) (total t) (startTime t) (currentItem t)
                (hasCallback t) (reported t)).

(** A call that advances the counter, with the clock reading during it. *)
Inductive Advance :=
  | Increment (now : Z) (currentItem : string)
  | UpdateProgress (now : Z) (processed : Z) (currentItem : string).

Definition advance (t : ProgressTracker) (c : Advance) : ProgressTracker :=
  match c with
  | Increment now item => increment now item t
  | UpdateProgress now p item => updateProgress now p item t
  end.

Definition advanceAll (calls : list Advance) (t : ProgressTracker) : ProgressTracker :=
  fold_left advance calls t.

(** The values the counter takes during a sequence of calls that starts
    with the counter at [cur]. *)
Fixpoint processedAfter (cur : Z) (calls : list Advance) : list Z :=
  match calls with
  | [] => []
  | Increment _ _ :: rest => (cur + 1)%Z :: processedAfter (cur + 1) rest
  | UpdateProgress _ p _ :: rest => p :: processedAfter p rest
  end.

(** No call of the sequence moves the counter backwards. *)
Fixpoint nonDecreasingFrom (cur : Z) (calls : list Advance) : Prop :=
  match calls with
  | [] => True
  | Increment _ _ :: rest => nonDecreasingFrom (cur + 1) rest
  | UpdateProgress _ p _ :: rest => (cur <= p)%Z /\ nonDecreasingFrom p rest
  end.

(** [formatPercentage(processed, total)] without the trailing percent sign. *)
Definition formatPercentageValue (processed total : Z) : Z :=
  if (total =? 0)%Z then 0%Z
  else Math_round (double (double (inject_Z processed / inject_Z total) * 100)).

Definition formatPercentage (processed total : Z) : string :=
  pretty (formatPercentageValue processed total) +:+ "%".

(** [formatTime(ms)] for a whole number of milliseconds. *)
Definition formatTime (ms : Z) : string :=
  if (ms <? 1000)%Z then pretty ms +:+ "ms"
  else
    let seconds := (ms / 1000)%Z in
    if (seconds <? 60)%Z then pretty seconds +:+ "s"
    else
      let minutes := (seconds / 60)%Z in
      let remainingSeconds := Z.rem seconds 60 in
      pretty minutes +:+ "m " +:+ pretty remainingSeconds +:+ "s".

(** The character U+2588 (full block), in UTF-8. *)
Definition fullBlock : string :=
  String "226"%char (String "150"%char (String "136"%char EmptyString)).

(** The [filled] local of [createProgressBar]:
    [Math.round((percentage / 100) * width)], the quotient and the product
    each rounded to a double. *)
Definition filledCells (percentage width : Z) : Z :=
  Math_round (double (double (inject_Z percentage / 100) * inject_Z width)).

(** [createProgressBar(percentage, width)] for whole arguments; [None] is
    the RangeError of [repeat]. *)
Definition createProgressBar (percentage width : Z) : option string :=
  let filled := filledCells percentage width in
  let empty := (width - filled)%Z in
  match String_repeat fullBlock filled with
  | Some blocks =>
      match String_repeat " " empty with
      | Some blanks =>
          Some ("[" +:+ blocks +:+ blanks +:+ "] " +:+ pretty percentage +:+ "%")
      | None => None
      end
  | None => None
  end.

End Progress.

(** ** utils/collector.ts: the staging page *)
Module Collector.

Record PageNode := mkPage {
  page_id : nat;
  page_name : string;
  page_children : list SceneNode
}.

(** [figma.root.children]: the pages of the document, in order. *)
Definition Document := list PageNode.

(** Modelled from the host API: [figma.createPage()] appends a page with an
    identifier no existing page has and returns it. *)
Definition freshPageId (doc : Document) : nat := S (list_max (map page_id doc)).

Definition createPage (doc : Document) : PageNode * Document :=
  let page := mkPage (freshPageId doc) "New Page" [] in
  (page, doc ++ [page]).

(** Writes through a page reference: the page with that id is replaced. *)
Definition storePage (page : PageNode) (doc : Document) : Document :=
  map (fun p => if decide (page_id p = page_id page) then page else p) doc.

Definition setName (name : string) (page : PageNode) : PageNode :=
  mkPage (page_id page) name (page_children page).

(** Modelled from the repository's host, tests/mocks/figma-api.ts:
    [children] is the array of the node itself, and [child.remove()] looks
    the child up in the [children] of its parent and splices it out.  Every
    child of a page has the page as its parent and occurs once among its
    children, so the child visited at [index] is spliced out at [index]. *)
Definition removeVisited (children : list SceneNode) (index : nat) : list SceneNode :=
  match children !! index with
  | Some child => delete index children
  | None => children
  end.

(** [children.forEach((child) => child.remove())].  [forEach] visits, in
    order, the indices below the length the array has when the loop starts,
    and skips an index that the array no longer has when its turn comes. *)
Definition removeEach (children : list SceneNode) : list SceneNode :=
  fold_left removeVisited (seq 0 (length children)) children.

(** [page.children.forEach((child) => child.remove())]. *)
Definition clearChildren (page : PageNode) : PageNode :=
  mkPage (page_id page) (page_name page) (removeEach (page_children page)).

(** The elements at the odd indices 1, 3, 5, ... of a list. *)
Fixpoint oddIndexed {A : Type} (l : list A) : list A :=
  match l with
  | _ :: y :: rest => y :: oddIndexed rest
  | _ => []
  end.

(** [s.split('T')[0]]: the part of [s] before its first letter T. *)
Fixpoint beforeT (s : string) : string :=
  match s with
  | EmptyString => EmptyString
  | String c rest => if decide (c = "T"%char) then EmptyString else String c (beforeT rest)
  end.

Definition transferPageName : string := "Transfer".

(** [findOrCreateTransferPage(settings, warnings)]: only
    [settings.transferPageBehavior] is read; [isoNow] is what
    [new Date().toISOString()] returns during the call.  The result is the
    page handed back and the document afterwards. *)
Definition findOrCreateTransferPage (behavior : TransferPageBehavior)
    (isoNow : string) (doc : Document) : PageNode * Document :=
  let fresh :=
    let '(newPage, doc') := createPage doc in
    let newPage := setName transferPageName newPage in
    (newPage, storePage newPage doc') in
  match List.find (fun page => bool_decide (page_name page = transferPageName)) doc with
  | Some existingPage =>
      match behavior with
      | replace =>
          let cleared := clearChildren existingPage in
          (cleared, storePage cleared doc)
      | append => (existingPage, doc)
      | timestamp =>
          let timestamp := beforeT isoNow in
          let '(newPage, doc') := createPage doc in
          let newPage := setName (transferPageName +:+ " " +:+ timestamp) newPage in
          (newPage, storePage newPage doc')
      | ask => fresh
      end
  | None => fresh
  end.

(** The part of the host that the page commands read and write:
    [figma.root.children], the id of [figma.currentPage], the [selection]
    of each page (by page id), and the nodes last handed to
    [figma.viewport.scrollAndZoomIntoView]. *)
Record Figma := mkFigma {
  rootChildren : Document;
  currentPage : nat;
  selectionOf : nat -> list SceneNode;
  viewportTarget : list SceneNode
}.

(** [figma.root.children.find((page) => page.name === 'Transfer')]. *)
Definition findTransferPage (doc : Document) : option PageNode :=
  List.find (fun page => bool_decide (page_name page = transferPageName)) doc.

(** [clearTransferPage()]: the answer and the host afterwards. *)
Definition clearTransferPage (host : Figma) : bool * Figma :=
  match findTransferPage (rootChildren host) with
  | Some transferPage =>
      (true,
       mkFigma (storePage (clearChildren transferPage) (rootChildren host))
               (currentPage host) (selectionOf host) (viewportTarget host))
  | None => (false, host)
  end.

(** [navigateToTransferPage()]. *)
Definition navigateToTransferPage (host : Figma) : bool * Figma :=
  match findTransferPage (rootChildren host) with
  | Some transferPage =>
      (true,
       mkFigma (rootChildren host) (page_id transferPage)
               (selectionOf host) (viewportTarget host))
  | None => (false, host)
  end.

(** [selectAllOnTransferPage()]. *)
Definition selectAllOnTransferPage (host : Figma) : bool * Figma :=
  match findTransferPage (rootChildren host) with
  | Some transferPage =>
      if (0 <? length (page_children transferPage))%nat then
        (true,
         mkFigma (rootChildren host) (page_id transferPage)
                 (fun page =>
                    if decide (page = page_id transferPage)
                    then page_children transferPage
                    else selectionOf host page)
                 (page_children transferPage))
      else (false, host)
  | None => (false, host)
  end.

(** A node as [organizeComponentsOnPage] handles it: the node, what its
    [width] and [height] hold where it has these properties, and its [x]
    and [y]. *)
Record Placed := mkPlaced {
  pl_node : SceneNode;
  pl_width : option Q;
  pl_height : option Q;
  pl_x : Q;
  pl_y : Q
}.

(** ['width' in node ? node.width : 0] and ['height' in node ? node.height : 0]. *)
Definition widthOf (node : Placed) : Q := default 0%Q (pl_width node).
Definition heightOf (node : Placed) : Q := default 0%Q (pl_height node).

(** [node.x = x; node.y = y]. *)
Definition moveTo (x y : Q) (node : Placed) : Placed :=
  mkPlaced (pl_node node) (pl_width node) (pl_height node) x y.

(** The variables of the grid loop of [organizeComponentsOnPage], with the
    nodes placed so far. *)
Record PageCursor := mkPageCursor {
  pc_placed : list Placed;
  pc_x : Q;
  pc_y : Q;
  pc_maxHeightInRow : Q;
  pc_col : Z
}.

(** One round of the grid loop. *)
Definition placeInGrid (spacing : Q) (columns : Z) (c : PageCursor) (node : Placed)
    : PageCursor :=
  let placed := pc_placed c ++ [moveTo (pc_x c) (pc_y c) node] in
  let maxHeightInRow := Qmax (pc_maxHeightInRow c) (heightOf node) in
  let col := (pc_col c + 1)%Z in
  if (columns <=? col)%Z then
    mkPageCursor placed 0 (pc_y c + (maxHeightInRow + spacing))%Q 0 0
  else
    mkPageCursor placed (pc_x c + (widthOf node + spacing))%Q (pc_y c) maxHeightInRow col.

(** One round of the list loop: the nodes placed so far and [y]. *)
Definition placeInList (spacing : Q) (c : list Placed * Q) (node : Placed)
    : list Placed * Q :=
  (c.1 ++ [moveTo 0 c.2 node], (c.2 + (heightOf node + spacing))%Q).

(** A text node made by [addAnnotations]; [text_appended] tells whether it
    was appended to the parent of the node it labels. *)
Record TextNode := mkTextNode {
  text_characters : string;
  text_fontSize : Q;
  text_x : Q;
  text_y : Q;
  text_appended : bool
}.

(** [addAnnotations(nodes, settings)]: the text nodes it creates, in order. *)
Definition addAnnotations (nodes : list Placed) (settings : TransferSettings)
    : list TextNode :=
  flat_map
    (fun node =>
       if ts_includeDescriptions settings then
         let description :=
           if bool_decide (node_description (pl_node node) = EmptyString)
           then node_name (pl_node node)
           else node_description (pl_node node) in
         [mkTextNode description 12 (pl_x node) (pl_y node - 20)%Q
            (bool_decide (node_parents (pl_node node) <> []))]
       else [])
    nodes.

(** [organizeComponentsOnPage(nodes, settings, page)]: the nodes where it
    put them and the annotations it added. *)
Definition organizeComponentsOnPage (nodes : list Placed) (settings : TransferSettings)
    : list Placed * list TextNode :=
  if bool_decide (length nodes = 0%nat) then (nodes, [])
  else
    let spacing := ts_spacing settings in
    let placed :=
      match ts_layoutType settings with
      | GridLayout =>
          pc_placed (fold_left (placeInGrid spacing (ts_gridColumns settings)) nodes
                       (mkPageCursor [] 0 0 0 0))
      | ListLayout => (fold_left (placeInList spacing) nodes ([], 0%Q)).1
      end in
    (placed,
     if ts_includeAnnotations settings then addAnnotations placed settings else []).

End Collector.

(** ** utils/storage.ts *)
Module Storage.

(** The values a settings object holds. *)
#[local] Unset Elimination Schemes.
Inductive JsValue :=
  | JsNumber (q : Q)
  | JsString (s : string)
  | JsBoolean (b : bool)
  | JsObject (fields : list (string * JsValue)).
#[local] Set Elimination Schemes.

(** A settings object: its own properties in insertion order. *)
Definition Settings := list (string * JsValue).

(** The object spread [{ ...base, ...overrides }]. *)
Definition spread (base overrides : Settings) : Settings :=
  fold_left (fun acc entry => map_set entry.1 entry.2 acc) overrides base.

Definition DEFAULT_SETTINGS : Settings :=
  [ ("spacing", JsNumber 200);
    ("groupingMethod", JsString "hierarchy");
    ("layoutType", JsString "grid");
    ("gridColumns", JsNumber 4);
    ("autoNavigate", JsBoolean true);
    ("autoSelect", JsBoolean true);
    ("includeAnnotations", JsBoolean true);
    ("includeDescriptions", JsBoolean true);
    ("includeHidden", JsBoolean false);
    ("transferPageBehavior", JsString "ask");
    ("batchSize", JsNumber 10);
    ("enableCache", JsBoolean true);
    ("virtualScrollThreshold", JsNumber 100);
    ("shortcuts",
     JsObject [ ("analyze", JsString "Ctrl+T");
                ("execute", JsString "Ctrl+Enter");
                ("goToTransferPage", JsString "Ctrl+G");
                ("prepareForCopy", JsString "Ctrl+C");
                ("cancel", JsString "Escape");
                ("undo", JsString "Ctrl+Z") ]) ].

Record TransferStats := mkTransferStats {
  componentsTransferred : Z;
  variantSetsTransferred : Z;
  processingTime : Z;
  warningCount : Z
}.

Inductive HistoryStatus := success | warning | error.

Record HistoryEntry := mkHistoryEntry {
  he_id : string;
  he_timestamp : Z;
  he_componentIds : list string;
  he_componentNames : list string;
  he_stats : TransferStats;
  he_status : HistoryStatus;
  he_warnings : list Warning;
  he_duration : Z
}.

Definition MAX_HISTORY_ENTRIES : nat := 50.

(** Modelled from the host API: [figma.clientStorage] keeps what the plugin
    stored under its two keys, the settings object and the history array;
    while it is not [available] every call to it rejects. *)
Record ClientStorage := mkClientStorage {
  storedSettings : option Settings;
  storedHistory : option (list HistoryEntry);
  available : bool
}.

(** [loadSettings()]. *)
Definition loadSettings (store : ClientStorage) : Settings :=
  if available store then
    match storedSettings store with
    | Some stored => spread DEFAULT_SETTINGS stored
    | None => DEFAULT_SETTINGS
    end
  else DEFAULT_SETTINGS.

(** [saveSettings(settings)]: the store afterwards and, when the call
    throws, the message of the error. *)
Definition saveSettings (settings : Settings) (store : ClientStorage)
    : ClientStorage * (string + unit) :=
  if available store then
    (mkClientStorage (Some settings) (storedHistory store) (available store), inr tt)
  else (store, inl "Failed to save settings").

(** [updateSettings(updates)]. *)
Definition updateSettings (updates : Settings) (store : ClientStorage)
    : ClientStorage * (string + Settings) :=
  let current := loadSettings store in
  let updated := spread current updates in
  match saveSettings updated store with
  | (store', inr _) => (store', inr updated)
  | (store', inl message) => (store', inl message)
  end.

(** [resetSettings()]. *)
Definition resetSettings (store : ClientStorage) : ClientStorage * (string + Settings) :=
  match saveSettings DEFAULT_SETTINGS store with
  | (store', inr _) => (store', inr DEFAULT_SETTINGS)
  | (store', inl message) => (store', inl message)
  end.

(** [loadHistory()]. *)
Definition loadHistory (store : ClientStorage) : list HistoryEntry :=
  if available store then
    match storedHistory store with
    | Some stored => stored
    | None => []
    end
  else [].

(** [saveHistory(history)]. *)
Definition saveHistory (history : list HistoryEntry) (store : ClientStorage)
    : ClientStorage * (string + unit) :=
  if available store then
    let trimmed := take MAX_HISTORY_ENTRIES history in
    (mkClientStorage (storedSettings store) (Some trimmed) (available store), inr tt)
  else (store, inl "Failed to save history").

(** [addHistoryEntry(entry)]. *)
Definition addHistoryEntry (entry : HistoryEntry) (store : ClientStorage)
    : ClientStorage * (string + unit) :=
  let history := loadHistory store in
  let history := entry :: history in
  saveHistory history store.

(** [clearHistory()]. *)
Definition clearHistory (store : ClientStorage) : ClientStorage * (string + unit) :=
  saveHistory [] store.

End Storage.

(** * Part II: properties *)

(** ** Rounding *)

(** [double] picks the nearest number with a whole significand of 53 bits,
    keeps the order of numbers that are not negative, keeps signs, and
    leaves the whole numbers up to [2^53] in size as they are. *)
Section RoundingFacts.
#[local] Open Scope Q_scope.

Lemma Math_round_mono (x y : Q) : x <= y -> (Math_round x <= Math_round y)%Z.
Proof. intros H. unfold Math_round. apply Qfloor_resp_le. lra. Qed.

Lemma Math_round_Z (n : Z) : Math_round (inject_Z n) = n.
Proof.
  unfold Math_round.
  pose proof (Qfloor_le (inject_Z n + (1 # 2))) as Hlo.
  pose proof (Qlt_floor (inject_Z n + (1 # 2))) as Hhi.
  assert (H1 : inject_Z (Qfloor (inject_Z n + (1 # 2))) < inject_Z (n + 1)).
  { rewrite inject_Z_plus. change (inject_Z 1) with 1. lra. }
  assert (H2 : inject_Z n < inject_Z (Qfloor (inject_Z n + (1 # 2)) + 1)) by lra.
  rewrite <- Zlt_Qlt in H1, H2. lia.
Qed.

Lemma roundHalfEven_comp (x y : Q) : x == y -> roundHalfEven x = roundHalfEven y.
Proof.
  intros H. unfold roundHalfEven. rewrite (Qfloor_comp _ _ H).
  assert (Hc : (x - inject_Z (Qfloor y) ?= 1 # 2) = (y - inject_Z (Qfloor y) ?= 1 # 2)).
  { apply Qcompare_comp; [rewrite H|]; reflexivity. }
  rewrite Hc. reflexivity.
Qed.

Lemma roundHalfEven_near (x : Q) :
  inject_Z (roundHalfEven x) - (1 # 2) <= x <= inject_Z (roundHalfEven x) + (1 # 2).
Proof.
  unfold roundHalfEven.
  pose proof (Qfloor_le x) as Hlo. pose proof (Qlt_floor x) as Hhi.
  rewrite inject_Z_plus in Hhi. change (inject_Z 1) with 1 in Hhi.
  destruct (Qcompare_spec (x - inject_Z (Qfloor x)) (1 # 2)) as [He|Hl|Hg].
  - destruct (Z.even (Qfloor x)); rewrite ?inject_Z_plus; change (inject_Z 1) with 1; lra.
  - lra.
  - rewrite inject_Z_plus. change (inject_Z 1) with 1. lra.
Qed.

Lemma roundHalfEven_mono (x y : Q) : x <= y -> (roundHalfEven x <= roundHalfEven y)%Z.
Proof.
  intros Hxy. destruct (Z_le_gt_dec (roundHalfEven x) (roundHalfEven y)) as [H|H]; [exact H|].
  exfalso.
  pose proof (roundHalfEven_near x) as [Hx _]. pose proof (roundHalfEven_near y) as [_ Hy].
  assert (H1 : inject_Z (roundHalfEven y) + 1 <= inject_Z (roundHalfEven x)).
  { change 1 with (inject_Z 1). rewrite <- inject_Z_plus, <- Zle_Qle. lia. }
  assert (Heq : x == y) by lra.
  apply roundHalfEven_comp in Heq. lia.
Qed.

Lemma roundHalfEven_Z (n : Z) : roundHalfEven (inject_Z n) = n.
Proof.
  unfold roundHalfEven. rewrite Qfloor_Z.
  destruct (Qcompare_spec (inject_Z n - inject_Z n) (1 # 2)) as [H|H|H];
    [exfalso; lra | reflexivity | exfalso; lra].
Qed.

Lemma pow2_pos (e : Z) : 0 < 2 ^ e.
Proof. apply Qpower_0_lt. reflexivity. Qed.

Lemma pow2_plus (a b : Z) : 2 ^ (a + b) == 2 ^ a * 2 ^ b.
Proof. apply Qpower_plus. discriminate. Qed.

Lemma pow2_Z (n : Z) : (0 <= n)%Z -> inject_Z (2 ^ n) == 2 ^ n.
Proof. intros H. rewrite Zpower_Qpower by exact H. reflexivity. Qed.

(** The binade of a number other than 0. *)
Lemma binade_bounds (x : Q) :
  ~ x == 0 -> 2 ^ 52 <= Qabs x / 2 ^ binade x /\ Qabs x / 2 ^ binade x < 2 ^ 53.
Proof.
  intros Hx. unfold binade.
  set (a := Z.abs (Qnum x)). set (b := Zpos (Qden x)).
  set (e0 := (Z.log2 a - Z.log2 b - 52)%Z).
  assert (Ha : (0 < a)%Z).
  { unfold a. destruct x as [n d]. simpl. unfold Qeq in Hx. simpl in Hx. lia. }
  assert (Hb : (0 < b)%Z) by (unfold b; lia).
  destruct (Z.log2_spec a Ha) as [Ha1 Ha2]. destruct (Z.log2_spec b Hb) as [Hb1 Hb2].
  pose proof (Z.log2_nonneg a) as Hla. pose proof (Z.log2_nonneg b) as Hlb.
  assert (Habs : Qabs x == inject_Z a / inject_Z b).
  { destruct x as [n d]. unfold a, b. simpl Qnum. simpl Qden.
    rewrite <- Zabs_Qabs. unfold Qeq, Qdiv, Qmult, Qinv, inject_Z. simpl. lia. }
  assert (Hbq : 0 < inject_Z b) by (change 0 with (inject_Z 0); rewrite <- Zlt_Qlt; exact Hb).
  (* a / b lies strictly between 2^(e0+51) and 2^(e0+53) *)
  assert (Hlow : 2 ^ 51 < Qabs x / 2 ^ e0).
  { apply Qlt_shift_div_l; [apply pow2_pos|]. rewrite <- pow2_plus, Habs.
    apply Qlt_shift_div_l; [exact Hbq|].
    replace (51 + e0)%Z with (Z.log2 a - Z.succ (Z.log2 b))%Z by (unfold e0; lia).
    assert (H2 : 2 ^ (Z.log2 a - Z.succ (Z.log2 b)) * 2 ^ Z.succ (Z.log2 b) == 2 ^ Z.log2 a).
    { rewrite <- pow2_plus. replace (Z.log2 a - Z.succ (Z.log2 b) + Z.succ (Z.log2 b))%Z
        with (Z.log2 a) by lia. reflexivity. }
    apply Qlt_le_trans with (2 ^ (Z.log2 a - Z.succ (Z.log2 b)) * 2 ^ Z.succ (Z.log2 b)).
    - apply Qmult_lt_l; [apply pow2_pos|].
      rewrite <- pow2_Z by lia. rewrite <- Zlt_Qlt. exact Hb2.
    - rewrite H2, <- pow2_Z by lia. rewrite <- Zle_Qle. exact Ha1. }
  assert (Hhigh : Qabs x / 2 ^ e0 < 2 ^ 53).
  { apply Qlt_shift_div_r; [apply pow2_pos|]. rewrite <- pow2_plus, Habs.
    apply Qlt_shift_div_r; [exact Hbq|].
    replace (53 + e0)%Z with (Z.succ (Z.log2 a) - Z.log2 b)%Z by (unfold e0; lia).
    assert (H2 : 2 ^ (Z.succ (Z.log2 a) - Z.log2 b) * 2 ^ Z.log2 b == 2 ^ Z.succ (Z.log2 a)).
    { rewrite <- pow2_plus. replace (Z.succ (Z.log2 a) - Z.log2 b + Z.log2 b)%Z
        with (Z.succ (Z.log2 a)) by lia. reflexivity. }
    apply Qlt_le_trans with (2 ^ (Z.succ (Z.log2 a) - Z.log2 b) * 2 ^ Z.log2 b).
    - rewrite H2, <- pow2_Z by lia. rewrite <- Zlt_Qlt. exact Ha2.
    - apply Qmult_le_l; [apply pow2_pos|].
      rewrite <- pow2_Z by lia. rewrite <- Zle_Qle. exact Hb1. }
  destruct (Qle_bool (2 ^ 52) (Qabs x / 2 ^ e0)) eqn:Hle.
  - apply Qle_bool_iff in Hle. split; assumption.
  - assert (Hlt : Qabs x / 2 ^ e0 < 2 ^ 52).
    { apply Qnot_le_lt. intros H. apply Qle_bool_iff in H. congruence. }
    assert (Hhalf : Qabs x / 2 ^ (e0 - 1) == 2 * (Qabs x / 2 ^ e0)).
    { assert (H2 : 2 ^ e0 == 2 ^ (e0 - 1) * 2).
      { change 2 with (2 ^ 1) at 3. rewrite <- pow2_plus.
        replace (e0 - 1 + 1)%Z with e0 by lia. reflexivity. }
      rewrite H2. field. pose proof (pow2_pos (e0 - 1)). lra. }
    rewrite Hhalf. change (2 ^ 52) with (2 * 2 ^ 51). change (2 ^ 53) with (2 * 2 ^ 52).
    split; lra.
Qed.

Lemma Qle_div_iff (a b c : Q) : 0 < c -> (a <= b / c <-> a * c <= b).
Proof.
  intros Hc. rewrite <- (Qmult_le_r a (b / c) c Hc).
  assert (H : b / c * c == b) by (field; lra). rewrite H. reflexivity.
Qed.

Lemma Qdiv_lt_iff (a b c : Q) : 0 < c -> (b / c < a <-> b < a * c).
Proof.
  intros Hc. rewrite <- (Qmult_lt_r (b / c) a c Hc).
  assert (H : b / c * c == b) by (field; lra). rewrite H. reflexivity.
Qed.

(** Only one exponent puts a number into the range of the significands. *)
Lemma binade_unique (x : Q) (e : Z) :
  2 ^ 52 <= Qabs x / 2 ^ e -> Qabs x / 2 ^ e < 2 ^ 53 -> ~ x == 0 -> binade x = e.
Proof.
  intros Hlo Hhi Hx. destruct (binade_bounds x Hx) as [Blo Bhi].
  apply (proj1 (Qle_div_iff (2 ^ 52) _ _ (pow2_pos e))) in Hlo.
  apply (proj1 (Qle_div_iff (2 ^ 52) _ _ (pow2_pos (binade x)))) in Blo.
  apply (proj1 (Qdiv_lt_iff (2 ^ 53) _ _ (pow2_pos e))) in Hhi.
  apply (proj1 (Qdiv_lt_iff (2 ^ 53) _ _ (pow2_pos (binade x)))) in Bhi.
  rewrite <- pow2_plus in Hlo, Hhi, Blo, Bhi.
  assert (H5 : 2 ^ (52 + e) < 2 ^ (53 + binade x)) by (eapply Qle_lt_trans; eassumption).
  assert (H6 : 2 ^ (52 + binade x) < 2 ^ (53 + e)) by (eapply Qle_lt_trans; eassumption).
  apply Qpower_lt_compat_l_inv in H5; [|reflexivity].
  apply Qpower_lt_compat_l_inv in H6; [|reflexivity]. lia.
Qed.

Lemma binade_comp (x y : Q) : x == y -> ~ y == 0 -> binade x = binade y.
Proof.
  intros H Hy. destruct (binade_bounds y Hy) as [Blo Bhi].
  apply binade_unique; [rewrite H; exact Blo | rewrite H; exact Bhi | rewrite H; exact Hy].
Qed.

Lemma double_comp (x y : Q) : x == y -> double x == double y.
Proof.
  intros H. unfold double.
  destruct (Qeq_bool y 0) eqn:Hy.
  - apply Qeq_bool_iff in Hy.
    assert (Hx : Qeq_bool x 0 = true) by (apply Qeq_bool_iff; rewrite H; exact Hy).
    rewrite Hx. reflexivity.
  - assert (Hy' : ~ y == 0) by (intros E; apply Qeq_bool_iff in E; congruence).
    assert (Hx : Qeq_bool x 0 = false).
    { destruct (Qeq_bool x 0) eqn:E; [|reflexivity].
      apply Qeq_bool_iff in E. rewrite H in E. contradiction. }
    rewrite Hx, (binade_comp x y H Hy').
    rewrite (roundHalfEven_comp (x / 2 ^ binade y) (y / 2 ^ binade y)) by (rewrite H; reflexivity).
    reflexivity.
Qed.

#[global] Instance double_Proper : Proper (Qeq ==> Qeq) double.
Proof. intros x y H. apply double_comp, H. Qed.

Lemma double_nonneg (x : Q) : 0 <= x -> 0 <= double x.
Proof.
  intros Hx. unfold double. destruct (Qeq_bool x 0); [apply Qle_refl|].
  apply Qmult_le_0_compat; [|apply Qlt_le_weak, pow2_pos].
  change 0 with (inject_Z 0). rewrite <- Zle_Qle.
  rewrite <- (roundHalfEven_Z 0). apply roundHalfEven_mono.
  change (inject_Z 0) with 0. apply Qle_shift_div_l; [apply pow2_pos|]. lra.
Qed.

Lemma double_nonpos (x : Q) : x <= 0 -> double x <= 0.
Proof.
  intros Hx. unfold double. destruct (Qeq_bool x 0); [apply Qle_refl|].
  assert (H : (roundHalfEven (x / 2 ^ binade x) <= 0)%Z).
  { rewrite <- (roundHalfEven_Z 0). apply roundHalfEven_mono.
    change (inject_Z 0) with 0. apply Qle_shift_div_r; [apply pow2_pos|]. lra. }
  rewrite Zle_Qle in H. change (inject_Z 0) with 0 in H.
  pose proof (pow2_pos (binade x)). nra.
Qed.

(** A positive number is rounded within its binade. *)
Lemma double_binade (x : Q) :
  0 < x -> 2 ^ (52 + binade x) <= double x <= 2 ^ (53 + binade x).
Proof.
  intros Hx. assert (Hne : ~ x == 0) by lra.
  destruct (binade_bounds x Hne) as [Blo Bhi].
  rewrite (Qabs_pos x) in Blo, Bhi by lra.
  unfold double.
  assert (Hz : Qeq_bool x 0 = false).
  { destruct (Qeq_bool x 0) eqn:E; [|reflexivity]. apply Qeq_bool_iff in E. contradiction. }
  rewrite Hz, !pow2_plus.
  pose proof (pow2_pos (binade x)) as Hp.
  assert (H52 : (2 ^ 52 <= roundHalfEven (x / 2 ^ binade x))%Z).
  { rewrite <- (roundHalfEven_Z (2 ^ 52)) at 1. apply roundHalfEven_mono.
    rewrite pow2_Z by lia. exact Blo. }
  assert (H53 : (roundHalfEven (x / 2 ^ binade x) <= 2 ^ 53)%Z).
  { rewrite <- (roundHalfEven_Z (2 ^ 53)) at 1. apply roundHalfEven_mono.
    rewrite pow2_Z by lia. apply Qlt_le_weak, Bhi. }
  rewrite Zle_Qle in H52, H53. rewrite pow2_Z in H52, H53 by lia.
  split; apply Qmult_le_r; assumption.
Qed.

(** The double is at most half a unit of the last place away. *)
Lemma double_near (x : Q) :
  ~ x == 0 -> Qabs (double x - x) <= 2 ^ binade x * (1 # 2).
Proof.
  intros Hx. unfold double.
  assert (Hz : Qeq_bool x 0 = false).
  { destruct (Qeq_bool x 0) eqn:E; [|reflexivity]. apply Qeq_bool_iff in E. contradiction. }
  rewrite Hz. pose proof (pow2_pos (binade x)) as Hp.
  pose proof (roundHalfEven_near (x / 2 ^ binade x)) as [Hlo Hhi].
  set (n := inject_Z (roundHalfEven (x / 2 ^ binade x))) in *.
  assert (Hm : x == x / 2 ^ binade x * 2 ^ binade x) by (field; lra).
  apply Qabs_Qle_condition. split.
  - assert (H : (n - (1 # 2)) * 2 ^ binade x <= x / 2 ^ binade x * 2 ^ binade x)
      by (apply Qmult_le_r; assumption).
    rewrite <- Hm in H. nra.
  - assert (H : x / 2 ^ binade x * 2 ^ binade x <= (n + (1 # 2)) * 2 ^ binade x)
      by (apply Qmult_le_r; assumption).
    rewrite <- Hm in H. nra.
Qed.

Lemma binade_mono (x y : Q) : 0 < x -> x <= y -> (binade x <= binade y)%Z.
Proof.
  intros Hx Hxy.
  assert (Hnx : ~ x == 0) by lra. assert (Hny : ~ y == 0) by lra.
  destruct (binade_bounds x Hnx) as [Xlo _]. destruct (binade_bounds y Hny) as [_ Yhi].
  rewrite Qabs_pos in Xlo, Yhi by lra.
  apply (proj1 (Qle_div_iff (2 ^ 52) _ _ (pow2_pos (binade x)))) in Xlo.
  apply (proj1 (Qdiv_lt_iff (2 ^ 53) _ _ (pow2_pos (binade y)))) in Yhi.
  rewrite <- pow2_plus in Xlo, Yhi.
  assert (H : 2 ^ (52 + binade x) < 2 ^ (53 + binade y)) by lra.
  apply Qpower_lt_compat_l_inv in H; [|reflexivity]. lia.
Qed.

(** Rounding to a double keeps the order of numbers that are not negative. *)
Lemma double_mono (x y : Q) : 0 <= x -> x <= y -> double x <= double y.
Proof.
  intros Hx Hxy.
  destruct (Qeq_dec x 0) as [Hx0|Hx0].
  { rewrite Hx0. change (double 0) with 0. apply double_nonneg. lra. }
  assert (Hxp : 0 < x) by lra. assert (Hyp : 0 < y) by lra.
  pose proof (binade_mono x y Hxp Hxy) as He.
  destruct (Z.eq_dec (binade x) (binade y)) as [Heq|Hneq].
  - unfold double.
    assert (Hzx : Qeq_bool x 0 = false).
    { destruct (Qeq_bool x 0) eqn:E; [|reflexivity]. apply Qeq_bool_iff in E. contradiction. }
    assert (Hzy : Qeq_bool y 0 = false).
    { destruct (Qeq_bool y 0) eqn:E; [|reflexivity]. apply Qeq_bool_iff in E. lra. }
    rewrite Hzx, Hzy, Heq.
    apply Qmult_le_r; [apply pow2_pos|]. rewrite <- Zle_Qle.
    apply roundHalfEven_mono. apply Qle_shift_div_l; [apply pow2_pos|].
    assert (H : x / 2 ^ binade y * 2 ^ binade y == x) by (field; pose proof (pow2_pos (binade y)); lra).
    rewrite H. exact Hxy.
  - destruct (double_binade x Hxp) as [_ Hxhi]. destruct (double_binade y Hyp) as [Hylo _].
    assert (Hle : 2 ^ (53 + binade x) <= 2 ^ (52 + binade y)).
    { apply Qpower_le_compat_l; [lia | discriminate]. }
    lra.
Qed.

(** A number whose significand is whole is a double. *)
Lemma double_exact (x : Q) (n : Z) :
  ~ x == 0 -> x / 2 ^ binade x == inject_Z n -> double x == x.
Proof.
  intros Hx Hn. unfold double.
  assert (Hz : Qeq_bool x 0 = false).
  { destruct (Qeq_bool x 0) eqn:E; [|reflexivity]. apply Qeq_bool_iff in E. contradiction. }
  rewrite Hz, (roundHalfEven_comp _ _ Hn), roundHalfEven_Z, <- Hn.
  field. pose proof (pow2_pos (binade x)). lra.
Qed.

(** The whole numbers up to [2^53] in size are doubles. *)
Lemma double_Z (z : Z) : (Z.abs z <= 2 ^ 53)%Z -> double (inject_Z z) == inject_Z z.
Proof.
  intros Hz. destruct (Z.eq_dec z 0%Z) as [->|Hne]; [reflexivity|].
  assert (Hx : ~ inject_Z z == 0).
  { change 0 with (inject_Z 0). rewrite inject_Z_injective. exact Hne. }
  destruct (binade_bounds _ Hx) as [Blo _].
  set (e := binade (inject_Z z)) in *.
  assert (Habs : Qabs (inject_Z z) == inject_Z (Z.abs z)).
  { unfold inject_Z. rewrite <- Zabs_Qabs. reflexivity. }
  apply (proj1 (Qle_div_iff (2 ^ 52) _ _ (pow2_pos e))) in Blo.
  rewrite <- pow2_plus, Habs in Blo.
  assert (He : (e <= 1)%Z).
  { assert (H : 2 ^ (52 + e) <= 2 ^ 53).
    { rewrite <- (pow2_Z 53) by lia. eapply Qle_trans; [exact Blo|].
      rewrite <- Zle_Qle. exact Hz. }
    apply Qpower_le_compat_l_inv in H; [lia | reflexivity]. }
  destruct (Z.eq_dec e 1%Z) as [He1|He1].
  - (* only [2^53] and its opposite have exponent 1 *)
    rewrite He1 in Blo. change (2 ^ (52 + 1)) with (inject_Z (2 ^ 53)) in Blo.
    rewrite <- Zle_Qle in Blo.
    apply (double_exact _ (z / 2)); [exact Hx|]. fold e. rewrite He1.
    assert (Hz2 : z = (2 * (z / 2))%Z).
    { assert (Ha : Z.abs z = (2 ^ 53)%Z) by lia.
      destruct (Z.abs_eq_or_opp z) as [E|E]; rewrite E in Ha.
      - rewrite Ha. reflexivity.
      - assert (z = (- 2 ^ 53)%Z) by lia. subst z. reflexivity. }
    rewrite Hz2 at 1. rewrite inject_Z_mult. change (inject_Z 2) with 2.
    change (2 ^ 1) with 2. field.
  - apply (double_exact _ (z * 2 ^ (- e))); [exact Hx|]. fold e.
    rewrite inject_Z_mult, pow2_Z by lia.
    assert (H : 2 ^ (- e) * 2 ^ e == 1).
    { rewrite <- pow2_plus. replace (- e + e)%Z with 0%Z by lia. reflexivity. }
    pose proof (pow2_pos e) as Hp. pose proof (pow2_pos (- e)) as Hq.
    unfold Qdiv. rewrite <- (Qmult_1_r (/ 2 ^ e)), <- H. field. lra.
Qed.
#[global] Instance Math_round_Proper : Proper (Qeq ==> eq) Math_round.
Proof. intros x y H. unfold Math_round. apply Qfloor_comp. rewrite H. reflexivity. Qed.

Lemma double_1 : double 1 == 1.
Proof. vm_compute. reflexivity. Qed.

Lemma double_100 : double 100 == 100.
Proof. vm_compute. reflexivity. Qed.
End RoundingFacts.

Lemma list_max_elem (l : list nat) (n : nat) : n ∈ l -> (n <= list_max l)%nat.
Proof. induction 1; simpl; lia. Qed.

(** ** Layout spacing *)
Section LayoutFacts.
Import Layout.

Lemma calculateOptimalSpacing_small (count : Z) (s : Q) :
  (count <= 50)%Z -> calculateOptimalSpacing count s = s.
Proof.
  intros H. unfold calculateOptimalSpacing.
  destruct (Z.ltb_spec 50 count); [lia|].
  destruct (Z.ltb_spec 100 count); [lia|]. reflexivity.
Qed.

(** Every count above 50, also one above 100, takes the first branch. *)
Lemma calculateOptimalSpacing_large (count : Z) (s : Q) :
  (50 < count)%Z -> calculateOptimalSpacing count s = (s * (3 # 2))%Q.
Proof.
  intros H. unfold calculateOptimalSpacing.
  destruct (Z.ltb_spec 50 count); [reflexivity | lia].
Qed.

(** C3: for a count above 100 the spacing should be doubled; at count 150
    and base spacing 200 the function returns 300 and not 400, because the
    test for 50 is made before the test for 100. *)
Theorem calculateOptimalSpacing_150_not_doubled :
  (calculateOptimalSpacing 150 200 == 300)%Q /\
  ~ (calculateOptimalSpacing 150 200 == 200 * 2)%Q.
Proof.
  rewrite calculateOptimalSpacing_large by lia.
  split; [reflexivity | intros H; discriminate H].
Qed.
End LayoutFacts.

(** ** Progress tracker *)
Section ProgressFacts.
Import Progress.

Lemma percentageOf_no_total (p t : Z) : (t <= 0)%Z -> percentageOf p t = 0%Z.
Proof.
  intros H. unfold percentageOf. destruct (Z.ltb_spec 0 t); [lia | reflexivity].
Qed.

(** The quotient of a counter by a positive total, as a double. *)
Lemma quotient_nonneg (p t : Z) :
  (0 <= p)%Z -> (0 < t)%Z -> (0 <= inject_Z p / inject_Z t)%Q.
Proof.
  intros Hp Ht. apply Qle_shift_div_l.
  - change 0%Q with (inject_Z 0). rewrite <- Zlt_Qlt. exact Ht.
  - rewrite Qmult_0_l. change 0%Q with (inject_Z 0). rewrite <- Zle_Qle. exact Hp.
Qed.

Lemma quotient_mono (p q t : Z) :
  (p <= q)%Z -> (0 < t)%Z -> (inject_Z p / inject_Z t <= inject_Z q / inject_Z t)%Q.
Proof.
  intros Hpq Ht. unfold Qdiv. apply Qmult_le_compat_r.
  - rewrite <- Zle_Qle. exact Hpq.
  - apply Qinv_le_0_compat. change 0%Q with (inject_Z 0). rewrite <- Zle_Qle. lia.
Qed.

Lemma percentageOf_mono (p q t : Z) :
  (0 <= p)%Z -> (p <= q)%Z -> (percentageOf p t <= percentageOf q t)%Z.
Proof.
  intros Hp Hpq. unfold percentageOf. destruct (Z.ltb_spec 0 t) as [Ht|Ht]; [|lia].
  pose proof (quotient_nonneg p t Hp Ht) as H0.
  pose proof (quotient_mono p q t Hpq Ht) as H1.
  pose proof (double_nonneg _ H0) as H2.
  pose proof (double_mono _ _ H0 H1) as H3.
  apply Math_round_mono, double_mono; lra.
Qed.

Lemma percentageOf_nonneg (p t : Z) : (0 <= p)%Z -> (0 <= percentageOf p t)%Z.
Proof.
  intros Hp. unfold percentageOf. destruct (Z.ltb_spec 0 t) as [Ht|Ht]; [|lia].
  pose proof (double_nonneg _ (quotient_nonneg p t Hp Ht)) as H.
  change 0%Z with (Math_round 0). apply Math_round_mono, double_nonneg. lra.
Qed.

Lemma percentageOf_le_100 (p t : Z) : (p <= t)%Z -> (percentageOf p t <= 100)%Z.
Proof.
  intros Hp. unfold percentageOf. destruct (Z.ltb_spec 0 t) as [Ht|Ht]; [|lia].
  change 100%Z with (Math_round 100). apply Math_round_mono.
  assert (Ht' : (0 < inject_Z t)%Q) by (change 0%Q with (inject_Z 0); rewrite <- Zlt_Qlt; exact Ht).
  assert (Hq : (inject_Z p / inject_Z t <= 1)%Q).
  { apply Qle_shift_div_r; [exact Ht'|]. rewrite Qmult_1_l, <- Zle_Qle. exact Hp. }
  destruct (Z_le_gt_dec 0 p) as [Hp0|Hp0].
  - pose proof (quotient_nonneg p t Hp0 Ht) as H0.
    pose proof (double_nonneg _ H0) as H1.
    pose proof (double_mono _ 1 H0 Hq) as H2. rewrite double_1 in H2.
    assert (H3 : (double (double (inject_Z p / inject_Z t) * 100) <= double 100)%Q)
      by (apply double_mono; lra).
    rewrite double_100 in H3. exact H3.
  - assert (Hneg : (inject_Z p / inject_Z t <= 0)%Q).
    { apply Qle_shift_div_r; [exact Ht'|]. rewrite Qmult_0_l.
      change 0%Q with (inject_Z 0). rewrite <- Zle_Qle. lia. }
    pose proof (double_nonpos _ Hneg) as H1.
    assert (H2 : (double (double (inject_Z p / inject_Z t) * 100) <= 0)%Q)
      by (apply double_nonpos; lra).
    apply Qle_trans with 0%Q; [exact H2 | discriminate].
Qed.

(** Nothing done is 0 percent and everything done is 100 percent. *)
Lemma percentageOf_none (t : Z) : percentageOf 0 t = 0%Z.
Proof.
  unfold percentageOf. destruct (0 <? t)%Z; [|reflexivity].
  assert (H : (inject_Z 0 / inject_Z t == 0)%Q) by (unfold Qdiv; apply Qmult_0_l).
  rewrite H. vm_compute. reflexivity.
Qed.

Lemma percentageOf_all (t : Z) : (0 < t)%Z -> percentageOf t t = 100%Z.
Proof.
  intros Ht. unfold percentageOf. destruct (Z.ltb_spec 0 t) as [_|]; [|lia].
  assert (H : (inject_Z t / inject_Z t == 1)%Q).
  { field. change 0%Q with (inject_Z 0). rewrite inject_Z_injective. lia. }
  rewrite H. vm_compute. reflexivity.
Qed.

(** What one advancing call appends to the reports. *)
Lemma advance_reported (t : ProgressTracker) (c : Advance) :
  hasCallback t = true ->
  exists r,
    reported (advance t c) = reported t ++ [r] /\
    pi_processed r = processed (advance t c) /\
    pi_percentage r = percentageOf (pi_processed r) (total t) /\
    [processed (advance t c)] = processedAfter (processed t) [c] /\
    total (advance t c) = total t /\
    hasCallback (advance t c) = true.
Proof.
  intros Hcb. destruct c as [now item | now p item]; simpl;
    unfold increment, updateProgress, update; simpl; rewrite Hcb; simpl;
    eexists; repeat split; reflexivity.
Qed.

Lemma advanceAll_reported (calls : list Advance) (t : ProgressTracker) :
  hasCallback t = true ->
  exists rs,
    reported (advanceAll calls t) = reported t ++ rs /\
    map pi_processed rs = processedAfter (processed t) calls /\
    Forall (fun r => pi_percentage r = percentageOf (pi_processed r) (total t)) rs.
Proof.
  revert t. induction calls as [|c calls IH]; intros t Hcb.
  - exists []. simpl. rewrite app_nil_r. repeat split; constructor.
  - destruct (advance_reported t c Hcb) as (r & Hr & Hp & Hpct & Htr & Htot & Hcb').
    destruct (IH (advance t c) Hcb') as (rs & Hrs & Hps & Hall).
    exists (r :: rs). simpl. split; [|split].
    + unfold advanceAll in *. simpl. rewrite Hrs, Hr, <- app_assoc. reflexivity.
    + rewrite Hps, Hp. destruct c; simpl in *; congruence.
    + constructor; [exact Hpct|]. rewrite Htot in Hall. exact Hall.
Qed.

Lemma processedAfter_sorted (cur : Z) (calls : list Advance) :
  nonDecreasingFrom cur calls ->
  StronglySorted Z.le (cur :: processedAfter cur calls).
Proof.
  revert cur. induction calls as [|c calls IH]; intros cur Hnd.
  - repeat constructor.
  - destruct c as [now item | now p item]; simpl in *.
    + specialize (IH _ Hnd). constructor; [exact IH|].
      apply StronglySorted_inv in IH as [_ Hall].
      constructor; [lia|]. eapply Forall_impl; [exact Hall|]. simpl. intros; lia.
    + destruct Hnd as [Hle Hnd]. specialize (IH _ Hnd).
      constructor; [exact IH|].
      apply StronglySorted_inv in IH as [_ Hall].
      constructor; [lia|]. eapply Forall_impl; [exact Hall|]. simpl. intros; lia.
Qed.

Lemma StronglySorted_map_mono (f : Z -> Z) (l : list Z) :
  (forall a b, (0 <= a)%Z -> (a <= b)%Z -> (f a <= f b)%Z) ->
  Forall (fun a => (0 <= a)%Z) l ->
  StronglySorted Z.le l -> StronglySorted Z.le (map f l).
Proof.
  intros Hf Hpos Hs. induction Hs as [|a l Hs IH Hall]; simpl; constructor.
  - apply IH. by apply Forall_inv_tail in Hpos.
  - apply Forall_inv in Hpos.
    apply Forall_map. eapply Forall_impl; [exact Hall|]. simpl. intros b Hb.
    by apply Hf.
Qed.

(** C5, as the code has it: after [start(total, phase)], along calls of
    [increment] and [updateProgress] that never move the counter backwards,
    with a total and counters up to [2^53] (the whole numbers that doubles
    count exactly), each reported percentage is
    [Math.round((processed / total) * 100)] as doubles compute it, the
    quotient and the product rounded to the nearest double, when
    [total > 0], and 0 otherwise; the percentages never decrease and are at
    least 0; a percentage is at most 100 when its counter is at most
    [total]. *)
Theorem percentage_reports (t0 : ProgressTracker) (started now total0 : Z)
    (ph : Phase) (calls : list Advance) :
  hasCallback t0 = true ->
  nonDecreasingFrom 0 calls ->
  (total0 <= 2 ^ 53)%Z ->
  Forall (fun p => (p <= 2 ^ 53)%Z) (processedAfter 0 calls) ->
  exists reports,
    reported (advanceAll calls (start started now total0 ph t0)) = reported t0 ++ reports /\
    map pi_processed reports = 0%Z :: processedAfter 0 calls /\
    Forall (fun r =>
              ((0 < total0)%Z ->
               pi_percentage r
               = Math_round
                   (double (double (inject_Z (pi_processed r) / inject_Z total0) * 100))) /\
              ((total0 <= 0)%Z -> pi_percentage r = 0%Z) /\
              (0 <= pi_percentage r)%Z /\
              ((pi_processed r <= total0)%Z -> (pi_percentage r <= 100)%Z))
           reports /\
    StronglySorted Z.le (map pi_percentage reports).
Proof.
  intros Hcb Hnd _ _.
  set (t1 := start started now total0 ph t0).
  assert (Hcb1 : hasCallback t1 = true).
  { unfold t1, start, update. simpl. rewrite Hcb. reflexivity. }
  assert (Hrep1 : reported t1 = reported t0 ++ [getProgress now
            (mkTracker ph 0 total0 started (currentItem t0) (hasCallback t0) (reported t0))]).
  { unfold t1, start, update. simpl. rewrite Hcb. reflexivity. }
  assert (Htot1 : total t1 = total0).
  { unfold t1, start, update. simpl. rewrite Hcb. reflexivity. }
  assert (Hproc1 : processed t1 = 0%Z).
  { unfold t1, start, update. simpl. rewrite Hcb. reflexivity. }
  destruct (advanceAll_reported calls t1 Hcb1) as (rs & Hrs & Hps & Hall).
  rewrite Htot1 in Hall. rewrite Hproc1 in Hps.
  pose proof (processedAfter_sorted 0 calls Hnd) as Hsorted.
  set (r0 := getProgress now
            (mkTracker ph 0 total0 started (currentItem t0) (hasCallback t0) (reported t0))) in *.
  assert (Hall' : Forall (fun r => pi_percentage r = percentageOf (pi_processed r) total0)
                         (r0 :: rs)).
  { constructor; [reflexivity | exact Hall]. }
  assert (Hps' : map pi_processed (r0 :: rs) = 0%Z :: processedAfter 0 calls).
  { simpl. rewrite Hps. reflexivity. }
  assert (Hge : Forall (fun r => (0 <= pi_processed r)%Z) (r0 :: rs)).
  { apply StronglySorted_inv in Hsorted as [_ Hge].
    rewrite <- Hps in Hge. rewrite Forall_map in Hge.
    constructor; [simpl; lia | exact Hge]. }
  exists (r0 :: rs). split; [|split; [|split]].
  - rewrite Hrs, Hrep1, <- app_assoc. reflexivity.
  - exact Hps'.
  - rewrite Forall_forall in Hall', Hge. apply Forall_forall. intros r Hr.
    specialize (Hall' r Hr). specialize (Hge r Hr). rewrite Hall'.
    repeat split.
    + intros Hpos. unfold percentageOf.
      destruct (Z.ltb_spec 0 total0); [reflexivity | lia].
    + apply percentageOf_no_total.
    + apply percentageOf_nonneg, Hge.
    + apply percentageOf_le_100.
  - assert (Hmap : map pi_percentage (r0 :: rs)
                   = map (fun p => percentageOf p total0) (map pi_processed (r0 :: rs))).
    { rewrite map_map. apply map_ext_Forall. exact Hall'. }
    rewrite Hmap, Hps'.
    apply StronglySorted_map_mono; [| |exact Hsorted].
    + intros a b Ha Hab. apply percentageOf_mono; assumption.
    + apply StronglySorted_inv in Hsorted as [_ Hfrom]. constructor; [lia | exact Hfrom].
Qed.

(** The calls of the test suite: three increments out of ten. *)
Lemma percentage_reports_witness :
  hasCallback (newTracker true) = true /\
  nonDecreasingFrom 0 [Increment 1 "a"; UpdateProgress 2 5 "b"; Increment 3 "c"] /\
  (10 <= 2 ^ 53)%Z /\
  Forall (fun p => (p <= 2 ^ 53)%Z)
    (processedAfter 0 [Increment 1 "a"; UpdateProgress 2 5 "b"; Increment 3 "c"]) /\
  exists reports,
    reported (advanceAll [Increment 1 "a"; UpdateProgress 2 5 "b"; Increment 3 "c"]
                (start 0 0 10 collecting (newTracker true)))
    = reported (newTracker true) ++ reports /\
    StronglySorted Z.le (map pi_percentage reports).
Proof.
  assert (H1 : hasCallback (newTracker true) = true) by reflexivity.
  assert (H2 : nonDecreasingFrom 0 [Increment 1 "a"; UpdateProgress 2 5 "b"; Increment 3 "c"])
    by (simpl; lia).
  assert (H3 : (10 <= 2 ^ 53)%Z) by lia.
  assert (H4 : Forall (fun p => (p <= 2 ^ 53)%Z)
                 (processedAfter 0 [Increment 1 "a"; UpdateProgress 2 5 "b"; Increment 3 "c"]))
    by (simpl; repeat constructor; lia).
  split; [exact H1 | split; [exact H2 | split; [exact H3 | split; [exact H4|]]]].
  destruct (percentage_reports (newTracker true) 0 0 10 collecting _ H1 H2 H3 H4)
    as (reports & Hr & _ & _ & Hs).
  exists reports. split; [exact Hr | exact Hs].
Defined.

(** C5 as stated fails on the upper bound: nothing keeps the counter below
    [total].  With a total of 1, two increments report 0, 100 and 200. *)
Lemma percentage_above_100 :
  nonDecreasingFrom 0 [Increment 1 ""; Increment 2 ""] /\
  map pi_percentage
    (reported (advanceAll [Increment 1 ""; Increment 2 ""]
                 (start 0 0 1 collecting (newTracker true))))
  = [0; 100; 200]%Z /\
  ~ Forall (fun r => (0 <= pi_percentage r <= 100)%Z)
      (reported (advanceAll [Increment 1 ""; Increment 2 ""]
                   (start 0 0 1 collecting (newTracker true)))).
Proof.
  split; [exact I|]. split; [vm_compute; reflexivity|].
  intros H. rewrite Forall_forall in H.
  specialize (H (mkProgressInfo collecting 200 "" 2 1 (Batcher.estimateTimeRemaining 2 2 1 0))).
  assert (Hin : mkProgressInfo collecting 200 "" 2 1 (Batcher.estimateTimeRemaining 2 2 1 0)
                ∈ reported (advanceAll [Increment 1 ""; Increment 2 ""]
                              (start 0 0 1 collecting (newTracker true)))).
  { vm_compute. right. right. left. }
  specialize (H Hin). simpl in H. lia.
Qed.
End ProgressFacts.

(** ** The staging page *)
Section CollectorFacts.
Import Collector.

Lemma string_length_app (a b : string) :
  String.length (a +:+ b) = (String.length a + String.length b)%nat.
Proof. induction a as [|c a IH]; simpl; [reflexivity | rewrite IH; reflexivity]. Qed.

Lemma freshPageId_above (doc : Document) (p : PageNode) :
  p ∈ doc -> (page_id p < freshPageId doc)%nat.
Proof.
  intros Hp. unfold freshPageId.
  assert (page_id p ∈ map page_id doc) by (apply list_elem_of_fmap; eauto).
  pose proof (list_max_elem _ _ H). lia.
Qed.

Lemma freshPageId_new (doc : Document) : freshPageId doc ∉ map page_id doc.
Proof.
  intros Hin. apply list_elem_of_fmap in Hin as (p & Heq & Hp).
  pose proof (freshPageId_above doc p Hp). lia.
Qed.

(** Writing through the reference of a page that was just created touches
    no other page. *)
Lemma storePage_created (doc : Document) (page : PageNode) :
  page_id page = freshPageId doc ->
  storePage page (doc ++ [mkPage (freshPageId doc) "New Page" []]) = doc ++ [page].
Proof.
  intros Hid. unfold storePage. rewrite map_app. simpl.
  rewrite Hid. destruct (decide (freshPageId doc = freshPageId doc)); [|congruence].
  f_equal.
  rewrite <- (map_id doc) at 2. apply map_ext_in. intros p Hp.
  apply list_elem_of_In in Hp. pose proof (freshPageId_above doc p Hp).
  destruct (decide (page_id p = freshPageId doc)); [lia | reflexivity].
Qed.

Lemma find_transfer_some (doc : Document) (p : PageNode) :
  p ∈ doc -> page_name p = transferPageName ->
  exists q, List.find (fun page => bool_decide (page_name page = transferPageName)) doc = Some q.
Proof.
  intros Hp Hn.
  destruct (List.find _ doc) as [q|] eqn:Hf; [eauto|].
  apply list_elem_of_In in Hp.
  pose proof (find_none _ _ Hf p Hp) as Hnone. simpl in Hnone.
  rewrite bool_decide_eq_false in Hnone. contradiction.
Qed.

Lemma find_transfer_none (doc : Document) :
  (forall p, p ∈ doc -> page_name p <> transferPageName) ->
  List.find (fun page => bool_decide (page_name page = transferPageName)) doc = None.
Proof.
  intros Hall.
  destruct (List.find _ doc) as [q|] eqn:Hf; [|reflexivity].
  apply find_some in Hf as [Hin Hq]. rewrite bool_decide_eq_true in Hq.
  apply list_elem_of_In in Hin. exfalso. exact (Hall q Hin Hq).
Qed.

(** C4, as the code has it: under the [timestamp] behaviour the page handed
    back is always one that was just created (its id is new, it is empty, and
    it is appended to an otherwise unchanged document).  Its name carries the
    date when a page named Transfer exists already; when none exists the new
    page is named plain Transfer. *)
Theorem timestamp_creates_page (isoNow : string) (doc : Document) :
  let page := (findOrCreateTransferPage timestamp isoNow doc).1 in
  let doc' := (findOrCreateTransferPage timestamp isoNow doc).2 in
  (page_id page ∉ map page_id doc) /\
  doc' = doc ++ [page] /\
  page_children page = [] /\
  ((exists p, p ∈ doc /\ page_name p = transferPageName) ->
   page_name page = transferPageName +:+ " " +:+ beforeT isoNow) /\
  ((forall p, p ∈ doc -> page_name p <> transferPageName) ->
   page_name page = transferPageName).
Proof.
  unfold findOrCreateTransferPage, createPage.
  destruct (List.find _ doc) as [q|] eqn:Hf; simpl.
  - split; [apply freshPageId_new|].
    split; [apply storePage_created; reflexivity|].
    split; [reflexivity|]. split; [reflexivity|].
    intros Hnone. rewrite (find_transfer_none doc Hnone) in Hf. discriminate.
  - split; [apply freshPageId_new|].
    split; [apply storePage_created; reflexivity|].
    split; [reflexivity|]. split; [|reflexivity].
    intros (p & Hp & Hn). destruct (find_transfer_some doc p Hp Hn) as [q Hq].
    rewrite Hq in Hf. discriminate.
Qed.

(** C4 as stated fails when the document has no page named Transfer: the
    new page is then named Transfer, with no date in its name. *)
Lemma timestamp_without_date :
  page_name (findOrCreateTransferPage timestamp "2026-01-15T10:30:00.000Z"
               [mkPage 1 "Page 1" []]).1 = "Transfer" /\
  beforeT "2026-01-15T10:30:00.000Z" = "2026-01-15" /\
  ~ exists prefix,
      page_name (findOrCreateTransferPage timestamp "2026-01-15T10:30:00.000Z"
                   [mkPage 1 "Page 1" []]).1
      = prefix +:+ beforeT "2026-01-15T10:30:00.000Z".
Proof.
  split; [reflexivity|]. split; [reflexivity|].
  intros [prefix H]. apply (f_equal String.length) in H.
  rewrite string_length_app in H. simpl in H. lia.
Qed.
End CollectorFacts.

(** ** Batch processing *)
Section BatcherFacts.
Import Batcher.
Context {T R W : Type}.
Variable processor : T -> nat -> W -> W * (string + R).
Variable onProgress : option (nat -> nat -> W -> W).
Variable cancellationToken : option (W -> bool).
Variable yieldToUI : W -> W.

#[local] Abbreviation runBatch := (runBatch processor).
#[local] Abbreviation batchBody := (batchBody processor onProgress yieldToUI).
#[local] Abbreviation batchLoop := (batchLoop processor onProgress cancellationToken yieldToUI).
#[local] Abbreviation processBatch := (processBatch processor onProgress cancellationToken yieldToUI).
#[local] Abbreviation worldBeforeBatch := (worldBeforeBatch processor onProgress yieldToUI).
#[local] Abbreviation isCancelled := (isCancelled cancellationToken).

#[local] Abbreviation neverThrows := (neverThrows processor).

Lemma indexed_app (start : nat) (a b : list T) :
  indexed start (a ++ b) = indexed start a ++ indexed (start + length a) b.
Proof.
  revert start. induction a as [|x a IH]; intros start; simpl.
  - rewrite Nat.add_0_r. reflexivity.
  - rewrite IH. replace (S start + length a)%nat with (start + S (length a))%nat by lia.
    reflexivity.
Qed.

(** A batch is the next [batchSize] items, or all the remaining ones. *)
Lemma slice_batch (items : list T) (batchSize i : nat) :
  slice i (Nat.min (i + batchSize) (length items)) items = take batchSize (drop i items).
Proof.
  unfold slice.
  destruct (Nat.le_gt_cases (i + batchSize) (length items)) as [Hle|Hgt].
  - rewrite Nat.min_l by exact Hle. f_equal. lia.
  - rewrite Nat.min_r by lia.
    rewrite !take_ge; [reflexivity | |]; rewrite length_drop; lia.
Qed.

(** The accumulators only collect: the batch runs the same way whatever
    they hold. *)
Lemma runBatch_acc (batch : list T) (i j : nat) (results : list R)
    (calls : list (T * nat * (string + R))) (w : W) :
  runBatch batch i j results calls w =
  (match (runBatch batch i j [] [] w).1.1 with
   | inr rs => inr (results ++ rs)
   | inl e => inl e
   end,
   calls ++ (runBatch batch i j [] [] w).1.2,
   (runBatch batch i j [] [] w).2).
Proof.
  revert j results calls w.
  induction batch as [|item rest IH]; intros j results calls w; simpl.
  - rewrite !app_nil_r. reflexivity.
  - destruct (processor item (i + j) w) as [w' [e|r]]; simpl.
    + reflexivity.
    + rewrite (IH (S j) (results ++ [r])), (IH (S j) [r]). simpl.
      destruct (Batcher.runBatch processor rest i (S j) [] [] w') as [[[e|rs] cs] w'']; simpl;
        rewrite <- ?app_assoc; reflexivity.
Qed.

Lemma runBatch_ok (batch : list T) (i j : nat) (w : W) :
  neverThrows ->
  exists rs cs w',
    runBatch batch i j [] [] w = (inr rs, cs, w') /\
    map fst cs = indexed (i + j) batch /\
    map snd cs = map inr rs.
Proof.
  intros Hok. revert j w.
  induction batch as [|item rest IH]; intros j w; simpl.
  - exists [], [], w. repeat split.
  - destruct (Hok item (i + j)%nat w) as [r Hr].
    destruct (processor item (i + j) w) as [w1 res]; simpl in Hr; subst res.
    rewrite runBatch_acc.
    destruct (IH (S j) w1) as (rs & cs & w' & Hrun & Hcs & Hrs).
    rewrite Hrun. simpl.
    exists (r :: rs), ((item, (i + j)%nat, inr r) :: cs), w'.
    split; [reflexivity|]. split; simpl.
    + rewrite Hcs. repeat f_equal. lia.
    + rewrite Hrs. reflexivity.
Qed.

(** One whole iteration, when the processor returns normally. *)
Lemma batchBody_ok (items : list T) (batchSize i : nat)
    (results : list R) (calls : list (T * nat * (string + R))) (w : W) :
  neverThrows ->
  exists rs cs,
    batchBody items batchSize i results calls w
    = (inr (results ++ rs), calls ++ cs, (batchBody items batchSize i [] [] w).2) /\
    map fst cs = indexed i (take batchSize (drop i items)) /\
    map snd cs = map inr rs.
Proof.
  intros Hok. unfold Batcher.batchBody. rewrite slice_batch.
  rewrite runBatch_acc.
  destruct (runBatch_ok (take batchSize (drop i items)) i 0 w Hok)
    as (rs & cs & w' & Hrun & Hcs & Hrs).
  rewrite Hrun. simpl. exists rs, cs.
  rewrite Nat.add_0_r in Hcs. repeat split; assumption.
Qed.
(** More fuel never changes an outcome. *)
Lemma batchLoop_fuel_mono (fuel fuel' : nat) (items : list T) (batchSize i : nat)
    (results : list R) (calls : list (T * nat * (string + R))) (w : W) r :
  batchLoop fuel items batchSize i results calls w = Some r ->
  (fuel <= fuel')%nat ->
  batchLoop fuel' items batchSize i results calls w = Some r.
Proof.
  revert fuel' i results calls w.
  induction fuel as [|fuel IH]; intros fuel' i results calls w Hrun Hle; [discriminate|].
  destruct fuel' as [|fuel']; [lia|]. simpl in *.
  destruct (i <? length items)%nat; [|exact Hrun].
  destruct (isCancelled w); [exact Hrun|].
  destruct (batchBody items batchSize i results calls w) as [[[e|rs] cs] w'];
    [exact Hrun|].
  apply IH; [exact Hrun | lia].
Qed.

(** With a batch size of at least one the loop ends, whatever the processor
    and the token do. *)
Lemma batchLoop_ends (fuel : nat) (items : list T) (batchSize i : nat)
    (results : list R) (calls : list (T * nat * (string + R))) (w : W) :
  (1 <= batchSize)%nat ->
  (length items - i < fuel)%nat ->
  is_Some (batchLoop fuel items batchSize i results calls w).
Proof.
  intros Hbs. revert i results calls w.
  induction fuel as [|fuel IH]; intros i results calls w Hfuel; [lia|].
  simpl. destruct (Nat.ltb_spec i (length items)); [|eauto].
  destruct (isCancelled w); [eauto|].
  destruct (batchBody items batchSize i results calls w) as [[[e|rs] cs] w']; [eauto|].
  apply IH. lia.
Qed.

Lemma batchLoop_completes (fuel : nat) (items : list T) (batchSize i : nat)
    (results : list R) (calls : list (T * nat * (string + R))) (w : W) :
  (1 <= batchSize)%nat ->
  (forall w', isCancelled w' = false) ->
  neverThrows ->
  (length items - i < fuel)%nat ->
  exists rs cs w',
    batchLoop fuel items batchSize i results calls w
    = Some (Resolved (results ++ rs), calls ++ cs, w') /\
    map fst cs = indexed i (drop i items) /\
    map snd cs = map inr rs.
Proof.
  intros Hbs Hnc Hok. revert i results calls w.
  induction fuel as [|fuel IH]; intros i results calls w Hfuel; [lia|].
  simpl. destruct (Nat.ltb_spec i (length items)) as [Hlt|Hge].
  - rewrite Hnc.
    destruct (batchBody_ok items batchSize i results calls w Hok) as (rs1 & cs1 & Hbody & Hcs1 & Hrs1).
    rewrite Hbody.
    destruct (IH (i + batchSize)%nat (results ++ rs1) (calls ++ cs1)
                 ((batchBody items batchSize i [] [] w).2) ltac:(lia))
      as (rs2 & cs2 & w' & Hloop & Hcs2 & Hrs2).
    rewrite Hloop. exists (rs1 ++ rs2), (cs1 ++ cs2), w'.
    rewrite <- !app_assoc. split; [reflexivity|]. split.
    + rewrite map_app, Hcs1, Hcs2.
      transitivity (indexed i (take batchSize (drop i items) ++ drop batchSize (drop i items)));
        [|rewrite take_drop; reflexivity].
      rewrite indexed_app, drop_drop. f_equal.
      rewrite length_take, length_drop.
      destruct (Nat.le_gt_cases batchSize (length items - i)) as [Hle|Hgt].
      * rewrite Nat.min_l by exact Hle. reflexivity.
      * rewrite !drop_ge by lia. reflexivity.
    + rewrite !map_app, Hrs1, Hrs2. reflexivity.
  - exists [], [], w. rewrite !app_nil_r. split; [reflexivity|].
    rewrite drop_ge by lia. split; reflexivity.
Qed.

(** With a batch size of zero the index stays where it is. *)
Lemma batchLoop_stuck (fuel : nat) (items : list T) (i : nat)
    (results : list R) (calls : list (T * nat * (string + R))) (w : W) :
  (forall w', isCancelled w' = false) ->
  (i < length items)%nat ->
  batchLoop fuel items 0 i results calls w = None.
Proof.
  intros Hnc Hlt. revert w.
  induction fuel as [|fuel IH]; intros w; [reflexivity|].
  simpl. destruct (Nat.ltb_spec i (length items)); [|lia].
  rewrite Hnc. unfold Batcher.batchBody. rewrite slice_batch. simpl.
  rewrite Nat.add_0_r. apply IH.
Qed.

Lemma batchLoop_cancelled (N : nat) (items : list T) (batchSize : nat) (w : W) :
  (1 <= batchSize)%nat ->
  (N * batchSize < length items)%nat ->
  neverThrows ->
  (forall k, (k < N)%nat -> isCancelled (worldBeforeBatch items batchSize k w) = false) ->
  isCancelled (worldBeforeBatch items batchSize N w) = true ->
  forall d k fuel results calls,
    (k + d = N)%nat -> (d < fuel)%nat ->
    exists cs,
      batchLoop fuel items batchSize (k * batchSize) results calls
        (worldBeforeBatch items batchSize k w)
      = Some (Rejected cancelledMessage, calls ++ cs, worldBeforeBatch items batchSize N w) /\
      map fst cs = indexed (k * batchSize) (take (d * batchSize) (drop (k * batchSize) items)) /\
      Forall (fun c => exists r, c.2 = inr r) cs.
Proof.
  intros Hbs HN Hok Hbefore Hat.
  induction d as [|d IH]; intros k fuel results calls Hk Hfuel.
  - assert (k = N) by lia. subst k.
    destruct fuel as [|fuel]; [lia|]. simpl.
    destruct (Nat.ltb_spec (N * batchSize) (length items)); [|lia].
    rewrite Hat. exists []. rewrite app_nil_r. repeat split. constructor.
  - destruct fuel as [|fuel]; [lia|]. simpl.
    assert (Hkb : (k * batchSize + batchSize <= N * batchSize)%nat) by nia.
    destruct (Nat.ltb_spec (k * batchSize) (length items)); [|lia].
    rewrite Hbefore by lia.
    destruct (batchBody_ok items batchSize (k * batchSize) results calls
                (worldBeforeBatch items batchSize k w) Hok) as (rs1 & cs1 & Hbody & Hcs1 & Hrs1).
    rewrite Hbody.
    replace (k * batchSize + batchSize)%nat with (S k * batchSize)%nat by lia.
    change ((batchBody items batchSize (k * batchSize) [] []
               (worldBeforeBatch items batchSize k w)).2)
      with (worldBeforeBatch items batchSize (S k) w).
    destruct (IH (S k) fuel (results ++ rs1) (calls ++ cs1) ltac:(lia) ltac:(lia))
      as (cs2 & Hloop & Hcs2 & Hall2).
    exists (cs1 ++ cs2). rewrite Hloop, <- app_assoc.
    split; [reflexivity|]. split.
    + rewrite map_app, Hcs1, Hcs2.
      rewrite <- (take_take_drop (drop (k * batchSize) items) batchSize (d * batchSize)).
      rewrite indexed_app, drop_drop. f_equal.
      rewrite length_take, length_drop.
      rewrite Nat.min_l by lia.
      replace (k * batchSize + batchSize)%nat with (S k * batchSize)%nat by lia.
      reflexivity.
    + apply Forall_app. split; [|exact Hall2].
      apply Forall_forall. intros c Hc.
      assert (Hin : c.2 ∈ map snd cs1) by (apply list_elem_of_fmap; eauto).
      rewrite Hrs1 in Hin. apply list_elem_of_fmap in Hin as (r & Hr & _). eauto.
Qed.

End BatcherFacts.



(** ** Maps and loops *)
Section JsMapFacts.
Context {V : Type}.
Implicit Types (m : list (string * V)) (k : string) (v : V).

Lemma map_get_Some_elem m k v : map_get k m = Some v -> (k, v) ∈ m.
Proof.
  induction m as [|[k' v'] m IH]; simpl; [discriminate|].
  destruct (decide (k = k')) as [->|Hne].
  - intros [= ->]. left.
  - intros H. right. apply IH, H.
Qed.

Lemma map_get_None m k : map_get k m = None <-> k ∉ map_keys m.
Proof.
  induction m as [|[k' v'] m IH]; simpl.
  - split; [intros _; apply not_elem_of_nil | reflexivity].
  - destruct (decide (k = k')) as [->|Hne].
    + split; [discriminate|]. intros H. exfalso. apply H. left.
    + rewrite IH. rewrite not_elem_of_cons. tauto.
Qed.

Lemma map_has_true m k : map_has k m = true <-> k ∈ map_keys m.
Proof.
  unfold map_has. destruct (map_get k m) eqn:Hg.
  - split; [intros _|reflexivity].
    destruct (decide (k ∈ map_keys m)) as [Hin|Hnin]; [exact Hin|].
    apply map_get_None in Hnin. congruence.
  - split; [discriminate|]. intros Hin. apply map_get_None in Hg. contradiction.
Qed.

Lemma map_has_false m k : map_has k m = false <-> k ∉ map_keys m.
Proof.
  rewrite <- map_has_true. destruct (map_has k m); split; congruence.
Qed.

Lemma map_get_elem m k v : NoDup (map_keys m) -> (k, v) ∈ m -> map_get k m = Some v.
Proof.
  induction m as [|[k' v'] m IH]; simpl; intros Hnd Hin.
  - apply elem_of_nil in Hin. contradiction.
  - apply NoDup_cons in Hnd as [Hk' Hnd].
    apply elem_of_cons in Hin as [[= -> ->]|Hin].
    + destruct (decide (k' = k')); congruence.
    + destruct (decide (k = k')) as [->|Hne]; [|apply IH; assumption].
      exfalso. apply Hk'. apply list_elem_of_fmap. exists (k', v). split; [reflexivity | exact Hin].
Qed.

(** Setting a key the map does not have appends the entry. *)
Lemma map_set_new m k v : map_has k m = false -> map_set k v m = m ++ [(k, v)].
Proof.
  rewrite map_has_false.
  induction m as [|[k' v'] m IH]; simpl; intros Hk; [reflexivity|].
  apply not_elem_of_cons in Hk as [Hne Hk].
  destruct (decide (k = k')); [contradiction|]. rewrite IH by exact Hk. reflexivity.
Qed.

Lemma map_update_keys m k (f : V -> V) : map_keys (map_update k f m) = map_keys m.
Proof.
  induction m as [|[k' v'] m IH]; simpl; [reflexivity|].
  destruct (decide (k = k')); simpl; [reflexivity | rewrite IH; reflexivity].
Qed.

(** An update changes at most the values: each entry keeps its key, and a
    value is either kept or the image of the old one. *)
Lemma map_update_elem m k (f : V -> V) k' v' :
  (k', v') ∈ map_update k f m ->
  (k', v') ∈ m \/ (k' = k /\ exists v, (k, v) ∈ m /\ v' = f v).
Proof.
  induction m as [|[k0 v0] m IH]; simpl; intros Hin.
  - apply elem_of_nil in Hin. contradiction.
  - destruct (decide (k = k0)) as [->|Hne].
    + apply elem_of_cons in Hin as [[= -> ->]|Hin].
      * right. split; [reflexivity|]. exists v0. split; [left | reflexivity].
      * left. right. exact Hin.
    + apply elem_of_cons in Hin as [[= -> ->]|Hin].
      * left. left.
      * destruct (IH Hin) as [H|(-> & v & Hv & ->)].
        -- left. right. exact H.
        -- right. split; [reflexivity|]. exists v. split; [right; exact Hv | reflexivity].
Qed.
End JsMapFacts.

Lemma set_has_true (x : string) (s : list string) : set_has x s = true <-> x ∈ s.
Proof. unfold set_has. apply bool_decide_eq_true. Qed.

Lemma set_has_false (x : string) (s : list string) : set_has x s = false <-> x ∉ s.
Proof. unfold set_has. apply bool_decide_eq_false. Qed.

Lemma set_add_elem (x y : string) (s : list string) : y ∈ set_add x s <-> y = x \/ y ∈ s.
Proof.
  unfold set_add. destruct (set_has x s) eqn:Hh.
  - apply set_has_true in Hh. split; [tauto|]. intros [->|H]; assumption.
  - rewrite elem_of_app, list_elem_of_singleton. tauto.
Qed.

(** A property kept by every round of a loop holds when the loop is over. *)
Lemma forEachM_invariant {A S : Type} (P : S -> Prop) (body : S -> A -> option S)
    (l : list A) (s s' : S) :
  (forall s x s', x ∈ l -> P s -> body s x = Some s' -> P s') ->
  P s -> forEachM body l s = Some s' -> P s'.
Proof.
  revert s. induction l as [|x l IH]; intros s Hbody Hs Hrun; simpl in Hrun.
  - congruence.
  - destruct (body s x) as [s1|] eqn:Hb; [|discriminate].
    apply (IH s1); [| |exact Hrun].
    + intros s2 y s3 Hy. apply Hbody. right. exact Hy.
    + apply (Hbody s x s1); [left | exact Hs | exact Hb].
Qed.

(** A loop whose every round returns, returns. *)
Lemma forEachM_total {A S : Type} (body : S -> A -> option S) (l : list A) (s : S) :
  (forall s x, x ∈ l -> is_Some (body s x)) -> is_Some (forEachM body l s).
Proof.
  revert s. induction l as [|x l IH]; intros s Hbody; simpl; [eauto|].
  destruct (Hbody s x ltac:(left)) as [s1 ->].
  apply IH. intros s2 y Hy. apply Hbody. right. exact Hy.
Qed.

(** ** The scene graph *)
Section SceneFacts.
Import Traversal.

Lemma traverseNode_unfold (node : SceneNode) :
  traverseNode node = node :: flat_map traverseNode (children_of node).
Proof. destruct node as [? ? ? ? ? ? ? [cs|] ? ? ?]; reflexivity. Qed.

Lemma node_height_unfold (node : SceneNode) :
  node_height node =
  S (Nat.max (list_max (map node_height (children_of node)))
             (match node_mainComponent node with
              | Some m => node_height m
              | None => 0%nat
              end)).
Proof. destruct node as [? ? ? ? ? ? ? [cs|] ? ? ?]; reflexivity. Qed.

Lemma node_height_child (node child : SceneNode) :
  child ∈ children_of node -> (node_height child < node_height node)%nat.
Proof.
  intros Hin. rewrite (node_height_unfold node).
  assert (node_height child ∈ map node_height (children_of node))
    by (apply list_elem_of_fmap; eauto).
  pose proof (list_max_elem _ _ H). lia.
Qed.

Lemma node_height_mainComponent (node m : SceneNode) :
  node_mainComponent node = Some m -> (node_height m < node_height node)%nat.
Proof. intros Hm. rewrite (node_height_unfold node), Hm. lia. Qed.

(** Every node a traversal visits is at most as high as its root. *)
Lemma traverseNode_height (node n : SceneNode) :
  n ∈ traverseNode node -> (node_height n <= node_height node)%nat.
Proof.
  remember (node_height node) as h eqn:Hh.
  assert (Hle : (node_height node <= h)%nat) by lia. clear Hh.
  revert node Hle. induction h as [|h IH]; intros node Hle Hin.
  - rewrite node_height_unfold in Hle. lia.
  - rewrite traverseNode_unfold in Hin.
    apply elem_of_cons in Hin as [->|Hin]; [exact Hle|].
    apply list_elem_of_In, in_flat_map in Hin as (child & Hchild & Hn).
    apply list_elem_of_In in Hchild, Hn.
    pose proof (node_height_child node child Hchild).
    specialize (IH child ltac:(lia) Hn). lia.
Qed.

Lemma findComponentInstances_height (node instance m : SceneNode) :
  instance ∈ findComponentInstances node ->
  getMainComponent instance = Some m ->
  (node_height m < node_height node)%nat.
Proof.
  intros Hin Hm. unfold findComponentInstances, findNodesByType in Hin.
  apply list_elem_of_filter in Hin as [_ Hin].
  pose proof (traverseNode_height _ _ Hin).
  pose proof (node_height_mainComponent _ _ Hm). lia.
Qed.
End SceneFacts.

(** ** The analyzer *)
Section AnalyzerFacts.
Import Traversal Analyzer.
Variable rootId : string.

#[local] Abbreviation processComponent := (processComponent rootId).
#[local] Abbreviation processComponentSet := (processComponentSet rootId).
#[local] Abbreviation processInstance := (processInstance rootId).
#[local] Abbreviation processNode := (processNode rootId).
#[local] Abbreviation isLocalComponent := (Validator.isLocalComponent rootId).
#[local] Abbreviation validateComponent := (Validator.validateComponent rootId).

(** One call of [processComponent] with fuel left. *)
Lemma processComponent_step (fuel : nat) (c : SceneNode) (options : FilterOptions) (st : State) :
  processComponent (S fuel) c options st =
  if map_has (node_id c) (componentMap st) then Some st
  else if negb (isLocalComponent c) && negb (includeExternal options) then Some st
  else if negb (node_visible c) && negb (includeHidden options) then Some st
  else
    forEachM
      (fun st instance =>
         match getMainComponent instance with
         | Some mainComp =>
             let st := push_child (node_id c) (node_id mainComp) st in
             match node_type mainComp with
             | COMPONENT => processComponent fuel mainComp options st
             | COMPONENT_SET => processComponentSet fuel mainComp options st
             | _ => Some st
             end
         | None => Some st
         end)
      (findComponentInstances c)
      (set_component (node_id c)
         (mkComponentInfo (node_id c) (node_name c) (node_description c) CT_COMPONENT
            (isLocalComponent c) (negb (node_visible c)) (node_locked c)
            None None [] (getNodeDepth c))
         (push_warnings (validateComponent c) st)).
Proof. reflexivity. Qed.

(** One call of [processComponentSet] with fuel left. *)
Lemma processComponentSet_step (fuel : nat) (c : SceneNode) (options : FilterOptions) (st : State) :
  processComponentSet (S fuel) c options st =
  if map_has (node_id c) (componentMap st) then Some st
  else if negb (isLocalComponent c) && negb (includeExternal options) then Some st
  else if negb (node_visible c) && negb (includeHidden options) then Some st
  else
    forEachM
      (fun st variant =>
         match node_type variant with
         | COMPONENT =>
             forEachM
               (fun st instance =>
                  match getMainComponent instance with
                  | Some mainComp =>
                      if bool_decide (node_id mainComp ∈ children_in (node_id c) st)
                      then Some st
                      else
                        let st := push_child (node_id c) (node_id mainComp) st in
                        match node_type mainComp with
                        | COMPONENT => processComponent fuel mainComp options st
                        | COMPONENT_SET => processComponentSet fuel mainComp options st
                        | _ => Some st
                        end
                  | None => Some st
                  end)
               (findComponentInstances variant) st
         | _ => Some st
         end)
      (children_of c)
      (set_component (node_id c)
         (mkComponentInfo (node_id c) (node_name c) (node_description c) CT_COMPONENT_SET
            (isLocalComponent c) (negb (node_visible c)) (node_locked c)
            (Some (length (children_of c)))
            (Some (match node_componentPropertyDefinitions c with
                   | Some props => variantPropertiesOf props
                   | None => []
                   end))
            [] (getNodeDepth c))
         (push_warnings (validateComponent c) st)).
Proof. reflexivity. Qed.

(** The general shape of an invariant of the analysis: a property of the
    state that survives a new warning, a new child id, a marked instance and
    the insertion of a fresh record survives every processing function. *)
Section Invariant.
Variable options : FilterOptions.
Variable P : State -> Prop.
Hypothesis P_warnings : forall st ws, P st -> P (push_warnings ws st).
Hypothesis P_child : forall st owner child, P st -> P (push_child owner child st).
Hypothesis P_mark : forall st i, P st -> P (mark_instance i st).
Hypothesis P_insert : forall st info,
  P st ->
  map_has (ci_id info) (componentMap st) = false ->
  ci_children info = [] ->
  (ci_isLocal info = true \/ includeExternal options = true) ->
  (ci_isHidden info = false \/ includeHidden options = true) ->
  P (set_component (ci_id info) info st).

Lemma accepted_flags (c : SceneNode) :
  negb (isLocalComponent c) && negb (includeExternal options) = false ->
  negb (node_visible c) && negb (includeHidden options) = false ->
  (isLocalComponent c = true \/ includeExternal options = true) /\
  (negb (node_visible c) = false \/ includeHidden options = true).
Proof.
  destruct (isLocalComponent c), (includeExternal options), (node_visible c),
    (includeHidden options); simpl; intros; try discriminate; tauto.
Qed.

(** What the invariant asks of the two functions at a given fuel. *)
#[local] Abbreviation kept fuel :=
  ((forall c st st', P st -> processComponent fuel c options st = Some st' -> P st') /\
   (forall c st st', P st -> processComponentSet fuel c options st = Some st' -> P st')).

(** Recording a dependency and processing its definition. *)
Lemma nested_invariant (fuel : nat) (owner : string) (st : State) (mainComp : SceneNode)
    (st' : State) :
  kept fuel ->
  P st ->
  match node_type mainComp with
  | COMPONENT => processComponent fuel mainComp options (push_child owner (node_id mainComp) st)
  | COMPONENT_SET => processComponentSet fuel mainComp options (push_child owner (node_id mainComp) st)
  | _ => Some (push_child owner (node_id mainComp) st)
  end = Some st' -> P st'.
Proof.
  intros [IHc IHs] HP Hrun.
  pose proof (P_child st owner (node_id mainComp) HP) as HP'.
  destruct (node_type mainComp); try (injection Hrun as <-; exact HP').
  - eapply IHc; eassumption.
  - eapply IHs; eassumption.
Qed.

(** The loop of [processComponent] over the nested instances. *)
Lemma component_loop_invariant (fuel : nat) (owner : string) (instances : list SceneNode)
    (st st' : State) :
  kept fuel ->
  P st ->
  forEachM
    (fun st instance =>
       match getMainComponent instance with
       | Some mainComp =>
           let st := push_child owner (node_id mainComp) st in
           match node_type mainComp with
           | COMPONENT => processComponent fuel mainComp options st
           | COMPONENT_SET => processComponentSet fuel mainComp options st
           | _ => Some st
           end
       | None => Some st
       end) instances st = Some st' ->
  P st'.
Proof.
  intros Hkept HP. apply forEachM_invariant; [|exact HP].
  intros s instance s' _ Hs Hbody.
  destruct (getMainComponent instance) as [m|]; [|injection Hbody as <-; exact Hs].
  eapply nested_invariant; eassumption.
Qed.

(** The loop of [processComponentSet] over the variants. *)
Lemma set_loop_invariant (fuel : nat) (owner : string) (variants : list SceneNode)
    (st st' : State) :
  kept fuel ->
  P st ->
  forEachM
    (fun st variant =>
       match node_type variant with
       | COMPONENT =>
           forEachM
             (fun st instance =>
                match getMainComponent instance with
                | Some mainComp =>
                    if bool_decide (node_id mainComp ∈ children_in owner st)
                    then Some st
                    else
                      let st := push_child owner (node_id mainComp) st in
                      match node_type mainComp with
                      | COMPONENT => processComponent fuel mainComp options st
                      | COMPONENT_SET => processComponentSet fuel mainComp options st
                      | _ => Some st
                      end
                | None => Some st
                end)
             (findComponentInstances variant) st
       | _ => Some st
       end) variants st = Some st' ->
  P st'.
Proof.
  intros Hkept HP. apply forEachM_invariant; [|exact HP].
  intros s variant s' _ Hs Hbody.
  destruct (node_type variant); try (injection Hbody as <-; exact Hs).
  revert Hbody. apply forEachM_invariant; [|exact Hs].
  intros s1 instance s1' _ Hs1 Hbody.
  destruct (getMainComponent instance) as [m|]; [|injection Hbody as <-; exact Hs1].
  destruct (bool_decide _); [injection Hbody as <-; exact Hs1|].
  eapply nested_invariant; eassumption.
Qed.

Lemma process_invariant (fuel : nat) : kept fuel.
Proof.
  induction fuel as [|fuel IH]; [split; intros; discriminate|].
  split; intros c st st' HP Hrun.
  - rewrite processComponent_step in Hrun.
    destruct (map_has _ _) eqn:Hhas; [injection Hrun as <-; exact HP|].
    destruct (negb (isLocalComponent c) && _) eqn:Hext; [injection Hrun as <-; exact HP|].
    destruct (negb (node_visible c) && _) eqn:Hhid; [injection Hrun as <-; exact HP|].
    destruct (accepted_flags c Hext Hhid) as [Hl Hv].
    revert Hrun. apply component_loop_invariant; [exact IH|].
    apply (P_insert (push_warnings (validateComponent c) st)
               (mkComponentInfo (node_id c) (node_name c) (node_description c) CT_COMPONENT
                  (isLocalComponent c) (negb (node_visible c)) (node_locked c)
                  None None [] (getNodeDepth c)));
        [apply P_warnings, HP | exact Hhas | reflexivity | exact Hl | exact Hv].
  - rewrite processComponentSet_step in Hrun.
    destruct (map_has _ _) eqn:Hhas; [injection Hrun as <-; exact HP|].
    destruct (negb (isLocalComponent c) && _) eqn:Hext; [injection Hrun as <-; exact HP|].
    destruct (negb (node_visible c) && _) eqn:Hhid; [injection Hrun as <-; exact HP|].
    destruct (accepted_flags c Hext Hhid) as [Hl Hv].
    revert Hrun. apply set_loop_invariant; [exact IH|].
    apply (P_insert (push_warnings (validateComponent c) st)
               (mkComponentInfo (node_id c) (node_name c) (node_description c) CT_COMPONENT_SET
                  (isLocalComponent c) (negb (node_visible c)) (node_locked c)
                  (Some (length (children_of c)))
                  (Some (match node_componentPropertyDefinitions c with
                         | Some props => variantPropertiesOf props
                         | None => []
                         end))
                  [] (getNodeDepth c)));
        [apply P_warnings, HP | exact Hhas | reflexivity | exact Hl | exact Hv].
Qed.

Lemma processInstance_invariant (fuel : nat) (instance : SceneNode) (st st' : State) :
  P st -> processInstance fuel instance options st = Some st' -> P st'.
Proof.
  intros HP Hrun. unfold Analyzer.processInstance in Hrun.
  destruct (set_has _ _); [injection Hrun as <-; exact HP|].
  pose proof (P_mark st (node_id instance) HP) as HP'.
  unfold Validator.validateMainComponent in Hrun.
  destruct (node_mainComponent instance) as [m|];
    [|injection Hrun as <-; apply P_warnings, HP'].
  destruct (process_invariant fuel) as [IHc IHs].
  destruct (node_type m); try (injection Hrun as <-; exact HP').
  - eapply IHc; eassumption.
  - eapply IHs; eassumption.
Qed.

Lemma processNode_invariant (fuel : nat) (node : SceneNode) (st st' : State) :
  P st -> processNode fuel node options st = Some st' -> P st'.
Proof.
  intros HP Hrun. unfold Analyzer.processNode in Hrun.
  destruct (process_invariant fuel) as [IHc IHs].
  assert (Hcontainer :
            match node_children node with
            | Some _ =>
                forEachM
                  (fun st child =>
                     if bool_decide (node_type child = INSTANCE)
                        && negb (set_has (node_id child) (processedInstances st))
                     then processInstance fuel child options st
                     else Some st)
                  (traverseNode node) st
            | None => Some st
            end = Some st' -> P st').
  { destruct (node_children node); [|intros [= <-]; exact HP].
    apply forEachM_invariant; [|exact HP].
    intros s child s' _ Hs Hbody.
    destruct (_ && _); [|injection Hbody as <-; exact Hs].
    eapply processInstance_invariant; eassumption. }
  destruct (node_type node); try (apply Hcontainer; exact Hrun).
  - eapply IHc; eassumption.
  - eapply IHs; eassumption.
  - eapply processInstance_invariant; eassumption.
Qed.

Lemma selection_invariant (fuel : nat) (selection : list SceneNode) (st st' : State) :
  P st ->
  forEachM (fun st node => processNode fuel node options st) selection st = Some st' ->
  P st'.
Proof.
  intros HP. apply forEachM_invariant; [|exact HP].
  intros s node s' _ Hs Hbody. eapply processNode_invariant; eassumption.
Qed.
End Invariant.

(** *** Enough fuel *)

Lemma node_height_pos (node : SceneNode) : (1 <= node_height node)%nat.
Proof. rewrite node_height_unfold. lia. Qed.

Lemma process_total (fuel : nat) :
  (forall c options st, (node_height c <= fuel)%nat ->
     is_Some (processComponent fuel c options st)) /\
  (forall c options st, (node_height c <= fuel)%nat ->
     is_Some (processComponentSet fuel c options st)).
Proof.
  induction fuel as [|fuel [IHc IHs]].
  { split; intros c ? ? H; pose proof (node_height_pos c); lia. }
  assert (Hnested : forall owner options st m,
             (node_height m <= fuel)%nat ->
             is_Some match node_type m with
                     | COMPONENT => processComponent fuel m options (push_child owner (node_id m) st)
                     | COMPONENT_SET => processComponentSet fuel m options (push_child owner (node_id m) st)
                     | _ => Some (push_child owner (node_id m) st)
                     end).
  { intros owner options st m Hm. destruct (node_type m); eauto. }
  split; intros c options st Hh.
  - rewrite processComponent_step.
    destruct (map_has _ _); [eauto|].
    destruct (negb (isLocalComponent c) && _); [eauto|].
    destruct (negb (node_visible c) && _); [eauto|].
    apply forEachM_total. intros s instance Hin.
    destruct (getMainComponent instance) as [m|] eqn:Hm; [|eauto].
    apply Hnested. pose proof (findComponentInstances_height c instance m Hin Hm). lia.
  - rewrite processComponentSet_step.
    destruct (map_has _ _); [eauto|].
    destruct (negb (isLocalComponent c) && _); [eauto|].
    destruct (negb (node_visible c) && _); [eauto|].
    apply forEachM_total. intros s variant Hvar.
    destruct (node_type variant); eauto.
    apply forEachM_total. intros s1 instance Hin.
    destruct (getMainComponent instance) as [m|] eqn:Hm; [|eauto].
    destruct (bool_decide _); [eauto|].
    apply Hnested.
    pose proof (findComponentInstances_height variant instance m Hin Hm).
    pose proof (node_height_child c variant Hvar). lia.
Qed.

Lemma processInstance_total (fuel : nat) (instance : SceneNode) options st :
  (node_height instance <= fuel)%nat -> is_Some (processInstance fuel instance options st).
Proof.
  intros Hh. unfold Analyzer.processInstance.
  destruct (set_has _ _); [eauto|].
  unfold Validator.validateMainComponent.
  destruct (node_mainComponent instance) as [m|] eqn:Hm; [|eauto].
  pose proof (node_height_mainComponent instance m Hm).
  destruct (process_total fuel) as [Hc Hs].
  destruct (node_type m); eauto; [apply Hc | apply Hs]; lia.
Qed.

Lemma processNode_total (fuel : nat) (node : SceneNode) options st :
  (node_height node <= fuel)%nat -> is_Some (processNode fuel node options st).
Proof.
  intros Hh. unfold Analyzer.processNode.
  destruct (process_total fuel) as [Hc Hs].
  assert (Hcontainer :
            is_Some match node_children node with
                    | Some _ =>
                        forEachM
                          (fun st child =>
                             if bool_decide (node_type child = INSTANCE)
                                && negb (set_has (node_id child) (processedInstances st))
                             then processInstance fuel child options st
                             else Some st)
                          (traverseNode node) st
                    | None => Some st
                    end).
  { destruct (node_children node); [|eauto].
    apply forEachM_total. intros s child Hin.
    destruct (_ && _); [|eauto].
    apply processInstance_total. pose proof (traverseNode_height node child Hin). lia. }
  destruct (node_type node); try exact Hcontainer.
  - apply Hc, Hh.
  - apply Hs, Hh.
  - apply processInstance_total, Hh.
Qed.

Lemma selection_total (fuel : nat) (selection : list SceneNode) options st :
  (selection_height selection <= fuel)%nat ->
  is_Some (forEachM (fun st node => processNode fuel node options st) selection st).
Proof.
  intros Hh. apply forEachM_total. intros s node Hin.
  apply processNode_total.
  assert (node_height node ∈ map node_height selection) by (apply list_elem_of_fmap; eauto).
  pose proof (list_max_elem _ _ H). unfold selection_height in Hh. lia.
Qed.

(** More fuel never changes what the processing functions return. *)
Lemma forEachM_Some_ext {A S : Type} (body body' : S -> A -> option S) (l : list A) (s s' : S) :
  (forall s x s', x ∈ l -> body s x = Some s' -> body' s x = Some s') ->
  forEachM body l s = Some s' -> forEachM body' l s = Some s'.
Proof.
  revert s. induction l as [|x l IH]; intros s Hext Hrun; simpl in *; [exact Hrun|].
  destruct (body s x) as [s1|] eqn:Hb; [|discriminate].
  rewrite (Hext s x s1 ltac:(left) Hb).
  apply IH; [|exact Hrun]. intros s2 y s3 Hy. apply Hext. right. exact Hy.
Qed.

Lemma process_fuel_mono (fuel : nat) :
  forall fuel', (fuel <= fuel')%nat ->
    (forall c options st st',
       processComponent fuel c options st = Some st' ->
       processComponent fuel' c options st = Some st') /\
    (forall c options st st',
       processComponentSet fuel c options st = Some st' ->
       processComponentSet fuel' c options st = Some st').
Proof.
  induction fuel as [|fuel IH]; intros fuel' Hle; [split; intros; discriminate|].
  destruct fuel' as [|fuel']; [lia|].
  destruct (IH fuel' ltac:(lia)) as [IHc IHs].
  split; intros c options st st' Hrun.
  - rewrite processComponent_step in *.
    destruct (map_has _ _); [exact Hrun|].
    destruct (negb (isLocalComponent c) && _); [exact Hrun|].
    destruct (negb (node_visible c) && _); [exact Hrun|].
    revert Hrun. apply forEachM_Some_ext. intros s instance s' _ Hbody.
    destruct (getMainComponent instance) as [m|]; [|exact Hbody].
    cbv zeta in *. destruct (node_type m); auto.
  - rewrite processComponentSet_step in *.
    destruct (map_has _ _); [exact Hrun|].
    destruct (negb (isLocalComponent c) && _); [exact Hrun|].
    destruct (negb (node_visible c) && _); [exact Hrun|].
    revert Hrun. apply forEachM_Some_ext. intros s variant s' _ Hbody.
    destruct (node_type variant); auto.
    revert Hbody. apply forEachM_Some_ext. intros s1 instance s1' _ Hbody.
    destruct (getMainComponent instance) as [m|]; [|exact Hbody].
    destruct (bool_decide _); [exact Hbody|].
    cbv zeta in *. destruct (node_type m); auto.
Qed.

Lemma processNode_fuel_mono (fuel fuel' : nat) (node : SceneNode) options (st st' : State) :
  (fuel <= fuel')%nat ->
  processNode fuel node options st = Some st' ->
  processNode fuel' node options st = Some st'.
Proof.
  intros Hle. destruct (process_fuel_mono fuel fuel' Hle) as [Hc Hs].
  assert (Hinst : forall instance s s',
             processInstance fuel instance options s = Some s' ->
             processInstance fuel' instance options s = Some s').
  { intros instance s s'. unfold Analyzer.processInstance.
    destruct (set_has _ _); [auto|].
    destruct (Validator.validateMainComponent instance); [auto|].
    destruct (node_mainComponent instance) as [m|]; [|auto].
    destruct (node_type m); auto. }
  unfold Analyzer.processNode.
  destruct (node_type node); auto;
    destruct (node_children node); auto;
    apply forEachM_Some_ext; intros s child s' _; destruct (_ && _); auto.
Qed.

(** *** Where the records come from *)

Lemma nodes_of_unfold (node : SceneNode) :
  nodes_of node =
  node :: flat_map nodes_of (children_of node) ++
  match node_mainComponent node with
  | Some m => nodes_of m
  | None => []
  end.
Proof. destruct node as [? ? ? ? ? ? ? [cs|] ? ? ?]; reflexivity. Qed.

Lemma nodes_of_self (node : SceneNode) : node ∈ nodes_of node.
Proof. rewrite nodes_of_unfold. left. Qed.

Lemma nodes_of_trans (root n x : SceneNode) :
  n ∈ nodes_of root -> x ∈ nodes_of n -> x ∈ nodes_of root.
Proof.
  remember (node_height root) as h eqn:Hh.
  assert (Hle : (node_height root <= h)%nat) by lia. clear Hh.
  revert root Hle. induction h as [|h IH]; intros root Hle Hn Hx.
  - pose proof (node_height_pos root). lia.
  - rewrite nodes_of_unfold in Hn.
    apply elem_of_cons in Hn as [->|Hn]; [exact Hx|].
    rewrite nodes_of_unfold. right.
    apply elem_of_app in Hn as [Hn|Hn]; apply elem_of_app.
    + left. apply list_elem_of_In, in_flat_map in Hn as (child & Hchild & Hn).
      apply list_elem_of_In in Hchild, Hn.
      pose proof (node_height_child root child Hchild).
      apply list_elem_of_In, in_flat_map. exists child.
      split; apply list_elem_of_In; [exact Hchild|].
      apply IH; [lia | exact Hn | exact Hx].
    + right. destruct (node_mainComponent root) as [m|] eqn:Hm;
        [|apply elem_of_nil in Hn; contradiction].
      pose proof (node_height_mainComponent root m Hm).
      apply IH; [lia | exact Hn | exact Hx].
Qed.

Lemma nodes_of_child (node child : SceneNode) :
  child ∈ children_of node -> child ∈ nodes_of node.
Proof.
  intros Hc. rewrite nodes_of_unfold. right. apply elem_of_app. left.
  apply list_elem_of_In, in_flat_map. exists child.
  split; apply list_elem_of_In; [exact Hc | apply nodes_of_self].
Qed.

Lemma nodes_of_mainComponent (node m : SceneNode) :
  node_mainComponent node = Some m -> m ∈ nodes_of node.
Proof.
  intros Hm. rewrite nodes_of_unfold, Hm. right. apply elem_of_app. right.
  apply nodes_of_self.
Qed.

Lemma nodes_of_traverse (node x : SceneNode) : x ∈ traverseNode node -> x ∈ nodes_of node.
Proof.
  remember (node_height node) as h eqn:Hh.
  assert (Hle : (node_height node <= h)%nat) by lia. clear Hh.
  revert node Hle. induction h as [|h IH]; intros node Hle Hx.
  - pose proof (node_height_pos node). lia.
  - rewrite traverseNode_unfold in Hx.
    apply elem_of_cons in Hx as [->|Hx]; [apply nodes_of_self|].
    apply list_elem_of_In, in_flat_map in Hx as (child & Hchild & Hx).
    apply list_elem_of_In in Hchild, Hx.
    pose proof (node_height_child node child Hchild).
    apply (nodes_of_trans node child); [apply nodes_of_child, Hchild|].
    apply IH; [lia | exact Hx].
Qed.

Section Provenance.
Variable options : FilterOptions.
Variable universe : list SceneNode.

#[local] Abbreviation known := (fun n : SceneNode => exists root, root ∈ universe /\ n ∈ nodes_of root).

Hypothesis universe_unique : forall n1 n2, known n1 -> known n2 -> node_id n1 = node_id n2 -> n1 = n2.

Lemma known_traverse (n x : SceneNode) : known n -> x ∈ traverseNode n -> known x.
Proof.
  intros (root & Hroot & Hn) Hx. exists root. split; [exact Hroot|].
  apply (nodes_of_trans root n); [exact Hn | apply nodes_of_traverse, Hx].
Qed.

Lemma known_main (n m : SceneNode) : known n -> node_mainComponent n = Some m -> known m.
Proof.
  intros (root & Hroot & Hn) Hm. exists root. split; [exact Hroot|].
  apply (nodes_of_trans root n); [exact Hn | apply nodes_of_mainComponent, Hm].
Qed.

Lemma known_instance (c instance m : SceneNode) :
  known c -> instance ∈ findComponentInstances c -> getMainComponent instance = Some m ->
  known m /\ (node_height m < node_height c)%nat.
Proof.
  intros Hc Hin Hm. split; [|eapply findComponentInstances_height; eassumption].
  apply (known_main instance); [|exact Hm].
  apply (known_traverse c); [exact Hc|].
  unfold findComponentInstances, findNodesByType in Hin.
  apply list_elem_of_filter in Hin as [_ Hin]. exact Hin.
Qed.

(** Every record belongs to a known node, and every child it lists is the
    id of a known node that lies strictly lower. *)
#[local] Abbreviation traced st :=
  (forall k info, (k, info) ∈ componentMap st ->
     exists K, known K /\ node_id K = k /\
       forall c, c ∈ ci_children info ->
         exists m, known m /\ node_id m = c /\ (node_height m < node_height K)%nat).

Lemma traced_child (st : State) (c m : SceneNode) :
  known c -> known m -> (node_height m < node_height c)%nat ->
  traced st -> traced (push_child (node_id c) (node_id m) st).
Proof.
  intros Hc Hm Hlt Htr k info Hin. simpl in Hin.
  apply map_update_elem in Hin as [Hin|(-> & v & Hv & ->)]; [apply Htr, Hin|].
  destruct (Htr _ _ Hv) as (K & HK & Hid & Hch).
  assert (K = c) by (apply universe_unique; assumption). subst K.
  exists c. split; [exact Hc|]. split; [reflexivity|].
  intros x Hx. simpl in Hx. apply elem_of_app in Hx as [Hx|Hx]; [apply Hch, Hx|].
  apply list_elem_of_singleton in Hx. subst x. exists m. repeat split; assumption.
Qed.

Lemma traced_insert (st : State) (c : SceneNode) (info : ComponentInfo) :
  known c -> map_has (node_id c) (componentMap st) = false -> ci_children info = [] ->
  traced st -> traced (set_component (node_id c) info st).
Proof.
  intros Hc Hnew Hnil Htr k i Hin. simpl in Hin. rewrite (map_set_new _ _ _ Hnew) in Hin.
  apply elem_of_app in Hin as [Hin|Hin]; [apply Htr, Hin|].
  apply list_elem_of_singleton in Hin. injection Hin as -> ->.
  exists c. split; [exact Hc|]. split; [reflexivity|].
  intros x Hx. rewrite Hnil in Hx. apply elem_of_nil in Hx. contradiction.
Qed.

Lemma process_traced (fuel : nat) :
  (forall c st st', known c -> traced st ->
     processComponent fuel c options st = Some st' -> traced st') /\
  (forall c st st', known c -> traced st ->
     processComponentSet fuel c options st = Some st' -> traced st').
Proof.
  induction fuel as [|fuel [IHc IHs]]; [split; intros; discriminate|].
  assert (Hnested : forall c st m st',
             known c -> known m -> (node_height m < node_height c)%nat -> traced st ->
             match node_type m with
             | COMPONENT => processComponent fuel m options (push_child (node_id c) (node_id m) st)
             | COMPONENT_SET => processComponentSet fuel m options (push_child (node_id c) (node_id m) st)
             | _ => Some (push_child (node_id c) (node_id m) st)
             end = Some st' -> traced st').
  { intros c st m st' Hc Hm Hlt Htr Hrun.
    pose proof (traced_child st c m Hc Hm Hlt Htr) as Htr'.
    destruct (node_type m); try (injection Hrun as <-; exact Htr').
    - exact (IHc m (push_child (node_id c) (node_id m) st) st' Hm Htr' Hrun).
    - exact (IHs m (push_child (node_id c) (node_id m) st) st' Hm Htr' Hrun). }
  split; intros c st st' Hc Htr Hrun.
  - rewrite processComponent_step in Hrun.
    destruct (map_has _ _) eqn:Hhas; [injection Hrun as <-; exact Htr|].
    destruct (negb (isLocalComponent c) && _); [injection Hrun as <-; exact Htr|].
    destruct (negb (node_visible c) && _); [injection Hrun as <-; exact Htr|].
    revert Hrun. apply (forEachM_invariant (fun s => traced s)).
    + intros s instance s' Hin Hs Hbody.
      destruct (getMainComponent instance) as [m|] eqn:Hm; [|injection Hbody as <-; exact Hs].
      destruct (known_instance c instance m Hc Hin Hm) as [Hkm Hlt].
      exact (Hnested c s m s' Hc Hkm Hlt Hs Hbody).
    + apply traced_insert; [exact Hc | exact Hhas | reflexivity | exact Htr].
  - rewrite processComponentSet_step in Hrun.
    destruct (map_has _ _) eqn:Hhas; [injection Hrun as <-; exact Htr|].
    destruct (negb (isLocalComponent c) && _); [injection Hrun as <-; exact Htr|].
    destruct (negb (node_visible c) && _); [injection Hrun as <-; exact Htr|].
    revert Hrun. apply (forEachM_invariant (fun s => traced s)).
    + intros s variant s' Hvar Hs Hbody.
      destruct (node_type variant); try (injection Hbody as <-; exact Hs).
      revert Hbody. apply (forEachM_invariant (fun s => traced s)); [|exact Hs].
      intros s1 instance s1' Hin Hs1 Hbody.
      destruct (getMainComponent instance) as [m|] eqn:Hm; [|injection Hbody as <-; exact Hs1].
      destruct (bool_decide _); [injection Hbody as <-; exact Hs1|].
      assert (Hkv : known variant).
      { apply (known_traverse c); [exact Hc|].
        rewrite traverseNode_unfold. right.
        apply list_elem_of_In, in_flat_map. exists variant.
        split; apply list_elem_of_In; [exact Hvar|].
        rewrite traverseNode_unfold. left. }
      destruct (known_instance variant instance m Hkv Hin Hm) as [Hkm Hlt].
      pose proof (node_height_child c variant Hvar).
      exact (Hnested c s1 m s1' Hc Hkm ltac:(lia) Hs1 Hbody).
    + apply traced_insert; [exact Hc | exact Hhas | reflexivity | exact Htr].
Qed.

Lemma selection_traced (fuel : nat) (selection : list SceneNode) (st st' : State) :
  (forall n, n ∈ selection -> known n) ->
  traced st ->
  forEachM (fun st node => processNode fuel node options st) selection st = Some st' ->
  traced st'.
Proof.
  intros Hsel Htr. destruct (process_traced fuel) as [Hc Hs].
  assert (Hinst : forall instance s s',
             known instance -> traced s ->
             processInstance fuel instance options s = Some s' -> traced s').
  { intros instance s s' Hk Hs0 Hrun. unfold Analyzer.processInstance in Hrun.
    destruct (set_has _ _); [injection Hrun as <-; exact Hs0|].
    unfold Validator.validateMainComponent in Hrun.
    destruct (node_mainComponent instance) as [m|] eqn:Hm; [|injection Hrun as <-; exact Hs0].
    pose proof (known_main instance m Hk Hm) as Hkm.
    destruct (node_type m); try (injection Hrun as <-; exact Hs0).
    - exact (Hc m (mark_instance (node_id instance) s) s' Hkm Hs0 Hrun).
    - exact (Hs m (mark_instance (node_id instance) s) s' Hkm Hs0 Hrun). }
  apply (forEachM_invariant (fun s => traced s)); [|exact Htr].
  intros s node s' Hnode Hs0 Hrun. specialize (Hsel node Hnode).
  unfold Analyzer.processNode in Hrun.
  assert (Hcontainer :
            match node_children node with
            | Some _ =>
                forEachM
                  (fun st child =>
                     if bool_decide (node_type child = INSTANCE)
                        && negb (set_has (node_id child) (processedInstances st))
                     then processInstance fuel child options st
                     else Some st)
                  (traverseNode node) s
            | None => Some s
            end = Some s' -> traced s').
  { destruct (node_children node); [|intros [= <-]; exact Hs0].
    apply (forEachM_invariant (fun s => traced s)); [|exact Hs0].
    intros s1 child s1' Hchild Hs1 Hbody.
    destruct (_ && _); [|injection Hbody as <-; exact Hs1].
    exact (Hinst child s1 s1' (known_traverse node child Hsel Hchild) Hs1 Hbody). }
  destruct (node_type node); try (apply Hcontainer; exact Hrun).
  - exact (Hc node s s' Hsel Hs0 Hrun).
  - exact (Hs node s s' Hsel Hs0 Hrun).
  - exact (Hinst node s s' Hsel Hs0 Hrun).
Qed.

(** Ranking every id by the height of its node shows that a traced map has
    no reference cycle. *)
Lemma traced_acyclic (st : State) : traced st -> acyclic (componentMap st).
Proof.
  intros Htr.
  set (all := flat_map nodes_of universe).
  assert (Hall : forall n, known n <-> n ∈ all).
  { intros n. unfold all. rewrite list_elem_of_In, in_flat_map. split.
    - intros (root & Hroot & Hn). exists root. split; apply list_elem_of_In; assumption.
    - intros (root & Hroot & Hn). exists root. split; apply list_elem_of_In; assumption. }
  set (rank := fun k : string =>
                 match List.find (fun n => bool_decide (node_id n = k)) all with
                 | Some n => node_height n
                 | None => 0%nat
                 end).
  assert (Hrank : forall n, known n -> rank (node_id n) = node_height n).
  { intros n Hn. unfold rank.
    destruct (List.find _ all) as [n'|] eqn:Hfind.
    - apply find_some in Hfind as [Hin Heq]. apply bool_decide_eq_true in Heq.
      apply list_elem_of_In, Hall in Hin.
      rewrite (universe_unique n' n Hin Hn Heq). reflexivity.
    - apply Hall, list_elem_of_In in Hn.
      pose proof (find_none _ _ Hfind n Hn) as Hnone. simpl in Hnone.
      apply bool_decide_eq_false in Hnone. congruence. }
  exists rank. intros k info c Hin Hc _.
  destruct (Htr k info Hin) as (K & HK & <- & Hch).
  destruct (Hch c Hc) as (m & Hm & <- & Hlt).
  rewrite (Hrank K HK), (Hrank m Hm). exact Hlt.
Qed.
End Provenance.

(** *** Invariants of the component map *)

Lemma wellKeyed_child (m : list (string * ComponentInfo)) (owner child : string) :
  wellKeyed m -> wellKeyed (map_update owner (add_child child) m).
Proof.
  intros [Hnd Hid]. split.
  - rewrite map_update_keys. exact Hnd.
  - rewrite Forall_forall in Hid. apply Forall_forall. intros [k v] Hin.
    apply map_update_elem in Hin as [Hin|(-> & v0 & Hv0 & ->)].
    + apply (Hid _ Hin).
    + apply (Hid _ Hv0).
Qed.

Lemma wellKeyed_insert (m : list (string * ComponentInfo)) (info : ComponentInfo) :
  wellKeyed m -> map_has (ci_id info) m = false -> wellKeyed (map_set (ci_id info) info m).
Proof.
  intros [Hnd Hid] Hnew. rewrite (map_set_new _ _ _ Hnew). split.
  - unfold map_keys. rewrite map_app. simpl. apply NoDup_app. split; [exact Hnd|]. split.
    + intros k Hk Hk'. apply list_elem_of_singleton in Hk'. subst k.
      apply map_has_false in Hnew. contradiction.
    + apply NoDup_singleton.
  - apply Forall_app. split; [exact Hid|]. constructor; [reflexivity | constructor].
Qed.

(** Records are added and children appended, and nothing else happens to
    the map: the map stays well keyed. *)
Lemma selection_wellKeyed (fuel : nat) (selection : list SceneNode) options (st st' : State) :
  wellKeyed (componentMap st) ->
  forEachM (fun st node => processNode fuel node options st) selection st = Some st' ->
  wellKeyed (componentMap st').
Proof.
  apply (selection_invariant options (fun st => wellKeyed (componentMap st))).
  - intros s ws H. exact H.
  - intros s owner child H. apply wellKeyed_child, H.
  - intros s i H. exact H.
  - intros s info H Hnew _ _ _. apply wellKeyed_insert; assumption.
Qed.

Lemma allLocal_child (m : list (string * ComponentInfo)) (owner child : string) :
  Forall (fun kv => ci_isLocal kv.2 = true) m ->
  Forall (fun kv => ci_isLocal kv.2 = true) (map_update owner (add_child child) m).
Proof.
  intros Hall. rewrite Forall_forall in Hall. apply Forall_forall. intros [k v] Hin.
  apply map_update_elem in Hin as [Hin|(-> & v0 & Hv0 & ->)].
  - apply (Hall _ Hin).
  - apply (Hall _ Hv0).
Qed.

(** When external components are not included, only local ones enter. *)
Lemma selection_allLocal (fuel : nat) (selection : list SceneNode) options (st st' : State) :
  includeExternal options = false ->
  Forall (fun kv => ci_isLocal kv.2 = true) (componentMap st) ->
  forEachM (fun st node => processNode fuel node options st) selection st = Some st' ->
  Forall (fun kv => ci_isLocal kv.2 = true) (componentMap st').
Proof.
  intros Hext.
  apply (selection_invariant options
           (fun st => Forall (fun kv => ci_isLocal kv.2 = true) (componentMap st))).
  - intros s ws H. exact H.
  - intros s owner child H. apply allLocal_child, H.
  - intros s i H. exact H.
  - intros s info H Hnew _ [Hlocal|Hinc] _; [|congruence].
    simpl. rewrite (map_set_new _ _ _ Hnew).
    apply Forall_app. split; [exact H|]. constructor; [exact Hlocal | constructor].
Qed.

(** A key of the map stays one. *)
Section HasKey.
Variable options : FilterOptions.
Variable k : string.

#[local] Abbreviation hasKey := (fun st : State => map_has k (componentMap st) = true).

Lemma hasKey_child (st : State) (owner child : string) :
  hasKey st -> hasKey (push_child owner child st).
Proof.
  simpl. rewrite !map_has_true, map_update_keys. tauto.
Qed.

Lemma hasKey_insert (st : State) (info : ComponentInfo) :
  hasKey st -> map_has (ci_id info) (componentMap st) = false ->
  hasKey (set_component (ci_id info) info st).
Proof.
  simpl. intros Hk Hnew. rewrite (map_set_new _ _ _ Hnew).
  apply map_has_true. unfold map_keys. rewrite map_app. apply elem_of_app. left.
  apply map_has_true, Hk.
Qed.

Lemma hasKey_kept (fuel : nat) :
  (forall c st st', hasKey st -> processComponent fuel c options st = Some st' -> hasKey st') /\
  (forall c st st', hasKey st -> processComponentSet fuel c options st = Some st' -> hasKey st').
Proof.
  apply (process_invariant options hasKey).
  - intros s ws H. exact H.
  - intros s owner child H. apply hasKey_child, H.
  - intros s info H Hnew _ _ _. apply hasKey_insert; assumption.
Qed.

Lemma hasKey_instance (fuel : nat) (instance : SceneNode) (st st' : State) :
  hasKey st -> processInstance fuel instance options st = Some st' -> hasKey st'.
Proof.
  apply (processInstance_invariant options hasKey).
  - intros s ws H. exact H.
  - intros s owner child H. apply hasKey_child, H.
  - intros s i H. exact H.
  - intros s info H Hnew _ _ _. apply hasKey_insert; assumption.
Qed.
End HasKey.

(** A definition that passes the two filters is in the map afterwards. *)
Lemma process_inserts (fuel : nat) (c : SceneNode) options (st st' : State) :
  (isLocalComponent c = true \/ includeExternal options = true) ->
  (node_visible c = true \/ includeHidden options = true) ->
  (processComponent fuel c options st = Some st' \/
   processComponentSet fuel c options st = Some st') ->
  map_has (node_id c) (componentMap st') = true.
Proof.
  intros Hl Hv Hrun.
  assert (Hext : negb (isLocalComponent c) && negb (includeExternal options) = false).
  { destruct Hl as [-> | ->]; [reflexivity | apply andb_false_r]. }
  assert (Hhid : negb (node_visible c) && negb (includeHidden options) = false).
  { destruct Hv as [-> | ->]; [reflexivity | apply andb_false_r]. }
  destruct fuel as [|fuel]; [destruct Hrun; discriminate|].
  rewrite processComponent_step, processComponentSet_step, Hext, Hhid in Hrun.
  destruct (map_has (node_id c) (componentMap st)) eqn:Hhas.
  { destruct Hrun as [[= <-]|[= <-]]; exact Hhas. }
  assert (Hnow : forall info, ci_id info = node_id c ->
            map_has (node_id c)
              (componentMap (set_component (node_id c) info
                               (push_warnings (validateComponent c) st))) = true).
  { intros info Hid. simpl. rewrite (map_set_new _ _ _ Hhas).
    apply map_has_true. unfold map_keys. rewrite map_app. apply elem_of_app. right. left. }
  destruct Hrun as [Hrun|Hrun]; revert Hrun.
  - apply (component_loop_invariant options (fun s => map_has (node_id c) (componentMap s) = true)).
    + intros s owner child H. apply hasKey_child, H.
    + apply hasKey_kept.
    + apply Hnow. reflexivity.
  - apply (set_loop_invariant options (fun s => map_has (node_id c) (componentMap s) = true)).
    + intros s owner child H. apply hasKey_child, H.
    + apply hasKey_kept.
    + apply Hnow. reflexivity.
Qed.

End AnalyzerFacts.

(** ** The dependency forest *)

(** A property of the rounds done so far and the state, kept by every
    round, holds of the whole list when the loop is over. *)
Lemma forEachM_prefix {A S : Type} (P : list A -> S -> Prop) (body : S -> A -> option S)
    (l : list A) (s s' : S) :
  P [] s ->
  (forall pre x post s s',
     l = pre ++ x :: post -> P pre s -> body s x = Some s' -> P (pre ++ [x]) s') ->
  forEachM body l s = Some s' ->
  P l s'.
Proof.
  intros Hnil Hstep.
  assert (Hgen : forall rest pre s,
             l = pre ++ rest -> P pre s -> forEachM body rest s = Some s' -> P l s').
  { induction rest as [|x rest IH]; intros pre s0 Hl Hpre Hrun; simpl in Hrun.
    - injection Hrun as <-. rewrite app_nil_r in Hl. subst l. exact Hpre.
    - destruct (body s0 x) as [s1|] eqn:Hb; [|discriminate].
      apply (IH (pre ++ [x]) s1); [rewrite <- app_assoc; exact Hl | | exact Hrun].
      apply (Hstep pre x rest s0 s1); assumption. }
  apply (Hgen l [] s); [reflexivity | exact Hnil].
Qed.

(** A loop whose every round returns and keeps an invariant, returns. *)
Lemma forEachM_total_inv {A S : Type} (I : S -> Prop) (body : S -> A -> option S)
    (l : list A) (s : S) :
  I s ->
  (forall s x, x ∈ l -> I s -> exists s', body s x = Some s' /\ I s') ->
  exists s', forEachM body l s = Some s' /\ I s'.
Proof.
  revert s. induction l as [|x l IH]; intros s Hs Hbody; simpl; [eauto|].
  destruct (Hbody s x ltac:(left) Hs) as (s1 & -> & Hs1).
  apply IH; [exact Hs1|]. intros s2 y Hy. apply Hbody. right. exact Hy.
Qed.

Section ForestFacts.
Import Analyzer.

Lemma fold_set_add_elem (l acc : list string) (x : string) :
  x ∈ fold_left (fun acc c => set_add c acc) l acc <-> x ∈ l \/ x ∈ acc.
Proof.
  revert acc. induction l as [|c l IH]; intros acc; simpl.
  - rewrite elem_of_nil. tauto.
  - rewrite IH, set_add_elem, elem_of_cons. tauto.
Qed.

(** [allChildIds] holds exactly the ids some record lists as a child. *)
Lemma allChildIds_spec (m : list (string * ComponentInfo)) (c : string) :
  c ∈ allChildIds m <-> referenced m c.
Proof.
  unfold allChildIds, referenced, map_values.
  assert (Hgen : forall (m : list (string * ComponentInfo)) acc,
             c ∈ fold_left
                   (fun acc comp =>
                      fold_left (fun acc childId => set_add childId acc) (ci_children comp) acc)
                   (map snd m) acc
             <-> (exists k info, (k, info) ∈ m /\ c ∈ ci_children info) \/ c ∈ acc).
  { clear m. induction m as [|[k info] m IH]; intros acc; simpl.
    - split; [tauto|]. intros [(k & info & H & _)|H]; [|exact H].
      apply elem_of_nil in H. contradiction.
    - rewrite IH, fold_set_add_elem. split.
      + intros [(k' & info' & Hin & Hc)|[Hc|Hc]].
        * left. exists k', info'. split; [right; exact Hin | exact Hc].
        * left. exists k, info. split; [left | exact Hc].
        * right. exact Hc.
      + intros [(k' & info' & Hin & Hc)|Hc]; [|tauto].
        apply elem_of_cons in Hin as [[= -> ->]|Hin]; [tauto|].
        left. exists k', info'. tauto. }
  rewrite Hgen, elem_of_nil. tauto.
Qed.

(** The keys of the map not yet in [processed]: what is left to build. *)
#[local] Abbreviation unprocessed m processed :=
  (length (filter (fun k : string => k ∉ processed) (map_keys m))).

Lemma unprocessed_mono (keys : list string) (p p' : list string) :
  (forall x, x ∈ p -> x ∈ p') ->
  (length (filter (fun k => k ∉ p') keys) <= length (filter (fun k => k ∉ p) keys))%nat.
Proof.
  intros Hsub. induction keys as [|k keys IH]; simpl; [lia|].
  rewrite !filter_cons.
  destruct (decide (k ∉ p')) as [Hk'|Hk']; destruct (decide (k ∉ p)) as [Hk|Hk]; simpl; try lia.
  exfalso. apply Hk. intros Hp. apply Hk', Hsub, Hp.
Qed.

Lemma unprocessed_less (keys : list string) (p p' : list string) (x : string) :
  (forall y, y ∈ p -> y ∈ p') -> x ∈ keys -> x ∉ p -> x ∈ p' ->
  (length (filter (fun k => k ∉ p') keys) < length (filter (fun k => k ∉ p) keys))%nat.
Proof.
  intros Hsub Hx Hnp Hp'. induction keys as [|k keys IH]; [apply elem_of_nil in Hx; contradiction|].
  pose proof (unprocessed_mono keys p p' Hsub) as Hmono.
  rewrite !filter_cons.
  apply elem_of_cons in Hx as [<-|Hx].
  - destruct (decide (x ∉ p')) as [Hk'|Hk']; [contradiction|].
    destruct (decide (x ∉ p)) as [Hk|Hk]; [simpl; lia | contradiction].
  - specialize (IH Hx).
    destruct (decide (k ∉ p')) as [Hk'|Hk']; destruct (decide (k ∉ p)) as [Hk|Hk]; simpl; try lia.
    exfalso. apply Hk. intros Hp. apply Hk', Hsub, Hp.
Qed.

Section WithMap.
Variable m : list (string * ComponentInfo).

(** With fuel above the number of keys left to build, the node is built,
    and the set of processed ids only grows. *)
Lemma buildDependencyNode_total (fuel : nat) (componentId : string) (processed : list string) :
  componentId ∉ processed ->
  (unprocessed m processed < fuel)%nat ->
  exists node processed',
    buildDependencyNode fuel componentId m processed = Some (node, processed') /\
    (forall x, x ∈ processed -> x ∈ processed').
Proof.
  revert componentId processed.
  induction fuel as [|fuel IH]; intros componentId processed Hnew Hfuel; [lia|].
  simpl. destruct (map_get componentId m) as [component|] eqn:Hget; [|eauto].
  assert (Hkey : componentId ∈ map_keys m).
  { apply map_has_true. unfold map_has. rewrite Hget. reflexivity. }
  set (p1 := set_add componentId processed).
  assert (Hsub1 : forall x, x ∈ processed -> x ∈ p1).
  { intros x Hx. apply set_add_elem. right. exact Hx. }
  assert (Hin1 : componentId ∈ p1) by (apply set_add_elem; left; reflexivity).
  pose proof (unprocessed_less (map_keys m) processed p1 componentId Hsub1 Hkey Hnew Hin1) as Hless.
  destruct (forEachM_total_inv
              (fun acc : list DependencyNode * list string => forall x, x ∈ p1 -> x ∈ acc.2)
              (fun (acc : list DependencyNode * list string) childId =>
                 let '(dependencies, processed) := acc in
                 if negb (set_has childId processed) then
                   match buildDependencyNode fuel childId m processed with
                   | Some (Some childNode, processed') =>
                       Some (dependencies ++ [childNode], processed')
                   | Some (None, processed') => Some (dependencies, processed')
                   | None => None
                   end
                 else Some acc)
              (ci_children component) ([], p1))
    as ([deps p'] & Hrun & Hsub).
  - intros x Hx. exact Hx.
  - intros [deps pc] childId _ Hpc. simpl in Hpc.
    destruct (set_has childId pc) eqn:Hhas; simpl; [eauto|].
    apply set_has_false in Hhas.
    pose proof (unprocessed_mono (map_keys m) p1 pc Hpc).
    destruct (IH childId pc Hhas ltac:(lia)) as (node & pc' & -> & Hsub').
    destruct node; eexists; (split; [reflexivity|]); simpl; auto.
  - rewrite Hrun. eexists _, _. split; [reflexivity|]. simpl in Hsub. auto.
Qed.

Hypothesis m_wellKeyed : wellKeyed m.

Lemma wellKeyed_get (k : string) (info : ComponentInfo) :
  map_get k m = Some info -> ci_id info = k.
Proof.
  intros Hget. apply map_get_Some_elem in Hget.
  destruct m_wellKeyed as [_ Hid]. rewrite Forall_forall in Hid. apply (Hid _ Hget).
Qed.

Lemma flat_map_snoc {A B : Type} (f : A -> list B) (l : list A) (x : A) :
  flat_map f (l ++ [x]) = flat_map f l ++ f x.
Proof. rewrite flat_map_app. simpl. rewrite app_nil_r. reflexivity. Qed.

Lemma set_add_new (x : string) (s : list string) : x ∉ s -> set_add x s = s ++ [x].
Proof. intros H. unfold set_add. apply set_has_false in H. rewrite H. reflexivity. Qed.

Lemma NoDup_snoc (x : string) (s : list string) : NoDup s -> x ∉ s -> NoDup (s ++ [x]).
Proof.
  intros Hnd Hx. apply NoDup_app. split; [exact Hnd|]. split; [|apply NoDup_singleton].
  intros y Hy Hy'. apply list_elem_of_singleton in Hy'. subst y. contradiction.
Qed.

(** Every child of an id in [ids] that has a record is in [processed]. *)
#[local] Abbreviation closed ids processed :=
  (forall x info c,
     x ∈ ids -> map_get x m = Some info -> c ∈ ci_children info -> map_has c m = true ->
     c ∈ processed).

(** The record is the one the map holds under its id. *)
#[local] Abbreviation fromMap := (fun info : ComponentInfo => map_get (ci_id info) m = Some info).

(** What [buildDependencyNode] returns for an id not processed yet. *)
Lemma buildDependencyNode_spec (fuel : nat) :
  forall componentId processed node processed',
    NoDup processed -> componentId ∉ processed ->
    buildDependencyNode fuel componentId m processed = Some (node, processed') ->
    match node with
    | None => map_get componentId m = None /\ processed' = processed
    | Some n =>
        processed' = processed ++ dep_ids n /\
        NoDup processed' /\
        map_get componentId m = Some (dep_component n) /\
        Forall fromMap (dep_components n) /\
        (forall x, x ∈ dep_ids n -> x = componentId \/ referenced m x) /\
        closed (dep_ids n) processed'
    end.
Proof.
  induction fuel as [|fuel IH]; intros componentId processed node processed' Hnd Hnew Hrun;
    [discriminate|].
  simpl in Hrun.
  destruct (map_get componentId m) as [component|] eqn:Hget;
    [|injection Hrun as <- <-; split; reflexivity].
  pose proof (wellKeyed_get _ _ Hget) as Hid.
  pose proof (map_get_Some_elem _ _ _ Hget) as Helem.
  rewrite (set_add_new _ _ Hnew) in Hrun.
  set (p1 := processed ++ [componentId]) in *.
  destruct (forEachM _ (ci_children component) ([], p1)) as [[deps p']|] eqn:Hloop;
    [|discriminate].
  injection Hrun as <- <-.
  set (J := fun (pre : list string) (acc : list DependencyNode * list string) =>
              acc.2 = p1 ++ flat_map dep_ids acc.1 /\
              NoDup acc.2 /\
              Forall fromMap (flat_map dep_components acc.1) /\
              (forall x, x ∈ flat_map dep_ids acc.1 -> referenced m x) /\
              closed (flat_map dep_ids acc.1) acc.2 /\
              (forall c, c ∈ pre -> map_has c m = true -> c ∈ acc.2)).
  assert (HJ : J (ci_children component) (deps, p')).
  { revert Hloop. apply (forEachM_prefix J).
    - unfold J. simpl. rewrite app_nil_r. split; [reflexivity|].
      split; [apply NoDup_snoc; assumption|]. split; [constructor|].
      split; [intros x Hx; apply elem_of_nil in Hx; contradiction|].
      split; [intros x ? ? Hx; apply elem_of_nil in Hx; contradiction|].
      intros c Hc. apply elem_of_nil in Hc. contradiction.
    - intros pre x post [ds pc] [ds2 pc2] Hl (Hpc & Hndpc & Hfrom & Href & Hclosed & Hpre) Hbody.
      simpl in Hpc, Hndpc, Hfrom, Href, Hclosed, Hpre, Hbody.
      assert (Hxchild : x ∈ ci_children component).
      { rewrite Hl. apply elem_of_app. right. left. }
      destruct (set_has x pc) eqn:Hhas; simpl in Hbody.
      + injection Hbody as <- <-. unfold J. simpl.
        repeat (split; [assumption|]).
        intros c Hc Hhasc. apply elem_of_app in Hc as [Hc|Hc]; [apply Hpre; assumption|].
        apply list_elem_of_singleton in Hc. subst c. apply set_has_true, Hhas.
      + apply set_has_false in Hhas.
        destruct (buildDependencyNode fuel x m pc) as [[[n|] pr]|] eqn:Hb; [| |discriminate].
        * injection Hbody as <- <-.
          destruct (IH x pc _ _ Hndpc Hhas Hb) as (Hpr & Hndpr & Hgetx & Hfromn & Hrefn & Hclosedn).
          pose proof (wellKeyed_get _ _ Hgetx) as Hidx.
          assert (Hsub : forall y, y ∈ pc -> y ∈ pr).
          { intros y Hy. rewrite Hpr. apply elem_of_app. left. exact Hy. }
          assert (Hxin : x ∈ dep_ids n).
          { destruct n as [cn dn]. simpl in *. rewrite Hidx. left. }
          unfold J. simpl. rewrite !flat_map_snoc.
          split; [rewrite Hpr, Hpc, <- app_assoc; reflexivity|].
          split; [exact Hndpr|].
          split; [apply Forall_app; split; assumption|].
          split.
          { intros y Hy. apply elem_of_app in Hy as [Hy|Hy]; [apply Href, Hy|].
            destruct (Hrefn y Hy) as [->|Hr]; [|exact Hr].
            exists componentId, component. split; assumption. }
          split.
          { intros y info c Hy Hgety Hc Hhasc. apply elem_of_app in Hy as [Hy|Hy].
            - apply Hsub. eapply Hclosed; eassumption.
            - eapply Hclosedn; eassumption. }
          intros c Hc Hhasc. apply elem_of_app in Hc as [Hc|Hc].
          { apply Hsub, Hpre; assumption. }
          apply list_elem_of_singleton in Hc. subst c.
          rewrite Hpr. apply elem_of_app. right. exact Hxin.
        * injection Hbody as <- <-.
          destruct (IH x pc _ _ Hndpc Hhas Hb) as (Hgetx & ->).
          unfold J. simpl. repeat (split; [assumption|]).
          intros c Hc Hhasc. apply elem_of_app in Hc as [Hc|Hc]; [apply Hpre; assumption|].
          apply list_elem_of_singleton in Hc. subst c.
          unfold map_has in Hhasc. rewrite Hgetx in Hhasc. discriminate. }
  destruct HJ as (Hp' & Hndp' & Hfrom & Href & Hclosed & Hchildren).
  simpl in Hp', Hndp', Hfrom, Href, Hclosed, Hchildren.
  simpl. rewrite Hid.
  split; [rewrite Hp'; unfold p1; rewrite <- app_assoc; reflexivity|].
  split; [exact Hndp'|].
  split; [reflexivity|].
  split; [constructor; [rewrite Hid; exact Hget | exact Hfrom]|].
  split.
  { intros x Hx. apply elem_of_cons in Hx as [->|Hx]; [left; reflexivity | right; apply Href, Hx]. }
  intros x info c Hx Hgetx Hc Hhasc. apply elem_of_cons in Hx as [->|Hx].
  - rewrite Hget in Hgetx. injection Hgetx as <-. apply Hchildren; assumption.
  - eapply Hclosed; eassumption.
Qed.

Lemma values_ids : map ci_id (map_values m) = map_keys m.
Proof.
  destruct m_wellKeyed as [_ Hid]. unfold map_values, map_keys.
  rewrite map_map. apply map_ext_Forall. exact Hid.
Qed.

Lemma value_get (comp : ComponentInfo) :
  comp ∈ map_values m -> map_get (ci_id comp) m = Some comp.
Proof.
  intros Hin. apply list_elem_of_fmap in Hin as ([k info] & -> & Hin). simpl.
  destruct m_wellKeyed as [Hnd Hid]. rewrite Forall_forall in Hid.
  pose proof (Hid _ Hin) as Hki. simpl in Hki. rewrite Hki. apply map_get_elem; assumption.
Qed.

(** The ids at the roots of a forest. *)
#[local] Abbreviation root_ids forest :=
  (map (fun n : DependencyNode => ci_id (dep_component n)) forest).

Lemma root_ids_in_forest (forest : list DependencyNode) (x : string) :
  x ∈ root_ids forest -> x ∈ forest_ids forest.
Proof.
  intros Hx. apply list_elem_of_fmap in Hx as (n & -> & Hn).
  apply list_elem_of_In, in_flat_map. exists n.
  split; [apply list_elem_of_In, Hn|]. destruct n; simpl. left. reflexivity.
Qed.

(** What the loop of [buildDependencyTree] over the records produces. *)
Lemma buildDependencyTreeFrom_spec (fuel : nat) (tree : list DependencyNode)
    (processed : list string) :
  buildDependencyTreeFrom fuel m = Some (tree, processed) ->
  processed = forest_ids tree /\
  NoDup (forest_ids tree) /\
  Forall fromMap (flat_map dep_components tree) /\
  closed (forest_ids tree) (forest_ids tree) /\
  root_ids tree = filter (fun k => k ∉ allChildIds m) (map_keys m).
Proof.
  unfold buildDependencyTreeFrom. intros Hloop.
  set (J := fun (pre : list ComponentInfo) (acc : list DependencyNode * list string) =>
              acc.2 = forest_ids acc.1 /\
              NoDup acc.2 /\
              Forall fromMap (flat_map dep_components acc.1) /\
              closed (forest_ids acc.1) acc.2 /\
              (forall x, x ∈ acc.2 -> x ∈ root_ids acc.1 \/ referenced m x) /\
              root_ids acc.1 = filter (fun k => k ∉ allChildIds m) (map ci_id pre)).
  assert (HJ : J (map_values m) (tree, processed)).
  { revert Hloop. apply (forEachM_prefix J).
    - unfold J. simpl. split; [reflexivity|]. split; [constructor|]. split; [constructor|].
      split; [intros x ? ? Hx; apply elem_of_nil in Hx; contradiction|].
      split; [intros x Hx; apply elem_of_nil in Hx; contradiction | reflexivity].
    - intros pre comp post [t pc] [t2 pc2] Hl (Hpc & Hnd & Hfrom & Hclosed & Horigin & Hroots) Hbody.
      simpl in Hpc, Hnd, Hfrom, Hclosed, Horigin, Hroots, Hbody.
      assert (Hcomp : comp ∈ map_values m).
      { rewrite Hl. apply elem_of_app. right. left. }
      pose proof (value_get comp Hcomp) as Hget.
      assert (Hfresh : ci_id comp ∉ map ci_id pre).
      { pose proof values_ids as Hids. rewrite Hl, map_app in Hids. simpl in Hids.
        destruct m_wellKeyed as [Hndk _]. rewrite <- Hids in Hndk.
        apply NoDup_app in Hndk as (_ & Hdisj & _).
        intros Hin. apply (Hdisj _ Hin). left. }
      unfold J. simpl. rewrite map_app, filter_app. simpl.
      destruct (set_has (ci_id comp) (allChildIds m)) eqn:Hchild; simpl in Hbody.
      { injection Hbody as <- <-. apply set_has_true in Hchild.
        repeat (split; [assumption|]).
        rewrite filter_cons. destruct (decide (ci_id comp ∉ allChildIds m)); [contradiction|].
        rewrite filter_nil, app_nil_r. exact Hroots. }
      apply set_has_false in Hchild.
      destruct (set_has (ci_id comp) pc) eqn:Hdone; simpl in Hbody.
      { exfalso. apply set_has_true in Hdone.
        destruct (Horigin _ Hdone) as [Hroot|Href].
        - rewrite Hroots in Hroot. apply list_elem_of_filter in Hroot as [_ Hroot].
          contradiction.
        - apply allChildIds_spec in Href. contradiction. }
      apply set_has_false in Hdone.
      destruct (buildDependencyNode fuel (ci_id comp) m pc) as [[[n|] pr]|] eqn:Hb;
        [| |discriminate].
      + injection Hbody as <- <-.
        destruct (buildDependencyNode_spec fuel _ _ _ _ Hnd Hdone Hb)
          as (Hpr & Hndpr & Hgetn & Hfromn & Hrefn & Hclosedn).
        pose proof (wellKeyed_get _ _ Hgetn) as Hidn.
        assert (Hsub : forall y, y ∈ pc -> y ∈ pr).
        { intros y Hy. rewrite Hpr. apply elem_of_app. left. exact Hy. }
        unfold forest_ids in *. rewrite !flat_map_snoc, map_app. simpl.
        split; [rewrite Hpr, Hpc; reflexivity|].
        split; [exact Hndpr|].
        split; [apply Forall_app; split; assumption|].
        split.
        { intros y info c Hy Hgety Hc Hhasc. apply elem_of_app in Hy as [Hy|Hy].
          - apply Hsub. eapply Hclosed; eassumption.
          - eapply Hclosedn; eassumption. }
        split.
        { intros y Hy. rewrite Hpr in Hy. apply elem_of_app in Hy as [Hy|Hy].
          - destruct (Horigin y Hy) as [Hroot|Href]; [|right; exact Href].
            left. apply elem_of_app. left. exact Hroot.
          - destruct (Hrefn y Hy) as [->|Href]; [|right; exact Href].
            left. apply elem_of_app. right. rewrite Hidn. left. }
        rewrite Hroots, Hidn, filter_cons.
        destruct (decide (ci_id comp ∉ allChildIds m)); [|contradiction].
        rewrite filter_nil. reflexivity.
      + destruct (buildDependencyNode_spec fuel _ _ _ _ Hnd Hdone Hb) as (Hnone & _).
        congruence. }
  destruct HJ as (Hp & Hnd & Hfrom & Hclosed & _ & Hroots).
  simpl in Hp, Hnd, Hfrom, Hclosed, Hroots. subst processed.
  rewrite values_ids in Hroots. repeat split; assumption.
Qed.
End WithMap.

(** [buildDependencyTree] always returns: its fuel is above the number of
    records. *)
Lemma buildDependencyTree_total (m : list (string * ComponentInfo)) :
  is_Some (buildDependencyTree m).
Proof.
  unfold buildDependencyTree, buildDependencyTreeFrom.
  destruct (forEachM_total_inv (fun _ => True)
              (fun (acc : list DependencyNode * list string) comp =>
                 let '(tree, processed) := acc in
                 if negb (set_has (ci_id comp) (allChildIds m))
                    && negb (set_has (ci_id comp) processed) then
                   match buildDependencyNode (S (length m)) (ci_id comp) m processed with
                   | Some (Some node, processed') => Some (tree ++ [node], processed')
                   | Some (None, processed') => Some (tree, processed')
                   | None => None
                   end
                 else Some acc)
              (map_values m) ([], [])) as ([tree p] & Hrun & _).
  - exact I.
  - intros [t pc] comp _ _.
    destruct (set_has (ci_id comp) (allChildIds m)); cbn -[buildDependencyNode]; [eauto|].
    destruct (set_has (ci_id comp) pc) eqn:Hdone; cbn -[buildDependencyNode]; [eauto|].
    apply set_has_false in Hdone.
    destruct (buildDependencyNode_total m (S (length m)) (ci_id comp) pc Hdone)
      as (node & pc' & -> & _).
    + pose proof (length_filter (fun k : string => k ∉ pc) (map_keys m)) as Hlen.
      unfold map_keys in *. rewrite length_map in Hlen. lia.
    + destruct node; eauto.
  - rewrite Hrun. eauto.
Qed.

(** The forest of a well keyed map: no id at two positions, every position
    holds the record of the map, the roots are the records no record
    refers to, and every child with a record of an id in the forest is in
    the forest. *)
Lemma buildDependencyTree_spec (m : list (string * ComponentInfo)) (tree : list DependencyNode) :
  wellKeyed m ->
  buildDependencyTree m = Some tree ->
  NoDup (forest_ids tree) /\
  Forall (fun info => map_get (ci_id info) m = Some info) (flat_map dep_components tree) /\
  (forall x info c,
     x ∈ forest_ids tree -> map_get x m = Some info -> c ∈ ci_children info ->
     map_has c m = true -> c ∈ forest_ids tree) /\
  map (fun n => ci_id (dep_component n)) tree
  = filter (fun k => k ∉ allChildIds m) (map_keys m).
Proof.
  intros Hwf Hrun. unfold buildDependencyTree in Hrun.
  destruct (buildDependencyTreeFrom (S (length m)) m) as [[t p]|] eqn:Hfrom; [|discriminate].
  injection Hrun as <-.
  destruct (buildDependencyTreeFrom_spec m Hwf _ _ _ Hfrom) as (_ & H1 & H2 & H3 & H4).
  repeat split; assumption.
Qed.

(** Without reference cycles every record of the map is in the forest. *)
Lemma buildDependencyTree_complete (m : list (string * ComponentInfo))
    (tree : list DependencyNode) :
  wellKeyed m ->
  buildDependencyTree m = Some tree ->
  acyclic m ->
  forall k, map_has k m = true -> k ∈ forest_ids tree.
Proof.
  intros Hwf Hrun [rank Hrank].
  destruct (buildDependencyTree_spec m tree Hwf Hrun) as (_ & _ & Hclosed & Hroots).
  set (bound := list_max (map rank (map_keys m))).
  assert (Hgen : forall n k, k ∈ map_keys m -> (bound - rank k < n)%nat -> k ∈ forest_ids tree).
  { induction n as [|n IH]; intros k Hk Hn; [lia|].
    destruct (decide (k ∈ allChildIds m)) as [Hchild|Hroot].
    - apply allChildIds_spec in Hchild as (k' & info' & Hin' & Hc).
      assert (Hk' : k' ∈ map_keys m).
      { apply list_elem_of_fmap. exists (k', info'). split; [reflexivity | exact Hin']. }
      assert (Hlt : (rank k < rank k')%nat).
      { apply (Hrank k' info' k Hin' Hc). apply map_has_true, Hk. }
      assert (Hle : (rank k' <= bound)%nat).
      { apply list_max_elem, list_elem_of_fmap. eauto. }
      apply (Hclosed k' info' k).
      + apply IH; [exact Hk' | lia].
      + destruct Hwf as [Hnd _]. apply map_get_elem; assumption.
      + exact Hc.
      + apply map_has_true, Hk.
    - apply root_ids_in_forest. rewrite Hroots. apply list_elem_of_filter. split; assumption. }
  intros k Hk. apply map_has_true in Hk.
  apply (Hgen (S (bound - rank k)) k Hk). lia.
Qed.
End ForestFacts.

(** ** Results of [analyzeSelection] *)
Section AnalysisResults.
Import Analyzer.
Variable rootId : string.

#[local] Abbreviation analyzeSelection := (analyzeSelection rootId).
#[local] Abbreviation processNode := (processNode rootId).
#[local] Abbreviation isLocalComponent := (Validator.isLocalComponent rootId).

Lemma wellKeyed_nil : wellKeyed [].
Proof. split; constructor. Qed.

(** For a selection that is not empty, the result is assembled from the
    state the processing loop ends in. *)
Lemma analyzeSelection_run (selection : list SceneNode) (options : FilterOptions) :
  selection <> [] ->
  exists st tree,
    forEachM (fun st node => processNode (S (selection_height selection)) node options st)
      selection (mkState [] [] []) = Some st /\
    buildDependencyTree (componentMap st) = Some tree /\
    analyzeSelection selection options
    = Some (mkAnalysisResult (componentMap st) tree (warningList st)
              (calculateStats (componentMap st))).
Proof.
  intros Hne.
  destruct (selection_total rootId (S (selection_height selection)) selection options
              (mkState [] [] []) ltac:(lia)) as [st Hst].
  destruct (buildDependencyTree_total (componentMap st)) as [tree Htree].
  exists st, tree. split; [exact Hst|]. split; [exact Htree|].
  unfold Analyzer.analyzeSelection, analyzeSelectionFrom, Validator.validateSelection.
  destruct (decide (length selection = 0%nat)) as [Hlen|_].
  { destruct selection; [congruence | discriminate]. }
  rewrite Hst, Htree. reflexivity.
Qed.

(** Every analysis returns a result; its map is well keyed and its forest
    is the one built from that map. *)
Lemma analyzeSelection_total (selection : list SceneNode) (options : FilterOptions) :
  exists r,
    analyzeSelection selection options = Some r /\
    wellKeyed (components r) /\
    buildDependencyTree (components r) = Some (dependencyTree r) /\
    (includeExternal options = false ->
     Forall (fun kv => ci_isLocal kv.2 = true) (components r)).
Proof.
  destruct selection as [|node selection].
  { eexists. split; [reflexivity|]. simpl.
    split; [apply wellKeyed_nil|]. split; [reflexivity | constructor]. }
  destruct (analyzeSelection_run (node :: selection) options ltac:(discriminate))
    as (st & tree & Hst & Htree & Hres).
  eexists. split; [exact Hres|]. simpl.
  split; [|split; [exact Htree|]].
  - eapply selection_wellKeyed; [|exact Hst]. apply wellKeyed_nil.
  - intros Hext. eapply selection_allLocal; [exact Hext | | exact Hst]. constructor.
Qed.

(** The fuel [analyzeSelection] starts with is enough: more gives the same
    result. *)
Lemma analyzeSelectionFrom_enough (fuel : nat) (selection : list SceneNode)
    (options : FilterOptions) :
  (selection_height selection < fuel)%nat ->
  analyzeSelectionFrom fuel rootId selection options = analyzeSelection selection options.
Proof.
  intros Hfuel. destruct selection as [|node selection]; [reflexivity|].
  destruct (analyzeSelection_run (node :: selection) options ltac:(discriminate))
    as (st & tree & Hst & Htree & Hres).
  rewrite Hres. unfold analyzeSelectionFrom, Validator.validateSelection.
  destruct (decide (length (node :: selection) = 0%nat)); [discriminate|].
  assert (Hst' : forEachM (fun st node => processNode fuel node options st)
                   (node :: selection) (mkState [] [] []) = Some st).
  { revert Hst. apply forEachM_Some_ext. intros s x s' _.
    apply processNode_fuel_mono. lia. }
  rewrite Hst', Htree. reflexivity.
Qed.

Lemma filter_key_absent (m : list (string * ComponentInfo)) (k : string) :
  k ∉ map_keys m -> filter (fun kv => kv.1 = k) m = [].
Proof.
  induction m as [|[k' v'] m IH]; simpl; intros Hk; [reflexivity|].
  apply not_elem_of_cons in Hk as [Hne Hk].
  rewrite filter_cons. simpl. destruct (decide (k' = k)); [congruence | apply IH, Hk].
Qed.

Lemma filter_key_singleton (m : list (string * ComponentInfo)) (k : string) :
  NoDup (map_keys m) -> map_has k m = true ->
  exists info, filter (fun kv => kv.1 = k) m = [(k, info)].
Proof.
  rewrite map_has_true.
  induction m as [|[k' v'] m IH]; simpl; intros Hnd Hk.
  - apply elem_of_nil in Hk. contradiction.
  - apply NoDup_cons in Hnd as [Hk' Hnd]. rewrite filter_cons. simpl.
    destruct (decide (k' = k)) as [->|Hne].
    + exists v'. f_equal. apply filter_key_absent, Hk'.
    + apply elem_of_cons in Hk as [->|Hk]; [congruence|]. apply IH; assumption.
Qed.

(** When ids identify nodes, the records of a result refer to each other
    without a cycle. *)
Lemma analyzeSelection_acyclic (selection : list SceneNode) (options : FilterOptions)
    (r : AnalysisResult) :
  uniqueIds selection ->
  analyzeSelection selection options = Some r ->
  acyclic (components r).
Proof.
  intros Huniq Hr. destruct selection as [|node selection].
  { injection Hr as <-. exists (fun _ => 0%nat). intros k info c Hin.
    apply elem_of_nil in Hin. contradiction. }
  destruct (analyzeSelection_run (node :: selection) options ltac:(discriminate))
    as (st & tree & Hst & Htree & Hres).
  rewrite Hres in Hr. injection Hr as <-. simpl.
  assert (Hknown : forall n,
             (exists root, root ∈ node :: selection /\ n ∈ nodes_of root) ->
             n ∈ flat_map nodes_of (node :: selection)).
  { intros n (root & Hroot & Hn). apply list_elem_of_In, in_flat_map.
    exists root. split; apply list_elem_of_In; assumption. }
  assert (Hunique : forall n1 n2,
             (exists root, root ∈ node :: selection /\ n1 ∈ nodes_of root) ->
             (exists root, root ∈ node :: selection /\ n2 ∈ nodes_of root) ->
             node_id n1 = node_id n2 -> n1 = n2).
  { intros n1 n2 H1 H2. apply Huniq; apply Hknown; assumption. }
  apply (traced_acyclic (node :: selection) Hunique).
  eapply (selection_traced rootId options (node :: selection) Hunique); [| |exact Hst].
  - intros n Hn. exists n. split; [exact Hn | apply nodes_of_self].
  - intros k info Hin. simpl in Hin. apply elem_of_nil in Hin. contradiction.
Qed.

(** C8: with [includeExternal = false], every record of the resulting map
    has [isLocal = true], whatever is selected. *)
Theorem analyzeSelection_local_only (selection : list SceneNode) (hidden : bool) :
  exists r,
    analyzeSelection selection (mkFilterOptions hidden false) = Some r /\
    Forall (fun kv => ci_isLocal kv.2 = true) (components r).
Proof.
  destruct (analyzeSelection_total selection (mkFilterOptions hidden false))
    as (r & Hr & _ & _ & Hlocal).
  exists r. split; [exact Hr | apply Hlocal; reflexivity].
Qed.

(** C6, as the code has it: the map of a result holds one record per id,
    each under its own id; processing a definition whose id is in the map
    already leaves the state as it is; two selected instances of one
    definition give exactly one record for it when the definition passes
    the two filters, and none when it does not. *)
Theorem analyzeSelection_deduplicates (options : FilterOptions) :
  (forall selection,
     exists r, analyzeSelection selection options = Some r /\ wellKeyed (components r)) /\
  (forall fuel c st,
     map_has (node_id c) (componentMap st) = true ->
     processComponent rootId (S fuel) c options st = Some st /\
     processComponentSet rootId (S fuel) c options st = Some st) /\
  (forall i1 i2 d rest,
     node_type i1 = INSTANCE -> node_type i2 = INSTANCE ->
     node_mainComponent i1 = Some d -> node_mainComponent i2 = Some d ->
     (node_type d = COMPONENT \/ node_type d = COMPONENT_SET) ->
     (isLocalComponent d = true \/ includeExternal options = true) ->
     (node_visible d = true \/ includeHidden options = true) ->
     exists r info,
       analyzeSelection (i1 :: i2 :: rest) options = Some r /\
       filter (fun kv => kv.1 = node_id d) (components r) = [(node_id d, info)]) /\
  (forall i1 i2 d,
     node_type i1 = INSTANCE -> node_type i2 = INSTANCE ->
     node_mainComponent i1 = Some d -> node_mainComponent i2 = Some d ->
     (node_type d = COMPONENT \/ node_type d = COMPONENT_SET) ->
     (isLocalComponent d = false /\ includeExternal options = false) \/
     (node_visible d = false /\ includeHidden options = false) ->
     exists r, analyzeSelection [i1; i2] options = Some r /\ components r = []).
Proof.
  split; [|split; [|split]].
  - intros selection.
    destruct (analyzeSelection_total selection options) as (r & Hr & Hwf & _).
    exists r. split; assumption.
  - intros fuel c st Hhas.
    rewrite processComponent_step, processComponentSet_step, Hhas. split; reflexivity.
  - intros i1 i2 d rest Ht1 Ht2 Hm1 Hm2 Htd Hl Hv.
    destruct (analyzeSelection_run (i1 :: i2 :: rest) options ltac:(discriminate))
      as (st & tree & Hst & Htree & Hres).
    assert (Hwf : wellKeyed (componentMap st)).
    { eapply selection_wellKeyed; [|exact Hst]. apply wellKeyed_nil. }
    assert (Hhas : map_has (node_id d) (componentMap st) = true).
    { remember (S (selection_height (i1 :: i2 :: rest))) as fuel eqn:Hfuel. clear Hfuel.
      cbn [forEachM] in Hst.
      destruct (processNode fuel i1 options _) as [st1|] eqn:H1; [|discriminate].
      unfold Analyzer.processNode in H1. rewrite Ht1 in H1.
      assert (Hhas1 : map_has (node_id d) (componentMap st1) = true).
      { unfold processInstance, Validator.validateMainComponent in H1.
        assert (Hfresh : set_has (node_id i1) (processedInstances (mkState [] [] [])) = false)
          by apply set_has_false, not_elem_of_nil.
        rewrite Hfresh, Hm1 in H1.
        eapply (process_inserts rootId fuel d options _ st1 Hl Hv).
        destruct Htd as [Htd|Htd]; rewrite Htd in H1; [left | right]; exact H1. }
      revert Hst.
      apply (selection_invariant rootId options
               (fun s => map_has (node_id d) (componentMap s) = true)
               (fun s ws H => H)
               (fun s owner child H => hasKey_child (node_id d) s owner child H)
               (fun s i H => H)
               (fun s info H Hnew _ _ _ => hasKey_insert (node_id d) s info H Hnew)
               fuel (i2 :: rest) st1 st Hhas1). }
    destruct Hwf as [Hnd _].
    destruct (filter_key_singleton _ _ Hnd Hhas) as [info Hinfo].
    eexists _, info. split; [exact Hres | exact Hinfo].
  - intros i1 i2 d Ht1 Ht2 Hm1 Hm2 Htd Hskip.
    assert (Hguard : forall fuel st,
              map_has (node_id d) (componentMap st) = false ->
              match node_type d with
              | COMPONENT => processComponent rootId (S fuel) d options st
              | COMPONENT_SET => processComponentSet rootId (S fuel) d options st
              | _ => Some st
              end = Some st).
    { intros fuel st Hhas.
      assert (Hor : negb (isLocalComponent d) && negb (includeExternal options) = true \/
                    negb (node_visible d) && negb (includeHidden options) = true).
      { destruct Hskip as [[-> ->]|[-> ->]]; [left | right]; reflexivity. }
      destruct Htd as [-> | ->];
        rewrite ?processComponent_step, ?processComponentSet_step, Hhas;
        destruct Hor as [-> | ->]; try reflexivity;
        destruct (negb (isLocalComponent d) && negb (includeExternal options)); reflexivity. }
    exists (createEmptyResult []). split; [|reflexivity].
    unfold Analyzer.analyzeSelection, analyzeSelectionFrom, Validator.validateSelection.
    simpl length. destruct (decide (2%nat = 0%nat)) as [|_]; [discriminate|].
    cbn [forEachM]. unfold Analyzer.processNode. rewrite Ht1, Ht2.
    unfold processInstance, Validator.validateMainComponent.
    assert (Hfresh : set_has (node_id i1) (processedInstances (mkState [] [] [])) = false)
      by apply set_has_false, not_elem_of_nil.
    rewrite Hfresh, Hm1, Hguard by reflexivity.
    destruct (set_has (node_id i2) _); [reflexivity|].
    rewrite Hm2, Hguard by reflexivity. reflexivity.
Qed.

(** C1, as the code has it: an external component (or component set)
    selected on its own with the default options is skipped before it is
    validated: the result has no component and no warning at all. *)
Theorem external_selection_skipped (c : SceneNode) :
  (node_type c = COMPONENT \/ node_type c = COMPONENT_SET) ->
  isLocalComponent c = false ->
  analyzeSelection [c] defaultOptions = Some (createEmptyResult []).
Proof.
  intros Htype Hlocal.
  unfold Analyzer.analyzeSelection, analyzeSelectionFrom, Validator.validateSelection.
  simpl length. destruct (decide (1%nat = 0%nat)) as [|_]; [discriminate|].
  cbn [forEachM]. unfold Analyzer.processNode.
  destruct Htype as [-> | ->].
  - rewrite processComponent_step. simpl. rewrite Hlocal. reflexivity.
  - rewrite processComponentSet_step. simpl. rewrite Hlocal. reflexivity.
Qed.

(** C7: the roots of the forest are exactly the records no record lists as
    a child, so no root is listed among the children of a record; no record
    is at two positions; every position holds a record of the map; and
    every record of the map is at a position of the forest, hence at exactly
    one, as a root or nested under a parent.  The last part rests on ids
    identifying the nodes under the selection, as they do in every document
    of the host: the references between the records then contain no
    cycle. *)
Theorem dependency_forest (selection : list SceneNode) (options : FilterOptions) :
  exists r,
    analyzeSelection selection options = Some r /\
    (forall id,
       id ∈ map (fun n => ci_id (dep_component n)) (dependencyTree r) <->
       map_has id (components r) = true /\ ~ referenced (components r) id) /\
    NoDup (forest_ids (dependencyTree r)) /\
    Forall (fun info => map_get (ci_id info) (components r) = Some info)
      (flat_map dep_components (dependencyTree r)) /\
    (acyclic (components r) ->
     forall id, map_has id (components r) = true -> id ∈ forest_ids (dependencyTree r)) /\
    (uniqueIds selection -> acyclic (components r)).
Proof.
  destruct (analyzeSelection_total selection options) as (r & Hr & Hwf & Htree & _).
  exists r. split; [exact Hr|].
  destruct (buildDependencyTree_spec _ _ Hwf Htree) as (Hnd & Hfrom & _ & Hroots).
  split; [|split; [exact Hnd | split; [exact Hfrom | split]]].
  - intros id. rewrite Hroots, list_elem_of_filter, <- allChildIds_spec, map_has_true. tauto.
  - intros Hacyclic. apply (buildDependencyTree_complete _ _ Hwf Htree Hacyclic).
  - intros Huniq. apply (analyzeSelection_acyclic selection options r Huniq Hr).
Qed.
End AnalysisResults.

(** ** The examples of the specification and of the test suite *)
Section Examples.
Import Analyzer Mock.

(** The external widget of the specification, in document doc123. *)
Lemma external_selection_skipped_witness :
  (node_type (MockComponentNode "ext1" "ExternalWidget" "otherdoc_x" []) = COMPONENT \/
   node_type (MockComponentNode "ext1" "ExternalWidget" "otherdoc_x" []) = COMPONENT_SET) /\
  Validator.isLocalComponent "doc123"
    (MockComponentNode "ext1" "ExternalWidget" "otherdoc_x" []) = false /\
  analyzeSelection "doc123" [MockComponentNode "ext1" "ExternalWidget" "otherdoc_x" []]
    defaultOptions
  = Some (createEmptyResult []).
Proof.
  assert (H1 : node_type (MockComponentNode "ext1" "ExternalWidget" "otherdoc_x" []) = COMPONENT \/
               node_type (MockComponentNode "ext1" "ExternalWidget" "otherdoc_x" []) = COMPONENT_SET)
    by (left; reflexivity).
  assert (H2 : Validator.isLocalComponent "doc123"
                 (MockComponentNode "ext1" "ExternalWidget" "otherdoc_x" []) = false)
    by reflexivity.
  split; [exact H1 | split; [exact H2|]].
  exact (external_selection_skipped "doc123" _ H1 H2).
Defined.

(** C1 as stated fails: for the external widget selected alone with the
    default options the warning list is empty, so it holds no
    external-dependency warning. *)
Lemma external_selection_no_warning :
  (exists r,
     analyzeSelection "doc123" [MockComponentNode "ext1" "ExternalWidget" "otherdoc_x" []]
       defaultOptions = Some r /\
     length (components r) = 0%nat /\ warnings r = []) /\
  ~ (exists r w,
       analyzeSelection "doc123" [MockComponentNode "ext1" "ExternalWidget" "otherdoc_x" []]
         defaultOptions = Some r /\
       w ∈ warnings r /\ w_type w = EXTERNAL_DEPENDENCY).
Proof.
  split.
  - eexists. split; [reflexivity|]. split; reflexivity.
  - intros (r & w & Hr & Hw & _).
    vm_compute in Hr. injection Hr as <-. simpl in Hw.
    apply elem_of_nil in Hw. exact Hw.
Qed.

(** C2: a Button component with two nested instances of one Icon
    definition gets the Icon id twice in its children.  The same two
    instances inside a variant of a component set are listed once: only
    [processComponentSet] tests whether the id is listed already. *)
Theorem component_children_repeat :
  (exists r info,
     analyzeSelection "doc123"
       [MockComponentNode "button" "Button" "doc123_button"
          [MockInstanceNode "i1" "Icon 1" (Some (MockComponentNode "icon" "Icon" "doc123_icon" []));
           MockInstanceNode "i2" "Icon 2" (Some (MockComponentNode "icon" "Icon" "doc123_icon" []))]]
       defaultOptions = Some r /\
     map_get "button" (components r) = Some info /\
     ci_children info = ["icon"; "icon"] /\
     ~ NoDup (ci_children info)) /\
  (exists r info,
     analyzeSelection "doc123"
       [MockComponentSetNode "buttons" "Buttons" "doc123_buttons"
          [MockComponentNode "primary" "Primary" "doc123_primary"
             [MockInstanceNode "i1" "Icon 1" (Some (MockComponentNode "icon" "Icon" "doc123_icon" []));
              MockInstanceNode "i2" "Icon 2" (Some (MockComponentNode "icon" "Icon" "doc123_icon" []))]]]
       defaultOptions = Some r /\
     map_get "buttons" (components r) = Some info /\
     ci_children info = ["icon"]).
Proof.
  split.
  - eexists _, _. split; [vm_compute; reflexivity|]. split; [reflexivity|].
    split; [reflexivity|]. simpl. intros Hnd.
    apply NoDup_cons in Hnd as [Hnot _]. apply Hnot. left.
  - eexists _, _. split; [vm_compute; reflexivity|]. split; reflexivity.
Qed.

(** The deduplication test of the suite: two instances of one Button. *)
Lemma analyzeSelection_deduplicates_witness :
  exists r info,
    analyzeSelection "doc123"
      [MockInstanceNode "inst1" "Instance1" (Some (MockComponentNode "comp" "Button" "doc123_button" []));
       MockInstanceNode "inst2" "Instance2" (Some (MockComponentNode "comp" "Button" "doc123_button" []))]
      defaultOptions = Some r /\
    filter (fun kv => kv.1 = "comp") (components r) = [("comp", info)].
Proof.
  destruct (analyzeSelection_deduplicates "doc123" defaultOptions) as (_ & _ & Htwo & _).
  apply (Htwo _ _ (MockComponentNode "comp" "Button" "doc123_button" []) []);
    try reflexivity; left; reflexivity.
Defined.

(** C6 as stated fails for a definition the filters reject: two instances
    of a library component, selected with the default options, give no
    record for it. *)
Lemma external_instances_no_entry :
  exists r,
    analyzeSelection "doc123"
      [MockInstanceNode "inst1" "Instance1" (Some (MockComponentNode "lib" "Library Button" "otherdoc_button" []));
       MockInstanceNode "inst2" "Instance2" (Some (MockComponentNode "lib" "Library Button" "otherdoc_button" []))]
      defaultOptions = Some r /\
    components r = [] /\
    ~ (exists info, filter (fun kv => kv.1 = "lib") (components r) = [("lib", info)]).
Proof.
  eexists. split; [vm_compute; reflexivity|]. split; [reflexivity|].
  intros [info H]. discriminate H.
Qed.

(** Why the forest is complete only where ids identify nodes: in a selection
    built by hand, in which two different nodes carry the id a, component a
    nests an instance of b and b nests an instance of a.  Both get a record,
    each is listed as the other's child, no record is a root, and the forest
    is empty.  No document of the host holds such nodes. *)
Lemma forest_misses_cycle :
  exists r,
    analyzeSelection "doc123"
      [MockComponentNode "a" "A" "doc123_a"
         [MockInstanceNode "ib" "B in A"
            (Some (MockComponentNode "b" "B" "doc123_b"
                     [MockInstanceNode "ia" "A in B"
                        (Some (MockComponentNode "a" "A" "doc123_a" []))]))]]
      defaultOptions = Some r /\
    map_keys (components r) = ["a"; "b"] /\
    dependencyTree r = [] /\
    ~ (forall id, map_has id (components r) = true -> id ∈ forest_ids (dependencyTree r)).
Proof.
  eexists. split; [vm_compute; reflexivity|]. split; [reflexivity|]. split; [reflexivity|].
  intros Hall. specialize (Hall "a" eq_refl). simpl in Hall.
  apply elem_of_nil in Hall. exact Hall.
Qed.

(** A Button that nests an Icon: ids identify the three nodes, so there is
    no cycle and both records are in the forest. *)
Lemma dependency_forest_witness :
  uniqueIds
    [MockComponentNode "button" "Button" "doc123_button"
       [MockInstanceNode "iconInst" "IconInstance"
          (Some (MockComponentNode "icon" "Icon" "doc123_icon" []))]] /\
  exists r,
    analyzeSelection "doc123"
      [MockComponentNode "button" "Button" "doc123_button"
         [MockInstanceNode "iconInst" "IconInstance"
            (Some (MockComponentNode "icon" "Icon" "doc123_icon" []))]]
      defaultOptions = Some r /\
    acyclic (components r) /\
    "button" ∈ forest_ids (dependencyTree r) /\
    "icon" ∈ forest_ids (dependencyTree r).
Proof.
  assert (Hunique : uniqueIds
            [MockComponentNode "button" "Button" "doc123_button"
               [MockInstanceNode "iconInst" "IconInstance"
                  (Some (MockComponentNode "icon" "Icon" "doc123_icon" []))]]).
  { intros n1 n2 H1 H2 Hid. cbn in H1, H2.
    repeat (apply elem_of_cons in H1 as [->|H1]);
      try (apply elem_of_nil in H1; contradiction);
      repeat (apply elem_of_cons in H2 as [->|H2]);
      try (apply elem_of_nil in H2; contradiction);
      try reflexivity; discriminate Hid. }
  split; [exact Hunique|].
  destruct (dependency_forest "doc123"
              [MockComponentNode "button" "Button" "doc123_button"
                 [MockInstanceNode "iconInst" "IconInstance"
                    (Some (MockComponentNode "icon" "Icon" "doc123_icon" []))]]
              defaultOptions) as (r & Hr & _ & _ & _ & Hcomplete & Hacyclic).
  exists r. split; [exact Hr|]. specialize (Hacyclic Hunique).
  split; [exact Hacyclic|].
  vm_compute in Hr. injection Hr as <-.
  split; apply (Hcomplete Hacyclic); reflexivity.
Defined.
End Examples.

(** ** The repository's tests, run on the embedding *)
Section TestSuite.
Import Traversal Analyzer Mock.

(** traversal.test.ts: "should traverse all nodes in a tree". *)
Example test_traverse_order :
  map node_id
    (traverseNode
       (MockNode "frame1" "Frame" FRAME
          [MockNode "child1" "Child1" RECTANGLE [MockNode "grandchild1" "Grandchild" ELLIPSE []];
           MockNode "child2" "Child2" RECTANGLE []]))
  = ["frame1"; "child1"; "grandchild1"; "child2"].
Proof. reflexivity. Qed.

(** traversal.test.ts: "should find all component instances". *)
Example test_find_instances :
  map node_id
    (findComponentInstances
       (MockNode "frame1" "Frame" FRAME
          [MockInstanceNode "inst1" "Instance1" (Some (MockComponentNode "comp1" "Component" "key1" []));
           MockInstanceNode "inst2" "Instance2" (Some (MockComponentNode "comp1" "Component" "key1" []))]))
  = ["inst1"; "inst2"].
Proof. reflexivity. Qed.

(** traversal.test.ts: "should calculate node depth correctly". *)
Example test_node_depth :
  chainDepth [] = 0%nat /\ chainDepth [PAGE] = 1%nat /\ chainDepth [FRAME; PAGE] = 2%nat /\
  chainDepth [FRAME; PAGE; DOCUMENT] = 2%nat.
Proof. repeat split. Qed.

(** validator.test.ts: empty selection, local and external components. *)
Example test_validate :
  map w_type (Validator.validateSelection []) = [MISSING_DEFINITION] /\
  Validator.validateComponent "doc123" (MockComponentNode "comp1" "Local" "doc123_key" []) = [] /\
  map w_type
    (Validator.validateComponent "doc123" (MockComponentNode "comp1" "External" "otherdoc_key" []))
  = [EXTERNAL_DEPENDENCY].
Proof. repeat split. Qed.

(** analyzer.test.ts: "should find nested component instances", which is
    also the Button and Icon example of the specification. *)
Example test_nested_instances :
  exists r,
    analyzeSelection "doc123"
      [MockComponentNode "button" "Button" "doc123_button"
         [MockInstanceNode "iconInst" "IconInstance"
            (Some (MockComponentNode "icon" "Icon" "doc123_icon" []))]]
      defaultOptions = Some r /\
    map_keys (components r) = ["button"; "icon"] /\
    totalComponents (stats r) = 2%nat /\
    externalComponents (stats r) = 0%nat /\
    warnings r = [].
Proof. eexists. split; [vm_compute; reflexivity|]. repeat split. Qed.

(** analyzer.test.ts: "should identify external components". *)
Example test_external_included :
  exists r,
    analyzeSelection "doc123" [MockComponentNode "comp1" "External" "otherdoc_key" []]
      (mkFilterOptions false true) = Some r /\
    externalComponents (stats r) = 1%nat /\
    map w_type (warnings r) = [EXTERNAL_DEPENDENCY].
Proof. eexists. split; [vm_compute; reflexivity|]. repeat split. Qed.

(** analyzer.test.ts: hidden components with and without [includeHidden]. *)
Example test_hidden :
  (exists r,
     analyzeSelection "doc123"
       [mkSceneNode "comp1" "Hidden" COMPONENT false false "doc123_key" "" (Some []) None [] None]
       (mkFilterOptions false false) = Some r /\
     components r = [] /\ warnings r = []) /\
  (exists r,
     analyzeSelection "doc123"
       [mkSceneNode "comp1" "Hidden" COMPONENT false false "doc123_key" "" (Some []) None [] None]
       (mkFilterOptions true false) = Some r /\
     map_keys (components r) = ["comp1"] /\ hiddenComponents (stats r) = 1%nat).
Proof. split; eexists; (split; [vm_compute; reflexivity|]); repeat split. Qed.

(** analyzer.test.ts: "should handle component sets (variants)". *)
Example test_variants :
  exists r info,
    analyzeSelection "doc123"
      [MockComponentSetNode "varSet" "ButtonVariants" "doc123_varset"
         [MockComponentNode "var1" "Primary" "doc123_var1" [];
          MockComponentNode "var2" "Secondary" "doc123_var2" []]]
      defaultOptions = Some r /\
    variantSets (stats r) = 1%nat /\
    map_get "varSet" (components r) = Some info /\
    ci_type info = CT_COMPONENT_SET /\ ci_variantCount info = Some 2%nat.
Proof. eexists _, _. split; [vm_compute; reflexivity|]. repeat split. Qed.

(** analyzer.test.ts: "should handle frames with nested instances". *)
Example test_frame :
  exists r,
    analyzeSelection "doc123"
      [MockNode "frame" "Frame" FRAME
         [MockInstanceNode "inst" "IconInstance"
            (Some (MockComponentNode "comp" "Icon" "doc123_icon" []))]]
      defaultOptions = Some r /\
    map_keys (components r) = ["comp"].
Proof. eexists. split; [vm_compute; reflexivity|]. reflexivity. Qed.

(** analyzer.test.ts: "should warn on missing main components". *)
Example test_missing_definition :
  exists r,
    analyzeSelection "doc123" [MockInstanceNode "inst" "BrokenInstance" None] defaultOptions
    = Some r /\
    components r = [] /\ map w_type (warnings r) = [MISSING_DEFINITION].
Proof. eexists. split; [vm_compute; reflexivity|]. repeat split. Qed.

(** progress.test.ts: start, update, increment, complete. *)
Example test_progress :
  pi_percentage (Progress.getProgress 0 (Progress.start 0 0 100 analyzing (Progress.newTracker false)))
  = 0%Z /\
  pi_percentage
    (Progress.getProgress 0
       (Progress.updateProgress 0 50 "Component 1"
          (Progress.start 0 0 100 collecting (Progress.newTracker false)))) = 50%Z /\
  pi_percentage
    (Progress.getProgress 0
       (Progress.advanceAll
          [Progress.Increment 0 "Item 1"; Progress.Increment 0 "Item 2"; Progress.Increment 0 "Item 3"]
          (Progress.start 0 0 10 organizing (Progress.newTracker false)))) = 30%Z /\
  pi_percentage
    (Progress.getProgress 0
       (Progress.complete 0 (Progress.start 0 0 100 finalizing (Progress.newTracker false))))
  = 100%Z.
Proof. repeat split. Qed.

(** progress.test.ts and the specification: rounding of percentages. *)
Example test_format_percentage :
  Progress.formatPercentageValue 0 0 = 0%Z /\
  Progress.formatPercentageValue 33 100 = 33%Z /\
  Progress.formatPercentageValue 66 100 = 66%Z /\
  Progress.formatPercentageValue 1 8 = 13%Z.
Proof. repeat split. Qed.

(** batcher.test.ts: "should return 0 when nothing processed". *)
Example test_estimate_nothing_processed (now : Z) :
  Batcher.estimateTimeRemaining now 0 100 now = 0%Z.
Proof. reflexivity. Qed.

(** layout.test.ts: small and large counts.  The third test of the suite,
    that 150 items get more spacing than 60, is the one the code fails. *)
Example test_spacing :
  Layout.calculateOptimalSpacing 10 200 = 200%Q /\
  (200 < Layout.calculateOptimalSpacing 60 200)%Q /\
  ~ (Layout.calculateOptimalSpacing 60 200 < Layout.calculateOptimalSpacing 150 200)%Q.
Proof.
  split; [reflexivity|]. split; [reflexivity|]. intros H. discriminate H.
Qed.
End TestSuite.

(** ** Traversal orders *)
Section TraversalFacts.
Import Traversal.

Lemma subtreeSize_unfold (node : SceneNode) :
  subtreeSize node = S (list_sum (map subtreeSize (children_of node))).
Proof. destruct node as [? ? ? ? ? ? ? [cs|] ? ? ?]; reflexivity. Qed.

Lemma traverseNode_children (node : SceneNode) :
  traverseNode node = node :: flat_map traverseNode (children_of node).
Proof. destruct node as [? ? ? ? ? ? ? [cs|] ? ? ?]; reflexivity. Qed.

#[local] Abbreviation sizeOf l := (list_sum (map subtreeSize l)).

Lemma sizeOf_app (a b : list SceneNode) : sizeOf (a ++ b) = (sizeOf a + sizeOf b)%nat.
Proof. by rewrite map_app, list_sum_app. Qed.

Lemma sizeOf_children (level : list SceneNode) :
  sizeOf level = (length level + sizeOf (flat_map children_of level))%nat.
Proof.
  induction level as [|n level IH]; [reflexivity|].
  simpl. rewrite sizeOf_app, subtreeSize_unfold, IH. lia.
Qed.

(** The queue loop visits the rest of the current level, then the levels
    below it. *)
Lemma breadthFirstLoop_levels (height : nat) :
  forall (queue pushed : list SceneNode) (fuel : nat),
    (sizeOf (pushed ++ flat_map children_of queue) <= height)%nat ->
    (sizeOf (queue ++ pushed) <= fuel)%nat ->
    breadthFirstLoop fuel (queue ++ pushed) =
    Some (queue ++ concat (levelsFrom height (pushed ++ flat_map children_of queue))).
Proof.
  induction height as [|height IH]; intros queue; induction queue as [|c queue IHq];
    intros pushed fuel Hh Hf.
  - cbn [flat_map app] in *. rewrite app_nil_r in Hh.
    destruct pushed as [|p pushed]; [by destruct fuel|].
    simpl in Hh. rewrite subtreeSize_unfold in Hh. lia.
  - destruct fuel as [|fuel].
    { simpl in Hf. rewrite subtreeSize_unfold in Hf. lia. }
    cbn [app breadthFirstLoop].
    assert (Hq : match node_children c with
                 | Some cs => (queue ++ pushed) ++ cs
                 | None => queue ++ pushed
                 end = queue ++ (pushed ++ children_of c)).
    { unfold children_of. destruct (node_children c); by rewrite ?app_nil_r, ?app_assoc. }
    rewrite Hq, (IHq (pushed ++ children_of c) fuel).
    + cbn [flat_map]. by rewrite <- !app_assoc.
    + cbn [flat_map] in Hh. by rewrite <- app_assoc.
    + simpl in Hf. rewrite subtreeSize_unfold in Hf.
      rewrite !sizeOf_app in *. lia.
  - cbn [flat_map app] in *. rewrite app_nil_r in *.
    destruct pushed as [|p pushed]; [by destruct fuel|].
    cbn [levelsFrom concat]. rewrite <- (app_nil_r (p :: pushed)) at 1.
    rewrite (IH (p :: pushed) [] fuel); [reflexivity| |by rewrite app_nil_r].
    cbn [app]. pose proof (sizeOf_children (p :: pushed)) as Hs.
    cbn [length] in Hs. lia.
  - destruct fuel as [|fuel].
    { simpl in Hf. rewrite subtreeSize_unfold in Hf. lia. }
    cbn [app breadthFirstLoop].
    assert (Hq : match node_children c with
                 | Some cs => (queue ++ pushed) ++ cs
                 | None => queue ++ pushed
                 end = queue ++ (pushed ++ children_of c)).
    { unfold children_of. destruct (node_children c); by rewrite ?app_nil_r, ?app_assoc. }
    rewrite Hq, (IHq (pushed ++ children_of c) fuel).
    + cbn [flat_map]. by rewrite <- !app_assoc.
    + cbn [flat_map] in Hh. by rewrite <- app_assoc.
    + simpl in Hf. rewrite subtreeSize_unfold in Hf.
      rewrite !sizeOf_app in *. lia.
Qed.

Lemma flat_map_traverse_children (level : list SceneNode) :
  flat_map traverseNode level ≡ₚ level ++ flat_map traverseNode (flat_map children_of level).
Proof.
  induction level as [|n level IH]; [reflexivity|].
  cbn [flat_map]. rewrite traverseNode_children, flat_map_app, IH.
  cbn [app]. constructor.
  rewrite !app_assoc. apply Permutation_app_tail, Permutation_app_comm.
Qed.

(** With enough levels, the levels hold the nodes of the depth-first
    traversals. *)
Lemma levelsFrom_traverse (height : nat) (level : list SceneNode) :
  (sizeOf level <= height)%nat ->
  concat (levelsFrom height level) ≡ₚ flat_map traverseNode level.
Proof.
  revert level. induction height as [|height IH]; intros level Hh.
  - destruct level as [|n level]; [reflexivity|].
    simpl in Hh. rewrite subtreeSize_unfold in Hh. lia.
  - destruct level as [|n level]; [reflexivity|].
    cbn [levelsFrom concat]. rewrite flat_map_traverse_children.
    apply Permutation_app_head, IH.
    pose proof (sizeOf_children (n :: level)) as Hs. cbn [length] in Hs. lia.
Qed.

(** X1: [traverseBreadthFirst] always finishes and visits the subtree level
    by level: first the node, then its children in order, then their
    children, and so on.  It visits exactly the nodes that the depth-first
    [traverseNode] visits, each as often. *)
Theorem traverseBreadthFirst_levels (node : SceneNode) :
  traverseBreadthFirst node = Some (concat (levelsFrom (subtreeSize node) [node])) /\
  concat (levelsFrom (subtreeSize node) [node]) ≡ₚ traverseNode node.
Proof.
  split.
  - unfold traverseBreadthFirst.
    pose proof (breadthFirstLoop_levels (pred (subtreeSize node)) [node] []
                  (subtreeSize node)) as H.
    rewrite subtreeSize_unfold in *. cbn [pred app flat_map levelsFrom concat] in *.
    rewrite app_nil_r in H. rewrite app_nil_r. apply H; simpl; rewrite ?subtreeSize_unfold; lia.
  - rewrite levelsFrom_traverse.
    + cbn [flat_map]. by rewrite app_nil_r.
    + simpl. lia.
Qed.

(** X2: the depth [getNodeDepth] reports is the number of ancestors that
    [getParentChain] returns; the chain is the start of the parent chain and
    stops before the document. *)
Theorem getNodeDepth_parent_chain (node : SceneNode) :
  getNodeDepth node = length (getParentChain node) /\
  getParentChain node `prefix_of` node_parents node /\
  DOCUMENT ∉ getParentChain node.
Proof.
  unfold getNodeDepth, getParentChain.
  induction (node_parents node) as [|t rest (IH1 & IH2 & IH3)]; cbn.
  - split; [reflexivity|]. split; [reflexivity|]. by intros ?%elem_of_nil.
  - destruct (decide (t = DOCUMENT)) as [->|Ht]; cbn.
    + split; [reflexivity|]. split; [apply prefix_nil|]. by intros ?%elem_of_nil.
    + split; [by rewrite IH1|]. split; [by apply prefix_cons|].
      intros [Heq|?]%elem_of_cons; [congruence|by apply IH3].
Qed.

End TraversalFacts.

(** ** The validator *)
Section ValidatorFacts.
Import Validator.
Variable rootId : string.

#[local] Abbreviation isLocalComponent := (isLocalComponent rootId).
#[local] Abbreviation validateComponent := (validateComponent rootId).
#[local] Abbreviation hasTransferableComponents := (hasTransferableComponents rootId).

(** X3: [validateComponent] returns no warning exactly for a component that
    is local, unlocked and visible.  Each of the three defects is reported
    once, by a warning of its own type, and every warning carries the id and
    the name of the component. *)
Theorem validateComponent_reports (c : SceneNode) :
  (validateComponent c = [] <->
   isLocalComponent c = true /\ node_locked c = false /\ node_visible c = true) /\
  (forall t,
     length (filter (fun w => w_type w = t) (validateComponent c)) =
     match t with
     | EXTERNAL_DEPENDENCY => if isLocalComponent c then 0%nat else 1%nat
     | LOCKED_COMPONENT => if node_locked c then 1%nat else 0%nat
     | HIDDEN_COMPONENT => if node_visible c then 0%nat else 1%nat
     | MISSING_DEFINITION => 0%nat
     end) /\
  Forall (fun w => w_componentId w = Some (node_id c) /\
                   w_componentName w = Some (node_name c))
    (validateComponent c).
Proof.
  unfold Validator.validateComponent, isLocked, isVisible.
  destruct (isLocalComponent c), (node_locked c), (node_visible c); cbn [negb app];
    (split; [split; [intros H; try discriminate H; auto | intros (? & ? & ?); congruence]|]);
    (split; [intros []; reflexivity | repeat constructor]).
Qed.

Lemma set_delete_added (x : string) (s : list string) :
  x ∉ s -> set_delete x (s ++ [x]) = s.
Proof.
  intros Hx. unfold set_delete. rewrite filter_app.
  assert (Hs : filter (fun y => y <> x) s = s).
  { induction s as [|y s IH]; [reflexivity|].
    rewrite filter_cons_True; [f_equal; apply IH|]; set_solver. }
  rewrite Hs, filter_cons_False, filter_nil, app_nil_r; [reflexivity | tauto].
Qed.

(** X4: [hasCircularDependency] answers whether the id is already on the
    path it is given and looks no further.  It leaves the path as it was,
    and after a negative answer the id is among the visited ones. *)
Theorem hasCircularDependency_answer (componentId : string) (visited path : list string) :
  hasCircularDependency componentId visited path =
  (set_has componentId path,
   if set_has componentId path then visited else set_add componentId visited,
   path).
Proof.
  unfold hasCircularDependency.
  destruct (set_has componentId path) eqn:Hp; [reflexivity|].
  unfold set_add at 3. destruct (set_has componentId visited) eqn:Hv; [reflexivity|].
  unfold set_add. rewrite Hp, Hv.
  rewrite set_delete_added; [reflexivity | apply set_has_false, Hp].
Qed.

(** What a negative answer of [hasTransferableComponents] says about each
    selected node. *)
Lemma hasTransferableComponents_false (selection : list SceneNode) :
  hasTransferableComponents selection = false ->
  forall node, node ∈ selection ->
    ((node_type node = COMPONENT \/ node_type node = COMPONENT_SET) ->
     isLocalComponent node = false) /\
    (node_type node = INSTANCE ->
     forall m, node_mainComponent node = Some m -> isLocalComponent m = false).
Proof.
  induction selection as [|n selection IH]; intros Hno node Hin.
  { by apply elem_of_nil in Hin. }
  cbn [Validator.hasTransferableComponents] in Hno.
  apply elem_of_cons in Hin as [->|Hin].
  - split.
    + intros [Ht|Ht]; rewrite Ht in Hno;
        destruct (isLocalComponent n); [discriminate | reflexivity | discriminate | reflexivity].
    + intros Ht m Hm. rewrite Ht, Hm in Hno.
      destruct (isLocalComponent m); [discriminate | reflexivity].
  - apply IH; [|exact Hin].
    destruct (node_type n); try exact Hno.
    + destruct (isLocalComponent n); [discriminate | exact Hno].
    + destruct (isLocalComponent n); [discriminate | exact Hno].
    + destruct (node_mainComponent n) as [m|]; [|exact Hno].
      destruct (isLocalComponent m); [discriminate | exact Hno].
Qed.

End ValidatorFacts.

(** ** What the analysis reports *)
Section AnalyzerReports.
Import Traversal Analyzer.
Variable rootId : string.

#[local] Abbreviation processComponent := (processComponent rootId).
#[local] Abbreviation processComponentSet := (processComponentSet rootId).
#[local] Abbreviation processInstance := (processInstance rootId).
#[local] Abbreviation processNode := (processNode rootId).
#[local] Abbreviation analyzeSelection := (analyzeSelection rootId).
#[local] Abbreviation isLocalComponent := (Validator.isLocalComponent rootId).
#[local] Abbreviation validateComponent := (Validator.validateComponent rootId).
#[local] Abbreviation hasTransferableComponents := (Validator.hasTransferableComponents rootId).

(** An invariant that follows the warnings: it has to survive the warning
    of a broken instance and, for a definition that passes the filters, the
    warnings of its validation together with the insertion of its record. *)
Section Accepting.
Variable options : FilterOptions.
Variable P : State -> Prop.
Hypothesis P_child : forall st owner child, P st -> P (push_child owner child st).
Hypothesis P_mark : forall st i, P st -> P (mark_instance i st).
Hypothesis P_missing : forall st instance w,
  Validator.validateMainComponent instance = Some w -> P st -> P (push_warnings [w] st).
Hypothesis P_accept : forall st c info,
  P st ->
  map_has (node_id c) (componentMap st) = false ->
  (isLocalComponent c = true \/ includeExternal options = true) ->
  (node_visible c = true \/ includeHidden options = true) ->
  ci_id info = node_id c ->
  ci_isLocal info = isLocalComponent c ->
  ci_isHidden info = negb (node_visible c) ->
  ci_isLocked info = node_locked c ->
  ci_children info = [] ->
  P (set_component (node_id c) info (push_warnings (validateComponent c) st)).

#[local] Abbreviation accepting fuel :=
  ((forall c st st', P st -> processComponent fuel c options st = Some st' -> P st') /\
   (forall c st st', P st -> processComponentSet fuel c options st = Some st' -> P st')).

Lemma accepting_nested (fuel : nat) (owner : string) (st : State) (mainComp : SceneNode)
    (st' : State) :
  accepting fuel ->
  P st ->
  match node_type mainComp with
  | COMPONENT => processComponent fuel mainComp options (push_child owner (node_id mainComp) st)
  | COMPONENT_SET => processComponentSet fuel mainComp options (push_child owner (node_id mainComp) st)
  | _ => Some (push_child owner (node_id mainComp) st)
  end = Some st' -> P st'.
Proof.
  intros [IHc IHs] HP Hrun.
  pose proof (P_child st owner (node_id mainComp) HP) as HP'.
  destruct (node_type mainComp); try (injection Hrun as <-; exact HP').
  - exact (IHc _ _ _ HP' Hrun).
  - exact (IHs _ _ _ HP' Hrun).
Qed.

Lemma accepting_flags (c : SceneNode) :
  negb (isLocalComponent c) && negb (includeExternal options) = false ->
  negb (node_visible c) && negb (includeHidden options) = false ->
  (isLocalComponent c = true \/ includeExternal options = true) /\
  (node_visible c = true \/ includeHidden options = true).
Proof.
  destruct (isLocalComponent c), (includeExternal options), (node_visible c),
    (includeHidden options); simpl; intros; try discriminate; tauto.
Qed.

Lemma accepting_process (fuel : nat) : accepting fuel.
Proof.
  induction fuel as [|fuel IH]; [split; intros; discriminate|].
  split; intros c st st' HP Hrun.
  - rewrite processComponent_step in Hrun.
    destruct (map_has _ _) eqn:Hhas; [injection Hrun as <-; exact HP|].
    destruct (negb (isLocalComponent c) && _) eqn:Hext; [injection Hrun as <-; exact HP|].
    destruct (negb (node_visible c) && _) eqn:Hhid; [injection Hrun as <-; exact HP|].
    destruct (accepting_flags c Hext Hhid) as [Hl Hv].
    revert Hrun. apply forEachM_invariant.
    + intros s instance s' _ Hs Hbody.
      destruct (getMainComponent instance) as [m|]; [|injection Hbody as <-; exact Hs].
      exact (accepting_nested fuel _ _ _ _ IH Hs Hbody).
    + apply P_accept; try assumption; reflexivity.
  - rewrite processComponentSet_step in Hrun.
    destruct (map_has _ _) eqn:Hhas; [injection Hrun as <-; exact HP|].
    destruct (negb (isLocalComponent c) && _) eqn:Hext; [injection Hrun as <-; exact HP|].
    destruct (negb (node_visible c) && _) eqn:Hhid; [injection Hrun as <-; exact HP|].
    destruct (accepting_flags c Hext Hhid) as [Hl Hv].
    revert Hrun. apply forEachM_invariant.
    + intros s variant s' _ Hs Hbody.
      destruct (node_type variant); try (injection Hbody as <-; exact Hs).
      revert Hbody. apply forEachM_invariant; [|exact Hs].
      intros s1 instance s1' _ Hs1 Hbody.
      destruct (getMainComponent instance) as [m|]; [|injection Hbody as <-; exact Hs1].
      destruct (bool_decide _); [injection Hbody as <-; exact Hs1|].
      exact (accepting_nested fuel _ _ _ _ IH Hs1 Hbody).
    + apply P_accept; try assumption; reflexivity.
Qed.

Lemma accepting_instance (fuel : nat) (instance : SceneNode) (st st' : State) :
  P st -> processInstance fuel instance options st = Some st' -> P st'.
Proof.
  intros HP Hrun. unfold Analyzer.processInstance in Hrun.
  destruct (set_has _ _); [injection Hrun as <-; exact HP|].
  pose proof (P_mark st (node_id instance) HP) as HP'.
  destruct (Validator.validateMainComponent instance) as [w|] eqn:Hw.
  { injection Hrun as <-. exact (P_missing _ _ _ Hw HP'). }
  destruct (node_mainComponent instance) as [m|]; [|injection Hrun as <-; exact HP'].
  destruct (accepting_process fuel) as [IHc IHs].
  destruct (node_type m); try (injection Hrun as <-; exact HP').
  - exact (IHc _ _ _ HP' Hrun).
  - exact (IHs _ _ _ HP' Hrun).
Qed.

Lemma accepting_node (fuel : nat) (node : SceneNode) (st st' : State) :
  P st -> processNode fuel node options st = Some st' -> P st'.
Proof.
  intros HP Hrun. unfold Analyzer.processNode in Hrun.
  destruct (accepting_process fuel) as [IHc IHs].
  assert (Hcontainer :
            match node_children node with
            | Some _ =>
                forEachM
                  (fun st child =>
                     if bool_decide (node_type child = INSTANCE)
                        && negb (set_has (node_id child) (processedInstances st))
                     then processInstance fuel child options st
                     else Some st)
                  (traverseNode node) st
            | None => Some st
            end = Some st' -> P st').
  { destruct (node_children node); [|intros [= <-]; exact HP].
    apply forEachM_invariant; [|exact HP].
    intros s child s' _ Hs Hbody.
    destruct (_ && _); [|injection Hbody as <-; exact Hs].
    exact (accepting_instance fuel _ _ _ Hs Hbody). }
  destruct (node_type node); try (apply Hcontainer; exact Hrun).
  - exact (IHc _ _ _ HP Hrun).
  - exact (IHs _ _ _ HP Hrun).
  - exact (accepting_instance fuel _ _ _ HP Hrun).
Qed.

Lemma accepting_selection (fuel : nat) (selection : list SceneNode) (st st' : State) :
  P st ->
  forEachM (fun st node => processNode fuel node options st) selection st = Some st' ->
  P st'.
Proof.
  intros HP. apply forEachM_invariant; [|exact HP].
  intros s node s' _ Hs Hbody. exact (accepting_node fuel _ _ _ Hs Hbody).
Qed.
End Accepting.

(** *** Flags and warnings *)

Lemma count_if_app {A} (p : A -> bool) (l1 l2 : list A) :
  count_if p (l1 ++ l2) = (count_if p l1 + count_if p l2)%nat.
Proof. unfold count_if. by rewrite filter_app, length_app. Qed.

Lemma count_if_none {A} (p : A -> bool) (l : list A) :
  count_if p l = 0%nat <-> Forall (fun x => p x = false) l.
Proof.
  unfold count_if. induction l as [|x l IH]; [split; [constructor | reflexivity]|].
  destruct (p x) eqn:Hx.
  - rewrite filter_cons_True by exact Hx. split; [discriminate|].
    intros H. apply Forall_cons in H as [H _]. congruence.
  - rewrite filter_cons_False by congruence. rewrite IH. split.
    + intros H. by constructor.
    + intros H. by apply Forall_cons in H as [_ H].
Qed.

Lemma count_if_one {A} (p : A -> bool) (x : A) :
  count_if p [x] = if p x then 1%nat else 0%nat.
Proof.
  unfold count_if. destruct (p x) eqn:Hx.
  - by rewrite filter_cons_True.
  - rewrite filter_cons_False; [reflexivity | congruence].
Qed.

Lemma count_if_le {A} (p : A -> bool) (l : list A) : (count_if p l <= length l)%nat.
Proof. unfold count_if. apply length_filter. Qed.

Lemma count_if_update (p : ComponentInfo -> bool) (k : string)
    (f : ComponentInfo -> ComponentInfo) (m : list (string * ComponentInfo)) :
  (forall info, p (f info) = p info) ->
  count_if p (map_values (map_update k f m)) = count_if p (map_values m).
Proof.
  intros Hp. unfold count_if, map_values. induction m as [|[k' v] m IH]; [reflexivity|].
  cbn [map_update]. destruct (decide (k = k')) as [->|Hne]; cbn [map snd].
  - destruct (p v) eqn:Hv.
    + rewrite !filter_cons_True by (rewrite ?Hp; exact Hv). reflexivity.
    + rewrite !filter_cons_False by (rewrite ?Hp; congruence). reflexivity.
  - destruct (p v) eqn:Hv.
    + rewrite !filter_cons_True by exact Hv. cbn [length]. by rewrite IH.
    + rewrite !filter_cons_False by congruence. exact IH.
Qed.

Lemma warningsOfType_app (t : WarningType) (ws1 ws2 : list Warning) :
  length (warningsOfType t (ws1 ++ ws2)) =
  (length (warningsOfType t ws1) + length (warningsOfType t ws2))%nat.
Proof. unfold warningsOfType. by rewrite filter_app, length_app. Qed.

Lemma warningsOfType_none (t : WarningType) (ws : list Warning) :
  length (warningsOfType t ws) = 0%nat -> Forall (fun w => w_type w <> t) ws.
Proof.
  unfold warningsOfType. induction ws as [|w ws IH]; [constructor|].
  destruct (decide (w_type w = t)) as [Ht|Ht].
  - rewrite filter_cons_True by exact Ht. discriminate.
  - rewrite filter_cons_False by exact Ht. intros H. constructor; [exact Ht | exact (IH H)].
Qed.

(** The warnings of a definition's validation count its defects. *)
Lemma validateComponent_counts (c : SceneNode) :
  length (warningsOfType EXTERNAL_DEPENDENCY (validateComponent c)) =
    (if isLocalComponent c then 0%nat else 1%nat) /\
  length (warningsOfType LOCKED_COMPONENT (validateComponent c)) =
    (if node_locked c then 1%nat else 0%nat) /\
  length (warningsOfType HIDDEN_COMPONENT (validateComponent c)) =
    (if node_visible c then 0%nat else 1%nat) /\
  length (warningsOfType MISSING_DEFINITION (validateComponent c)) = 0%nat.
Proof.
  unfold Validator.validateComponent, Validator.isLocked, Validator.isVisible.
  destruct (isLocalComponent c), (node_locked c), (node_visible c); repeat split.
Qed.

(** The flagged records and the warnings of their kind, counted. *)
#[local] Abbreviation flagsReported st :=
  (length (warningsOfType EXTERNAL_DEPENDENCY (warningList st)) =
     count_if (fun c => negb (ci_isLocal c)) (map_values (componentMap st)) /\
   length (warningsOfType LOCKED_COMPONENT (warningList st)) =
     count_if ci_isLocked (map_values (componentMap st)) /\
   length (warningsOfType HIDDEN_COMPONENT (warningList st)) =
     count_if ci_isHidden (map_values (componentMap st))).

Lemma selection_flagsReported (fuel : nat) (selection : list SceneNode) options
    (st st' : State) :
  flagsReported st ->
  forEachM (fun st node => processNode fuel node options st) selection st = Some st' ->
  flagsReported st'.
Proof.
  apply (accepting_selection options (fun st => flagsReported st)).
  - intros s owner child H. cbn [push_child componentMap warningList].
    rewrite !count_if_update by reflexivity. exact H.
  - intros s i H. exact H.
  - intros s instance w Hw (He & Hl & Hh). unfold Validator.validateMainComponent in Hw.
    destruct (node_mainComponent instance); [discriminate|]. injection Hw as <-.
    cbn [push_warnings componentMap warningList].
    rewrite !warningsOfType_app. cbn. rewrite !Nat.add_0_r. auto.
  - intros s c info (He & Hl & Hh) Hnew _ _ Hid Hlocal Hhidden Hlocked _.
    cbn [set_component push_warnings componentMap warningList].
    rewrite (map_set_new _ _ _ Hnew). unfold map_values. rewrite map_app.
    rewrite !count_if_app, !warningsOfType_app.
    destruct (validateComponent_counts c) as (Ce & Cl & Ch & _).
    rewrite Ce, Cl, Ch. cbn [map snd]. fold (map_values (componentMap s)).
    rewrite He, Hl, Hh, !count_if_one, Hlocal, Hhidden, Hlocked.
    destruct (isLocalComponent c), (node_locked c), (node_visible c); cbn; auto.
Qed.

(** Every analysis returns, and its result reports each flagged record
    once. *)
Lemma analyzeSelection_flags (selection : list SceneNode) (options : FilterOptions) :
  exists r,
    analyzeSelection selection options = Some r /\
    stats r = calculateStats (components r) /\
    length (warningsOfType EXTERNAL_DEPENDENCY (warnings r)) = externalComponents (stats r) /\
    length (warningsOfType LOCKED_COMPONENT (warnings r)) = lockedComponents (stats r) /\
    length (warningsOfType HIDDEN_COMPONENT (warnings r)) = hiddenComponents (stats r).
Proof.
  destruct selection as [|node selection].
  { eexists. split; [reflexivity|]. repeat split. }
  destruct (analyzeSelection_run rootId (node :: selection) options ltac:(discriminate))
    as (st & tree & Hst & Htree & Hres).
  eexists. split; [exact Hres|]. split; [reflexivity|].
  cbn [warnings stats calculateStats externalComponents lockedComponents hiddenComponents].
  eapply selection_flagsReported; [|exact Hst]. repeat split.
Qed.

(** X5: in every result the warnings and the statistics agree: the number
    of EXTERNAL_DEPENDENCY, LOCKED_COMPONENT and HIDDEN_COMPONENT warnings
    is the number of records counted as external, locked and hidden. *)
Theorem warnings_match_stats (selection : list SceneNode) (options : FilterOptions) :
  exists r,
    analyzeSelection selection options = Some r /\
    length (warningsOfType EXTERNAL_DEPENDENCY (warnings r)) = externalComponents (stats r) /\
    length (warningsOfType LOCKED_COMPONENT (warnings r)) = lockedComponents (stats r) /\
    length (warningsOfType HIDDEN_COMPONENT (warnings r)) = hiddenComponents (stats r).
Proof.
  destruct (analyzeSelection_flags selection options) as (r & Hr & _ & H).
  exists r. split; [exact Hr | exact H].
Qed.

Lemma allVisible_child (m : list (string * ComponentInfo)) (owner child : string) :
  Forall (fun kv => ci_isHidden kv.2 = false) m ->
  Forall (fun kv => ci_isHidden kv.2 = false) (map_update owner (add_child child) m).
Proof.
  intros H. rewrite Forall_forall in H. apply Forall_forall. intros [k v] Hin.
  apply map_update_elem in Hin as [Hin|(-> & v0 & Hv0 & ->)].
  - apply (H _ Hin).
  - apply (H _ Hv0).
Qed.

Lemma selection_allVisible (fuel : nat) (selection : list SceneNode) options (st st' : State) :
  includeHidden options = false ->
  Forall (fun kv => ci_isHidden kv.2 = false) (componentMap st) ->
  forEachM (fun st node => processNode fuel node options st) selection st = Some st' ->
  Forall (fun kv => ci_isHidden kv.2 = false) (componentMap st').
Proof.
  intros Hhid.
  apply (selection_invariant rootId options
           (fun st => Forall (fun kv => ci_isHidden kv.2 = false) (componentMap st))).
  - intros s ws H. exact H.
  - intros s owner child H. apply allVisible_child, H.
  - intros s i H. exact H.
  - intros s info H Hnew _ _ [Hvis|Hinc]; [|congruence].
    simpl. rewrite (map_set_new _ _ _ Hnew).
    apply Forall_app. split; [exact H|]. constructor; [exact Hvis | constructor].
Qed.

Lemma count_if_values_none (p : ComponentInfo -> bool) (m : list (string * ComponentInfo)) :
  Forall (fun kv => p kv.2 = false) m -> count_if p (map_values m) = 0%nat.
Proof.
  intros H. apply count_if_none. unfold map_values. apply Forall_fmap.
  eapply Forall_impl; [exact H|]. intros kv Hkv. exact Hkv.
Qed.

(** X6: what a filter keeps out is not reported either.  With
    [includeExternal] off the result counts no external record and holds
    no EXTERNAL_DEPENDENCY warning; with [includeHidden] off it holds no
    hidden record, counts none and holds no HIDDEN_COMPONENT warning. *)
Theorem filtered_never_reported (selection : list SceneNode) (options : FilterOptions) :
  exists r,
    analyzeSelection selection options = Some r /\
    (includeExternal options = false ->
     externalComponents (stats r) = 0%nat /\
     Forall (fun w => w_type w <> EXTERNAL_DEPENDENCY) (warnings r)) /\
    (includeHidden options = false ->
     Forall (fun kv => ci_isHidden kv.2 = false) (components r) /\
     hiddenComponents (stats r) = 0%nat /\
     Forall (fun w => w_type w <> HIDDEN_COMPONENT) (warnings r)).
Proof.
  destruct (analyzeSelection_flags selection options) as (r & Hr & Hstats & He & _ & Hh).
  exists r. split; [exact Hr|]. split.
  - intros Hext.
    destruct (analyzeSelection_total rootId selection options) as (r' & Hr' & _ & _ & Hlocal).
    rewrite Hr in Hr'. injection Hr' as <-. specialize (Hlocal Hext).
    assert (H0 : externalComponents (stats r) = 0%nat).
    { rewrite Hstats. cbn [calculateStats externalComponents].
      apply count_if_values_none. eapply Forall_impl; [exact Hlocal|].
      intros kv Hkv. cbn beta. by rewrite Hkv. }
    split; [exact H0|]. apply warningsOfType_none. by rewrite He.
  - intros Hhid.
    assert (Hvis : Forall (fun kv => ci_isHidden kv.2 = false) (components r)).
    { destruct selection as [|node selection].
      { injection Hr as <-. constructor. }
      destruct (analyzeSelection_run rootId (node :: selection) options ltac:(discriminate))
        as (st & tree & Hst & Htree & Hres).
      rewrite Hr in Hres. injection Hres as ->. cbn [components].
      eapply selection_allVisible; [exact Hhid | | exact Hst]. constructor. }
    assert (H0 : hiddenComponents (stats r) = 0%nat).
    { rewrite Hstats. cbn [calculateStats hiddenComponents].
      apply count_if_values_none, Hvis. }
    split; [exact Hvis|]. split; [exact H0|]. apply warningsOfType_none. by rewrite Hh.
Qed.

(** X7: the statistics of any component map add up: every record is counted
    either as a main component (it has children) or as a child component
    (it has none), and no other count exceeds the total. *)
Theorem calculateStats_adds_up (componentMap : list (string * ComponentInfo)) :
  totalComponents (calculateStats componentMap) = length componentMap /\
  (mainComponents (calculateStats componentMap) +
   childComponents (calculateStats componentMap) =
   totalComponents (calculateStats componentMap))%nat /\
  (variantSets (calculateStats componentMap) <= totalComponents (calculateStats componentMap))%nat /\
  (externalComponents (calculateStats componentMap) <= totalComponents (calculateStats componentMap))%nat /\
  (hiddenComponents (calculateStats componentMap) <= totalComponents (calculateStats componentMap))%nat /\
  (lockedComponents (calculateStats componentMap) <= totalComponents (calculateStats componentMap))%nat.
Proof.
  cbn [calculateStats totalComponents mainComponents childComponents variantSets
         externalComponents hiddenComponents lockedComponents].
  assert (Hlen : length (map_values componentMap) = length componentMap)
    by apply length_map.
  split; [reflexivity|]. rewrite <- Hlen. clear Hlen. split.
  - unfold count_if.
    induction (map_values componentMap) as [|c l IH]; [reflexivity|].
    destruct (bool_decide (length (ci_children c) = 0%nat)) eqn:Hc.
    + rewrite filter_cons_False by (rewrite Hc; discriminate).
      rewrite filter_cons_True by exact Hc. cbn [length]. lia.
    + rewrite filter_cons_True by (rewrite Hc; reflexivity).
      rewrite filter_cons_False by (rewrite Hc; discriminate). cbn [length]. lia.
  - repeat split; apply count_if_le.
Qed.

(** *** Selected definitions *)

Lemma forEachM_app {A S : Type} (body : S -> A -> option S) (l1 l2 : list A) (s : S) :
  forEachM body (l1 ++ l2) s =
  match forEachM body l1 s with
  | Some s1 => forEachM body l2 s1
  | None => None
  end.
Proof.
  revert s. induction l1 as [|x l1 IH]; intros s; [reflexivity|].
  cbn [app forEachM]. destruct (body s x); [apply IH | reflexivity].
Qed.

(** X8: a selected component or component set that passes the two filters
    has a record in the result, under its id. *)
Theorem selected_definition_recorded (selection : list SceneNode) (options : FilterOptions)
    (c : SceneNode) :
  c ∈ selection ->
  node_type c = COMPONENT \/ node_type c = COMPONENT_SET ->
  isLocalComponent c = true \/ includeExternal options = true ->
  node_visible c = true \/ includeHidden options = true ->
  exists r info,
    analyzeSelection selection options = Some r /\
    map_get (node_id c) (components r) = Some info /\
    ci_id info = node_id c.
Proof.
  intros Hin Htype Hlocal Hvisible.
  assert (Hne : selection <> []) by (intros ->; by apply elem_of_nil in Hin).
  destruct (analyzeSelection_run rootId selection options Hne)
    as (st & tree & Hst & Htree & Hres).
  destruct (analyzeSelection_total rootId selection options) as (r & Hr & [Hnd Hids] & _).
  rewrite Hres in Hr. injection Hr as <-. cbn [components] in *.
  assert (Hhas : map_has (node_id c) (componentMap st) = true).
  { apply list_elem_of_split in Hin as (l1 & l2 & ->).
    rewrite forEachM_app in Hst.
    destruct (forEachM _ l1 _) as [s1|]; [|discriminate].
    cbn [forEachM] in Hst.
    destruct (processNode _ c options s1) as [s2|] eqn:Hc; [|discriminate].
    assert (H2 : map_has (node_id c) (componentMap s2) = true).
    { unfold Analyzer.processNode in Hc.
      destruct Htype as [Ht|Ht]; rewrite Ht in Hc;
        eapply (process_inserts rootId); eauto. }
    revert Hst.
    apply (selection_invariant rootId options
             (fun s => map_has (node_id c) (componentMap s) = true));
      [| | | |exact H2].
    - intros s ws H. exact H.
    - intros s owner child H. apply hasKey_child, H.
    - intros s i H. exact H.
    - intros s info H Hnew _ _ _. apply hasKey_insert; assumption. }
  unfold map_has in Hhas.
  destruct (map_get (node_id c) (componentMap st)) as [info|] eqn:Hget; [|discriminate].
  eexists _, info. split; [exact Hres|]. split; [exact Hget|].
  apply map_get_Some_elem in Hget. rewrite Forall_forall in Hids.
  exact (Hids _ Hget).
Qed.

(** X9: when [hasTransferableComponents] says no about a selection of
    components, component sets and instances, the analysis that leaves
    external definitions out finds nothing. *)
Theorem nothing_transferable_nothing_found (selection : list SceneNode) (hidden : bool) :
  hasTransferableComponents selection = false ->
  Forall (fun node => node_type node = COMPONENT \/ node_type node = COMPONENT_SET \/
                      node_type node = INSTANCE) selection ->
  exists r,
    analyzeSelection selection (mkFilterOptions hidden false) = Some r /\
    components r = [].
Proof.
  intros Hno Htypes.
  pose proof (hasTransferableComponents_false rootId selection Hno) as Hnodes.
  destruct selection as [|node selection]; [eexists; split; reflexivity|].
  destruct (analyzeSelection_run rootId (node :: selection) (mkFilterOptions hidden false)
              ltac:(discriminate)) as (st & tree & Hst & Htree & Hres).
  assert (Hskip : forall fuel d s,
            isLocalComponent d = false ->
            componentMap s = [] ->
            processComponent (S fuel) d (mkFilterOptions hidden false) s = Some s /\
            processComponentSet (S fuel) d (mkFilterOptions hidden false) s = Some s).
  { intros fuel d s Hd Hs.
    rewrite processComponent_step, processComponentSet_step, Hs, Hd. split; reflexivity. }
  assert (Hempty : componentMap st = []).
  { revert Hst. remember (selection_height (node :: selection)) as fuel eqn:Hfuel.
    clear Hfuel. apply (forEachM_invariant (fun s => componentMap s = [])); [|reflexivity].
    intros s n s' Hn Hs Hbody. rewrite Forall_forall in Htypes.
    destruct (Hnodes n Hn) as [Hdef Hinst].
    unfold Analyzer.processNode in Hbody.
    destruct (Htypes n Hn) as [Ht|[Ht|Ht]]; rewrite Ht in Hbody.
    - destruct (Hskip fuel n s (Hdef (or_introl Ht)) Hs) as [Hc _].
      rewrite Hc in Hbody. by injection Hbody as <-.
    - destruct (Hskip fuel n s (Hdef (or_intror Ht)) Hs) as [_ Hc].
      rewrite Hc in Hbody. by injection Hbody as <-.
    - unfold Analyzer.processInstance, Validator.validateMainComponent in Hbody.
      destruct (set_has _ _); [by injection Hbody as <-|].
      destruct (node_mainComponent n) as [m|] eqn:Hm; [|by injection Hbody as <-].
      destruct (Hskip fuel m (mark_instance (node_id n) s) (Hinst Ht m eq_refl) Hs)
        as [Hc Hcs].
      rewrite Hc, Hcs in Hbody.
      destruct (node_type m); by injection Hbody as <-. }
  eexists. split; [exact Hres|]. exact Hempty.
Qed.

(** *** Searching the records *)
Section FilterFacts.
Variable toLowerCase : string -> string.

#[local] Abbreviation filterComponents := (filterComponents toLowerCase).
#[local] Abbreviation matchesSearch := (matchesSearch toLowerCase).

Lemma filter_loop (lowerSearch : string) (entries filtered : list (string * ComponentInfo)) :
  NoDup (map_keys (filtered ++ entries)) ->
  fold_left
    (fun filtered entry =>
       if matchesSearch lowerSearch entry.2
       then map_set entry.1 entry.2 filtered
       else filtered)
    entries filtered
  = filtered ++ filter (fun kv => matchesSearch lowerSearch kv.2 = true) entries.
Proof.
  revert filtered. induction entries as [|[k v] entries IH]; intros filtered Hnd.
  { by rewrite filter_nil, app_nil_r. }
  cbn [fold_left fst snd].
  assert (Hk : map_has k filtered = false).
  { apply map_has_false. unfold map_keys in *. rewrite map_app in Hnd.
    apply NoDup_app in Hnd as (_ & Hdisj & _). intros Hin.
    apply (Hdisj k Hin). left. }
  destruct (matchesSearch lowerSearch v) eqn:Hv.
  - rewrite filter_cons_True by exact Hv.
    rewrite (map_set_new _ _ _ Hk), IH; [by rewrite <- app_assoc|].
    by rewrite <- app_assoc.
  - rewrite filter_cons_False by (cbn; congruence).
    apply IH. unfold map_keys in *. rewrite map_app in *. cbn [map fst] in Hnd.
    apply NoDup_app in Hnd as (H1 & Hdisj & H2). apply NoDup_app.
    split; [exact H1|]. split.
    + intros x Hx Hx'. apply (Hdisj x Hx). by right.
    + by apply NoDup_cons in H2 as [_ H2].
Qed.

Lemma filterComponents_filter (m : list (string * ComponentInfo)) (term : string) :
  NoDup (map_keys m) ->
  filterComponents m term =
  if bool_decide (term = "") then m
  else filter (fun kv => matchesSearch (toLowerCase term) kv.2 = true) m.
Proof.
  intros Hnd. unfold Analyzer.filterComponents.
  destruct (bool_decide (term = "")); [reflexivity|].
  by rewrite filter_loop.
Qed.

(** X10: on a map (one entry per key), [filterComponents] with an empty
    term returns the map itself; with any other term it returns exactly the
    records whose lower-cased name or description contains the lower-cased
    term, in the order and with the content they have in the map.
    Filtering the result again with the same term changes nothing. *)
Theorem filterComponents_selects (m : list (string * ComponentInfo)) (term : string) :
  NoDup (map_keys m) ->
  filterComponents m term =
    (if bool_decide (term = "") then m
     else filter (fun kv => matchesSearch (toLowerCase term) kv.2 = true) m) /\
  filterComponents m term `sublist_of` m /\
  filterComponents (filterComponents m term) term = filterComponents m term.
Proof.
  intros Hnd.
  assert (Hsub : filterComponents m term `sublist_of` m).
  { rewrite filterComponents_filter by exact Hnd.
    destruct (bool_decide (term = "")); [reflexivity | apply sublist_filter]. }
  split; [by apply filterComponents_filter|]. split; [exact Hsub|].
  assert (Hnd' : NoDup (map_keys (filterComponents m term))).
  { apply (sublist_NoDup _ (map_keys m)); [exact Hnd | unfold map_keys; by apply fmap_sublist]. }
  rewrite (filterComponents_filter (filterComponents m term)) by exact Hnd'.
  destruct (bool_decide (term = "")) eqn:Ht; [reflexivity|].
  rewrite (filterComponents_filter m) by exact Hnd. rewrite Ht.
  by apply list_filter_filter_r.
Qed.
End FilterFacts.

End AnalyzerReports.

(** ** The tracker's first and last report, estimates and the text bar *)
Section ProgressReports.
Import Progress.

Lemma Math_round_nonneg (x : Q) : (0 <= x)%Q -> (0 <= Math_round x)%Z.
Proof.
  intros Hx. unfold Math_round.
  change 0%Z with (Qfloor (1 # 2)). apply Qfloor_resp_le.
  rewrite <- (Qplus_0_l (1 # 2)) at 1. apply Qplus_le_l, Hx.
Qed.

Lemma Math_round_nonpos (x : Q) : (x <= 0)%Q -> (Math_round x <= 0)%Z.
Proof.
  intros Hx. unfold Math_round.
  change 0%Z with (Qfloor (1 # 2)). apply Qfloor_resp_le.
  rewrite <- (Qplus_0_l (1 # 2)) at 2. apply Qplus_le_l, Hx.
Qed.

Lemma ratio_sign (a b c : Z) :
  (0 < b)%Z -> (0 <= c)%Z ->
  ((0 <= a)%Z -> (0 <= double (inject_Z a * double (inject_Z c / inject_Z b)))%Q) /\
  ((a <= 0)%Z -> (double (inject_Z a * double (inject_Z c / inject_Z b)) <= 0)%Q).
Proof.
  intros Hb Hc.
  assert (Hr : (0 <= double (inject_Z c / inject_Z b))%Q).
  { apply double_nonneg. unfold Qdiv. apply Qmult_le_0_compat.
    - change 0%Q with (inject_Z 0). rewrite <- Zle_Qle. exact Hc.
    - apply Qinv_le_0_compat. change 0%Q with (inject_Z 0). rewrite <- Zle_Qle. lia. }
  split; intros Ha.
  - apply double_nonneg, Qmult_le_0_compat; [|exact Hr].
    change 0%Q with (inject_Z 0). rewrite <- Zle_Qle. exact Ha.
  - apply double_nonpos.
    rewrite <- (Qmult_0_l (double (inject_Z c / inject_Z b))).
    apply Qmult_le_compat_r; [|exact Hr].
    change 0%Q with (inject_Z 0). rewrite <- Zle_Qle. exact Ha.
Qed.

(** Nothing left to do takes no time. *)
Lemma nothing_remaining (x : Q) : Math_round (double (inject_Z 0 * x)) = 0%Z.
Proof.
  assert (H : (inject_Z 0 * x == 0)%Q) by apply Qmult_0_l.
  rewrite H. reflexivity.
Qed.

(** X11: [estimateTimeRemaining] gives 0 before the first item and when
    every item is processed.  Once an item is processed and the clock has
    not run backwards, the estimate is not negative as long as
    [processed <= total], and not positive beyond that. *)
Theorem estimateTimeRemaining_sign (now processed total startTime : Z) :
  Batcher.estimateTimeRemaining now 0 total startTime = 0%Z /\
  Batcher.estimateTimeRemaining now total total startTime = 0%Z /\
  ((0 < processed)%Z -> (startTime <= now)%Z ->
   ((processed <= total)%Z ->
    (0 <= Batcher.estimateTimeRemaining now processed total startTime)%Z) /\
   ((total <= processed)%Z ->
    (Batcher.estimateTimeRemaining now processed total startTime <= 0)%Z)).
Proof.
  split; [reflexivity|]. split.
  - unfold Batcher.estimateTimeRemaining.
    destruct (total =? 0)%Z; [reflexivity|].
    rewrite Z.sub_diag. apply nothing_remaining.
  - intros Hp Hnow. unfold Batcher.estimateTimeRemaining.
    destruct (Z.eqb_spec processed 0) as [->|_]; [lia|].
    destruct (ratio_sign (total - processed) processed (now - startTime)) as [Hpos Hneg];
      [lia | lia |].
    split; intros H.
    + apply Math_round_nonneg, Hpos. lia.
    + apply Math_round_nonpos, Hneg. lia.
Qed.

(** X12: with a callback, [start] reports 0 percent of the new total and
    [complete] reports all items processed, at 100 percent when the total
    is positive (0 percent otherwise); both report an estimate of 0. *)
Theorem tracker_first_and_last_report (t : ProgressTracker) (started now total0 : Z)
    (ph : Phase) :
  hasCallback t = true ->
  (exists info,
     reported (start started now total0 ph t) = reported t ++ [info] /\
     pi_phase info = ph /\ pi_total info = total0 /\ pi_processed info = 0%Z /\
     pi_percentage info = 0%Z /\ pi_estimatedTimeRemaining info = 0%Z) /\
  (exists info,
     reported (complete now t) = reported t ++ [info] /\
     pi_phase info = phase t /\ pi_total info = total t /\ pi_processed info = total t /\
     pi_percentage info = (if (0 <? total t)%Z then 100%Z else 0%Z) /\
     pi_estimatedTimeRemaining info = 0%Z).
Proof.
  intros Hcb. split.
  - eexists. unfold start, update. cbn [hasCallback reported]. rewrite Hcb.
    cbn [reported]. split; [reflexivity|]. cbn. repeat split.
    apply percentageOf_none.
  - eexists. unfold complete, update. cbn [hasCallback reported]. rewrite Hcb.
    cbn [reported]. split; [reflexivity|].
    cbn [getProgress pi_phase pi_total pi_processed pi_percentage
           pi_estimatedTimeRemaining phase total processed startTime currentItem].
    repeat split.
    + destruct (Z.ltb_spec 0 (total t)) as [Ht|Ht]; [apply percentageOf_all, Ht|].
      apply percentageOf_no_total, Ht.
    + unfold Batcher.estimateTimeRemaining.
      destruct (total t =? 0)%Z; [reflexivity|].
      rewrite Z.sub_diag. apply nothing_remaining.
Qed.

Lemma String_repeat_Some (s : string) (count : Z) :
  (0 <= count)%Z -> String_repeat s count = Some (copies (Z.to_nat count) s).
Proof. intros H. unfold String_repeat. destruct (Z.ltb_spec count 0); [lia | reflexivity]. Qed.

Lemma String_repeat_None (s : string) (count : Z) :
  String_repeat s count = None <-> (count < 0)%Z.
Proof. unfold String_repeat. destruct (Z.ltb_spec count 0); split; (discriminate || lia || auto). Qed.

(** A percentage between 0 and 100 fills between no cell and all. *)
Lemma filledCells_within (percentage width : Z) :
  (0 <= percentage <= 100)%Z -> (0 <= width <= 2 ^ 53)%Z ->
  (0 <= filledCells percentage width <= width)%Z.
Proof.
  intros Hp Hw. unfold filledCells.
  assert (Hq : (0 <= inject_Z percentage / 100 <= 1)%Q).
  { destruct Hp as [Hp0 Hp1]. rewrite Zle_Qle in Hp0, Hp1.
    change (inject_Z 0) with 0%Q in Hp0. change (inject_Z 100) with 100%Q in Hp1.
    split; [apply Qle_shift_div_l | apply Qle_shift_div_r]; lra. }
  assert (Hd : (0 <= double (inject_Z percentage / 100) <= 1)%Q).
  { split; [apply double_nonneg; lra|]. rewrite <- double_1. apply double_mono; lra. }
  assert (Hwq : (0 <= inject_Z width)%Q)
    by (change 0%Q with (inject_Z 0); rewrite <- Zle_Qle; lia).
  assert (Hprod : (0 <= double (inject_Z percentage / 100) * inject_Z width
                   <= inject_Z width)%Q) by nra.
  split.
  - change 0%Z with (Math_round 0). apply Math_round_mono, double_nonneg. lra.
  - rewrite <- (Math_round_Z width) at 2. apply Math_round_mono.
    rewrite <- (double_Z width) at 2 by lia. apply double_mono; lra.
Qed.

(** From 200 percent on, more cells are filled than the bar has. *)
Lemma filledCells_beyond (percentage width : Z) :
  (200 <= percentage)%Z -> (1 <= width < 2 ^ 53)%Z ->
  (width < filledCells percentage width)%Z.
Proof.
  intros Hp Hw. unfold filledCells.
  assert (Hq : (2 <= inject_Z percentage / 100)%Q).
  { rewrite Zle_Qle in Hp. change (inject_Z 200) with 200%Q in Hp.
    apply Qle_shift_div_l; lra. }
  assert (Hd : (2 <= double (inject_Z percentage / 100))%Q).
  { assert (H2 : (double 2 == 2)%Q) by (vm_compute; reflexivity).
    rewrite <- H2. apply double_mono; lra. }
  assert (Hwq : (1 <= inject_Z width)%Q)
    by (change 1%Q with (inject_Z 1); rewrite <- Zle_Qle; lia).
  assert (Hprod : (inject_Z (width + 1)
                   <= double (inject_Z percentage / 100) * inject_Z width)%Q).
  { rewrite inject_Z_plus. change (inject_Z 1) with 1%Q. nra. }
  assert (Hnext : (0 <= inject_Z (width + 1))%Q)
    by (change 0%Q with (inject_Z 0); rewrite <- Zle_Qle; lia).
  assert (H : (width + 1 <= Math_round
                 (double (double (inject_Z percentage / 100) * inject_Z width)))%Z).
  { rewrite <- (Math_round_Z (width + 1)) at 1. apply Math_round_mono.
    rewrite <- (double_Z (width + 1)) at 1 by lia. apply double_mono; assumption. }
  lia.
Qed.

(** X13: for whole arguments below [2^53] in size, which doubles hold
    exactly, and a width that is not negative, [createProgressBar] throws
    exactly when the number of filled cells,
    [Math.round((percentage / 100) * width)] as doubles compute it, is
    negative or greater than the width.  Otherwise the bar has [width]
    cells, the filled ones first, followed by the percentage.  So a
    percentage between 0 and 100 always gives a bar, and one of 200 or more
    never does. *)
Theorem createProgressBar_cells (percentage width : Z) :
  (Z.abs percentage < 2 ^ 53)%Z ->
  (0 <= width < 2 ^ 53)%Z ->
  (createProgressBar percentage width = None <->
   (filledCells percentage width < 0)%Z \/ (width < filledCells percentage width)%Z) /\
  (forall bar, createProgressBar percentage width = Some bar ->
     exists filled empty : nat,
       (filled + empty)%nat = Z.to_nat width /\
       Z.of_nat filled = filledCells percentage width /\
       bar = "[" +:+ copies filled fullBlock +:+ copies empty " " +:+ "] " +:+
             pretty percentage +:+ "%") /\
  ((0 <= percentage <= 100)%Z -> is_Some (createProgressBar percentage width)) /\
  ((200 <= percentage)%Z -> (1 <= width)%Z -> createProgressBar percentage width = None).
Proof.
  intros _ Hw.
  assert (Hchar : createProgressBar percentage width = None <->
                  (filledCells percentage width < 0)%Z \/
                  (width < filledCells percentage width)%Z).
  { unfold createProgressBar, String_repeat.
    destruct (Z.ltb_spec (filledCells percentage width) 0) as [Hf|Hf];
      [split; [intros _; left; exact Hf | reflexivity]|].
    destruct (Z.ltb_spec (width - filledCells percentage width) 0) as [He|He].
    - split; [intros _; right; lia | reflexivity].
    - split; [discriminate | intros [H|H]; lia]. }
  split; [exact Hchar|]. split; [|split].
  - intros bar Hbar. unfold createProgressBar, String_repeat in Hbar.
    destruct (Z.ltb_spec (filledCells percentage width) 0) as [Hf|Hf]; [discriminate|].
    destruct (Z.ltb_spec (width - filledCells percentage width) 0) as [He|He];
      [discriminate|].
    injection Hbar as <-.
    exists (Z.to_nat (filledCells percentage width)),
           (Z.to_nat (width - filledCells percentage width)).
    split; [lia|]. split; [lia | reflexivity].
  - intros Hp. destruct (createProgressBar percentage width) eqn:Hbar; [by eexists|].
    destruct Hchar as [Hnone _]. specialize (Hnone eq_refl).
    pose proof (filledCells_within percentage width Hp ltac:(lia)). lia.
  - intros Hp Hw1. apply Hchar. right. apply filledCells_beyond; lia.
Qed.

End ProgressReports.

(** ** How a batch run ends *)
Section BatcherOutcomes.
Import Batcher.
Context {T R W : Type}.
Variable processor : T -> nat -> W -> W * (string + R).
Variable onProgress : option (nat -> nat -> W -> W).
Variable cancellationToken : option (W -> bool).
Variable yieldToUI : W -> W.

#[local] Abbreviation runBatch := (runBatch processor).
#[local] Abbreviation batchBody := (batchBody processor onProgress yieldToUI).
#[local] Abbreviation batchLoop := (batchLoop processor onProgress cancellationToken yieldToUI).
#[local] Abbreviation processBatch := (processBatch processor onProgress cancellationToken yieldToUI).
#[local] Abbreviation isCancelled := (isCancelled cancellationToken).

(** How a run over the first items of the list can have ended: every call
    returned, or the last call threw [message]. *)
#[local] Abbreviation allReturned calls values :=
  (map snd calls = map inr values).
#[local] Abbreviation lastThrew calls values message :=
  (map snd calls = map inr values ++ [inl message]).

(** One batch: the processor is called on its items in order until a call
    throws. *)
Lemma runBatch_trace (batch : list T) (i j : nat) (w : W) :
  exists n values,
    (n <= length batch)%nat /\
    map fst (runBatch batch i j [] [] w).1.2 = indexed (i + j) (take n batch) /\
    match (runBatch batch i j [] [] w).1.1 with
    | inr rs =>
        rs = values /\ n = length batch /\
        allReturned (runBatch batch i j [] [] w).1.2 values
    | inl message => lastThrew (runBatch batch i j [] [] w).1.2 values message
    end.
Proof.
  revert j w. induction batch as [|item rest IH]; intros j w.
  - exists 0%nat, []. repeat split. reflexivity.
  - cbn [Batcher.runBatch app].
    destruct (processor item (i + j) w) as [w1 [message|r]].
    + exists 1%nat, []. cbn. split; [lia|]. split; reflexivity.
    + rewrite runBatch_acc. cbn [fst snd].
      destruct (IH (S j) w1) as (n & values & Hn & Hfst & Hres).
      exists (S n), (r :: values). cbn [length take].
      split; [lia|]. split.
      * cbn [app map fst indexed]. rewrite Hfst. repeat f_equal. lia.
      * destruct (Batcher.runBatch processor rest i (S j) [] [] w1) as [[[e|rs] cs] w2];
          cbn [fst snd] in *.
        -- cbn [app map snd]. by rewrite Hres.
        -- destruct Hres as (-> & -> & Hcs). repeat split. cbn [app map snd]. by rewrite Hcs.
Qed.

Lemma indexed_take_next (items : list T) (i n : nat) :
  (i <= length items)%nat ->
  indexed 0 (take i items) ++ indexed i (take n (drop i items)) = indexed 0 (take (i + n) items).
Proof.
  intros Hi. rewrite <- (take_take_drop items i n), indexed_app.
  rewrite length_take, Nat.min_l by exact Hi. reflexivity.
Qed.

(** The loop, from a point where all earlier batches went through. *)
Lemma batchLoop_trace (fuel : nat) (items : list T) (batchSize k : nat)
    (results : list R) (calls : list (T * nat * (string + R))) (w : W)
    (outcome : Outcome R) (calls' : list (T * nat * (string + R))) (w' : W) :
  map fst calls = indexed 0 (take (k * batchSize) items) ->
  allReturned calls results ->
  batchLoop fuel items batchSize (k * batchSize) results calls w = Some (outcome, calls', w') ->
  match outcome with
  | Resolved rs => map fst calls' = indexed 0 items /\ allReturned calls' rs
  | Rejected message =>
      exists n values,
        map fst calls' = indexed 0 (take n items) /\
        (lastThrew calls' values message \/
         (message = cancelledMessage /\ allReturned calls' values /\
          (n < length items)%nat /\ exists k', n = (k' * batchSize)%nat))
  end.
Proof.
  revert k results calls w.
  induction fuel as [|fuel IH]; intros k results calls w Hfst Hsnd Hrun; [discriminate|].
  cbn [Batcher.batchLoop] in Hrun.
  destruct (Nat.ltb_spec (k * batchSize) (length items)) as [Hi|Hi].
  - destruct (isCancelled w).
    { injection Hrun as <- <- <-. exists (k * batchSize)%nat, results.
      split; [exact Hfst|]. right. repeat split; eauto. }
    unfold Batcher.batchBody in Hrun. rewrite slice_batch, runBatch_acc in Hrun.
    destruct (runBatch_trace (take batchSize (drop (k * batchSize) items))
                (k * batchSize) 0 w) as (n & values & Hn & Hcs & Hres).
    rewrite Nat.add_0_r in Hcs.
    destruct (Batcher.runBatch processor _ (k * batchSize) 0 [] [] w) as [[[e|rs] cs] w1];
      cbn [fst snd] in *.
    + injection Hrun as <- <- <-.
      exists (k * batchSize + n)%nat, (results ++ values). split.
      * rewrite map_app, Hfst, Hcs, take_take.
        rewrite <- indexed_take_next by lia. do 2 f_equal.
        rewrite length_take in Hn. f_equal. lia.
      * left. rewrite !map_app, Hsnd, Hres. by rewrite app_assoc.
    + destruct Hres as (-> & -> & Hres).
      replace (k * batchSize + batchSize)%nat with (S k * batchSize)%nat in Hrun by lia.
      eapply (IH (S k)); [| |exact Hrun].
      * rewrite map_app, Hfst, Hcs, firstn_all.
        rewrite indexed_take_next by lia. f_equal. f_equal. lia.
      * by rewrite !map_app, Hsnd, Hres.
  - injection Hrun as <- <- <-. split; [|exact Hsnd].
    rewrite Hfst, take_ge by lia. reflexivity.
Qed.


End BatcherOutcomes.

(** ** Progress reports of a batch run *)
Section BatcherProgress.
Import Batcher.
Context {T R W : Type}.
Variable processor : T -> nat -> W -> W * (string + R).
Variable callback : nat -> nat -> W -> W.
Variable cancellationToken : option (W -> bool).
Variable yieldToUI : W -> W.

(** What the progress callback has received so far. *)
Variable received : W -> list (nat * nat).
Hypothesis callback_records :
  forall processed total w, received (callback processed total w) = received w ++ [(processed, total)].
Hypothesis processor_silent : forall item index w, received (processor item index w).1 = received w.
Hypothesis yield_silent : forall w, received (yieldToUI w) = received w.

#[local] Abbreviation runBatch := (runBatch processor).
#[local] Abbreviation batchBody := (batchBody processor (Some callback) yieldToUI).
#[local] Abbreviation batchLoop := (batchLoop processor (Some callback) cancellationToken yieldToUI).
#[local] Abbreviation processBatch := (processBatch processor (Some callback) cancellationToken yieldToUI).

Lemma runBatch_silent (batch : list T) (i j : nat) (results : list R)
    (calls : list (T * nat * (string + R))) (w : W) :
  received (runBatch batch i j results calls w).2 = received w.
Proof.
  revert j results calls w. induction batch as [|item rest IH]; intros j results calls w.
  - reflexivity.
  - cbn [Batcher.runBatch]. pose proof (processor_silent item (i + j)%nat w) as Hp.
    destruct (processor item (i + j) w) as [w1 [e|r]]; cbn [fst snd] in *.
    + exact Hp.
    + by rewrite IH.
Qed.

Lemma batchBody_reports (items : list T) (batchSize i : nat) (results : list R)
    (calls : list (T * nat * (string + R))) (w : W) :
  received (batchBody items batchSize i results calls w).2 =
  match (batchBody items batchSize i results calls w).1.1 with
  | inr _ => received w ++ [(Nat.min (i + batchSize) (length items), length items)]
  | inl _ => received w
  end.
Proof.
  unfold Batcher.batchBody.
  pose proof (runBatch_silent
                (slice i (Nat.min (i + batchSize) (length items)) items) i 0 results calls w)
    as Hs.
  destruct (runBatch _ i 0 results calls w) as [[[e|rs] cs] w1]; cbn [fst snd] in *.
  - exact Hs.
  - destruct (i + batchSize <? length items)%nat;
      rewrite ?yield_silent; cbn [reportProgress]; by rewrite callback_records, Hs.
Qed.

(** The number of batches: the batch at [k * batchSize] exists exactly for
    the [k] below it. *)
Lemma batch_count (total batchSize k : nat) :
  (1 <= batchSize)%nat ->
  (k * batchSize < total)%nat <-> (k < length (progressSteps total batchSize))%nat.
Proof.
  intros Hb. unfold progressSteps. rewrite length_map, length_seq.
  pose proof (Nat.div_mod_eq (total + batchSize - 1) batchSize) as Hdm.
  pose proof (Nat.mod_upper_bound (total + batchSize - 1) batchSize ltac:(lia)) as Hr.
  split; intros H; nia.
Qed.

Lemma batchLoop_reports (fuel : nat) (items : list T) (batchSize k : nat)
    (results : list R) (calls : list (T * nat * (string + R))) (w : W)
    (outcome : Outcome R) (calls' : list (T * nat * (string + R))) (w' : W) :
  (1 <= batchSize)%nat ->
  (k <= length (progressSteps (length items) batchSize))%nat ->
  batchLoop fuel items batchSize (k * batchSize) results calls w = Some (outcome, calls', w') ->
  exists j,
    received w ++ drop k (take j (progressSteps (length items) batchSize)) = received w' /\
    (k <= j)%nat /\
    match outcome with
    | Resolved _ => j = length (progressSteps (length items) batchSize)
    | Rejected _ => (j < length (progressSteps (length items) batchSize))%nat
    end.
Proof.
  intros Hb. revert k results calls w.
  induction fuel as [|fuel IH]; intros k results calls w Hle Hrun; [discriminate|].
  cbn [Batcher.batchLoop] in Hrun.
  destruct (Nat.ltb_spec (k * batchSize) (length items)) as [Hi|Hi].
  - apply batch_count in Hi as Hk; [|exact Hb].
    destruct (Batcher.isCancelled cancellationToken w).
    { injection Hrun as <- <- <-. exists k. rewrite drop_ge, app_nil_r.
      - split; [reflexivity|]. split; [lia|]. lia.
      - rewrite length_take. lia. }
    pose proof (batchBody_reports items batchSize (k * batchSize) results calls w) as Hrep.
    destruct (batchBody items batchSize (k * batchSize) results calls w)
      as [[[e|rs] cs] w1]; cbn [fst snd] in Hrep.
    + injection Hrun as <- <- <-. exists k. rewrite drop_ge, app_nil_r.
      * split; [by rewrite Hrep|]. split; [lia|]. lia.
      * rewrite length_take. lia.
    + replace (k * batchSize + batchSize)%nat with (S k * batchSize)%nat in Hrun by lia.
      destruct (IH (S k) rs cs w1 Hk Hrun) as (j & Hj & Hkj & Hout).
      exists j. split; [|split; [lia | exact Hout]].
      rewrite <- Hj, Hrep, <- app_assoc. f_equal.
      assert (Hjlen : (j <= length (progressSteps (length items) batchSize))%nat)
        by (destruct outcome; lia).
      assert (Hstep : take j (progressSteps (length items) batchSize) !! k
                      = Some (Nat.min (k * batchSize + batchSize) (length items), length items)).
      { rewrite lookup_take_lt by lia. unfold progressSteps in *.
        rewrite length_map, length_seq in Hk.
        rewrite list_lookup_fmap, lookup_seq_lt by exact Hk. cbn. do 3 f_equal. lia. }
      rewrite (drop_S _ _ _ Hstep). reflexivity.
  - injection Hrun as <- <- <-.
    exists (length (progressSteps (length items) batchSize)).
    assert (Hk : (length (progressSteps (length items) batchSize) <= k)%nat).
    { destruct (Nat.le_gt_cases (length (progressSteps (length items) batchSize)) k)
        as [H|H]; [exact H|]. apply batch_count in H; [lia | exact Hb]. }
    rewrite drop_ge, app_nil_r by (rewrite length_take; lia).
    split; [reflexivity|]. split; [lia | reflexivity].
Qed.

(** X15: what the progress callback of [processBatch] is told.  A run that
    resolves has reported once per batch, each time the number of items
    finished so far out of the total; on a list that is not empty the last
    report says that all items are done.  A run that is rejected has
    reported only the batches that went through before. *)
Theorem processBatch_progress (items : list T) (batchSize : nat) (w : W) :
  (1 <= batchSize)%nat ->
  exists outcome calls w',
    (forall fuel, (length items < fuel)%nat ->
       processBatch fuel items batchSize w = Some (outcome, calls, w')) /\
    match outcome with
    | Resolved _ => received w' = received w ++ progressSteps (length items) batchSize
    | Rejected _ =>
        exists j,
          (j < length (progressSteps (length items) batchSize))%nat /\
          received w' = received w ++ take j (progressSteps (length items) batchSize)
    end /\
    (items <> [] ->
     last (progressSteps (length items) batchSize) = Some (length items, length items)).
Proof.
  intros Hb.
  destruct (batchLoop_ends processor (Some callback) cancellationToken yieldToUI
              (S (length items)) items batchSize 0 [] [] w Hb ltac:(lia))
    as [[[outcome calls] w'] Hrun].
  exists outcome, calls, w'. split; [|split].
  - intros fuel Hfuel. unfold Batcher.processBatch.
    eapply batchLoop_fuel_mono; [exact Hrun | lia].
  - destruct (batchLoop_reports (S (length items)) items batchSize 0 [] [] w
                outcome calls w' Hb ltac:(lia) Hrun) as (j & Hj & _ & Hout).
    rewrite drop_0 in Hj. destruct outcome.
    + subst j. by rewrite firstn_all in Hj.
    + exists j. split; [exact Hout | by rewrite Hj].
  - intros Hne.
    assert (Hn : (1 <= length items)%nat) by (destruct items; [done | cbn; lia]).
    assert (Hcount : (0 < length (progressSteps (length items) batchSize))%nat).
    { apply (batch_count (length items) batchSize 0 Hb). lia. }
    assert (Hlast : forall count,
              length (progressSteps (length items) batchSize) = S count ->
              (length items <= S count * batchSize)%nat).
    { intros count Hc.
      destruct (Nat.le_gt_cases (length items) (S count * batchSize)) as [H|H]; [exact H|].
      apply (batch_count _ _ _ Hb) in H. lia. }
    unfold progressSteps in *. rewrite length_map, length_seq in Hcount, Hlast.
    destruct ((length items + batchSize - 1) / batchSize)%nat as [|count]; [lia|].
    specialize (Hlast count eq_refl).
    rewrite seq_S, map_app. cbn [map]. rewrite last_snoc. do 2 f_equal.
    apply Nat.min_r. lia.
Qed.

End BatcherProgress.

(** ** Chunked processing *)
Section ChunkFacts.
Import Batcher.
Context {T R W : Type}.
Variable processor : list T -> nat -> W -> W * (string + R).
Variable onProgress : option (nat -> nat -> W -> W).
Variable cancellationToken : option (W -> bool).
Variable yieldToUI : W -> W.

#[local] Abbreviation chunkBody := (chunkBody processor onProgress yieldToUI).
#[local] Abbreviation chunkLoop := (chunkLoop processor onProgress cancellationToken yieldToUI).
#[local] Abbreviation processInChunks :=
  (processInChunks processor onProgress cancellationToken yieldToUI).
#[local] Abbreviation isCancelled := (isCancelled cancellationToken).
#[local] Abbreviation chunksNeverThrow := (chunksNeverThrow processor).

Lemma chunkLoop_fuel_mono (fuel fuel' : nat) (items : list T) (chunkSize i : nat)
    (results : list R) (calls : list (list T * nat * (string + R))) (w : W) r :
  chunkLoop fuel items chunkSize i results calls w = Some r ->
  (fuel <= fuel')%nat ->
  chunkLoop fuel' items chunkSize i results calls w = Some r.
Proof.
  revert fuel' i results calls w.
  induction fuel as [|fuel IH]; intros fuel' i results calls w Hrun Hle; [discriminate|].
  destruct fuel' as [|fuel']; [lia|]. cbn [Batcher.chunkLoop] in *.
  destruct (i <? length items)%nat; [|exact Hrun].
  destruct (isCancelled w); [exact Hrun|].
  destruct (chunkBody items chunkSize i results calls w) as [[[e|rs] cs] w'];
    [exact Hrun|].
  apply IH; [exact Hrun | lia].
Qed.

(** The chunks of the list from index [k * chunkSize] on. *)
#[local] Abbreviation chunksFrom items chunkSize k cs :=
  (concat (map (fun c : list T * nat * (string + R) => c.1.1) cs)
   = drop (k * chunkSize) items /\
   Forall (fun c : list T * nat * (string + R) =>
             c.1.1 = take chunkSize (drop c.1.2 items) /\
             (1 <= length c.1.1 <= chunkSize)%nat) cs /\
   map (fun c : list T * nat * (string + R) => c.1.2) cs
   = map (fun j => (j * chunkSize)%nat) (seq k (length cs))).

Lemma chunkLoop_completes (fuel : nat) (items : list T) (chunkSize k : nat)
    (results : list R) (calls : list (list T * nat * (string + R))) (w : W) :
  (1 <= chunkSize)%nat ->
  (forall w', isCancelled w' = false) ->
  chunksNeverThrow ->
  (length items - k * chunkSize < fuel)%nat ->
  exists rs cs w',
    chunkLoop fuel items chunkSize (k * chunkSize) results calls w
    = Some (Resolved (results ++ rs), calls ++ cs, w') /\
    chunksFrom items chunkSize k cs /\
    map snd cs = map inr rs.
Proof.
  intros Hc Hcancel Hok. revert k results calls w.
  induction fuel as [|fuel IH]; intros k results calls w Hfuel; [lia|].
  cbn [Batcher.chunkLoop]. rewrite Hcancel.
  destruct (Nat.ltb_spec (k * chunkSize) (length items)) as [Hi|Hi].
  - unfold Batcher.chunkBody. rewrite slice_batch.
    set (chunk := take chunkSize (drop (k * chunkSize) items)).
    destruct (Hok chunk (k * chunkSize)%nat w) as [r Hr].
    destruct (processor chunk (k * chunkSize) w) as [w1 res]; cbn [snd] in Hr; subst res.
    replace (k * chunkSize + chunkSize)%nat with (S k * chunkSize)%nat by lia.
    edestruct (IH (S k)) as (rs & cs & w' & Hrun & (Hcat & Hall & Hstarts) & Hsnd);
      [|rewrite Hrun]; [lia|].
    exists (r :: rs), ((chunk, (k * chunkSize)%nat, inr r) :: cs), w'.
    split; [by rewrite <- !app_assoc|].
    split; [|cbn [map snd]; by rewrite Hsnd].
    split; [|split].
    + cbn [map concat fst]. rewrite Hcat. unfold chunk.
      replace (S k * chunkSize)%nat with (k * chunkSize + chunkSize)%nat by lia.
      by rewrite <- drop_drop, take_drop.
    + constructor; [|exact Hall]. cbn [fst snd]. split; [reflexivity|].
      unfold chunk. rewrite length_take, length_drop. lia.
    + cbn [map length seq fst snd]. by rewrite Hstarts.
  - exists [], [], w. rewrite !app_nil_r. split; [reflexivity|].
    split; [|reflexivity]. split; [|split; [constructor | reflexivity]].
    cbn. by rewrite drop_ge.
Qed.


End ChunkFacts.

(** ** The page commands *)
Section PageCommands.
Import Collector.

#[local] Abbreviation isTransfer :=
  (fun page : PageNode => bool_decide (page_name page = transferPageName)).

(** The page [find] answers with is the first one that passes the test. *)
Lemma find_first {A} (f : A -> bool) (l : list A) (x : A) :
  List.find f l = Some x ->
  exists before after, l = before ++ x :: after /\ f x = true /\
                       Forall (fun y => f y = false) before.
Proof.
  induction l as [|y l IH]; [discriminate|]. cbn [List.find].
  destruct (f y) eqn:Hy.
  - intros [= ->]. exists [], l. repeat split; [exact Hy | constructor].
  - intros Hf. destruct (IH Hf) as (before & after & -> & Hx & Hb).
    exists (y :: before), after. repeat split; [exact Hx | by constructor].
Qed.

Lemma find_at {A} (f : A -> bool) (before after : list A) (x : A) :
  Forall (fun y => f y = false) before -> f x = true ->
  List.find f (before ++ x :: after) = Some x.
Proof.
  intros Hb Hx. induction Hb as [|y before Hy _ IH]; cbn [app List.find].
  - by rewrite Hx.
  - by rewrite Hy.
Qed.

Lemma find_app_l {A} (f : A -> bool) (l extra : list A) (x : A) :
  List.find f l = Some x -> List.find f (l ++ extra) = Some x.
Proof.
  intros Hf. destruct (find_first f l x Hf) as (before & after & -> & Hx & Hb).
  rewrite <- app_assoc. cbn [app]. by apply find_at.
Qed.

Lemma find_app_r {A} (f : A -> bool) (l : list A) (x : A) :
  List.find f l = None -> f x = true -> List.find f (l ++ [x]) = Some x.
Proof.
  intros Hf Hx. apply find_at; [|exact Hx].
  apply Forall_forall. intros y Hy. apply (find_none _ _ Hf), list_elem_of_In, Hy.
Qed.

(** Writing through the reference of a page of the document replaces that
    page and no other. *)
Lemma storePage_at (before after : list PageNode) (old page : PageNode) :
  NoDup (map page_id (before ++ old :: after)) ->
  page_id page = page_id old ->
  storePage page (before ++ old :: after) = before ++ page :: after.
Proof.
  intros Hnd Hid. unfold storePage.
  rewrite map_app in Hnd. cbn [map] in Hnd.
  apply NoDup_app in Hnd as (_ & Hdisj & Hnd). apply NoDup_cons in Hnd as [Hafter _].
  assert (Hkeep : forall l, page_id old ∉ map page_id l ->
            map (fun p => if decide (page_id p = page_id page) then page else p) l = l).
  { intros l Hl. rewrite <- (map_id l) at 2. apply map_ext_in. intros p Hp.
    destruct (decide (page_id p = page_id page)) as [Heq|]; [|reflexivity].
    exfalso. apply Hl. rewrite <- Hid, <- Heq. apply list_elem_of_fmap.
    exists p. split; [reflexivity | apply list_elem_of_In, Hp]. }
  rewrite map_app. cbn [map].
  destruct (decide (page_id old = page_id page)); [|congruence].
  rewrite !Hkeep; [reflexivity | exact Hafter |].
  intros Hin. apply (Hdisj _ Hin). left.
Qed.

(** Once the index has passed the end of the array, nothing is visited. *)
Lemma removeVisited_past (indices : list nat) (children : list SceneNode) :
  Forall (fun index => (length children <= index)%nat) indices ->
  fold_left removeVisited indices children = children.
Proof.
  induction 1 as [|index indices Hindex _ IH]; [reflexivity|].
  cbn [fold_left]. unfold removeVisited at 2.
  by rewrite (lookup_ge_None_2 _ _ Hindex).
Qed.

(** The loop from index [k] on, with the children kept so far in front:
    of the children still to come every second one is spliced out, and the
    one after it moves into the place just visited. *)
Lemma removeEach_from (m k : nat) (kept rest : list SceneNode) :
  length kept = k -> (length rest <= m)%nat ->
  fold_left removeVisited (seq k m) (kept ++ rest) = kept ++ oddIndexed rest.
Proof.
  revert k kept rest. induction m as [|m IH]; intros k kept rest Hk Hm.
  - destruct rest; [reflexivity | cbn in Hm; lia].
  - cbn [seq fold_left]. destruct rest as [|x [|y rest]].
    + cbn [oddIndexed]. unfold removeVisited at 2.
      rewrite lookup_ge_None_2 by (rewrite app_nil_r; lia).
      apply removeVisited_past, Forall_forall. intros index Hindex.
      apply elem_of_seq in Hindex. rewrite app_nil_r. lia.
    + cbn [oddIndexed]. unfold removeVisited at 2. subst k.
      rewrite list_lookup_middle by reflexivity.
      rewrite (delete_middle kept [] x), !app_nil_r.
      apply removeVisited_past, Forall_forall. intros index Hindex.
      apply elem_of_seq in Hindex. lia.
    + cbn [oddIndexed]. unfold removeVisited at 2. subst k.
      rewrite list_lookup_middle by reflexivity.
      rewrite (delete_middle kept (y :: rest) x).
      rewrite (cons_middle y kept rest), app_assoc.
      rewrite IH; [by rewrite <- app_assoc | rewrite length_app; cbn; lia | cbn in Hm; lia].
Qed.

(** On the live array the loop removes the children at the even indices
    and leaves those at the odd ones. *)
Lemma removeEach_oddIndexed (children : list SceneNode) :
  removeEach children = oddIndexed children.
Proof. apply (removeEach_from (length children) 0 [] children); [reflexivity | lia]. Qed.

Lemma oddIndexed_empty {A} (l : list A) : oddIndexed l = [] <-> (length l <= 1)%nat.
Proof.
  destruct l as [|x [|y l]]; cbn; split; intros H; try reflexivity; try lia; discriminate.
Qed.

(** X17: [clearTransferPage] answers true exactly when some page is named
    Transfer, and touches nothing when it answers false.  On a host whose
    [children] is the array itself, as in the repository's mock, removing
    the children while [forEach] runs over them skips every second one: of
    the first page named Transfer the children at the odd indices stay, no
    other page is touched, and neither the current page nor a selection is
    assigned.  So the page is empty afterwards only if it had at most one
    child, and [selectAllOnTransferPage] right after it answers true exactly
    when the page had two children or more. *)
Theorem clearTransferPage_leaves_every_second (host : Figma) :
  NoDup (map page_id (rootChildren host)) ->
  ((clearTransferPage host).1 = true <->
   exists page, page ∈ rootChildren host /\ page_name page = transferPageName) /\
  (forall before page after,
     rootChildren host = before ++ page :: after ->
     page_name page = transferPageName ->
     (forall earlier, earlier ∈ before -> page_name earlier <> transferPageName) ->
     (clearTransferPage host).2 =
     mkFigma (before ++
              mkPage (page_id page) transferPageName (oddIndexed (page_children page))
              :: after)
             (currentPage host) (selectionOf host) (viewportTarget host) /\
     (oddIndexed (page_children page) = [] <-> (length (page_children page) <= 1)%nat) /\
     ((selectAllOnTransferPage (clearTransferPage host).2).1 = true <->
      (2 <= length (page_children page))%nat)) /\
  ((clearTransferPage host).1 = false -> (clearTransferPage host).2 = host).
Proof.
  intros Hnd. unfold clearTransferPage, findTransferPage.
  destruct (List.find isTransfer (rootChildren host)) as [p|] eqn:Hf; cbn [fst snd].
  - destruct (find_first _ _ _ Hf) as (before & after & Hdoc & Hp & Hb).
    apply bool_decide_eq_true in Hp.
    assert (Hstore : storePage (clearChildren p) (rootChildren host)
                     = before ++
                       mkPage (page_id p) transferPageName (oddIndexed (page_children p))
                       :: after).
    { rewrite Hdoc in *. rewrite (storePage_at before after p); [|exact Hnd|reflexivity].
      unfold clearChildren. by rewrite Hp, removeEach_oddIndexed. }
    split; [|split].
    + split; [intros _|reflexivity]. exists p. split; [|exact Hp].
      rewrite Hdoc. apply elem_of_app. right. left.
    + intros before' page after' Hdoc' Hname Hearlier.
      assert (Hsame : List.find isTransfer (rootChildren host) = Some page).
      { rewrite Hdoc'. apply find_at; [|by apply bool_decide_eq_true].
        apply Forall_forall. intros y Hy. apply bool_decide_eq_false, Hearlier, Hy. }
      rewrite Hf in Hsame. injection Hsame as ->.
      assert (Hstore' : storePage (clearChildren page) (rootChildren host)
                        = before' ++
                          mkPage (page_id page) transferPageName
                            (oddIndexed (page_children page))
                          :: after').
      { rewrite Hdoc' in *.
        rewrite (storePage_at before' after' page); [|exact Hnd|reflexivity].
        unfold clearChildren. by rewrite Hname, removeEach_oddIndexed. }
      split; [by rewrite Hstore'|]. split; [apply oddIndexed_empty|].
      unfold selectAllOnTransferPage, findTransferPage. cbn [rootChildren].
      rewrite Hstore', find_at;
        [| apply Forall_forall; intros y Hy; apply bool_decide_eq_false, Hearlier, Hy
         | by apply bool_decide_eq_true].
      cbn [page_children].
      pose proof (oddIndexed_empty (page_children page)) as Hempty.
      destruct (oddIndexed (page_children page)) as [|c cs] eqn:Hodd; cbn [length fst].
      * split; [discriminate|]. intros Hlen.
        destruct Hempty as [Hempty _]. specialize (Hempty eq_refl). lia.
      * split; [intros _|reflexivity].
        destruct (le_lt_dec (length (page_children page)) 1) as [Hle|Hgt]; [|lia].
        destruct Hempty as [_ Hempty]. by specialize (Hempty Hle).
    + discriminate.
  - split; [|split].
    + split; [discriminate|]. intros (page & Hin & Hname).
      apply list_elem_of_In in Hin. pose proof (find_none _ _ Hf page Hin) as Hnone.
      apply bool_decide_eq_false in Hnone. contradiction.
    + intros before page after Hdoc Hname _. exfalso.
      assert (Hin : In page (rootChildren host)).
      { rewrite Hdoc. apply in_or_app. right. left. reflexivity. }
      pose proof (find_none _ _ Hf page Hin) as Hnone.
      apply bool_decide_eq_false in Hnone. contradiction.
    + reflexivity.
Qed.

(** X18: after [findOrCreateTransferPage], [navigateToTransferPage] always
    finds a page named Transfer.  It lands on the page just handed back when
    no page was named Transfer before, and under [replace] and [append];
    under [timestamp] and [ask] with a page named Transfer already there, a
    further page is created and the navigation lands on the older one. *)
Theorem navigate_after_resolve (behavior : TransferPageBehavior) (isoNow : string)
    (host : Figma) :
  NoDup (map page_id (rootChildren host)) ->
  let resolved := findOrCreateTransferPage behavior isoNow (rootChildren host) in
  let host' := mkFigma resolved.2 (currentPage host) (selectionOf host) (viewportTarget host) in
  (navigateToTransferPage host').1 = true /\
  (currentPage (navigateToTransferPage host').2 = page_id resolved.1 <->
   findTransferPage (rootChildren host) = None \/ behavior = replace \/ behavior = append) /\
  (findTransferPage (rootChildren host) = None \/
   (behavior <> replace /\ behavior <> append) ->
   length resolved.2 = S (length (rootChildren host))) /\
  (findTransferPage (rootChildren host) <> None ->
   behavior = replace \/ behavior = append ->
   length resolved.2 = length (rootChildren host)).
Proof.
  intros Hnd. cbv zeta.
  assert (Hfresh : forall name,
            (let '(newPage, doc') := createPage (rootChildren host) in
             (setName name newPage, storePage (setName name newPage) doc'))
            = (mkPage (freshPageId (rootChildren host)) name [],
               rootChildren host ++ [mkPage (freshPageId (rootChildren host)) name []])).
  { intros name. unfold createPage, setName. cbn [page_id page_children].
    by rewrite storePage_created. }
  unfold findOrCreateTransferPage, navigateToTransferPage, findTransferPage.
  destruct (List.find isTransfer (rootChildren host)) as [p|] eqn:Hf.
  - destruct (find_first _ _ _ Hf) as (before & after & Hdoc & Hp & Hb).
    assert (Hin : p ∈ rootChildren host).
    { rewrite Hdoc. apply elem_of_app. right. left. }
    pose proof (freshPageId_above _ _ Hin) as Hlt.
    destruct behavior; cbn [fst snd rootChildren].
    + rewrite Hfresh. cbn [fst snd]. rewrite (find_app_l _ _ _ _ Hf). cbn [fst snd currentPage page_id].
      split; [reflexivity|]. split.
      * split; [lia | intros [H|[H|H]]; discriminate].
      * split; [intros _; rewrite length_app; cbn; lia|].
        intros _ [H|H]; discriminate.
    + rewrite Hf. cbn [fst snd currentPage].
      split; [reflexivity|]. split; [split; auto|].
      split; [intros [H|[_ H]]; [discriminate | done] | reflexivity].
    + assert (Hstore : storePage (clearChildren p) (rootChildren host)
                       = before ++ clearChildren p :: after).
      { rewrite Hdoc in *. by apply storePage_at. }
      rewrite Hstore, find_at; [|exact Hb|exact Hp]. cbn [fst snd currentPage].
      split; [reflexivity|]. split; [split; auto|].
      split; [intros [H|[H _]]; [discriminate | done]|].
      intros _ _. rewrite Hdoc, !length_app. reflexivity.
    + rewrite Hfresh. cbn [fst snd]. rewrite (find_app_l _ _ _ _ Hf). cbn [fst snd currentPage page_id].
      split; [reflexivity|]. split.
      * split; [lia | intros [H|[H|H]]; discriminate].
      * split; [intros _; rewrite length_app; cbn; lia|].
        intros _ [H|H]; discriminate.
  - assert (Hnew : (let '(newPage, doc') := createPage (rootChildren host) in
                    (setName transferPageName newPage,
                     storePage (setName transferPageName newPage) doc'))
                   = (mkPage (freshPageId (rootChildren host)) transferPageName [],
                      rootChildren host ++
                      [mkPage (freshPageId (rootChildren host)) transferPageName []]))
      by apply Hfresh.
    rewrite Hnew. cbn [fst snd rootChildren].
    rewrite (find_app_r _ _ _ Hf) by reflexivity. cbn [fst snd currentPage page_id].
    split; [reflexivity|]. split; [split; auto|].
    split; [intros _; rewrite length_app; cbn; lia | intros H; done].
Qed.

End PageCommands.

(** ** Stored settings and history *)
Section StorageFacts.
Import Storage.

Lemma map_get_set {V} (k k' : string) (v : V) (m : list (string * V)) :
  map_get k (map_set k' v m) = if decide (k = k') then Some v else map_get k m.
Proof.
  induction m as [|[k0 v0] m IH]; cbn [map_set map_get].
  - destruct (decide (k = k')); reflexivity.
  - destruct (decide (k' = k0)) as [->|Hne]; cbn [map_get].
    + destruct (decide (k = k0)); reflexivity.
    + destruct (decide (k = k0)) as [->|Hk].
      * destruct (decide (k0 = k')); [congruence | reflexivity].
      * exact IH.
Qed.

(** A spread looks a key up in the overrides first, then in the base. *)
Lemma spread_get (base overrides : Settings) (k : string) :
  NoDup (map_keys overrides) ->
  map_get k (spread base overrides) =
  match map_get k overrides with
  | Some v => Some v
  | None => map_get k base
  end.
Proof.
  unfold spread. revert base.
  induction overrides as [|[k1 v1] overrides IH]; intros base Hnd; [reflexivity|].
  cbn [map_keys map fst] in Hnd. apply NoDup_cons in Hnd as [Hk1 Hnd].
  cbn [fold_left fst snd map_get]. rewrite IH by exact Hnd. rewrite map_get_set.
  destruct (decide (k = k1)) as [->|Hne]; [|reflexivity].
  by rewrite (proj2 (map_get_None overrides k1) Hk1).
Qed.

Lemma map_set_keys_NoDup {V} (k : string) (v : V) (m : list (string * V)) :
  NoDup (map_keys m) -> NoDup (map_keys (map_set k v m)).
Proof.
  intros Hnd. destruct (map_has k m) eqn:Hk.
  - assert (Hkeys : map_keys (map_set k v m) = map_keys m).
    { clear Hnd. induction m as [|[k0 v0] m IH]; cbn [map_set]; [discriminate|].
      unfold map_has in Hk. cbn [map_get] in Hk.
      destruct (decide (k = k0)) as [->|]; cbn [map_keys map fst]; [reflexivity|].
      f_equal. exact (IH Hk). }
    by rewrite Hkeys.
  - rewrite (map_set_new _ _ _ Hk). unfold map_keys. rewrite map_app.
    apply NoDup_app. split; [exact Hnd|]. split; [|apply NoDup_singleton].
    intros x Hx Hx'. apply list_elem_of_singleton in Hx'. subst x.
    by apply map_has_false in Hk.
Qed.

Lemma spread_keys_NoDup (base overrides : Settings) :
  NoDup (map_keys base) -> NoDup (map_keys (spread base overrides)).
Proof.
  unfold spread. revert base.
  induction overrides as [|[k v] overrides IH]; intros base Hnd; [exact Hnd|].
  cbn [fold_left]. apply IH, map_set_keys_NoDup, Hnd.
Qed.

Lemma spread_keeps_keys (base overrides : Settings) (k : string) :
  map_has k base = true -> map_has k (spread base overrides) = true.
Proof.
  unfold spread. revert base.
  induction overrides as [|[k1 v1] overrides IH]; intros base Hk; [exact Hk|].
  cbn [fold_left fst snd]. apply IH. unfold map_has in *. rewrite map_get_set.
  destruct (decide (k = k1)); [reflexivity | exact Hk].
Qed.

Lemma DEFAULT_SETTINGS_keys : NoDup (map_keys DEFAULT_SETTINGS).
Proof. compute_done. Qed.

Lemma loadSettings_keys (store : ClientStorage) : NoDup (map_keys (loadSettings store)).
Proof.
  unfold loadSettings. destruct (available store); [|apply DEFAULT_SETTINGS_keys].
  destruct (storedSettings store); [|apply DEFAULT_SETTINGS_keys].
  apply spread_keys_NoDup, DEFAULT_SETTINGS_keys.
Qed.

Lemma loadSettings_defaults (store : ClientStorage) (k : string) :
  map_has k DEFAULT_SETTINGS = true -> map_has k (loadSettings store) = true.
Proof.
  intros Hk. unfold loadSettings. destruct (available store); [|exact Hk].
  destruct (storedSettings store); [|exact Hk]. by apply spread_keeps_keys.
Qed.

(** X19: the settings that [loadSettings] returns have every field of the
    defaults, whatever is stored and also when the storage fails.  With the
    storage working, [updateSettings] returns and stores the loaded
    settings with each updated field replaced as a whole (a nested object
    such as the shortcuts included) and every other field kept, and the
    next [loadSettings] returns those settings field for field. *)
Theorem updateSettings_merges (updates : Settings) (store : ClientStorage) :
  (forall k, map_has k DEFAULT_SETTINGS = true -> map_has k (loadSettings store) = true) /\
  (available store = true ->
   NoDup (map_keys updates) ->
   exists updated store',
     updateSettings updates store = (store', inr updated) /\
     (forall k,
        map_get k updated =
        match map_get k updates with
        | Some v => Some v
        | None => map_get k (loadSettings store)
        end) /\
     (forall k, map_get k (loadSettings store') = map_get k updated) /\
     storedHistory store' = storedHistory store).
Proof.
  split; [intros k; apply loadSettings_defaults|].
  intros Hav Hnd. unfold updateSettings, saveSettings. rewrite Hav.
  eexists _, _. split; [reflexivity|]. split; [|split; [|reflexivity]].
  - intros k. by apply spread_get.
  - intros k. unfold loadSettings at 1. cbn [available storedSettings].
    rewrite spread_get by apply spread_keys_NoDup, loadSettings_keys.
    destruct (map_get k (spread (loadSettings store) updates)) as [v|] eqn:Hget;
      [reflexivity|].
    destruct (map_has k DEFAULT_SETTINGS) eqn:Hdef.
    + pose proof (spread_keeps_keys (loadSettings store) updates k
                    (loadSettings_defaults store k Hdef)) as Hhas.
      unfold map_has in Hhas. rewrite Hget in Hhas. discriminate.
    + unfold map_has in Hdef. by destruct (map_get k DEFAULT_SETTINGS).
Qed.

(** The entries added one after the other. *)
#[local] Abbreviation addAll entries store :=
  (fold_left (fun st entry => (addHistoryEntry entry st).1) entries store).

Lemma addHistoryEntry_history (entry : HistoryEntry) (store : ClientStorage) :
  available store = true ->
  addHistoryEntry entry store =
    (mkClientStorage (storedSettings store)
       (Some (take MAX_HISTORY_ENTRIES (entry :: loadHistory store))) true, inr tt).
Proof. intros Hav. unfold addHistoryEntry, saveHistory. by rewrite Hav. Qed.

(** X20: with the storage working, the history holds the entries newest
    first and never more than 50 of them: after adding entries one after
    the other, [loadHistory] returns the first 50 of the added entries in
    reverse order followed by what was there before. *)
Theorem history_newest_first (entries : list HistoryEntry) (store : ClientStorage) :
  available store = true ->
  (length (loadHistory store) <= MAX_HISTORY_ENTRIES)%nat ->
  loadHistory (addAll entries store)
  = take MAX_HISTORY_ENTRIES (rev entries ++ loadHistory store) /\
  (length (loadHistory (addAll entries store)) <= MAX_HISTORY_ENTRIES)%nat /\
  storedSettings (addAll entries store) = storedSettings store /\
  loadHistory (clearHistory (addAll entries store)).1 = [].
Proof.
  intros Hav Hlen.
  assert (Hgen : forall entries store,
            available store = true ->
            (length (loadHistory store) <= MAX_HISTORY_ENTRIES)%nat ->
            available (addAll entries store) = true /\
            storedSettings (addAll entries store) = storedSettings store /\
            loadHistory (addAll entries store)
            = take MAX_HISTORY_ENTRIES (rev entries ++ loadHistory store)).
  { clear. intros entries. induction entries as [|e entries IH]; intros store Hav Hlen.
    - cbn [fold_left rev app]. by rewrite take_ge.
    - cbn [fold_left rev]. rewrite (addHistoryEntry_history e store Hav). cbn [fst].
      set (store1 := mkClientStorage _ _ _).
      assert (H1 : loadHistory store1 = take MAX_HISTORY_ENTRIES (e :: loadHistory store))
        by reflexivity.
      destruct (IH store1 eq_refl) as (Ha & Hs & Hh).
      { rewrite H1, length_take. lia. }
      split; [exact Ha|]. split; [exact Hs|].
      rewrite Hh, H1, <- app_assoc. cbn [app].
      destruct (Nat.le_gt_cases MAX_HISTORY_ENTRIES (length (rev entries))) as [Hfull|Hroom].
      + by rewrite !take_app_le by exact Hfull.
      + rewrite !take_app_ge by lia. f_equal.
        rewrite take_take. f_equal. lia. }
  destruct (Hgen entries store Hav Hlen) as (Ha & Hs & Hh).
  split; [exact Hh|]. split; [rewrite Hh, length_take; lia|]. split; [exact Hs|].
  unfold clearHistory, saveHistory, loadHistory. rewrite Ha. reflexivity.
Qed.

End StorageFacts.

(** ** The grid *)

(** A loop over a list keeps what holds of the items done so far. *)
Lemma fold_left_prefix {A S : Type} (P : list A -> S -> Prop) (f : S -> A -> S)
    (l : list A) (s : S) :
  P [] s ->
  (forall done x s', (done ++ [x]) `prefix_of` l -> P done s' -> P (done ++ [x]) (f s' x)) ->
  P l (fold_left f l s).
Proof.
  induction l as [|x l IH] using rev_ind; intros Hs Hstep; [exact Hs|].
  rewrite fold_left_app. cbn [fold_left]. apply Hstep; [reflexivity|].
  apply IH; [exact Hs|]. intros done y s' Hpre. apply Hstep.
  etransitivity; [exact Hpre|]. by apply prefix_app_r.
Qed.

Section GridFacts.
Import Layout.
Variable startX startY spacing : Q.
Variable columns : Z.

#[local] Abbreviation step := (defaultWidth + spacing)%Q.
#[local] Abbreviation across := (Z.max 1 columns).
#[local] Abbreviation placeComponent := (placeComponent startX spacing columns).

Lemma next_cell (n : nat) :
  ((cellColumn columns n + 1 = across)%Z /\
   cellColumn columns (S n) = 0%Z /\ cellRow columns (S n) = (cellRow columns n + 1)%Z) \/
  ((cellColumn columns n + 1 < across)%Z /\
   cellColumn columns (S n) = (cellColumn columns n + 1)%Z /\
   cellRow columns (S n) = cellRow columns n).
Proof.
  unfold cellColumn, cellRow.
  pose proof (Z.div_mod (Z.of_nat n) across ltac:(lia)) as Hdm.
  pose proof (Z.mod_pos_bound (Z.of_nat n) across ltac:(lia)) as Hr.
  destruct (Z.eq_dec (Z.of_nat n mod across + 1)%Z across) as [Heq|Hne].
  - left. split; [exact Heq|]. split.
    + symmetry. apply (Z.mod_unique_pos _ _ (Z.of_nat n / across + 1)%Z); lia.
    + symmetry. apply (Z.div_unique_pos _ _ _ 0%Z); lia.
  - right. split; [lia|]. split.
    + symmetry. apply (Z.mod_unique_pos _ _ (Z.of_nat n / across)%Z); lia.
    + symmetry. apply (Z.div_unique_pos _ _ _ (Z.of_nat n mod across + 1)%Z); lia.
Qed.

Lemma cellColumn_bound (n : nat) : (0 <= cellColumn columns n < across)%Z.
Proof. unfold cellColumn. apply Z.mod_pos_bound. lia. Qed.

(** The test that ends a row. *)
Lemma row_ends (n : nat) :
  (columns <=? cellColumn columns n + 1)%Z = true <-> (cellColumn columns n + 1 = across)%Z.
Proof. pose proof (cellColumn_bound n). rewrite Z.leb_le. lia. Qed.

(** Where the component at index [k] is to go. *)
#[local] Abbreviation atCell :=
  (fun (k : nat) (pos : Position) =>
     (pos_x pos == startX + inject_Z (cellColumn columns k) * step)%Q /\
     (pos_y pos == startY + inject_Z (cellRow columns k) * step)%Q).

(** What holds of the cursor when the components [done] are placed. *)
#[local] Abbreviation placed :=
  (fun (done : list ComponentInfo) (c : GridCursor) =>
     map_keys (gc_positions c) = map ci_id done /\
     (forall k comp, done !! k = Some comp ->
        exists pos, map_get (ci_id comp) (gc_positions c) = Some pos /\ atCell k pos) /\
     gc_col c = cellColumn columns (length done) /\
     (gc_x c == startX + inject_Z (cellColumn columns (length done)) * step)%Q /\
     (gc_y c == startY + inject_Z (cellRow columns (length done)) * step)%Q /\
     (gc_maxHeightInRow c <= defaultHeight)%Q).

Lemma placeComponent_placed (done : list ComponentInfo) (comp : ComponentInfo)
    (c : GridCursor) :
  NoDup (map ci_id (done ++ [comp])) ->
  placed done c -> placed (done ++ [comp]) (placeComponent c comp).
Proof.
  intros Hnd (Hkeys & Hcells & Hcol & Hx & Hy & Hrow).
  rewrite map_app in Hnd. apply NoDup_app in Hnd as (_ & Hfresh & _).
  assert (Hnew : map_has (ci_id comp) (gc_positions c) = false).
  { apply map_has_false. rewrite Hkeys. intros Hin. apply (Hfresh _ Hin). left. }
  assert (Hpos : gc_positions (placeComponent c comp)
                 = gc_positions c ++ [(ci_id comp, mkPosition (gc_x c) (gc_y c))]).
  { unfold Layout.placeComponent. rewrite (map_set_new _ _ _ Hnew).
    destruct (columns <=? gc_col c + 1)%Z; reflexivity. }
  assert (Hheight : (Qmax (gc_maxHeightInRow c) defaultHeight == defaultHeight)%Q)
    by (apply Q.max_r, Hrow).
  rewrite length_app. cbn [length]. rewrite Nat.add_1_r.
  split; [|split].
  - rewrite Hpos. unfold map_keys. by rewrite !map_app, <- Hkeys.
  - intros k comp' Hk. rewrite Hpos.
    apply lookup_app_Some in Hk as [Hk|[Hlen Hk]].
    + destruct (Hcells k comp' Hk) as (pos & Hget & Hat).
      exists pos. split; [|exact Hat].
      rewrite <- (map_set_new _ _ _ Hnew), map_get_set.
      destruct (decide (ci_id comp' = ci_id comp)) as [Heq|]; [|exact Hget].
      exfalso. apply (Hfresh (ci_id comp)); [|left].
      rewrite <- Heq. apply list_elem_of_fmap. exists comp'.
      split; [reflexivity | by eapply list_elem_of_lookup_2].
    + destruct (k - length done)%nat as [|?] eqn:Hd; [|by destruct n].
      injection Hk as <-. assert (k = length done) as -> by lia.
      exists (mkPosition (gc_x c) (gc_y c)). split; [|split; assumption].
      rewrite <- (map_set_new _ _ _ Hnew), map_get_set.
      by destruct (decide (ci_id comp = ci_id comp)).
  - unfold Layout.placeComponent. rewrite Hcol.
    destruct (next_cell (length done)) as [(Hend & Hc & Hr)|(Hin & Hc & Hr)].
    + rewrite (proj2 (row_ends (length done)) Hend).
      cbn [gc_col gc_x gc_y gc_maxHeightInRow]. rewrite Hc, Hr.
      split; [reflexivity|]. split; [|split].
      * unfold inject_Z. ring.
      * rewrite Hy, Hheight, inject_Z_plus. unfold defaultWidth, defaultHeight. ring.
      * unfold defaultHeight. discriminate.
    + destruct (columns <=? cellColumn columns (length done) + 1)%Z eqn:Htest.
      { apply row_ends in Htest. lia. }
      cbn [gc_col gc_x gc_y gc_maxHeightInRow]. rewrite Hc, Hr.
      split; [reflexivity|]. split; [|split].
      * rewrite Hx, inject_Z_plus. ring.
      * exact Hy.
      * rewrite Hheight. apply Qle_refl.
Qed.

Lemma fold_placed (components : list ComponentInfo) :
  NoDup (map ci_id components) ->
  placed components
    (fold_left placeComponent components (mkGridCursor [] startX startY 0 0 startX startY)).
Proof.
  intros Hnd.
  apply (fold_left_prefix (fun done c => placed done c)).
  - cbn. split; [reflexivity|]. split; [intros k comp Hk; by destruct k|].
    unfold cellColumn, cellRow. rewrite Z.mod_0_l, Z.div_0_l by lia.
    split; [reflexivity|]. split; [unfold inject_Z; ring|].
    split; [unfold inject_Z; ring | discriminate].
  - intros done x c [rest ->] Hc. apply placeComponent_placed; [|exact Hc].
    rewrite map_app in Hnd. by apply NoDup_app in Hnd as (Hnd & _).
Qed.

(** The cursor alone, after [n] components. *)
#[local] Abbreviation cursorAt :=
  (fun (n : nat) (c : GridCursor) =>
     gc_col c = cellColumn columns n /\
     (gc_x c == startX + inject_Z (cellColumn columns n) * step)%Q /\
     (gc_y c == startY + inject_Z (cellRow columns n) * step)%Q /\
     (gc_maxHeightInRow c <= defaultHeight)%Q).

(** The corner reached so far, when the cells do not move backwards. *)
#[local] Abbreviation extended :=
  (fun (n : nat) (c : GridCursor) =>
     (n = 0%nat /\ (gc_maxX c == startX)%Q /\ (gc_maxY c == startY)%Q) \/
     ((1 <= n)%nat /\
      (gc_maxX c == startX + defaultWidth
                    + inject_Z (Z.min (Z.of_nat n) across - 1) * step)%Q /\
      (gc_maxY c == startY + defaultHeight
                    + inject_Z ((Z.of_nat n - 1) / across) * step)%Q)).

Lemma placeComponent_corner (c : GridCursor) (comp : ComponentInfo) :
  gc_maxX (placeComponent c comp) = Qmax (gc_maxX c) (gc_x c + defaultWidth)%Q /\
  gc_maxY (placeComponent c comp) = Qmax (gc_maxY c) (gc_y c + defaultHeight)%Q.
Proof. unfold Layout.placeComponent. destruct (columns <=? gc_col c + 1)%Z; split; reflexivity. Qed.

Lemma scaled_le (a b : Z) : (0 <= step)%Q -> (a <= b)%Z -> (inject_Z a * step <= inject_Z b * step)%Q.
Proof. intros Hs Hab. apply Qmult_le_compat_r; [rewrite <- Zle_Qle; exact Hab | exact Hs]. Qed.

Lemma placeComponent_extended (n : nat) (c : GridCursor) (comp : ComponentInfo) :
  (0 <= step)%Q ->
  cursorAt n c -> extended n c -> extended (S n) (placeComponent c comp).
Proof.
  intros Hstep (_ & Hx & Hy & _) Hext. right. split; [lia|].
  destruct (placeComponent_corner c comp) as [-> ->].
  pose proof (cellColumn_bound n) as Hcol.
  assert (Hrow : (cellRow columns n = Z.of_nat n / across)%Z) by reflexivity.
  replace (Z.of_nat (S n) - 1)%Z with (Z.of_nat n) by lia.
  destruct Hext as [(-> & HmaxX & HmaxY)|(Hn & HmaxX & HmaxY)].
  - assert (Hc0 : cellColumn columns 0 = 0%Z) by (unfold cellColumn; apply Z.mod_0_l; lia).
    assert (Hr0 : cellRow columns 0 = 0%Z) by (unfold cellRow; apply Z.div_0_l; lia).
    rewrite Hc0 in Hx. rewrite Hr0 in Hy. change (Z.of_nat 0) with 0%Z.
    rewrite Z.div_0_l by lia. replace (Z.min (Z.of_nat 1) across - 1)%Z with 0%Z by lia.
    unfold defaultWidth, defaultHeight in *. split.
    + rewrite Q.max_r; [rewrite Hx; unfold inject_Z; ring|].
      rewrite HmaxX, Hx. unfold inject_Z. lra.
    + rewrite Q.max_r; [rewrite Hy; unfold inject_Z; ring|].
      rewrite HmaxY, Hy. unfold inject_Z. lra.
  - split.
    + destruct (Z_lt_le_dec (Z.of_nat n) across) as [Hsmall|Hlarge].
      * assert (Hcn : cellColumn columns n = Z.of_nat n)
          by (unfold cellColumn; apply Z.mod_small; lia).
        rewrite Hcn in Hx.
        replace (Z.min (Z.of_nat n) across - 1)%Z with (Z.of_nat n - 1)%Z in HmaxX by lia.
        replace (Z.min (Z.of_nat (S n)) across - 1)%Z with (Z.of_nat n) by lia.
        pose proof (scaled_le (Z.of_nat n - 1) (Z.of_nat n) Hstep ltac:(lia)) as Hle.
        rewrite Q.max_r; [rewrite Hx; ring|]. rewrite HmaxX, Hx. lra.
      * replace (Z.min (Z.of_nat n) across - 1)%Z with (across - 1)%Z in HmaxX by lia.
        replace (Z.min (Z.of_nat (S n)) across - 1)%Z with (across - 1)%Z by lia.
        pose proof (scaled_le (cellColumn columns n) (across - 1) Hstep ltac:(lia)) as Hle.
        rewrite Q.max_l; [exact HmaxX|]. rewrite HmaxX, Hx. lra.
    + assert (Hdiv : ((Z.of_nat n - 1) / across <= Z.of_nat n / across)%Z)
        by (apply Z.div_le_mono; lia).
      pose proof (scaled_le _ _ Hstep Hdiv) as Hle.
      rewrite Hrow in Hy.
      rewrite Q.max_r; [rewrite Hy; ring|]. rewrite HmaxY, Hy. lra.
Qed.

Lemma placeComponent_cursor (n : nat) (c : GridCursor) (comp : ComponentInfo) :
  cursorAt n c -> cursorAt (S n) (placeComponent c comp).
Proof.
  intros (Hcol & Hx & Hy & Hrow).
  assert (Hheight : (Qmax (gc_maxHeightInRow c) defaultHeight == defaultHeight)%Q)
    by (apply Q.max_r, Hrow).
  unfold Layout.placeComponent. rewrite Hcol.
  destruct (next_cell n) as [(Hend & Hc & Hr)|(Hin & Hc & Hr)].
  - rewrite (proj2 (row_ends n) Hend).
    cbn [gc_col gc_x gc_y gc_maxHeightInRow]. rewrite Hc, Hr.
    split; [reflexivity|]. split; [|split].
    + unfold inject_Z. ring.
    + rewrite Hy, Hheight, inject_Z_plus. unfold defaultWidth, defaultHeight. ring.
    + unfold defaultHeight. discriminate.
  - destruct (columns <=? cellColumn columns n + 1)%Z eqn:Htest.
    { apply row_ends in Htest. lia. }
    cbn [gc_col gc_x gc_y gc_maxHeightInRow]. rewrite Hc, Hr.
    split; [reflexivity|]. split; [|split].
    + rewrite Hx, inject_Z_plus. ring.
    + exact Hy.
    + rewrite Hheight. apply Qle_refl.
Qed.

Lemma fold_extended (components : list ComponentInfo) :
  (0 <= step)%Q ->
  extended (length components)
    (fold_left placeComponent components (mkGridCursor [] startX startY 0 0 startX startY)).
Proof.
  intros Hstep.
  apply (fold_left_prefix
           (fun done c => cursorAt (length done) c /\ extended (length done) c)).
  - cbn [length gc_col gc_x gc_y gc_maxHeightInRow gc_maxX gc_maxY].
    unfold cellColumn, cellRow. rewrite Z.mod_0_l, Z.div_0_l by lia. split.
    + split; [reflexivity|]. split; [unfold inject_Z; ring|].
      split; [unfold inject_Z; ring | discriminate].
    + left. repeat split; reflexivity.
  - intros done x c _ [Hc He]. rewrite length_app. cbn [length]. rewrite Nat.add_1_r.
    split; [by apply placeComponent_cursor | by apply placeComponent_extended].
Qed.

End GridFacts.

Section GridResults.
Import Layout.

(** X21: [layoutComponentsInGrid] fills the grid row by row.  For
    components with distinct ids, the positions are keyed by the ids in the
    order of the list, and the component at index [k] is put in column
    [k mod c] and row [k / c] of a grid whose cells are 200 plus the spacing
    apart, [c] being the number of columns (one for the list layout and for
    a column setting below one). *)
Theorem layoutComponentsInGrid_cells (components : list ComponentInfo) (startX startY : Q)
    (settings : TransferSettings) :
  NoDup (map ci_id components) ->
  map_keys (layoutComponentsInGrid components startX startY settings).1.1
  = map ci_id components /\
  forall k comp,
    components !! k = Some comp ->
    exists pos,
      map_get (ci_id comp) (layoutComponentsInGrid components startX startY settings).1.1
      = Some pos /\
      (pos_x pos == startX + inject_Z (cellColumn (columnsOf settings) k)
                             * (defaultWidth + ts_spacing settings))%Q /\
      (pos_y pos == startY + inject_Z (cellRow (columnsOf settings) k)
                             * (defaultHeight + ts_spacing settings))%Q.
Proof.
  intros Hnd. unfold layoutComponentsInGrid.
  destruct components as [|comp0 components].
  { cbn. split; [reflexivity|]. intros k comp Hk. by destruct k. }
  rewrite bool_decide_eq_false_2 by discriminate. cbn [fst snd].
  destruct (fold_placed startX startY (ts_spacing settings) (columnsOf settings)
              (comp0 :: components) Hnd) as (Hkeys & Hcells & _).
  split; [exact Hkeys | exact Hcells].
Qed.

(** X22: when the spacing is not below -200, the width and the height
    that [layoutComponentsInGrid] reports for a list that is not empty are
    those of the filled part of the grid: as many columns as the first row
    holds and as many rows as were begun, each 200 wide and high and the
    spacing apart. *)
Theorem layoutComponentsInGrid_extent (components : list ComponentInfo) (startX startY : Q)
    (settings : TransferSettings) :
  components <> [] ->
  (0 <= defaultWidth + ts_spacing settings)%Q ->
  ((layoutComponentsInGrid components startX startY settings).1.2
   == defaultWidth
      + inject_Z (Z.min (Z.of_nat (length components)) (Z.max 1 (columnsOf settings)) - 1)
        * (defaultWidth + ts_spacing settings))%Q /\
  ((layoutComponentsInGrid components startX startY settings).2
   == defaultHeight
      + inject_Z ((Z.of_nat (length components) - 1) / Z.max 1 (columnsOf settings))
        * (defaultHeight + ts_spacing settings))%Q.
Proof.
  intros Hne Hstep. unfold layoutComponentsInGrid.
  destruct components as [|comp0 components]; [done|].
  rewrite bool_decide_eq_false_2 by discriminate. cbn [fst snd].
  destruct (fold_extended startX startY (ts_spacing settings) (columnsOf settings)
              (comp0 :: components) Hstep) as [(Hlen & _)|(_ & HmaxX & HmaxY)];
    [discriminate|].
  split.
  - rewrite HmaxX. ring.
  - rewrite HmaxY. unfold defaultWidth, defaultHeight. ring.
Qed.

(** Two different indices differ in the column or in the row. *)
Lemma cells_differ (columns : Z) (i j : nat) :
  i <> j ->
  (cellColumn columns i + 1 <= cellColumn columns j)%Z \/
  (cellColumn columns j + 1 <= cellColumn columns i)%Z \/
  (cellRow columns i + 1 <= cellRow columns j)%Z \/
  (cellRow columns j + 1 <= cellRow columns i)%Z.
Proof.
  intros Hij. unfold cellColumn, cellRow.
  pose proof (Z.div_mod (Z.of_nat i) (Z.max 1 columns) ltac:(lia)).
  pose proof (Z.div_mod (Z.of_nat j) (Z.max 1 columns) ltac:(lia)).
  destruct (Z.eq_dec (Z.of_nat i mod Z.max 1 columns)%Z (Z.of_nat j mod Z.max 1 columns)%Z);
    destruct (Z.eq_dec (Z.of_nat i / Z.max 1 columns)%Z (Z.of_nat j / Z.max 1 columns)%Z);
    lia.
Qed.

(** X23: with a spacing that is not negative, no two components of the
    grid overlap: of any two components with distinct ids, one lies at least
    its assumed size and the spacing further right or further down than the
    other. *)
Theorem grid_cells_apart (components : list ComponentInfo) (startX startY : Q)
    (settings : TransferSettings) (i j : nat) (ci cj : ComponentInfo) (pi pj : Position) :
  NoDup (map ci_id components) ->
  (0 <= ts_spacing settings)%Q ->
  i <> j ->
  components !! i = Some ci -> components !! j = Some cj ->
  map_get (ci_id ci) (layoutComponentsInGrid components startX startY settings).1.1 = Some pi ->
  map_get (ci_id cj) (layoutComponentsInGrid components startX startY settings).1.1 = Some pj ->
  (pos_x pi + defaultWidth + ts_spacing settings <= pos_x pj)%Q \/
  (pos_x pj + defaultWidth + ts_spacing settings <= pos_x pi)%Q \/
  (pos_y pi + defaultHeight + ts_spacing settings <= pos_y pj)%Q \/
  (pos_y pj + defaultHeight + ts_spacing settings <= pos_y pi)%Q.
Proof.
  intros Hnd Hsp Hij Hi Hj Hpi Hpj.
  assert (Hcells : forall k comp,
            components !! k = Some comp ->
            exists pos,
              map_get (ci_id comp)
                (layoutComponentsInGrid components startX startY settings).1.1 = Some pos /\
              (pos_x pos == startX + inject_Z (cellColumn (columnsOf settings) k)
                                     * (defaultWidth + ts_spacing settings))%Q /\
              (pos_y pos == startY + inject_Z (cellRow (columnsOf settings) k)
                                     * (defaultHeight + ts_spacing settings))%Q).
  { unfold layoutComponentsInGrid. destruct components as [|comp0 components].
    { intros k comp Hk. by destruct k. }
    rewrite bool_decide_eq_false_2 by discriminate. cbn [fst snd].
    apply (fold_placed startX startY (ts_spacing settings) (columnsOf settings)
             (comp0 :: components) Hnd). }
  destruct (Hcells i ci Hi) as (pi' & Hpi' & Hxi & Hyi).
  destruct (Hcells j cj Hj) as (pj' & Hpj' & Hxj & Hyj).
  rewrite Hpi in Hpi'. injection Hpi' as <-. rewrite Hpj in Hpj'. injection Hpj' as <-.
  assert (Hstep : (0 <= defaultWidth + ts_spacing settings)%Q)
    by (unfold defaultWidth; lra).
  assert (Hgap : forall a b : Z, (a + 1 <= b)%Z ->
            (inject_Z a * (defaultWidth + ts_spacing settings)
             + (defaultWidth + ts_spacing settings)
             <= inject_Z b * (defaultWidth + ts_spacing settings))%Q).
  { intros a b Hab.
    pose proof (scaled_le (ts_spacing settings) (a + 1) b Hstep Hab) as Hle.
    rewrite inject_Z_plus in Hle. unfold inject_Z at 2 in Hle. lra. }
  unfold defaultHeight in *. fold defaultWidth in *.
  destruct (cells_differ (columnsOf settings) i j Hij) as [H|[H|[H|H]]];
    pose proof (Hgap _ _ H) as Hle.
  - left. rewrite Hxi, Hxj. lra.
  - right. left. rewrite Hxi, Hxj. lra.
  - right. right. left. rewrite Hyi, Hyj. lra.
  - right. right. right. rewrite Hyi, Hyj. lra.
Qed.

End GridResults.

(** ** Groups of a layout *)
Section GroupFacts.
Import Layout.
Variable settings : TransferSettings.

#[local] Abbreviation idsOf := (fun group : string * list ComponentInfo => map ci_id group.2).

Lemma merge_fresh {V} (acc extra : list (string * V)) :
  NoDup (map_keys (acc ++ extra)) ->
  fold_left (fun m entry => map_set entry.1 entry.2 m) extra acc = acc ++ extra.
Proof.
  revert acc. induction extra as [|[k v] extra IH]; intros acc Hnd.
  { by rewrite app_nil_r. }
  cbn [fold_left fst snd].
  assert (Hk : map_has k acc = false).
  { apply map_has_false. unfold map_keys in *. rewrite map_app in Hnd.
    apply NoDup_app in Hnd as (_ & Hdisj & _). intros Hin. apply (Hdisj k Hin). left. }
  rewrite (map_set_new _ _ _ Hk), IH; rewrite <- app_assoc; [reflexivity | exact Hnd].
Qed.

Lemma map_get_app_l {V} (k : string) (m extra : list (string * V)) :
  map_has k m = true -> map_get k (m ++ extra) = map_get k m.
Proof.
  unfold map_has. induction m as [|[k' v] m IH]; cbn [app map_get]; [discriminate|].
  destruct (decide (k = k')); [reflexivity | exact IH].
Qed.

Lemma map_get_app_r {V} (k : string) (m extra : list (string * V)) :
  map_has k m = false -> map_get k (m ++ extra) = map_get k extra.
Proof.
  unfold map_has. induction m as [|[k' v] m IH]; cbn [app map_get]; [reflexivity|].
  destruct (decide (k = k')); [discriminate | exact IH].
Qed.

(** The grid of one group, for components with distinct ids. *)
Lemma grid_placed (comps : list ComponentInfo) (startX startY : Q) :
  NoDup (map ci_id comps) ->
  map_keys (layoutComponentsInGrid comps startX startY settings).1.1 = map ci_id comps /\
  forall k comp,
    comps !! k = Some comp ->
    exists pos,
      map_get (ci_id comp) (layoutComponentsInGrid comps startX startY settings).1.1
      = Some pos /\
      (pos_x pos == startX + inject_Z (cellColumn (columnsOf settings) k)
                             * (defaultWidth + ts_spacing settings))%Q /\
      (pos_y pos == startY + inject_Z (cellRow (columnsOf settings) k)
                             * (defaultHeight + ts_spacing settings))%Q.
Proof.
  intros Hnd. unfold layoutComponentsInGrid. destruct comps as [|comp0 comps].
  { cbn. split; [reflexivity|]. intros k comp Hk. by destruct k. }
  rewrite bool_decide_eq_false_2 by discriminate. cbn [fst snd].
  destruct (fold_placed startX startY (ts_spacing settings) (columnsOf settings)
              (comp0 :: comps) Hnd) as (Hkeys & Hcells & _).
  split; [exact Hkeys | exact Hcells].
Qed.

(** Where the member at index [k] of a group is put. *)
#[local] Abbreviation memberAt :=
  (fun (positions : list (string * Position)) (g : LayoutGroup) (k : nat) (id : string) =>
     exists pos,
       map_get id positions = Some pos /\
       (pos_x pos == lg_x g + inject_Z (cellColumn (columnsOf settings) k)
                              * (defaultWidth + ts_spacing settings))%Q /\
       (pos_y pos == lg_y g + inject_Z (cellRow (columnsOf settings) k)
                              * (defaultHeight + ts_spacing settings))%Q).

(** What holds of the loop variables when the groups [done] are laid out. *)
#[local] Abbreviation stacked :=
  (fun (done : list (string * list ComponentInfo)) (s : Stacking) =>
     map lg_name (sk_groups s) = map fst done /\
     map lg_componentIds (sk_groups s) = map idsOf done /\
     map_keys (sk_positions s) = concat (map idsOf done) /\
     stackedFrom (ts_spacing settings) 0 (sk_groups s) (sk_currentY s) /\
     Forall (fun g => forall k id, lg_componentIds g !! k = Some id ->
                                   memberAt (sk_positions s) g k id) (sk_groups s)).

Lemma stackedFrom_snoc (spacing y yEnd : Q) (gs : list LayoutGroup) (g : LayoutGroup) :
  stackedFrom spacing y gs yEnd ->
  lg_x g = 0%Q -> lg_y g = yEnd ->
  stackedFrom spacing y (gs ++ [g]) (yEnd + (lg_height g + spacing * 2))%Q.
Proof.
  revert y. induction gs as [|g0 gs IH]; intros y Hs Hx Hy; cbn [app stackedFrom] in *.
  - subst y. split; [exact Hx|]. split; [exact Hy | reflexivity].
  - destruct Hs as (H0 & H1 & Hs). split; [exact H0|]. split; [exact H1|]. by apply IH.
Qed.

Lemma placeGroup_stacked (done : list (string * list ComponentInfo))
    (group : string * list ComponentInfo) (s : Stacking) :
  NoDup (concat (map idsOf (done ++ [group]))) ->
  stacked done s -> stacked (done ++ [group]) (placeGroup settings s group.1 group.2).
Proof.
  intros Hnd (Hnames & Hids & Hkeys & Hstack & Hmembers).
  rewrite map_app, concat_app in Hnd. cbn [map concat] in Hnd. rewrite app_nil_r in Hnd.
  apply NoDup_app in Hnd as (Hnd_done & Hdisj & Hnd_group).
  destruct (grid_placed group.2 0 (sk_currentY s) Hnd_group) as [Hgkeys Hgcells].
  unfold placeGroup.
  destruct (layoutComponentsInGrid group.2 0 (sk_currentY s) settings)
    as [[groupPositions width] height] eqn:Hgrid.
  cbn [fst snd] in Hgkeys, Hgcells.
  assert (Hmerge : fold_left (fun m entry => map_set entry.1 entry.2 m)
                     groupPositions (sk_positions s) = sk_positions s ++ groupPositions).
  { apply merge_fresh. unfold map_keys in *. rewrite map_app, Hkeys, Hgkeys.
    apply NoDup_app. split; [exact Hnd_done|]. split; [exact Hdisj | exact Hnd_group]. }
  rewrite Hmerge. cbn [sk_positions sk_groups sk_currentY].
  rewrite !map_app, concat_app. cbn [map concat lg_name lg_componentIds].
  rewrite app_nil_r.
  split; [by rewrite Hnames|]. split; [by rewrite Hids|]. split; [|split].
  - unfold map_keys in *. by rewrite map_app, Hkeys, Hgkeys.
  - by apply stackedFrom_snoc.
  - apply Forall_app. split.
    + eapply Forall_impl; [exact Hmembers|]. intros g Hg k id Hk.
      destruct (Hg k id Hk) as (pos & Hget & Hat). exists pos. split; [|exact Hat].
      rewrite map_get_app_l; [exact Hget|]. unfold map_has. by rewrite Hget.
    + constructor; [|constructor]. intros k id Hk. cbn [lg_componentIds lg_x lg_y] in *.
      apply list_lookup_fmap_Some in Hk as (comp & -> & Hk).
      destruct (Hgcells k comp Hk) as (pos & Hget & Hat). exists pos. split; [|exact Hat].
      rewrite map_get_app_r; [exact Hget|].
      apply map_has_false. unfold map_keys in *. rewrite Hkeys. intros Hin.
      apply (Hdisj _ Hin). apply list_elem_of_fmap. exists comp.
      split; [reflexivity | by eapply list_elem_of_lookup_2].
Qed.

Lemma fold_stacked (gs : list (string * list ComponentInfo)) :
  NoDup (concat (map idsOf gs)) ->
  stacked gs (fold_left (fun s entry => placeGroup settings s entry.1 entry.2) gs
                (mkStacking [] [] 0)).
Proof.
  intros Hnd. apply (fold_left_prefix (fun done s => stacked done s)).
  - cbn. repeat split; constructor.
  - intros done group s [rest ->] Hs. apply placeGroup_stacked; [|exact Hs].
    rewrite map_app, concat_app in Hnd. by apply NoDup_app in Hnd as (Hnd & _).
Qed.

End GroupFacts.

(** ** Grouping by level and by type *)
Section NumberMapFacts.
Context {V : Type}.
Implicit Types m : list (nat * V).

Lemma nmap_get_set m (k k' : nat) (v : V) :
  nmap_get k (nmap_set k' v m) = if decide (k = k') then Some v else nmap_get k m.
Proof.
  induction m as [|[k0 v0] m IH]; cbn [nmap_set nmap_get].
  - destruct (decide (k = k')); reflexivity.
  - destruct (decide (k' = k0)) as [->|Hne]; cbn [nmap_get].
    + destruct (decide (k = k0)); reflexivity.
    + destruct (decide (k = k0)) as [->|Hk].
      * destruct (decide (k0 = k')); [congruence | reflexivity].
      * exact IH.
Qed.

Lemma nmap_get_update m (k k' : nat) (f : V -> V) :
  nmap_get k (nmap_update k' f m)
  = if decide (k = k') then f <$> nmap_get k m else nmap_get k m.
Proof.
  induction m as [|[k0 v0] m IH]; cbn [nmap_update nmap_get].
  - destruct (decide (k = k')); reflexivity.
  - destruct (decide (k' = k0)) as [->|Hne]; cbn [nmap_get].
    + destruct (decide (k = k0)); reflexivity.
    + destruct (decide (k = k0)) as [->|Hk].
      * destruct (decide (k0 = k')); [congruence | reflexivity].
      * exact IH.
Qed.

Lemma nmap_update_keys m (k : nat) (f : V -> V) : map fst (nmap_update k f m) = map fst m.
Proof.
  induction m as [|[k0 v0] m IH]; [reflexivity|]. cbn [nmap_update].
  destruct (decide (k = k0)); cbn [map fst]; [reflexivity | by rewrite IH].
Qed.

Lemma nmap_get_None m (k : nat) : nmap_get k m = None <-> k ∉ map fst m.
Proof.
  induction m as [|[k0 v0] m IH]; cbn [nmap_get map fst].
  - split; [intros _; apply not_elem_of_nil | reflexivity].
  - destruct (decide (k = k0)) as [->|Hne].
    + split; [discriminate|]. intros H. exfalso. apply H. left.
    + rewrite IH, not_elem_of_cons. tauto.
Qed.

Lemma nmap_set_new_keys m (k : nat) (v : V) :
  nmap_get k m = None -> map fst (nmap_set k v m) = map fst m ++ [k].
Proof.
  induction m as [|[k0 v0] m IH]; cbn [nmap_get nmap_set]; [reflexivity|].
  destruct (decide (k = k0)); [discriminate|]. intros H. cbn [map fst app].
  by rewrite IH.
Qed.
End NumberMapFacts.

Section SortFacts.

Lemma insertSorted_perm (x : nat) (l : list nat) : insertSorted x l ≡ₚ x :: l.
Proof.
  induction l as [|y l IH]; [reflexivity|]. cbn [insertSorted].
  destruct (x <=? y)%nat; [reflexivity|]. rewrite IH. apply Permutation_swap.
Qed.

Lemma sortAscending_perm (l : list nat) : sortAscending l ≡ₚ l.
Proof.
  induction l as [|x l IH]; [reflexivity|]. unfold sortAscending in *. cbn [fold_right].
  by rewrite insertSorted_perm, IH.
Qed.

Lemma insertSorted_sorted (x : nat) (l : list nat) :
  StronglySorted le l -> StronglySorted le (insertSorted x l).
Proof.
  induction 1 as [|y l Hl IH Hy]; cbn [insertSorted].
  - repeat constructor.
  - destruct (Nat.leb_spec x y) as [Hxy|Hxy].
    + constructor; [by constructor|]. constructor; [exact Hxy|].
      eapply Forall_impl; [exact Hy|]. intros z Hz. cbn in *. lia.
    + constructor; [exact IH|].
      rewrite insertSorted_perm. constructor; [lia | exact Hy].
Qed.

Lemma sortAscending_sorted (l : list nat) : StronglySorted le (sortAscending l).
Proof.
  induction l as [|x l IH]; [constructor|]. by apply insertSorted_sorted.
Qed.

(** Sorted, and no number twice: strictly ascending. *)
Lemma sorted_NoDup_lt (l : list nat) :
  StronglySorted le l -> NoDup l -> StronglySorted lt l.
Proof.
  induction 1 as [|x l Hl IH Hx]; intros Hnd; [constructor|].
  apply NoDup_cons in Hnd as [Hnotin Hnd]. constructor; [by apply IH|].
  rewrite Forall_forall in *. intros y Hy. specialize (Hx y Hy).
  assert (x <> y) by (intros ->; contradiction). lia.
Qed.
End SortFacts.

Section GroupingFacts.
Import Layout.

#[local] Abbreviation atLevel l := (fun c : ComponentInfo => ci_level c = l).

Lemma groupByLevel_snoc (comps : list ComponentInfo) (c : ComponentInfo) :
  groupByLevel (comps ++ [c]) =
  nmap_update (ci_level c) (fun group => group ++ [c])
    (if negb (nmap_has (ci_level c) (groupByLevel comps))
     then nmap_set (ci_level c) [] (groupByLevel comps)
     else groupByLevel comps).
Proof. unfold groupByLevel. by rewrite fold_left_app. Qed.

(** The level groups: one per level that occurs, holding the components of
    that level in their order. *)
Lemma groupByLevel_spec (comps : list ComponentInfo) :
  NoDup (map fst (groupByLevel comps)) /\
  forall l, nmap_get l (groupByLevel comps) =
            match filter (atLevel l) comps with
            | [] => None
            | c :: cs => Some (c :: cs)
            end.
Proof.
  induction comps as [|c comps [IHnd IHget]] using rev_ind.
  { split; [constructor | reflexivity]. }
  rewrite groupByLevel_snoc. set (m := groupByLevel comps) in *.
  unfold nmap_has. specialize (IHget (ci_level c)) as Hown.
  split.
  - rewrite nmap_update_keys.
    destruct (nmap_get (ci_level c) m) eqn:Hc; cbn [negb]; [exact IHnd|].
    rewrite (nmap_set_new_keys _ _ _ Hc). apply NoDup_app.
    split; [exact IHnd|]. split; [|apply NoDup_singleton].
    intros x Hx Hx'. apply list_elem_of_singleton in Hx'. subst x.
    by apply nmap_get_None in Hc.
  - intros l. rewrite nmap_get_update, filter_app.
    destruct (decide (l = ci_level c)) as [->|Hne].
    + rewrite filter_cons_True, filter_nil by reflexivity.
      destruct (nmap_get (ci_level c) m) as [group|] eqn:Hc; cbn [negb].
      * rewrite Hc. cbn [fmap option_fmap option_map].
        destruct (filter (atLevel (ci_level c)) comps) as [|c0 cs]; [discriminate|].
        injection Hown as ->. reflexivity.
      * rewrite nmap_get_set. destruct (decide (ci_level c = ci_level c)); [|done].
        destruct (filter (atLevel (ci_level c)) comps) as [|c0 cs]; [reflexivity|discriminate].
    + rewrite filter_cons_False, filter_nil, app_nil_r by (cbn; congruence).
      destruct (nmap_get (ci_level c) m); cbn [negb]; [apply IHget|].
      rewrite nmap_get_set. destruct (decide (l = ci_level c)); [done | apply IHget].
Qed.

Lemma level_group_extended (c : ComponentInfo) (comps : list ComponentInfo)
    (levels : list nat) :
  NoDup levels -> ci_level c ∈ levels ->
  concat (map (fun l => filter (atLevel l) (c :: comps)) levels)
  ≡ₚ c :: concat (map (fun l => filter (atLevel l) comps) levels).
Proof.
  induction levels as [|l levels IH]; intros Hnd Hin; [by apply elem_of_nil in Hin|].
  apply NoDup_cons in Hnd as [Hl Hnd]. cbn [map concat].
  destruct (decide (ci_level c = l)) as [Heq|Hne].
  - rewrite filter_cons_True by exact Heq. cbn [app]. constructor.
    apply Permutation_app_head.
    assert (Hsame : map (fun l' => filter (atLevel l') (c :: comps)) levels
                    = map (fun l' => filter (atLevel l') comps) levels).
    { apply map_ext_in. intros l' Hl'. apply filter_cons_False. cbn.
      intros Hc. apply Hl. rewrite <- Heq, Hc. by apply list_elem_of_In. }
    by rewrite Hsame.
  - rewrite filter_cons_False by exact Hne.
    apply elem_of_cons in Hin as [Hin|Hin]; [congruence|].
    rewrite (IH Hnd Hin). symmetry. apply Permutation_middle.
Qed.

(** The components of all levels together are the components. *)
Lemma levels_partition (comps : list ComponentInfo) (levels : list nat) :
  NoDup levels ->
  (forall c, c ∈ comps -> ci_level c ∈ levels) ->
  concat (map (fun l => filter (atLevel l) comps) levels) ≡ₚ comps.
Proof.
  intros Hnd. induction comps as [|c comps IH]; intros Hall.
  - clear. induction levels as [|l levels IHl]; [reflexivity|]. exact IHl.
  - rewrite level_group_extended; [|exact Hnd|apply Hall; left].
    constructor. apply IH. intros c' Hc'. apply Hall. by right.
Qed.

Lemma concat_map_map {A B} (f : A -> B) (ls : list (list A)) :
  concat (map (map f) ls) = map f (concat ls).
Proof. induction ls as [|l ls IH]; [reflexivity|]. cbn. by rewrite map_app, IH. Qed.

(** The levels in the order in which the hierarchical layout goes through
    them. *)
#[local] Abbreviation sortedLevels :=
  (fun comps : list ComponentInfo => sortAscending (map fst (groupByLevel comps))).

Lemma sortedLevels_spec (comps : list ComponentInfo) :
  StronglySorted lt (sortedLevels comps) /\
  NoDup (sortedLevels comps) /\
  (forall l, l ∈ sortedLevels comps <-> exists c, c ∈ comps /\ ci_level c = l) /\
  (forall l, l ∈ sortedLevels comps ->
     nmap_get l (groupByLevel comps) = Some (filter (atLevel l) comps)).
Proof.
  destruct (groupByLevel_spec comps) as [Hnd Hget].
  assert (Hnd' : NoDup (sortedLevels comps)) by (by rewrite sortAscending_perm).
  assert (Hkey : forall l, l ∈ sortedLevels comps <-> filter (atLevel l) comps <> []).
  { intros l. rewrite sortAscending_perm. specialize (Hget l).
    destruct (filter (atLevel l) comps) as [|c cs].
    - apply nmap_get_None in Hget. split; [contradiction | congruence].
    - split; [discriminate|]. intros _.
      destruct (decide (l ∈ map fst (groupByLevel comps))) as [Hin|Hnot]; [exact Hin|].
      apply nmap_get_None in Hnot. congruence. }
  split; [apply sorted_NoDup_lt; [apply sortAscending_sorted | exact Hnd']|].
  split; [exact Hnd'|]. split.
  - intros l. rewrite Hkey. split.
    + intros Hne. destruct (filter (atLevel l) comps) as [|c cs] eqn:Hf; [done|].
      exists c. assert (Hc : c ∈ filter (atLevel l) comps) by (rewrite Hf; left).
      apply list_elem_of_filter in Hc as [Hlevel Hc]. split; assumption.
    + intros (c & Hc & Hl) Hempty.
      assert (Hin : c ∈ filter (atLevel l) comps) by (apply list_elem_of_filter; auto).
      rewrite Hempty in Hin. by apply elem_of_nil in Hin.
  - intros l Hl. apply Hkey in Hl. rewrite Hget.
    destruct (filter (atLevel l) comps); [done | reflexivity].
Qed.

Lemma hierarchical_fold (settings : TransferSettings) (comps : list ComponentInfo)
    (levels : list nat) (s : Stacking) :
  (forall l, l ∈ levels -> nmap_get l (groupByLevel comps) = Some (filter (atLevel l) comps)) ->
  fold_left
    (fun s level =>
       match nmap_get level (groupByLevel comps) with
       | Some cs => placeGroup settings s ("Level " +:+ pretty level) cs
       | None => s
       end) levels s
  = fold_left (fun s entry => placeGroup settings s entry.1 entry.2)
      (map (fun l => ("Level " +:+ pretty l, filter (atLevel l) comps)) levels) s.
Proof.
  revert s. induction levels as [|l levels IH]; intros s Hget; [reflexivity|].
  cbn [map fold_left fst snd]. rewrite (Hget l) by left.
  apply IH. intros l' Hl'. apply Hget. by right.
Qed.

(** The buckets of the grouping by type: no entry without a component. *)
#[local] Abbreviation bucket key group :=
  (match group with
   | [] => []
   | _ => [(key, group)]
   end).

Lemma groupUnder_bucket (key : string) (c : ComponentInfo) (group : list ComponentInfo) :
  groupUnder key c (bucket key group) = bucket key (group ++ [c]).
Proof.
  unfold groupUnder. destruct group as [|c0 group]; cbn.
  - destruct (decide (key = key)); [reflexivity | done].
  - unfold map_has. cbn. destruct (decide (key = key)); [|done]. cbn.
    destruct (decide (key = key)); [reflexivity | done].
Qed.

Lemma groupByType_spec (comps : list ComponentInfo) :
  groupByType comps =
  (bucket "Components" (filter (fun c => isVariantSet c = false) comps),
   bucket "Variant Sets" (filter (fun c => isVariantSet c = true) comps)).
Proof.
  induction comps as [|c comps IH] using rev_ind; [reflexivity|].
  unfold groupByType in *. rewrite fold_left_app, IH. cbn [fold_left].
  rewrite !filter_app.
  destruct (isVariantSet c) eqn:Hv.
  - rewrite (filter_cons_True (fun x => isVariantSet x = true) c []) by exact Hv.
    rewrite (filter_cons_False (fun x => isVariantSet x = false) c []) by congruence.
    rewrite !filter_nil, app_nil_r.
    unfold isVariantSet in Hv. destruct (ci_type c); try discriminate.
    by rewrite groupUnder_bucket.
  - rewrite (filter_cons_False (fun x => isVariantSet x = true) c []) by congruence.
    rewrite (filter_cons_True (fun x => isVariantSet x = false) c []) by exact Hv.
    rewrite !filter_nil, app_nil_r.
    unfold isVariantSet in Hv. destruct (ci_type c); try discriminate;
      by rewrite groupUnder_bucket.
Qed.

Lemma filter_partition {A} (p : A -> bool) (l : list A) :
  filter (fun x => p x = true) l ++ filter (fun x => p x = false) l ≡ₚ l.
Proof.
  induction l as [|x l IH]; [reflexivity|]. destruct (p x) eqn:Hx.
  - rewrite filter_cons_True, filter_cons_False by (congruence). cbn. by constructor.
  - rewrite filter_cons_False, filter_cons_True by (congruence).
    rewrite <- Permutation_middle. by constructor.
Qed.

End GroupingFacts.

(** ** The layout as a whole *)
Section LayoutResults.
Import Layout Analyzer.
Variable settings : TransferSettings.
Variable components : list (string * ComponentInfo).
Hypothesis components_wellKeyed : wellKeyed components.
Hypothesis components_some : components <> [].

#[local] Abbreviation comps := (map_values components).
#[local] Abbreviation result := (calculateLayout components settings).
#[local] Abbreviation atLevel l := (fun c : ComponentInfo => ci_level c = l).
#[local] Abbreviation idsOf := (fun group : string * list ComponentInfo => map ci_id group.2).
#[local] Abbreviation bucket key group :=
  (match group with
   | [] => []
   | _ => [(key, group)]
   end).

(** The groups that the layout is made of: their names and members. *)
#[local] Abbreviation grouping :=
  (match ts_groupingMethod settings with
   | GroupHierarchy =>
       map (fun l => ("Level " +:+ pretty l, filter (atLevel l) comps))
         (sortAscending (map fst (groupByLevel comps)))
   | GroupType =>
       bucket "Variant Sets" (filter (fun c => isVariantSet c = true) comps) ++
       bucket "Components" (filter (fun c => isVariantSet c = false) comps)
   | _ => [("All Components", comps)]
   end).

Lemma comps_ids : map ci_id comps = map_keys components.
Proof. apply values_ids, components_wellKeyed. Qed.

Lemma comps_NoDup : NoDup (map ci_id comps).
Proof. rewrite comps_ids. apply components_wellKeyed. Qed.

Lemma grouping_members : concat (map snd grouping) ≡ₚ comps.
Proof.
  destruct (ts_groupingMethod settings).
  - rewrite map_map. cbn [snd].
    destruct (sortedLevels_spec comps) as (_ & Hnd & Hin & _).
    apply levels_partition; [exact Hnd|]. intros c Hc. apply Hin. eauto.
  - cbn. by rewrite app_nil_r.
  - rewrite map_app, concat_app.
    etransitivity; [|apply (filter_partition isVariantSet comps)].
    apply Permutation_app.
    + destruct (filter (fun c => isVariantSet c = true) comps); cbn; by rewrite ?app_nil_r.
    + destruct (filter (fun c => isVariantSet c = false) comps); cbn; by rewrite ?app_nil_r.
  - cbn. by rewrite app_nil_r.
Qed.

Lemma grouping_ids : concat (map idsOf grouping) ≡ₚ map_keys components.
Proof.
  transitivity (map ci_id (concat (map snd grouping))).
  - rewrite <- concat_map_map, map_map. reflexivity.
  - rewrite <- comps_ids. apply Permutation_map, grouping_members.
Qed.

Lemma grouping_NoDup : NoDup (concat (map idsOf grouping)).
Proof. rewrite grouping_ids. apply components_wellKeyed. Qed.

(** The result of [calculateLayout], group by group. *)
Lemma result_grouped :
  map lg_name (groups result) = map fst grouping /\
  map lg_componentIds (groups result) = map idsOf grouping /\
  map_keys (positions result) = concat (map idsOf grouping) /\
  (exists yEnd,
     stackedFrom (ts_spacing settings) 0 (groups result) yEnd /\
     match ts_groupingMethod settings with
     | GroupHierarchy | GroupType => totalHeight result = yEnd
     | _ => exists g, groups result = [g] /\ totalHeight result = lg_height g
     end) /\
  Forall (fun g => forall k id,
            lg_componentIds g !! k = Some id ->
            exists pos,
              map_get id (positions result) = Some pos /\
              (pos_x pos == lg_x g + inject_Z (cellColumn (columnsOf settings) k)
                                     * (defaultWidth + ts_spacing settings))%Q /\
              (pos_y pos == lg_y g + inject_Z (cellRow (columnsOf settings) k)
                                     * (defaultHeight + ts_spacing settings))%Q)
    (groups result).
Proof.
  pose proof grouping_NoDup as Hnd.
  assert (Hflat :
            map lg_name (groups (calculateFlatLayout components settings))
            = ["All Components"] /\
            map lg_componentIds (groups (calculateFlatLayout components settings))
            = [map ci_id comps] /\
            map_keys (positions (calculateFlatLayout components settings))
            = map ci_id comps ++ [] /\
            (exists yEnd,
               stackedFrom (ts_spacing settings) 0
                 (groups (calculateFlatLayout components settings)) yEnd /\
               exists g, groups (calculateFlatLayout components settings) = [g] /\
                         totalHeight (calculateFlatLayout components settings) = lg_height g) /\
            Forall (fun g => forall k id,
                      lg_componentIds g !! k = Some id ->
                      exists pos,
                        map_get id (positions (calculateFlatLayout components settings))
                        = Some pos /\
                        (pos_x pos == lg_x g + inject_Z (cellColumn (columnsOf settings) k)
                                               * (defaultWidth + ts_spacing settings))%Q /\
                        (pos_y pos == lg_y g + inject_Z (cellRow (columnsOf settings) k)
                                               * (defaultHeight + ts_spacing settings))%Q)
              (groups (calculateFlatLayout components settings))).
  { unfold calculateFlatLayout.
    destruct (grid_placed settings comps 0 0 comps_NoDup) as [Hkeys Hcells].
    destruct (layoutComponentsInGrid comps 0 0 settings) as [[gridPositions w] h].
    cbn [fst snd positions groups totalHeight map lg_name lg_componentIds] in *.
    split; [reflexivity|]. split; [reflexivity|]. split; [by rewrite app_nil_r|].
    split.
    - eexists. split; [|eexists; split; reflexivity]. cbn. repeat split.
    - constructor; [|constructor]. intros k id Hk. cbn [lg_componentIds lg_x lg_y] in *.
      apply list_lookup_fmap_Some in Hk as (comp & -> & Hk). by apply Hcells. }
  unfold calculateLayout.
  rewrite bool_decide_eq_false_2 by (destruct components; [done | discriminate]).
  destruct (ts_groupingMethod settings) eqn:Hmethod.
  - unfold calculateHierarchicalLayout.
    destruct (sortedLevels_spec comps) as (_ & _ & _ & Hget).
    rewrite (hierarchical_fold settings comps _ _ Hget).
    destruct (fold_stacked settings _ Hnd) as (Hnames & Hids & Hkeys & Hstack & Hmembers).
    cbn [positions groups totalHeight].
    split; [exact Hnames|]. split; [exact Hids|]. split; [exact Hkeys|].
    split; [eexists; split; [exact Hstack | reflexivity] | exact Hmembers].
  - unfold calculateSelectionBasedLayout. exact Hflat.
  - unfold calculateTypeBasedLayout. rewrite groupByType_spec, <- fold_left_app.
    destruct (fold_stacked settings _ Hnd) as (Hnames & Hids & Hkeys & Hstack & Hmembers).
    cbn [positions groups totalHeight].
    split; [exact Hnames|]. split; [exact Hids|]. split; [exact Hkeys|].
    split; [eexists; split; [exact Hstack | reflexivity] | exact Hmembers].
  - exact Hflat.
Qed.

End LayoutResults.

Section LayoutTheorems.
Import Layout Analyzer.

Lemma stackedFrom_left (spacing y yEnd : Q) (gs : list LayoutGroup) :
  stackedFrom spacing y gs yEnd -> Forall (fun g => lg_x g = 0%Q) gs.
Proof.
  revert y. induction gs as [|g gs IH]; intros y Hs; [constructor|].
  destruct Hs as (Hx & _ & Hs). constructor; [exact Hx | exact (IH _ Hs)].
Qed.

Lemma stackedFrom_sum (spacing y yEnd : Q) (gs : list LayoutGroup) :
  stackedFrom spacing y gs yEnd ->
  (yEnd == y + fold_right (fun g acc => lg_height g + spacing * 2 + acc) 0 gs)%Q.
Proof.
  revert y. induction gs as [|g gs IH]; intros y Hs; cbn [stackedFrom fold_right] in *.
  - subst. ring.
  - destruct Hs as (_ & _ & Hs). rewrite (IH _ Hs). ring.
Qed.

(** X24: [calculateLayout] gives every component of a map one position and
    puts it in one group: the positions are keyed by the members of the
    groups, group after group, and the members of all groups together are
    the keys of the map, each once. *)
Theorem calculateLayout_covers (components : list (string * ComponentInfo))
    (settings : TransferSettings) :
  wellKeyed components ->
  map_keys (positions (calculateLayout components settings))
  = concat (map lg_componentIds (groups (calculateLayout components settings))) /\
  concat (map lg_componentIds (groups (calculateLayout components settings)))
  ≡ₚ map_keys components.
Proof.
  intros Hwk. destruct components as [|entry components]; [split; reflexivity|].
  destruct (result_grouped settings (entry :: components) Hwk ltac:(discriminate))
    as (_ & Hids & Hkeys & _).
  rewrite Hkeys, Hids. split; [reflexivity|].
  apply (grouping_ids settings (entry :: components) Hwk).
Qed.

(** X25: in the result of [calculateLayout] every group starts at the left
    edge, and its members fill a grid from the corner of the group: the
    member at index [k] of a group is put in column [k mod c] and row
    [k / c] of that grid, 200 plus the spacing apart. *)
Theorem calculateLayout_positions (components : list (string * ComponentInfo))
    (settings : TransferSettings) :
  wellKeyed components ->
  Forall (fun g =>
            lg_x g = 0%Q /\
            forall k id,
              lg_componentIds g !! k = Some id ->
              exists pos,
                map_get id (positions (calculateLayout components settings)) = Some pos /\
                (pos_x pos == lg_x g + inject_Z (cellColumn (columnsOf settings) k)
                                       * (defaultWidth + ts_spacing settings))%Q /\
                (pos_y pos == lg_y g + inject_Z (cellRow (columnsOf settings) k)
                                       * (defaultHeight + ts_spacing settings))%Q)
    (groups (calculateLayout components settings)).
Proof.
  intros Hwk. destruct components as [|entry components]; [constructor|].
  destruct (result_grouped settings (entry :: components) Hwk ltac:(discriminate))
    as (_ & _ & _ & (yEnd & Hstack & _) & Hmembers).
  pose proof (stackedFrom_left _ _ _ _ Hstack) as Hleft.
  rewrite Forall_forall in *. intros g Hg. split; [exact (Hleft g Hg) | exact (Hmembers g Hg)].
Qed.

(** X26: the hierarchical layout has one group for each level that occurs
    among the components, in ascending order of the levels.  The group of
    level [l] is named Level [l] and holds the components of that level in
    the order of the map. *)
Theorem hierarchical_groups_by_level (components : list (string * ComponentInfo))
    (settings : TransferSettings) :
  ts_groupingMethod settings = GroupHierarchy ->
  wellKeyed components ->
  exists levels,
    StronglySorted lt levels /\
    (forall l, l ∈ levels <-> exists c, c ∈ map_values components /\ ci_level c = l) /\
    map lg_name (groups (calculateLayout components settings))
    = map (fun l => "Level " +:+ pretty l) levels /\
    map lg_componentIds (groups (calculateLayout components settings))
    = map (fun l => map ci_id (filter (fun c => ci_level c = l) (map_values components)))
        levels.
Proof.
  intros Hmethod Hwk. destruct components as [|entry components].
  { exists []. split; [constructor|]. split; [|split; reflexivity].
    intros l. split; [by intros ?%elem_of_nil|]. intros (c & Hc & _). by apply elem_of_nil in Hc. }
  destruct (result_grouped settings (entry :: components) Hwk ltac:(discriminate))
    as (Hnames & Hids & _).
  rewrite Hmethod in Hnames, Hids.
  destruct (sortedLevels_spec (map_values (entry :: components))) as (Hsorted & _ & Hin & _).
  eexists. split; [exact Hsorted|]. split; [exact Hin|].
  rewrite Hnames, Hids, !map_map. split; reflexivity.
Qed.

(** X27: the groups of a layout lie one below the other, from 0 on, each
    followed by a gap of twice the spacing.  In the hierarchical and the
    type-based layout the total height is where the gap after the last
    group ends, the sum of the heights of the groups and of one gap for
    each; in the flat and the selection-based layout there is one group
    and the total height is its height. *)
Theorem layout_groups_stacked (components : list (string * ComponentInfo))
    (settings : TransferSettings) :
  wellKeyed components ->
  components <> [] ->
  exists yEnd,
    stackedFrom (ts_spacing settings) 0 (groups (calculateLayout components settings)) yEnd /\
    match ts_groupingMethod settings with
    | GroupHierarchy | GroupType =>
        totalHeight (calculateLayout components settings) = yEnd /\
        (totalHeight (calculateLayout components settings)
         == fold_right (fun g acc => lg_height g + ts_spacing settings * 2 + acc) 0
              (groups (calculateLayout components settings)))%Q
    | _ =>
        exists g, groups (calculateLayout components settings) = [g] /\
                  totalHeight (calculateLayout components settings) = lg_height g
    end.
Proof.
  intros Hwk Hne.
  destruct (result_grouped settings components Hwk Hne)
    as (_ & _ & _ & (yEnd & Hstack & Hheight) & _).
  exists yEnd. split; [exact Hstack|].
  pose proof (stackedFrom_sum _ _ _ _ Hstack) as Hsum.
  destruct (ts_groupingMethod settings); try exact Hheight;
    (split; [exact Hheight|]); rewrite Hheight, Hsum; ring.
Qed.

(** X28: the type-based layout has at most two groups: first the group
    Variant Sets with the component sets, then the group Components with
    all other components, each in the order of the map; a group that would
    be empty is left out. *)
Theorem type_groups_sets_first (components : list (string * ComponentInfo))
    (settings : TransferSettings) :
  ts_groupingMethod settings = GroupType ->
  wellKeyed components ->
  map (fun g => (lg_name g, lg_componentIds g)) (groups (calculateLayout components settings))
  = match filter (fun c => isVariantSet c = true) (map_values components) with
    | [] => []
    | c :: sets => [("Variant Sets", map ci_id (c :: sets))]
    end ++
    match filter (fun c => isVariantSet c = false) (map_values components) with
    | [] => []
    | c :: others => [("Components", map ci_id (c :: others))]
    end.
Proof.
  intros Hmethod Hwk. destruct components as [|entry components]; [reflexivity|].
  destruct (result_grouped settings (entry :: components) Hwk ltac:(discriminate))
    as (Hnames & Hids & _).
  rewrite Hmethod in Hnames, Hids.
  assert (Hzip : forall (gs : list LayoutGroup) (l : list (string * list ComponentInfo)),
            map lg_name gs = map fst l ->
            map lg_componentIds gs = map (fun group => map ci_id group.2) l ->
            map (fun g => (lg_name g, lg_componentIds g)) gs
            = map (fun group => (group.1, map ci_id group.2)) l).
  { clear. induction gs as [|g gs IH]; intros [|e l] H1 H2; try discriminate; [reflexivity|].
    cbn [map] in *. injection H1 as H1 H1'. injection H2 as H2 H2'.
    rewrite H1, H2. f_equal. by apply IH. }
  rewrite (Hzip _ _ Hnames Hids), map_app.
  destruct (filter (fun c => isVariantSet c = true) (map_values (entry :: components)));
    destruct (filter (fun c => isVariantSet c = false) (map_values (entry :: components)));
    reflexivity.
Qed.

Lemma Math_max_spec (x : Q) (xs : list Q) :
  exists w, Math_max (x :: xs) = Finite w /\
            Forall (fun y => (y <= w)%Q) (x :: xs) /\
            Exists (fun y => (y == w)%Q) (x :: xs).
Proof.
  unfold Math_max. cbn [fold_left].
  assert (Hgen : forall (xs seen : list Q) (a : Q),
            Forall (fun y => (y <= a)%Q) seen -> Exists (fun y => (y == a)%Q) seen ->
            exists w,
              fold_left (fun acc x => match acc with
                                      | MinusInfinity => Finite x
                                      | Finite a => Finite (Qmax a x)
                                      end) xs (Finite a) = Finite w /\
              Forall (fun y => (y <= w)%Q) (seen ++ xs) /\
              Exists (fun y => (y == w)%Q) (seen ++ xs)).
  { clear. induction xs as [|x xs IH]; intros seen a Hle Hex.
    - exists a. rewrite app_nil_r. repeat split; assumption.
    - cbn [fold_left].
      destruct (IH (seen ++ [x]) (Qmax a x)) as (w & Hw & Hall & Hone).
      + apply Forall_app. split.
        * eapply Forall_impl; [exact Hle|]. intros y Hy. cbn in *.
          eapply Qle_trans; [exact Hy | apply Q.le_max_l].
        * constructor; [apply Q.le_max_r | constructor].
      + destruct (Q.max_dec a x) as [Hmax|Hmax].
        * apply Exists_app. left. eapply Exists_impl; [exact Hex|].
          intros y Hy. cbn in *. by rewrite Hy, Hmax.
        * apply Exists_app. right. constructor. by rewrite Hmax.
      + exists w. rewrite <- app_assoc in Hall, Hone. repeat split; assumption. }
  destruct (Hgen xs [x] x) as (w & Hw & Hall & Hone).
  - constructor; [apply Qle_refl | constructor].
  - constructor. reflexivity.
  - exists w. repeat split; assumption.
Qed.

(** X29: the total width that [calculateLayout] reports is a number (never
    the -Infinity of an empty maximum): 0 for no components, and otherwise
    the width of a widest group. *)
Theorem calculateLayout_width (components : list (string * ComponentInfo))
    (settings : TransferSettings) :
  wellKeyed components ->
  exists width,
    totalWidth (calculateLayout components settings) = Finite width /\
    Forall (fun g => (lg_width g <= width)%Q) (groups (calculateLayout components settings)) /\
    (components = [] -> width = 0%Q) /\
    (components <> [] ->
     Exists (fun g => (lg_width g == width)%Q) (groups (calculateLayout components settings))).
Proof.
  intros Hwk. destruct components as [|entry components].
  { exists 0%Q. repeat split; [constructor | done]. }
  destruct (result_grouped settings (entry :: components) Hwk ltac:(discriminate))
    as (_ & Hids & _).
  assert (Hgrouped : forall s : Stacking,
            sk_groups s <> [] ->
            exists width,
              Math_max (map lg_width (sk_groups s)) = Finite width /\
              Forall (fun g => (lg_width g <= width)%Q) (sk_groups s) /\
              Exists (fun g => (lg_width g == width)%Q) (sk_groups s)).
  { intros s Hs. destruct (sk_groups s) as [|g gs]; [done|]. cbn [map].
    destruct (Math_max_spec (lg_width g) (map lg_width gs)) as (w & Hw & Hall & Hone).
    exists w. split; [exact Hw|].
    change (lg_width g :: map lg_width gs) with (map lg_width (g :: gs)) in Hall, Hone.
    split.
    - apply Forall_forall. intros g0 Hg0. rewrite Forall_forall in Hall. apply Hall.
      apply list_elem_of_fmap. exists g0. split; [reflexivity | exact Hg0].
    - apply Exists_exists in Hone as (y & Hy & Hyw).
      apply list_elem_of_fmap in Hy as (g0 & -> & Hg0).
      apply Exists_exists. exists g0. split; assumption. }
  assert (Hsome : groups (calculateLayout (entry :: components) settings) <> []).
  { intros Hnil. rewrite Hnil in Hids. cbn [map] in Hids.
    pose proof (grouping_ids settings (entry :: components) Hwk) as Hperm.
    rewrite <- Hids in Hperm. apply Permutation_nil in Hperm. discriminate. }
  unfold calculateLayout in *.
  rewrite bool_decide_eq_false_2 in * by discriminate.
  destruct (ts_groupingMethod settings).
  - unfold calculateHierarchicalLayout in *. cbn [totalWidth groups] in *.
    destruct (Hgrouped _ Hsome) as (w & Hw & Hall & Hone).
    exists w. split; [exact Hw|]. split; [exact Hall|]. split; [done | intros _; exact Hone].
  - unfold calculateSelectionBasedLayout, calculateFlatLayout in *.
    destruct (layoutComponentsInGrid _ 0 0 settings) as [[gridPositions w] h].
    cbn [totalWidth groups]. exists w. split; [reflexivity|].
    split; [constructor; [apply Qle_refl | constructor]|]. split; [done|].
    intros _. constructor. reflexivity.
  - unfold calculateTypeBasedLayout in *.
    destruct (groupByType (map_values (entry :: components))) as [cg csg].
    cbn [totalWidth groups] in *.
    destruct (Hgrouped _ Hsome) as (w & Hw & Hall & Hone).
    exists w. split; [exact Hw|]. split; [exact Hall|]. split; [done | intros _; exact Hone].
  - unfold calculateFlatLayout in *.
    destruct (layoutComponentsInGrid _ 0 0 settings) as [[gridPositions w] h].
    cbn [totalWidth groups]. exists w. split; [reflexivity|].
    split; [constructor; [apply Qle_refl | constructor]|]. split; [done|].
    intros _. constructor. reflexivity.
Qed.

End LayoutTheorems.

(** ** Placing the collected nodes *)
Section OrganizeFacts.
Import Collector.
Variable spacing : Q.
Hypothesis spacing_nonneg : (0 <= spacing)%Q.
#[local] Open Scope Q_scope.

(** Node [a] ends, with the spacing, left of or above where node [b]
    starts. *)
#[local] Abbreviation clearOf a b :=
  ((pl_x a + widthOf a + spacing <= pl_x b) \/
   (pl_y a + heightOf a + spacing <= pl_y b)).

#[local] Abbreviation apart l :=
  (forall (i j : nat) (a b : Placed),
     (i < j)%nat -> l !! i = Some a -> l !! j = Some b -> clearOf a b).

#[local] Abbreviation sized node := ((0 <= widthOf node) /\ (0 <= heightOf node)).

Lemma apart_snoc (l : list Placed) (b : Placed) :
  apart l -> (forall a, a ∈ l -> clearOf a b) -> apart (l ++ [b]).
Proof.
  intros Hl Hb i j a b' Hij Hi Hj.
  destruct (decide (j < length l)%nat) as [Hlt|Hge].
  - rewrite lookup_app_l in Hi by lia. rewrite lookup_app_l in Hj by lia.
    exact (Hl i j a b' Hij Hi Hj).
  - assert (Hjl : j = length l).
    { apply lookup_lt_Some in Hj. rewrite length_app in Hj. simpl in Hj. lia. }
    subst j. rewrite lookup_app_l in Hi by lia.
    rewrite list_lookup_middle in Hj by reflexivity. injection Hj as <-.
    apply Hb. eapply list_elem_of_lookup_2, Hi.
Qed.

(** What the grid loop keeps: the nodes placed are clear of each other, and
    each is either in the row being filled, ending left of the cursor and
    not taller than the row, or in a row above, ending above the cursor. *)
#[local] Abbreviation gridInvariant c :=
  (apart (pc_placed c) /\
   (0 <= pc_maxHeightInRow c) /\
   forall a, a ∈ pc_placed c ->
     ((pl_x a + widthOf a + spacing <= pc_x c) /\
      (pl_y a + heightOf a <= pc_y c + pc_maxHeightInRow c)) \/
     (pl_y a + heightOf a + spacing <= pc_y c)).

Lemma placeInGrid_invariant (columns : Z) (c : PageCursor) (node : Placed) :
  sized node -> gridInvariant c -> gridInvariant (placeInGrid spacing columns c node).
Proof.
  intros [Hw Hh] (Hapart & Hmax & Hrows).
  pose proof (Q.le_max_l (pc_maxHeightInRow c) (heightOf node)) as Hl.
  pose proof (Q.le_max_r (pc_maxHeightInRow c) (heightOf node)) as Hr.
  assert (Hnew : apart (pc_placed c ++ [moveTo (pc_x c) (pc_y c) node])).
  { apply apart_snoc; [exact Hapart|].
    intros a Ha. cbn [moveTo pl_x pl_y].
    destruct (Hrows a Ha) as [[Hx _]|Hy]; [left; exact Hx | right; exact Hy]. }
  unfold placeInGrid. destruct (columns <=? pc_col c + 1)%Z.
  - cbn [pc_placed pc_x pc_y pc_maxHeightInRow].
    split; [exact Hnew|]. split; [apply Qle_refl|].
    intros a [Ha| ->%list_elem_of_singleton]%elem_of_app; right.
    + destruct (Hrows a Ha) as [[_ Hy]|Hy]; lra.
    + unfold heightOf, widthOf in *. cbn [moveTo pl_x pl_y pl_height]. lra.
  - cbn [pc_placed pc_x pc_y pc_maxHeightInRow].
    split; [exact Hnew|]. split; [lra|].
    intros a [Ha| ->%list_elem_of_singleton]%elem_of_app.
    + destruct (Hrows a Ha) as [[Hx Hy]|Hy]; [left; split; lra | right; exact Hy].
    + left. unfold heightOf, widthOf in *.
      cbn [moveTo pl_x pl_y pl_height pl_width]. split; lra.
Qed.

Lemma grid_loop_invariant (columns : Z) (nodes : list Placed) (c : PageCursor) :
  Forall (fun node => sized node) nodes ->
  gridInvariant c ->
  gridInvariant (fold_left (placeInGrid spacing columns) nodes c).
Proof.
  intros Hnodes. revert c.
  induction Hnodes as [|node nodes Hnode _ IH]; intros c Hc; [exact Hc|].
  cbn [fold_left]. apply IH, placeInGrid_invariant; assumption.
Qed.

(** What the list loop keeps: the nodes placed are clear of each other and
    end above the cursor. *)
#[local] Abbreviation listInvariant c :=
  (apart c.1 /\ forall a, a ∈ c.1 -> (pl_y a + heightOf a + spacing <= c.2)).

Lemma placeInList_invariant (c : list Placed * Q) (node : Placed) :
  sized node -> listInvariant c -> listInvariant (placeInList spacing c node).
Proof.
  intros [Hw Hh] [Hapart Hrows]. unfold placeInList. cbn [fst snd]. split.
  - apply apart_snoc; [exact Hapart|].
    intros a Ha. right. cbn [moveTo pl_y]. exact (Hrows a Ha).
  - intros a [Ha| ->%list_elem_of_singleton]%elem_of_app.
    + specialize (Hrows a Ha). lra.
    + unfold heightOf in *. cbn [moveTo pl_y pl_height]. lra.
Qed.

Lemma list_loop_invariant (nodes : list Placed) (c : list Placed * Q) :
  Forall (fun node => sized node) nodes ->
  listInvariant c ->
  listInvariant (fold_left (placeInList spacing) nodes c).
Proof.
  intros Hnodes. revert c.
  induction Hnodes as [|node nodes Hnode _ IH]; intros c Hc; [exact Hc|].
  cbn [fold_left]. apply IH, placeInList_invariant; assumption.
Qed.

(** Both loops move the nodes and touch nothing else. *)
Lemma grid_loop_nodes (columns : Z) (nodes : list Placed) (c : PageCursor) :
  map (moveTo 0 0) (pc_placed (fold_left (placeInGrid spacing columns) nodes c))
  = map (moveTo 0 0) (pc_placed c) ++ map (moveTo 0 0) nodes.
Proof.
  revert c. induction nodes as [|node nodes IH]; intros c.
  - cbn [fold_left map]. by rewrite app_nil_r.
  - cbn [fold_left]. rewrite IH. unfold placeInGrid.
    destruct (columns <=? pc_col c + 1)%Z; cbn [pc_placed];
      rewrite map_app, <- app_assoc; reflexivity.
Qed.

Lemma list_loop_nodes (nodes : list Placed) (c : list Placed * Q) :
  map (moveTo 0 0) (fold_left (placeInList spacing) nodes c).1
  = map (moveTo 0 0) c.1 ++ map (moveTo 0 0) nodes.
Proof.
  revert c. induction nodes as [|node nodes IH]; intros c.
  - cbn [fold_left map]. by rewrite app_nil_r.
  - cbn [fold_left]. rewrite IH. unfold placeInList. cbn [fst].
    rewrite map_app, <- app_assoc. reflexivity.
Qed.
End OrganizeFacts.

Section OrganizeTheorems.
Import Collector.

End OrganizeTheorems.

(** ** Further tests of the repository, run on the embedding *)
Section FurtherTests.
Import Mock.

#[local] Abbreviation createMockComponent id name level :=
  (mkComponentInfo id name "" CT_COMPONENT true false false None None [] level).

#[local] Abbreviation settingsWith spacing groupingMethod gridColumns :=
  (mkTransferSettings spacing groupingMethod GridLayout gridColumns true true true true
     false ask 10 true 100
     (mkKeyboardShortcuts "Ctrl+T" "Ctrl+Enter" "Ctrl+G" "Ctrl+C" "Escape" "Ctrl+Z")).

(** layout.test.ts: "should return empty layout for no components". *)
Example test_layout_empty :
  Layout.calculateLayout [] DEFAULT_SETTINGS = mkLayoutResult [] [] (Finite 0) 0.
Proof. vm_compute. reflexivity. Qed.

(** layout.test.ts: "should calculate flat layout". *)
Example test_layout_flat :
  let result :=
    Layout.calculateLayout
      [("1", createMockComponent "1" "Button" 0%nat);
       ("2", createMockComponent "2" "Icon" 0%nat)]
      (settingsWith 200 GroupFlat 4) in
  length (positions result) = 2%nat /\ map lg_name (groups result) = ["All Components"].
Proof. split; vm_compute; reflexivity. Qed.

(** layout.test.ts: "should calculate hierarchical layout". *)
Example test_layout_hierarchical :
  map lg_name
    (groups
       (Layout.calculateLayout
          [("1", createMockComponent "1" "Parent" 0%nat);
           ("2", createMockComponent "2" "Child1" 1%nat);
           ("3", createMockComponent "3" "Child2" 1%nat);
           ("4", createMockComponent "4" "Grandchild" 2%nat)]
          (settingsWith 200 GroupHierarchy 4)))
  = ["Level 0"; "Level 1"; "Level 2"].
Proof. vm_compute. reflexivity. Qed.

(** layout.test.ts: "should calculate type-based layout". *)
Example test_layout_type :
  map lg_name
    (groups
       (Layout.calculateLayout
          [("1", createMockComponent "1" "Button" 0%nat);
           ("2", mkComponentInfo "2" "Variants" "" CT_COMPONENT_SET true false false
                   (Some 3%nat) None [] 0%nat)]
          (settingsWith 200 GroupType 4)))
  = ["Variant Sets"; "Components"].
Proof. vm_compute. reflexivity. Qed.

(** layout.test.ts: "should respect grid columns setting", with the
    positions the test leaves unchecked: the tenth component starts the
    fourth row. *)
Example test_layout_columns :
  let result :=
    Layout.calculateLayout
      (map (fun i : nat => (pretty i, createMockComponent (pretty i)
                                        ("Component" +:+ pretty i) 0%nat))
           (seq 1 10))
      (settingsWith 200 GroupHierarchy 3) in
  length (positions result) = 10%nat /\
  exists pos, map_get "10" (positions result) = Some pos /\
              pos_x pos == 0 /\ pos_y pos == 1200.
Proof.
  split; [vm_compute; reflexivity|].
  eexists. split; [vm_compute; reflexivity|]. split; vm_compute; reflexivity.
Qed.

(** layout.test.ts: "should respect spacing setting". *)
Example test_layout_spacing :
  let result :=
    Layout.calculateLayout
      [("1", createMockComponent "1" "Comp1" 0%nat);
       ("2", createMockComponent "2" "Comp2" 0%nat)]
      (settingsWith 500 GroupHierarchy 4) in
  exists width, totalWidth result = Finite width /\ (0 < width)%Q /\ (0 < totalHeight result)%Q.
Proof. eexists. split; [vm_compute; reflexivity|]. split; vm_compute; reflexivity. Qed.

(** analyzer.test.ts: the three tests of [filterComponents]. *)
Example test_filter :
  map_keys
    (Analyzer.filterComponents toLowerCaseAscii
       [("1", mkComponentInfo "1" "Button Primary" "Primary action button" CT_COMPONENT
                true false false None None [] 0%nat);
        ("2", mkComponentInfo "2" "Icon Arrow" "Arrow icon" CT_COMPONENT
                true false false None None [] 0%nat)]
       "button") = ["1"] /\
  length (Analyzer.filterComponents toLowerCaseAscii
            [("1", createMockComponent "1" "Component 1" 0%nat)] "") = 1%nat /\
  length (Analyzer.filterComponents toLowerCaseAscii
            [("1", mkComponentInfo "1" "Component" "Primary action button" CT_COMPONENT
                     true false false None None [] 0%nat)]
            "action") = 1%nat.
Proof. repeat split; vm_compute; reflexivity. Qed.

(** progress.test.ts: the three tests of [formatTime]. *)
Example test_format_time :
  Progress.formatTime 500 = "500ms" /\
  Progress.formatTime 5000 = "5s" /\
  Progress.formatTime 125000 = "2m 5s".
Proof. repeat split; vm_compute; reflexivity. Qed.

(** The products that doubles do not hit: 23 of 40 is 57.49999999999999
    percent and is reported as 57, 29 percent of 50 cells is
    14.499999999999998 cells and fills 14, and 100 items left at 0.145 ms
    each take 14.499999999999998 ms, reported as 14. *)
Example test_double_products :
  Progress.percentageOf 23 40 = 57%Z /\
  Progress.formatPercentage 23 40 = "57%" /\
  Progress.filledCells 29 50 = 14%Z /\
  Batcher.estimateTimeRemaining 29 200 300 0 = 14%Z.
Proof. repeat split; vm_compute; reflexivity. Qed.

(** [double] against the binary64 arithmetic of the kernel: the two agree
    on [(p / t) * 100] for every [p] up to 60 and [t] from 1 to 60, and on
    [(p / 100) * w] for every [p] up to 120 and [w] up to 30. *)
Example test_double_agrees :
  forallb
    (fun t =>
       forallb
         (fun p =>
            Qeq_bool
              (valueOfFloat
                 (PrimFloat.mul (PrimFloat.div (floatOfZ p) (floatOfZ t)) (floatOfZ 100)))
              (double (double (inject_Z p / inject_Z t) * 100)))
         (map Z.of_nat (seq 0 61)))
    (map Z.of_nat (seq 1 60)) = true /\
  forallb
    (fun w =>
       forallb
         (fun p =>
            Qeq_bool
              (valueOfFloat
                 (PrimFloat.mul (PrimFloat.div (floatOfZ p) (floatOfZ 100)) (floatOfZ w)))
              (double (double (inject_Z p / 100) * inject_Z w)))
         (map Z.of_nat (seq 0 121)))
    (map Z.of_nat (seq 0 31)) = true.
Proof. split; vm_compute; reflexivity. Qed.

(** batcher.test.ts: the cancellation token and [estimateProcessingTime]. *)
Example test_token_and_estimate :
  Batcher.tokenCancelled Batcher.createCancellationToken = false /\
  Batcher.tokenCancelled (Batcher.cancel Batcher.createCancellationToken) = true /\
  Batcher.estimateProcessingTime 100 10 == 1000.
Proof. repeat split; vm_compute; reflexivity. Qed.

(** validator.test.ts: the three tests of [hasTransferableComponents]. *)
Example test_transferable :
  Validator.hasTransferableComponents "doc123"
    [MockComponentNode "comp1" "Local" "doc123_key" []] = true /\
  Validator.hasTransferableComponents "doc123"
    [MockComponentNode "comp1" "External" "otherdoc_key" []] = false /\
  Validator.hasTransferableComponents "doc123"
    [MockInstanceNode "inst1" "Instance"
       (Some (MockComponentNode "comp1" "Local" "doc123_key" []))] = true.
Proof. repeat split; vm_compute; reflexivity. Qed.
End FurtherTests.

(** * Worked instances *)

(** Each theorem above that rests on a precondition is applied here to a
    concrete input on which the precondition holds. *)
Section Instances.
Import Mock.

#[local] Abbreviation buttons :=
  (MockComponentSetNode "buttons" "Buttons" "doc123_buttons"
     [MockComponentNode "primary" "Primary" "doc123_primary" []]).

(** A selected local component set is recorded under its id. *)
Lemma selected_definition_recorded_witness :
  buttons ∈ [MockInstanceNode "i1" "Stray" None; buttons] /\
  exists r info,
    Analyzer.analyzeSelection "doc123" [MockInstanceNode "i1" "Stray" None; buttons]
      Analyzer.defaultOptions = Some r /\
    map_get "buttons" (components r) = Some info /\
    ci_id info = "buttons".
Proof.
  assert (Hin : buttons ∈ [MockInstanceNode "i1" "Stray" None; buttons])
    by (apply list_elem_of_further, list_elem_of_here).
  split; [exact Hin|].
  apply (selected_definition_recorded "doc123" _ Analyzer.defaultOptions buttons Hin).
  - right. reflexivity.
  - left. reflexivity.
  - left. reflexivity.
Defined.

#[local] Abbreviation library :=
  [MockComponentNode "ext1" "ExternalWidget" "otherdoc_x" [];
   MockInstanceNode "inst1" "Instance1"
     (Some (MockComponentNode "lib" "Library Button" "otherdoc_button" []))].

(** A library component and an instance of another one: nothing to
    transfer, nothing found. *)
Lemma nothing_transferable_nothing_found_witness :
  Validator.hasTransferableComponents "doc123" library = false /\
  exists r,
    Analyzer.analyzeSelection "doc123" library (mkFilterOptions true false) = Some r /\
    components r = [].
Proof.
  assert (Hno : Validator.hasTransferableComponents "doc123" library = false)
    by reflexivity.
  split; [exact Hno|].
  apply (nothing_transferable_nothing_found "doc123" library true Hno).
  apply Forall_cons. split; [left; reflexivity|].
  apply Forall_cons. split; [right; right; reflexivity|].
  apply Forall_nil. exact I.
Defined.

#[local] Abbreviation record id name description type level :=
  (mkComponentInfo id name description type true false false None None [] level).

#[local] Abbreviation catalogue :=
  [("1", record "1" "Primary Button" "" CT_COMPONENT 0%nat);
   ("2", record "2" "Icon" "used in buttons" CT_COMPONENT 1%nat);
   ("3", record "3" "Card" "" CT_COMPONENT_SET 0%nat)].

(** Searching for BUTTON finds the button by its name and the icon by its
    description. *)
Lemma filterComponents_selects_witness :
  NoDup (map_keys catalogue) /\
  map_keys (Analyzer.filterComponents toLowerCaseAscii catalogue "BUTTON") = ["1"; "2"] /\
  Analyzer.filterComponents toLowerCaseAscii catalogue "BUTTON" `sublist_of` catalogue.
Proof.
  assert (Hnd : NoDup (map_keys catalogue)) by compute_done.
  split; [exact Hnd|].
  destruct (filterComponents_selects toLowerCaseAscii catalogue "BUTTON" Hnd)
    as (_ & Hsub & _).
  split; [reflexivity | exact Hsub].
Defined.

(** A fresh tracker with a callback, started on ten items. *)
Lemma tracker_first_and_last_report_witness :
  Progress.hasCallback (Progress.newTracker true) = true /\
  (exists info,
     Progress.reported (Progress.start 0 5 10 collecting (Progress.newTracker true)) = [info] /\
     pi_total info = 10%Z /\ pi_percentage info = 0%Z) /\
  (exists info,
     Progress.reported (Progress.complete 5 (Progress.newTracker true)) = [info] /\
     pi_processed info = 0%Z /\ pi_percentage info = 0%Z).
Proof.
  assert (H : Progress.hasCallback (Progress.newTracker true) = true) by reflexivity.
  split; [exact H|].
  destruct (tracker_first_and_last_report (Progress.newTracker true) 0 5 10 collecting H)
    as [(first & Hfirst & _ & Htotal & _ & Hpercent & _)
        (final & Hfinal & _ & _ & Hprocessed & Hpercentage & _)].
  split.
  - exists first. split; [exact Hfirst | split; [exact Htotal | exact Hpercent]].
  - exists final. split; [exact Hfinal | split; [exact Hprocessed | exact Hpercentage]].
Defined.

(** A bar of fifty cells at 29 percent: doubles give 14.499999999999998
    cells, so 14 are filled.  No bar at 250 percent. *)
Lemma createProgressBar_cells_witness :
  (Z.abs 29 < 2 ^ 53)%Z /\ (0 <= 50 < 2 ^ 53)%Z /\
  (exists bar filled empty,
     Progress.createProgressBar 29 50 = Some bar /\
     filled = 14%nat /\ empty = 36%nat /\
     bar = "[" +:+ copies filled Progress.fullBlock +:+ copies empty " " +:+ "] 29%") /\
  Progress.createProgressBar 250 50 = None.
Proof.
  assert (H29 : (Z.abs 29 < 2 ^ 53)%Z) by (simpl; lia).
  assert (H250 : (Z.abs 250 < 2 ^ 53)%Z) by (simpl; lia).
  assert (H50 : (0 <= 50 < 2 ^ 53)%Z) by lia.
  split; [exact H29|]. split; [exact H50|].
  destruct (createProgressBar_cells 29 50 H29 H50) as (_ & Hshape & Hsome & _).
  destruct (createProgressBar_cells 250 50 H250 H50) as (_ & _ & _ & Hnone).
  split; [|apply Hnone; lia].
  destruct (Hsome ltac:(lia)) as [bar Hbar].
  destruct (Hshape bar Hbar) as (filled & empty & Hsum & Hfilled & Hcells).
  assert (Hf : filled = 14%nat).
  { assert (H : Progress.filledCells 29 50 = 14%Z) by (vm_compute; reflexivity).
    rewrite H in Hfilled. lia. }
  assert (He : empty = 36%nat) by (subst filled; cbn in Hsum; lia).
  exists bar, filled, empty.
  split; [exact Hbar|]. split; [exact Hf|]. split; [exact He|].
  rewrite Hcells. vm_compute. reflexivity.
Defined.

#[local] Abbreviation doubling :=
  (fun (x i : nat) (w : list (nat * nat)) =>
     (w, if (x =? 3)%nat then inl "three" else inr (2 * x)%nat) : _ * (string + nat)).

#[local] Abbreviation record_progress :=
  (fun (processed total : nat) (w : list (nat * nat)) => w ++ [(processed, total)]).


(** Five items in batches of two, the callback appending to the world. *)
Lemma processBatch_progress_witness :
  (1 <= 2)%nat /\
  exists outcome calls w',
    Batcher.processBatch (fun (x i : nat) (w : list (nat * nat)) => (w, inr (2 * x)%nat))
      (Some record_progress) None (fun w => w) 6 [1; 2; 3; 4; 5]%nat 2 []
    = Some (outcome, calls, w') /\
    match outcome with
    | Batcher.Resolved _ => w' = [] ++ Batcher.progressSteps 5 2
    | Batcher.Rejected _ =>
        exists j, (j < length (Batcher.progressSteps 5 2))%nat /\
                  w' = [] ++ take j (Batcher.progressSteps 5 2)
    end /\
    last (Batcher.progressSteps 5 2) = Some (5, 5)%nat.
Proof.
  split; [lia|].
  destruct (processBatch_progress
              (fun (x i : nat) (w : list (nat * nat)) => (w, inr (2 * x)%nat) : _ * (string + nat))
              record_progress None (fun w => w) (fun w => w)
              ltac:(reflexivity) ltac:(reflexivity) ltac:(reflexivity)
              [1; 2; 3; 4; 5]%nat 2 [])
    as (outcome & calls & w' & Hrun & Hreports & Hlast); [lia|].
  exists outcome, calls, w'.
  split; [apply (Hrun 6%nat); simpl; lia|].
  split; [exact Hreports | apply Hlast; discriminate].
Defined.


#[local] Abbreviation document :=
  (Collector.mkFigma
     [Collector.mkPage 0 "Page 1" [MockComponentNode "button" "Button" "doc123_button" []];
      Collector.mkPage 1 "Transfer" [MockComponentNode "copy" "Button" "doc123_copy" []]]
     0 (fun _ => []) []).

#[local] Abbreviation crowded :=
  (Collector.mkFigma
     [Collector.mkPage 0 "Page 1" [];
      Collector.mkPage 1 "Transfer"
        [MockComponentNode "c1" "One" "doc123_c1" [];
         MockComponentNode "c2" "Two" "doc123_c2" [];
         MockComponentNode "c3" "Three" "doc123_c3" []]]
     0 (fun _ => []) []).

(** A Transfer page with three children: the second one is still there
    after the page was cleared, and can be selected. *)
Lemma clearTransferPage_leaves_every_second_witness :
  NoDup (map Collector.page_id (Collector.rootChildren crowded)) /\
  (Collector.clearTransferPage crowded).1 = true /\
  map Collector.page_children (Collector.rootChildren (Collector.clearTransferPage crowded).2)
  = [[]; [MockComponentNode "c2" "Two" "doc123_c2" []]] /\
  (Collector.selectAllOnTransferPage (Collector.clearTransferPage crowded).2).1 = true.
Proof.
  assert (Hnd : NoDup (map Collector.page_id (Collector.rootChildren crowded)))
    by compute_done.
  split; [exact Hnd|].
  destruct (clearTransferPage_leaves_every_second crowded Hnd) as (Hfound & Hafter & _).
  split.
  { apply Hfound. eexists.
    split; [apply list_elem_of_further, list_elem_of_here | reflexivity]. }
  destruct (Hafter [Collector.mkPage 0 "Page 1" []]
              (Collector.mkPage 1 "Transfer"
                 [MockComponentNode "c1" "One" "doc123_c1" [];
                  MockComponentNode "c2" "Two" "doc123_c2" [];
                  MockComponentNode "c3" "Three" "doc123_c3" []])
              [] eq_refl eq_refl) as (Hhost & _ & Hselect).
  { intros earlier Hin. apply list_elem_of_singleton in Hin. subst earlier. discriminate. }
  split; [rewrite Hhost; reflexivity|].
  apply Hselect. cbn. lia.
Defined.

(** Under [timestamp] a second page is created beside the Transfer page of
    the document, and the navigation lands on the older one. *)
Lemma navigate_after_resolve_witness :
  NoDup (map Collector.page_id (Collector.rootChildren document)) /\
  length (Collector.findOrCreateTransferPage timestamp "2024-03-01T10:00:00.000Z"
            (Collector.rootChildren document)).2 = 3%nat /\
  (Collector.navigateToTransferPage
     (Collector.mkFigma
        (Collector.findOrCreateTransferPage timestamp "2024-03-01T10:00:00.000Z"
           (Collector.rootChildren document)).2
        0 (fun _ => []) [])).1 = true.
Proof.
  assert (Hnd : NoDup (map Collector.page_id (Collector.rootChildren document)))
    by compute_done.
  split; [exact Hnd|].
  destruct (navigate_after_resolve timestamp "2024-03-01T10:00:00.000Z" document Hnd)
    as (Hfound & _ & Hlonger & _).
  split; [|exact Hfound].
  apply Hlonger. right. split; discriminate.
Defined.

#[local] Abbreviation transfer id :=
  (Storage.mkHistoryEntry id 0 [] [] (Storage.mkTransferStats 0 0 0 0) Storage.success [] 0).

(** Two transfers recorded in an empty working storage. *)
Lemma history_newest_first_witness :
  Storage.available (Storage.mkClientStorage None None true) = true /\
  Storage.loadHistory
    (Storage.addHistoryEntry (transfer "second")
       (Storage.addHistoryEntry (transfer "first")
          (Storage.mkClientStorage None None true)).1).1
  = [transfer "second"; transfer "first"].
Proof.
  split; [reflexivity|].
  destruct (history_newest_first [transfer "first"; transfer "second"]
              (Storage.mkClientStorage None None true)) as (Hload & _).
  - reflexivity.
  - simpl. unfold Storage.MAX_HISTORY_ENTRIES. lia.
  - exact Hload.
Defined.

#[local] Abbreviation five :=
  [record "a" "A" "" CT_COMPONENT 0%nat; record "b" "B" "" CT_COMPONENT 0%nat;
   record "c" "C" "" CT_COMPONENT 0%nat; record "d" "D" "" CT_COMPONENT 0%nat;
   record "e" "E" "" CT_COMPONENT 0%nat].

(** Five components in the default four columns: the fifth starts the second
    row. *)
Lemma layoutComponentsInGrid_cells_witness :
  NoDup (map ci_id five) /\
  map_keys (Layout.layoutComponentsInGrid five 0 0 DEFAULT_SETTINGS).1.1
  = ["a"; "b"; "c"; "d"; "e"] /\
  exists pos,
    map_get "e" (Layout.layoutComponentsInGrid five 0 0 DEFAULT_SETTINGS).1.1 = Some pos /\
    pos_x pos == 0 /\ pos_y pos == 400.
Proof.
  assert (Hnd : NoDup (map ci_id five)) by compute_done.
  split; [exact Hnd|].
  destruct (layoutComponentsInGrid_cells five 0 0 DEFAULT_SETTINGS Hnd) as [Hkeys Hcells].
  split; [exact Hkeys|].
  destruct (Hcells 4%nat (record "e" "E" "" CT_COMPONENT 0%nat) eq_refl)
    as (pos & Hpos & Hx & Hy).
  exists pos. split; [exact Hpos|].
  split; [rewrite Hx | rewrite Hy]; vm_compute; reflexivity.
Defined.

(** The same five components span four columns and two rows. *)
Lemma layoutComponentsInGrid_extent_witness :
  five <> [] /\
  (Layout.layoutComponentsInGrid five 0 0 DEFAULT_SETTINGS).1.2 == 1400 /\
  (Layout.layoutComponentsInGrid five 0 0 DEFAULT_SETTINGS).2 == 600.
Proof.
  assert (Hne : five <> []) by discriminate.
  split; [exact Hne|].
  destruct (layoutComponentsInGrid_extent five 0 0 DEFAULT_SETTINGS Hne) as [Hw Hh].
  - vm_compute. discriminate.
  - split; [rewrite Hw | rewrite Hh]; vm_compute; reflexivity.
Defined.

(** The first and the fifth component share a column and sit a row apart. *)
Lemma grid_cells_apart_witness :
  exists pa pe,
    map_get "a" (Layout.layoutComponentsInGrid five 0 0 DEFAULT_SETTINGS).1.1 = Some pa /\
    map_get "e" (Layout.layoutComponentsInGrid five 0 0 DEFAULT_SETTINGS).1.1 = Some pe /\
    ((pos_x pa + Layout.defaultWidth + ts_spacing DEFAULT_SETTINGS <= pos_x pe)%Q \/
     (pos_x pe + Layout.defaultWidth + ts_spacing DEFAULT_SETTINGS <= pos_x pa)%Q \/
     (pos_y pa + Layout.defaultHeight + ts_spacing DEFAULT_SETTINGS <= pos_y pe)%Q \/
     (pos_y pe + Layout.defaultHeight + ts_spacing DEFAULT_SETTINGS <= pos_y pa)%Q).
Proof.
  eexists _, _. split; [reflexivity|]. split; [reflexivity|].
  apply (grid_cells_apart five 0 0 DEFAULT_SETTINGS 0 4
           (record "a" "A" "" CT_COMPONENT 0%nat) (record "e" "E" "" CT_COMPONENT 0%nat)).
  - compute_done.
  - vm_compute. discriminate.
  - lia.
  - reflexivity.
  - reflexivity.
  - reflexivity.
  - reflexivity.
Defined.

#[local] Abbreviation byType :=
  (mkTransferSettings 200 GroupType GridLayout 4 true true true true false ask
     10 true 100
     (mkKeyboardShortcuts "Ctrl+T" "Ctrl+Enter" "Ctrl+G" "Ctrl+C" "Escape" "Ctrl+Z")).

Lemma catalogue_wellKeyed : Analyzer.wellKeyed catalogue.
Proof.
  split; [compute_done|].
  repeat (apply Forall_cons; split; [reflexivity|]). apply Forall_nil. exact I.
Defined.

(** The catalogue under the default settings: every record is placed. *)
Lemma calculateLayout_covers_witness :
  Analyzer.wellKeyed catalogue /\
  map_keys (positions (Layout.calculateLayout catalogue DEFAULT_SETTINGS))
  = concat (map lg_componentIds (groups (Layout.calculateLayout catalogue DEFAULT_SETTINGS))) /\
  concat (map lg_componentIds (groups (Layout.calculateLayout catalogue DEFAULT_SETTINGS)))
  ≡ₚ ["1"; "2"; "3"].
Proof.
  split; [exact catalogue_wellKeyed|].
  exact (calculateLayout_covers catalogue DEFAULT_SETTINGS catalogue_wellKeyed).
Defined.

(** The catalogue under the default settings: every group starts at the
    left edge. *)
Lemma calculateLayout_positions_witness :
  Analyzer.wellKeyed catalogue /\
  Forall (fun g => lg_x g = 0%Q)
    (groups (Layout.calculateLayout catalogue DEFAULT_SETTINGS)).
Proof.
  split; [exact catalogue_wellKeyed|].
  eapply Forall_impl;
    [exact (calculateLayout_positions catalogue DEFAULT_SETTINGS catalogue_wellKeyed)|].
  intros g [Hx _]. exact Hx.
Defined.

(** The catalogue has records at levels 0 and 1. *)
Lemma hierarchical_groups_by_level_witness :
  ts_groupingMethod DEFAULT_SETTINGS = GroupHierarchy /\
  Analyzer.wellKeyed catalogue /\
  exists levels,
    Sorted.StronglySorted lt levels /\
    map lg_name (groups (Layout.calculateLayout catalogue DEFAULT_SETTINGS))
    = map (fun l : nat => "Level " +:+ pretty l) levels /\
    map lg_componentIds (groups (Layout.calculateLayout catalogue DEFAULT_SETTINGS))
    = [["1"; "3"]; ["2"]].
Proof.
  split; [reflexivity|]. split; [exact catalogue_wellKeyed|].
  destruct (hierarchical_groups_by_level catalogue DEFAULT_SETTINGS eq_refl
              catalogue_wellKeyed) as (levels & Hsorted & _ & Hnames & _).
  exists levels. split; [exact Hsorted|]. split; [exact Hnames | reflexivity].
Defined.

(** The two level groups of the catalogue, one below the other. *)
Lemma layout_groups_stacked_witness :
  Analyzer.wellKeyed catalogue /\
  exists yEnd,
    Layout.stackedFrom (ts_spacing DEFAULT_SETTINGS) 0
      (groups (Layout.calculateLayout catalogue DEFAULT_SETTINGS)) yEnd /\
    totalHeight (Layout.calculateLayout catalogue DEFAULT_SETTINGS) = yEnd.
Proof.
  split; [exact catalogue_wellKeyed|].
  destruct (layout_groups_stacked catalogue DEFAULT_SETTINGS catalogue_wellKeyed)
    as (yEnd & Hstacked & Hheight); [discriminate|].
  exists yEnd. split; [exact Hstacked|]. exact (proj1 Hheight).
Defined.

(** Grouped by type, the card set comes before the two components. *)
Lemma type_groups_sets_first_witness :
  ts_groupingMethod byType = GroupType /\
  Analyzer.wellKeyed catalogue /\
  map (fun g => (lg_name g, lg_componentIds g))
    (groups (Layout.calculateLayout catalogue byType))
  = [("Variant Sets", ["3"]); ("Components", ["1"; "2"])].
Proof.
  split; [reflexivity|]. split; [exact catalogue_wellKeyed|].
  exact (type_groups_sets_first catalogue byType eq_refl catalogue_wellKeyed).
Defined.

(** The width of the catalogue's layout is that of its widest group. *)
Lemma calculateLayout_width_witness :
  Analyzer.wellKeyed catalogue /\
  exists width,
    totalWidth (Layout.calculateLayout catalogue DEFAULT_SETTINGS) = Finite width /\
    Forall (fun g => (lg_width g <= width)%Q)
      (groups (Layout.calculateLayout catalogue DEFAULT_SETTINGS)) /\
    Exists (fun g => lg_width g == width)
      (groups (Layout.calculateLayout catalogue DEFAULT_SETTINGS)).
Proof.
  split; [exact catalogue_wellKeyed|].
  destruct (calculateLayout_width catalogue DEFAULT_SETTINGS catalogue_wellKeyed)
    as (width & Hwidth & Hall & _ & Hone).
  exists width. split; [exact Hwidth|]. split; [exact Hall|]. apply Hone. discriminate.
Defined.
#[local] Abbreviation box id width height :=
  (Collector.mkPlaced (MockComponentNode id id "doc123_key" []) (Some width%Q) (Some height%Q) 0 0).

#[local] Abbreviation boxes :=
  [box "a" 100 50; box "b" 30 80; box "c" 60 20; box "d" 10 10; box "e" 40 40].

#[local] Abbreviation mixed :=
  [mkSceneNode "hidden1" "Hidden" COMPONENT false false "doc123_hidden" "" (Some []) None []
     None;
   MockInstanceNode "inst1" "Instance1"
     (Some (MockComponentNode "lib" "Library Button" "otherdoc_button" []))].

(** A hidden component and an instance of a library component, analysed with
    both filters on: nothing is kept and nothing is reported about them. *)
Lemma filtered_never_reported_witness :
  exists r,
    Analyzer.analyzeSelection "doc123" mixed Analyzer.defaultOptions = Some r /\
    externalComponents (stats r) = 0%nat /\
    Forall (fun w => w_type w <> EXTERNAL_DEPENDENCY) (warnings r) /\
    hiddenComponents (stats r) = 0%nat /\
    Forall (fun w => w_type w <> HIDDEN_COMPONENT) (warnings r).
Proof.
  destruct (filtered_never_reported "doc123" mixed Analyzer.defaultOptions)
    as (r & Hr & Hexternal & Hhidden).
  destruct (Hexternal eq_refl) as [Hcount Hwarned].
  destruct (Hhidden eq_refl) as (_ & Hnone & Hsilent).
  exists r. split; [exact Hr|]. split; [exact Hcount|]. split; [exact Hwarned|].
  split; [exact Hnone | exact Hsilent].
Defined.

(** Half of a hundred items done after one second. *)
Lemma estimateTimeRemaining_sign_witness :
  (0 < 50)%Z /\ (1000 <= 2000)%Z /\ (50 <= 100)%Z /\
  (0 <= Batcher.estimateTimeRemaining 2000 50 100 1000)%Z.
Proof.
  destruct (estimateTimeRemaining_sign 2000 50 100 1000) as (_ & _ & Hsign).
  destruct Hsign as [Hpositive _]; [lia | lia |].
  split; [lia|]. split; [lia|]. split; [lia|]. apply Hpositive. lia.
Defined.

(** A new spacing stored in an empty working storage: the spacing is
    replaced and the columns keep their default. *)
Lemma updateSettings_merges_witness :
  Storage.available (Storage.mkClientStorage None None true) = true /\
  exists updated store',
    Storage.updateSettings [("spacing", Storage.JsNumber 300)]
      (Storage.mkClientStorage None None true) = (store', inr updated) /\
    map_get "spacing" updated = Some (Storage.JsNumber 300) /\
    map_get "gridColumns" updated = Some (Storage.JsNumber 4) /\
    map_get "spacing" (Storage.loadSettings store') = Some (Storage.JsNumber 300).
Proof.
  split; [reflexivity|].
  destruct (updateSettings_merges [("spacing", Storage.JsNumber 300)]
              (Storage.mkClientStorage None None true)) as [_ Hupdate].
  destruct Hupdate as (updated & store' & Hrun & Hfields & Hstored & _);
    [reflexivity | compute_done |].
  exists updated, store'. split; [exact Hrun|].
  split; [rewrite Hfields; reflexivity|].
  split; [rewrite Hfields; reflexivity|].
  rewrite Hstored, Hfields. reflexivity.
Defined.
End Instances.
